(** * BaseCollectionClass: an ordered, identity-indexed collection of models

    A shallow embedding of [src/models.base.collection.js].  The collection
    is a JavaScript object whose fields ([length], [models], [_byId],
    [comparator]) are mutated in place, and whose members are model objects
    shared with the callers.  The embedding therefore threads an explicit
    [world]: a heap of model objects addressed by their client identity, the
    collection object itself, the counter behind [_.uniqueId('c')], and the
    log of every [trigger] call in emission order. *)

From stdpp Require Import gmap strings list fin_maps pretty.
From Stdlib Require Import ZArith Lia Permutation Ascii.

(** ** JavaScript values and property keys *)

Inductive value : Type :=
  | VUndef
  | VNull
  | VBool (b : bool)
  | VNum (z : Z)
  | VStr (s : string).

Global Instance value_eq_dec : EqDecision value.
Proof. solve_decision. Defined.

(** [v == null] *)
Definition nullish (v : value) : bool :=
  match v with VUndef | VNull => true | _ => false end.

(** The string a value is coerced to when it is used as a property key,
    as in [this._byId[id]]. *)
Definition to_key (v : value) : string :=
  match v with
  | VUndef => "undefined"
  | VNull => "null"
  | VBool true => "true"
  | VBool false => "false"
  | VNum z => pretty z
  | VStr s => s
  end.

(** The key an object (attribute bag or model) is coerced to. *)
Definition object_key : string := "[object Object]".

(** An attribute bag is a plain object; only its own properties are
    modelled (names inherited from [Object.prototype] are not). *)
Abbreviation bag := (gmap string value).

(** [b[k]]: a missing property reads as [undefined]. *)
Definition prop (b : bag) (k : string) : value := default VUndef (b !! k).

(** Property read on a primitive.  Numbers and booleans have no own
    properties; of a string only [length] is modelled (not its indexed
    characters). *)
Definition prim_prop (v : value) (k : string) : value :=
  match v with
  | VStr s => if decide (k = "length") then VNum (Z.of_nat (String.length s)) else VUndef
  | _ => VUndef
  end.

(** JavaScript's [a || b] on lookups that yield an object or [undefined]. *)
Definition or_else {A} (a b : option A) : option A :=
  match a with Some _ => a | None => b end.
Infix "|||" := or_else (at level 50, left associativity).

(** Truthiness of an optional boolean option field. *)
Definition truthy (b : option bool) : bool := default false b.

(** ** Models

    The model class is not part of the collection's source file.  A model
    is identified by its client identity [cid]; [_.uniqueId('c')] yields
    a fresh string made of the letter c and a counter. *)

Abbreviation cid := nat (only parsing).

Definition cid_key (c : cid) : string := "c" +:+ pretty c.

Inductive owner : Type := NoOwner | ThisCollection | OtherCollection.

Global Instance owner_eq_dec : EqDecision owner.
Proof. solve_decision. Defined.

Record model : Type := Model {
  attributes : bag;
  previous : bag;                    (* previousAttributes() *)
  changed : bag;                     (* attributes changed by the last set *)
  collection : owner;                (* model.collection *)
  listening : bool;                  (* this collection listens to 'all' *)
  validationError : option string
}.

Definition blank_model : model :=
  Model ∅ ∅ ∅ NoOwner false None.

(** ** Options objects *)

Record options : Type := Options {
  o_add : option bool;
  o_remove : option bool;
  o_merge : option bool;
  o_at : option Z;
  o_sort : option bool;
  o_silent : option bool;
  o_parse : option bool;
  o_index : option Z;
  o_collection : bool;                   (* options.collection = this *)
  o_previousModels : option (list cid)
}.

(** [{}] *)
Definition no_options : options :=
  Options None None None None None None None None false None.

Definition with_index (i : Z) (o : options) : options :=
  Options (o_add o) (o_remove o) (o_merge o) (o_at o) (o_sort o) (o_silent o)
          (o_parse o) (Some i) (o_collection o) (o_previousModels o).

Definition with_collection (o : options) : options :=
  Options (o_add o) (o_remove o) (o_merge o) (o_at o) (o_sort o) (o_silent o)
          (o_parse o) (o_index o) true (o_previousModels o).

Definition with_previousModels (l : list cid) (o : options) : options :=
  Options (o_add o) (o_remove o) (o_merge o) (o_at o) (o_sort o) (o_silent o)
          (o_parse o) (o_index o) (o_collection o) (Some l).

Definition with_silent (s : option bool) (o : options) : options :=
  Options (o_add o) (o_remove o) (o_merge o) (o_at o) (o_sort o) s
          (o_parse o) (o_index o) (o_collection o) (o_previousModels o).

Definition with_flags (a r m : option bool) (o : options) : options :=
  Options a r m (o_at o) (o_sort o) (o_silent o)
          (o_parse o) (o_index o) (o_collection o) (o_previousModels o).

(** ** Notifications: one entry per [trigger] call *)

Inductive target : Type := OnModel (c : cid) | OnCollection.

Record notification : Type := Notification {
  n_target : target;
  n_event : string;
  n_model : option cid;
  n_error : option string;
  n_options : options
}.

(** ** The collection object and the world around it *)

Inductive comparator : Type :=
  | ByField (f : string)                 (* a string: sort by that attribute *)
  | ByKey (k : model → value)            (* a function of one argument *)
  | ByCompare (c : model → model → Z).   (* a function of two arguments *)

Module Coll.
Record t : Type := Make {
  length : Z;
  models : list cid;
  _byId : gmap string cid;
  comparator : option comparator
}.
End Coll.

Record world : Type := World {
  heap : gmap cid model;
  next_cid : nat;
  coll : Coll.t;
  log : list notification
}.

Inductive exn : Type :=
  | Error (msg : string)
  | TypeError (msg : string).

Inductive outcome (A : Type) : Type :=
  | Ok (a : A) (w : world)
  | Throw (e : exn) (w : world).
Arguments Ok {A} a w.
Arguments Throw {A} e w.

Definition out_world {A} (r : outcome A) : world :=
  match r with Ok _ w => w | Throw _ w => w end.

(** A single value or an array of them: the [singular] flag of the source. *)
Inductive input (A : Type) : Type :=
  | One (x : A)
  | Many (l : list A).
Arguments One {A} x.
Arguments Many {A} l.

(** Object references are always valid in JavaScript; reading through an
    address that is not allocated cannot happen and yields a blank here. *)
Definition get_model (w : world) (c : cid) : model :=
  default blank_model (heap w !! c).

Definition upd_model (c : cid) (f : model → model) (w : world) : world :=
  World (alter f c (heap w)) (next_cid w) (coll w) (log w).

Definition upd_coll (f : Coll.t → Coll.t) (w : world) : world :=
  World (heap w) (next_cid w) (f (coll w)) (log w).

Definition emit (n : notification) (w : world) : world :=
  World (heap w) (next_cid w) (coll w) (log w ++ [n]).

Definition set_byId (ix : gmap string cid) (c : Coll.t) : Coll.t :=
  Coll.Make (Coll.length c) (Coll.models c) ix (Coll.comparator c).

Definition set_models (ms : list cid) (c : Coll.t) : Coll.t :=
  Coll.Make (Coll.length c) ms (Coll._byId c) (Coll.comparator c).

Definition set_length (n : Z) (c : Coll.t) : Coll.t :=
  Coll.Make n (Coll.models c) (Coll._byId c) (Coll.comparator c).

(** ** Array primitives used by the collection *)

(** [_.indexOf(array, x)]: first position of [x], or -1. *)
Fixpoint indexOf (l : list cid) (x : cid) : Z :=
  match l with
  | [] => -1
  | y :: l' =>
      if decide (y = x) then 0
      else let i := indexOf l' x in if (i <? 0)%Z then -1 else (i + 1)%Z
  end%Z.

(** The position [Array.prototype.splice] starts at: a negative [start]
    counts from the end, and the result is clamped to the array. *)
Definition splice_start (start : Z) (len : nat) : nat :=
  if (start <? 0)%Z then Z.to_nat (Z.max (Z.of_nat len + start) 0)
  else Z.to_nat (Z.min start (Z.of_nat len)).

(** [array.splice(start, 1)] *)
Definition splice_delete (start : Z) (l : list cid) : list cid :=
  delete (splice_start start (List.length l)) l.

(** [array.splice(start, 0, x)] *)
Definition splice_insert (start : Z) (x : cid) (l : list cid) : list cid :=
  let s := splice_start start (List.length l) in
  take s l ++ x :: drop s l.

(** ** Plain objects used as maps

    [this._byId] and the local [modelMap] of [set] are plain objects.  As a
    condition, [obj[k]] is truthy for an own property and also for a name
    that [Object.prototype] supplies, where no own property shadows it.
    The finite maps of this embedding hold the own properties only: they
    answer as the source does for every key that is registered and for
    every key outside [inherited].  The keys that [get] derives from a
    [plain] attribute bag are outside [inherited], and [own_keys] says so
    of any other probe. *)
Definition inherited : list string :=
  ["constructor"; "toString"; "toLocaleString"; "valueOf"; "hasOwnProperty";
   "isPrototypeOf"; "propertyIsEnumerable"; "__proto__"; "__defineGetter__";
   "__defineSetter__"; "__lookupGetter__"; "__lookupSetter__"].

(** ** What a caller may hand to the collection *)

(** Anything [get] and [remove] accept: a raw key, an attribute bag, or a
    model. *)
Inductive probe : Type :=
  | PVal (v : value)
  | PBag (b : bag)
  | PModel (c : cid).

(** What [set], [add] and [reset] accept: an attribute bag or a model. *)
Inductive entry : Type :=
  | EBag (b : bag)
  | EModel (c : cid).

Definition probe_of (e : entry) : probe :=
  match e with EBag b => PBag b | EModel c => PModel c end.

Definition isModel (p : probe) : bool :=
  match p with PModel _ => true | _ => false end.

(** The content of [models[i]] when [set] returns. *)
Inductive slot : Type :=
  | SModel (c : cid)       (* the existing or the manufactured model *)
  | SFalse                 (* [false]: the entry failed validation *)
  | SEntry (e : entry).    (* left as passed in *)

(** ** The Lodash methods mixed into the prototype

    Each of them is a proxy to [this.models]: [collection.method(args)] is
    [_.method(collection.models, args)].  [indexOf] is given with the array
    primitives above, [find] and [filter] are used by [where] below. *)

Module Mixin.

(** [size] *)
Definition size (w : world) : Z := Z.of_nat (List.length (Coll.models (coll w))).

(** [first] *)
Definition first (w : world) : option cid := head (Coll.models (coll w)).

(** [last] *)
Definition last (w : world) : option cid := list.last (Coll.models (coll w)).

(** [isEmpty] *)
Definition isEmpty (w : world) : bool := bool_decide (Coll.models (coll w) = []).

End Mixin.

(** ** BaseSyncClass: the request [sync] hands to [$http]

    A shallow embedding of [src/models.sync.js], the class the collection
    inherits from.  [$http] itself and the callbacks are outside; what is
    modelled is the request configuration [sync] builds, the exception it
    throws, and what it writes into the caller's options object. *)

Module Sync.

(** The HTTP method map of the provider. *)
Definition CRUD_MAP : gmap string string :=
  {[ "create" := "POST"; "update" := "PUT"; "patch" := "PATCH";
     "delete" := "DELETE"; "read" := "GET" ]}.

(** [setOperation]: only an operation the map already has is remapped. *)
Definition setOperation (operation method : string) (m : gmap string string)
  : gmap string string :=
  if decide (is_Some (m !! operation)) then <[operation := method]> m else m.

(** What [toJSON] yields: the attributes of a model, or the array of them
    for a collection. *)
Inductive payload : Type :=
  | PObject (b : bag)
  | PArray (l : list bag).

(** The model or collection [sync] is called for, as [sync] uses it. *)
Record target : Type := Target {
  t_url : option string;                       (* _.result(model, 'url') *)
  t_queryParams : option (gmap string value);  (* getQueryParams(), if defined *)
  t_json : payload                             (* toJSON(options) *)
}.

Record options : Type := Options {
  method : option string;
  url : option string;
  cache : option value;
  timeout : option value;
  params : option (gmap string value);
  data : option value;
  attrs : option bag
}.

(** The configuration handed to [$http]; [r_data] is the value
    [JSON.stringify] is applied to. *)
Record request : Type := Request {
  r_method : option string;
  r_url : string;
  r_cache : option value;
  r_timeout : option value;
  r_params : gmap string value;
  r_headers : gmap string string;
  r_data : option payload
}.

(** The one exception of [sync]: the Error that asks for a url property or
    function. *)
Inductive failure : Type := MissingUrl.

(** Either way the options object was written to before. *)
Inductive outcome : Type :=
  | Sent (r : request) (o : options)
  | Thrown (e : failure) (o : options).

(** [a || b] on strings that may be missing: the empty string is falsy. *)
Definition js_or (a b : option string) : option string :=
  match a with
  | Some s => if decide (s = EmptyString) then b else a
  | None => b
  end.

(** [options.data == null] *)
Definition no_data (o : options) : bool :=
  match data o with None => true | Some v => nullish v end.

(** [_.include(['POST', 'PUT', 'PATCH'], method)] *)
Definition writes (m : option string) : bool :=
  match m with
  | Some s => bool_decide (s ∈ ["POST"; "PUT"; "PATCH"])
  | None => false
  end.

(** [sync] *)
Definition sync (crud : gmap string string) (operation : string)
    (model : option target) (o : options) : outcome :=
  let mapped := crud !! operation in
  let o := Options (js_or (method o) mapped) (url o) (cache o) (timeout o)
                   (params o) (data o) (attrs o) in
  match js_or (url o) (model ≫= t_url) with
  | None => Thrown MissingUrl o
  | Some u =>
      if decide (u = EmptyString) then Thrown MissingUrl o
      else
        let dynamicQueryParams := default ∅ (model ≫= t_queryParams) in
        let query := default ∅ (params o) ∪ dynamicQueryParams in
        let accept : gmap string string :=
          {[ "accept" := "application/json, text/plain, */*" ]} in
        let body :=
          match model with
          | Some t =>
              if no_data o && writes mapped
              then Some (match attrs o with
                         | Some a => PObject a
                         | None => t_json t
                         end)
              else None
          | None => None
          end in
        let headers :=
          match body with
          | Some _ => <["content-type" := "application/json"]> accept
          | None => accept
          end in
        Sent (Request (method o) u (cache o) (timeout o) query headers body) o
  end.

End Sync.

Section Collection.

(** The model class [this.model]: the name of its identifier attribute
    ([this.model.prototype.idAttribute], possibly unset) and the validation
    its constructor runs. *)
Variable idAttribute : option string.
Variable validate : bag → option string.

(** [this.model.prototype.idAttribute || 'id'] *)
Definition idAttr : string :=
  match idAttribute with
  | Some s => if decide (s = "") then "id" else s
  | None => "id"
  end.

(** [modelId] *)
Definition modelId (attrs : bag) : value := prop attrs idAttr.

(** *** The model class, as the collection uses it *)

(** Modelled from the spec: the model class is missing from the sources;
    a record is unsaved ([isNew]) while it has no domain identifier. *)
Definition isNew (m : model) : bool := nullish (modelId (attributes m)).

(** Modelled from the spec: the model class is missing; [hasChanged(attr)]
    reports whether [attr] (or, for [null], anything) changed in the last
    [set] of the model. *)
Definition hasChanged (m : model) (attr : option string) : bool :=
  match attr with
  | None => negb (bool_decide (changed m = ∅))
  | Some a => bool_decide (is_Some (changed m !! a))
  end.

(** Modelled from the spec: the model class is missing; [toJSON] is a copy
    of the attributes. *)
Definition toJSON (m : model) : bag := attributes m.

(** Modelled from the spec: the model class is missing; its [parse] hook is
    a pass-through. *)
Definition model_parse (attrs : bag) : bag := attrs.

(** Modelled from the spec: the model class is missing; [new this.model
    (attrs, options)] holds the attributes it is given, belongs to
    [options.collection] and carries the validation error, if any. *)
Definition new_model (attrs : bag) (o : options) : model :=
  Model attrs ∅ ∅ (if o_collection o then ThisCollection else NoOwner)
        false (validate attrs).

(** *** Identity index *)

Definition probe_null (obj : probe) : bool :=
  match obj with PVal v => nullish v | _ => false end.

(** [this.modelId(isModel(obj) ? obj.attributes : obj)] *)
Definition probe_id (w : world) (obj : probe) : value :=
  match obj with
  | PModel c => modelId (attributes (get_model w c))
  | PBag b => modelId b
  | PVal v => prim_prop v idAttr
  end.

(** The key of [this._byId[obj]]. *)
Definition probe_key (obj : probe) : string :=
  match obj with PVal v => to_key v | _ => object_key end.

(** The key of [this._byId[obj.cid]]. *)
Definition probe_cid (obj : probe) : string :=
  match obj with
  | PModel c => cid_key c
  | PBag b => to_key (prop b "cid")
  | PVal v => to_key (prim_prop v "cid")
  end.

(** The keys [get] reads off [this._byId] for [obj], in the order of the
    source. *)
Definition probe_keys (w : world) (obj : probe) : list string :=
  [probe_key obj; to_key (probe_id w obj); probe_cid obj].

(** None of the keys [get] reads for [obj] is a name inherited from
    [Object.prototype]. *)
Definition own_keys (w : world) (obj : probe) : Prop :=
  Forall (λ k, k ∉ inherited) (probe_keys w obj).

#[global] Instance own_keys_dec w obj : Decision (own_keys w obj).
Proof. unfold own_keys. apply _. Defined.

(** [get].  The lookups are those of the own properties of [this._byId]
    (see [inherited]). *)
Definition get (obj : probe) (w : world) : option cid :=
  if probe_null obj then None
  else
    let ix := Coll._byId (coll w) in
    ix !! probe_key obj ||| ix !! to_key (probe_id w obj) ||| ix !! probe_cid obj.

(** [_addReference] *)
Definition _addReference (c : cid) (w : world) : world :=
  let id := modelId (attributes (get_model w c)) in
  let ix := <[cid_key c := c]> (Coll._byId (coll w)) in
  let ix := if nullish id then ix else <[to_key id := c]> ix in
  upd_model c (λ m, Model (attributes m) (previous m) (changed m)
                          (collection m) true (validationError m))
            (upd_coll (set_byId ix) w).

(** [_removeReference] *)
Definition _removeReference (c : cid) (w : world) : world :=
  upd_model c (λ m, Model (attributes m) (previous m) (changed m)
                          (if decide (collection m = ThisCollection)
                           then NoOwner else collection m)
                          false (validationError m)) w.

(** *** Notifications *)

(** The index maintenance [_onModelEvent] performs on a "change". *)
Definition rekey (c : cid) (w : world) : world :=
  let m := get_model w c in
  let prevId := modelId (previous m) in
  let id := modelId (attributes m) in
  if decide (prevId = id) then w
  else
    let ix := Coll._byId (coll w) in
    let ix := if nullish prevId then ix else delete (to_key prevId) ix in
    let ix := if nullish id then ix else <[to_key id := c]> ix in
    upd_coll (set_byId ix) w.

(** [_onModelEvent] for an event other than "destroy" that this collection
    does not ignore: maintain the index on "change", then re-emit the
    event on the collection. *)
Definition proxy_event (event : string) (c : cid) (o : options) (w : world) : world :=
  let w1 := if decide (event = "change") then rekey c w else w in
  emit (Notification OnCollection event (Some c) None o) w1.

(** Modelled from the spec: the event class is missing; [model.trigger]
    notifies the model's listeners, among them this collection when it
    subscribed in [_addReference]. *)
Definition trigger_model (event : string) (c : cid) (o : options) (w : world) : world :=
  let w1 := emit (Notification (OnModel c) event (Some c) None o) w in
  if listening (get_model w c) then proxy_event event c o w1 else w1.

(** Modelled from the spec: the model class is missing; [model.set(attrs,
    options)] copies [attrs] onto the attributes, remembers the previous
    attributes and which ones changed, and emits "change" unless silenced
    or nothing changed. *)
Definition model_set (c : cid) (attrs : bag) (o : options) (w : world) : world :=
  let old := attributes (get_model w c) in
  let chg := filter (λ kv, prop old kv.1 ≠ kv.2) attrs in
  let w1 := upd_model c (λ m, Model (attrs ∪ attributes m) (attributes m) chg
                                    (collection m) (listening m)
                                    (validationError m)) w in
  if truthy (o_silent o) || bool_decide (chg = ∅) then w1
  else trigger_model "change" c o w1.

(** *** remove *)

Definition remove_one (p : probe) (o : options) (w : world)
  : option cid * options * world :=
  match get p w with
  | None => (None, o, w)
  | Some c =>
      let id := modelId (attributes (get_model w c)) in
      let cl := coll w in
      let ix := Coll._byId cl in
      let ix := if nullish id then ix else delete (to_key id) ix in
      let ix := delete (cid_key c) ix in
      let index := indexOf (Coll.models cl) c in
      let w1 := upd_coll (λ _, Coll.Make (Coll.length cl - 1)
                                 (splice_delete index (Coll.models cl))
                                 ix (Coll.comparator cl)) w in
      let '(o1, w2) :=
        if truthy (o_silent o) then (o, w1)
        else let o1 := with_index index o in
             (o1, trigger_model "remove" c o1 w1) in
      (Some c, o1, _removeReference c w2)
  end.

Fixpoint remove_loop (ps : list probe) (o : options) (w : world)
  : list (option cid) * options * world :=
  match ps with
  | [] => ([], o, w)
  | p :: ps' =>
      let '(r, o1, w1) := remove_one p o w in
      let '(rs, o2, w2) := remove_loop ps' o1 w1 in
      (r :: rs, o2, w2)
  end.

(** [remove]: the options object is mutated ([options.index]) and handed
    back with the result. *)
Definition remove (models : input probe) (o : options) (w : world)
  : input (option cid) * options * world :=
  match models with
  | One p =>
      let '(rs, o1, w1) := remove_loop [p] o w in
      (One (mjoin (head rs)), o1, w1)
  | Many ps =>
      let '(rs, o1, w1) := remove_loop ps o w in
      (Many rs, o1, w1)
  end.

(** [_onModelEvent] *)
Definition _onModelEvent (event : string) (c : cid) (from_this : bool)
    (o : options) (w : world) : world :=
  if (bool_decide (event = "add") || bool_decide (event = "remove"))
       && negb from_this
  then w
  else
    let '(o1, w1) :=
      if decide (event = "destroy")
      then let '(_, o1, w1) := remove (One (PModel c)) o w in (o1, w1)
      else (o, w) in
    proxy_event event c o1 w1.

(** *** sort *)

(** Stable insertion sort: the array is rebuilt from its last element, and
    an element is placed before the first one it does not exceed. *)
Fixpoint insert_by {A} (le : A → A → bool) (x : A) (l : list A) : list A :=
  match l with
  | [] => [x]
  | y :: l' => if le x y then x :: l else y :: insert_by le x l'
  end.

Definition sort_by {A} (le : A → A → bool) (l : list A) : list A :=
  foldr (insert_by le) [] l.

(** [Array.prototype.sort] with a comparison function. *)
Definition array_sort (cmp : model → model → Z) (w : world) (ms : list cid) : list cid :=
  sort_by (λ a b, (cmp (get_model w a) (get_model w b) <=? 0)%Z) ms.

(** [this.comparator] as a condition: unset, or the empty string, it is
    falsy. *)
Definition truthy_comparator (c : option comparator) : option comparator :=
  match c with
  | Some (ByField f) => if decide (f = "") then None else c
  | _ => c
  end.

(** [_.isString(this.comparator) || this.comparator.length === 1]: the
    comparators for which [sort] calls [this.sortBy]. *)
Definition needs_sortBy (w : world) : bool :=
  match truthy_comparator (Coll.comparator (coll w)) with
  | Some (ByField _ | ByKey _) => true
  | _ => false
  end.

(** [sort].  For a comparator that is a string or a function of one
    argument the source calls [this.sortBy(this.comparator, this)].  No
    [sortBy] exists: it is not among the Lodash methods mixed into the
    prototype, and neither this class nor [BaseSyncClass] below it defines
    one.  Calling what is [undefined] is a TypeError, raised before
    [this.models] is assigned. *)
Definition sort (o : options) (w : world) : outcome unit :=
  match truthy_comparator (Coll.comparator (coll w)) with
  | None => Throw (Error "Cannot sort a set without a comparator") w
  | Some (ByCompare c) =>
      let w1 := upd_coll (set_models (array_sort c w (Coll.models (coll w)))) w in
      if truthy (o_silent o) then Ok () w1
      else Ok () (emit (Notification OnCollection "sort" None None o) w1)
  | Some _ => Throw (TypeError "this.sortBy is not a function") w
  end.

(** *** set *)

(** [parse]: the collection's hook passes the response through. *)
Definition parse (response : input entry) : input entry := response.

(** [_prepareModel] *)
Definition _prepareModel (attrs : entry) (o : options) (w : world)
  : option cid * world :=
  match attrs with
  | EModel c =>
      (Some c,
       upd_model c (λ m, Model (attributes m) (previous m) (changed m)
                               (if decide (collection m = NoOwner)
                                then ThisCollection else collection m)
                               (listening m) (validationError m)) w)
  | EBag b =>
      let o1 := with_collection o in
      let c := next_cid w in
      let m := new_model b o1 in
      let w1 := World (<[c := m]> (heap w)) (S c) (coll w) (log w) in
      match validationError m with
      | None => (Some c, w1)
      | Some err =>
          (None, emit (Notification OnCollection "invalid" None (Some err) o1) w1)
      end
  end.

(** The locals of [set] that the first loop updates. *)
Record staging : Type := Staging {
  st_models : list slot;          (* the local array [models], entry by entry *)
  st_toAdd : list cid;
  st_modelMap : gset string;      (* the keys set in [modelMap] *)
  st_order : option (list cid);   (* [false] or an array *)
  st_orderChanged : bool;
  st_sort : bool;
  st_model : option cid           (* the variable [model], kept across turns *)
}.

(** [_.defaults({}, options, setOptions)] *)
Definition or_true (b : option bool) : option bool :=
  match b with None => Some true | _ => b end.

Definition set_defaults (o : options) : options :=
  with_flags (or_true (o_add o)) (or_true (o_remove o)) (or_true (o_merge o)) o.

(** [attrs !== existing] *)
Definition same_object (e : entry) (existing : cid) : bool :=
  match e with EModel c => bool_decide (c = existing) | EBag _ => false end.

(** The end of a turn of the first loop, from "Do not add multiple models
    with the same id" on.  [st_modelMap] holds the own properties of
    [modelMap] (see [inherited]). *)
Definition note_model (i : nat) (m : cid) (s : staging) (w : world) : staging :=
  let id := modelId (attributes (get_model w m)) in
  let push :=
    match st_order s with
    | Some _ => isNew (get_model w m)
                || negb (bool_decide (to_key id ∈ st_modelMap s))
    | None => false
    end in
  let order :=
    if push then (λ l, l ++ [m]) <$> st_order s else st_order s in
  let orderChanged :=
    if push
    then st_orderChanged s
         || match Coll.models (coll w) !! i with
            | None => true
            | Some c => negb (bool_decide (m = c))
            end
    else st_orderChanged s in
  Staging (st_models s) (st_toAdd s) ({[to_key id]} ∪ st_modelMap s)
          order orderChanged (st_sort s) (st_model s).

(** [isModel(attrs) ? attrs.attributes : attrs] *)
Definition entry_attrs (w : world) (e : entry) : bag :=
  match e with EModel c => attributes (get_model w c) | EBag b => b end.

(** "optionally merge it into the existing model": yields the new value of
    [sort]. *)
Definition merge_existing (o : options) (sortable : bool)
    (sortAttr : option string) (e : entry) (existing : cid) (srt : bool)
    (w : world) : bool * world :=
  if truthy (o_merge o) && negb (same_object e existing) then
    let attrs := entry_attrs w e in
    let attrs := if truthy (o_parse o) then model_parse attrs else attrs in
    let w1 := model_set existing attrs o w in
    (srt || sortable && hasChanged (get_model w1 existing) sortAttr, w1)
  else (srt, w).

(** One turn of the first loop of [set], for the entry at index [i]. *)
Definition classify_entry (o : options) (sortable : bool)
    (sortAttr : option string) (i : nat) (e : entry) (s : staging) (w : world)
  : staging * world :=
  match get (probe_of e) w with
  | Some existing =>
      let seen :=
        if truthy (o_remove o) then {[cid_key existing]} ∪ st_modelMap s
        else st_modelMap s in
      let '(srt, w1) :=
        merge_existing o sortable sortAttr e existing (st_sort s) w in
      (note_model i existing
         (Staging (st_models s ++ [SModel existing]) (st_toAdd s) seen
                  (st_order s) (st_orderChanged s) srt (Some existing)) w1,
       w1)
  | None =>
      if truthy (o_add o) then
        match _prepareModel e o w with
        | (None, w1) =>
            (Staging (st_models s ++ [SFalse]) (st_toAdd s) (st_modelMap s)
                     (st_order s) (st_orderChanged s) (st_sort s) None, w1)
        | (Some m, w1) =>
            let w2 := _addReference m w1 in
            (note_model i m
               (Staging (st_models s ++ [SModel m]) (st_toAdd s ++ [m])
                        (st_modelMap s) (st_order s) (st_orderChanged s)
                        (st_sort s) (Some m)) w2,
             w2)
        end
      else
        let s1 := Staging (st_models s ++ [SEntry e]) (st_toAdd s)
                          (st_modelMap s) (st_order s) (st_orderChanged s)
                          (st_sort s) (st_model s) in
        match st_model s with
        | None => (s1, w)
        | Some m => (note_model i m s1 w, w)
        end
  end.

Fixpoint classify (o : options) (sortable : bool) (sortAttr : option string)
    (i : nat) (es : list entry) (s : staging) (w : world) : staging * world :=
  match es with
  | [] => (s, w)
  | e :: es' =>
      let '(s1, w1) := classify_entry o sortable sortAttr i e s w in
      classify o sortable sortAttr (S i) es' s1 w1
  end.

(** The second loop of [set]: the members, among the first [n] positions,
    whose client identity was not marked.  Reading the [cid] of a position
    that does not exist is a TypeError ([None]). *)
Fixpoint stale (n : nat) (ms : list cid) (seen : gset string) : option (list cid) :=
  match n with
  | 0 => Some []
  | S n' =>
      match ms with
      | [] => None
      | m :: ms' =>
          (if bool_decide (cid_key m ∈ seen) then id else cons m)
            <$> stale n' ms' seen
      end
  end.

(** [this.models.splice(at + i, 0, toAdd[i])] for every [i]. *)
Fixpoint splice_all (at_ : Z) (toAdd : list cid) (ms : list cid) : list cid :=
  match toAdd with
  | [] => ms
  | m :: toAdd' => splice_all (at_ + 1) toAdd' (splice_insert at_ m ms)
  end.

(** Whether the first loop staged a record or found the order changed:
    [toAdd.length || orderChanged]. *)
Definition staged (s : staging) : bool :=
  negb (bool_decide (st_toAdd s = [])) || st_orderChanged s.

(** The sequence once the staged records are in: spliced in at the
    requested position, or the order computed by the first loop, or the
    staged records appended. *)
Definition spliced (at_ : option Z) (s : staging) (ms : list cid) : list cid :=
  match at_ with
  | Some a => splice_all a (st_toAdd s) ms
  | None =>
      match st_order s with
      | Some order => order
      | None => ms ++ st_toAdd s
      end
  end.

(** "See if sorting is needed, update length and splice in new models." *)
Definition splice_in (at_ : option Z) (sortable : bool) (s : staging) (w : world)
  : bool * world :=
  if staged s then
    let cl := coll w in
    (st_sort s || sortable,
     upd_coll (λ _, Coll.Make (Coll.length cl + Z.of_nat (List.length (st_toAdd s)))
                              (spliced at_ s (Coll.models cl))
                              (Coll._byId cl) (Coll.comparator cl)) w)
  else (st_sort s, w).

(** The "add" notifications, one per staged model. *)
Fixpoint notify_added (at_ : option Z) (i : Z) (toAdd : list cid) (o : options)
    (w : world) : world :=
  match toAdd with
  | [] => w
  | m :: toAdd' =>
      let addOpts := match at_ with Some a => with_index (a + i) o | None => o end in
      notify_added at_ (i + 1) toAdd' o (trigger_model "add" m addOpts w)
  end.

(** "Unless silenced, it's time to fire all appropriate add/sort events." *)
Definition notify (at_ : option Z) (srt : bool) (s : staging) (o : options)
    (w : world) : world :=
  if truthy (o_silent o) then w
  else
    let w1 := notify_added at_ 0 (st_toAdd s) o w in
    if srt || st_orderChanged s
    then emit (Notification OnCollection "sort" None None o) w1
    else w1.

Definition entries (models : input entry) : list entry :=
  match models with One e => [e] | Many es => es end.

(** [singular ? models[0] : models] *)
Definition result (models : input entry) (slots : list slot) : input slot :=
  match models with
  | One e => One (default (SEntry e) (head slots))
  | Many _ => Many slots
  end.

Definition silent_sort : options :=
  with_silent (Some true) no_options.

(** [var at = options.at; if (at < 0) at += this.length + 1;] *)
Definition position (o : options) (w : world) : option Z :=
  match o_at o with
  | Some a => Some (if (a <? 0)%Z then (a + (Coll.length (coll w) + 1))%Z else a)
  | None => None
  end.

(** [this.comparator && (at == null) && options.sort !== false] *)
Definition sortable (o : options) (w : world) : bool :=
  bool_decide (is_Some (truthy_comparator (Coll.comparator (coll w))))
  && bool_decide (position o w = None)
  && negb (bool_decide (o_sort o = Some false)).

(** [_.isString(this.comparator) ? this.comparator : null] *)
Definition sortAttr (w : world) : option string :=
  match Coll.comparator (coll w) with Some (ByField f) => Some f | _ => None end.

(** The locals as [set] initialises them. *)
Definition staging_init (o : options) (w : world) : staging :=
  Staging [] [] ∅
          (if negb (sortable o w) && truthy (o_add o) && truthy (o_remove o)
           then Some [] else None)
          false false None.

(** The first loop of [set], over all entries, under the options [o] that
    [_.defaults] produced. *)
Definition first_pass (models : input entry) (o : options) (w : world)
  : staging * world :=
  classify o (sortable o w) (sortAttr w) 0 (entries models) (staging_init o w) w.

(** "Remove nonexistent models if appropriate": [None] stands for the
    TypeError of reading [cid] off a position that does not exist. *)
Definition remove_pass (s : staging) (o : options) (w : world)
  : option (options * world) :=
  if truthy (o_remove o) then
    match stale (Z.to_nat (Coll.length (coll w))) (Coll.models (coll w))
                (st_modelMap s) with
    | None => None
    | Some [] => Some (o, w)
    | Some toRemove =>
        let '(_, o1, w1) := remove (Many (PModel <$> toRemove)) o w in
        Some (o1, w1)
    end
  else Some (o, w).

(** [set] *)
Definition set (models : input entry) (options : options) (w : world)
  : outcome (input slot) :=
  let o := set_defaults options in
  let models := if truthy (o_parse o) then parse models else models in
  let at_ := position o w in
  let sortable := sortable o w in
  let '(s, w1) := first_pass models o w in
  match remove_pass s o w1 with
  | None => Throw (TypeError "Cannot read property 'cid' of undefined") w1
  | Some (o1, w2) =>
      let '(srt, w3) := splice_in at_ sortable s w2 in
      let sorted := if srt then sort silent_sort w3 else Ok () w3 in
      match sorted with
      | Throw e w4 => Throw e w4
      | Ok _ w4 =>
          Ok (result models (st_models s)) (notify at_ srt s o1 w4)
      end
  end.

(** [_.extend({merge: false}, options, addOptions)] *)
Definition add_options (o : options) : options :=
  with_flags (Some true) (Some false)
             (match o_merge o with None => Some false | m => m end) o.

(** [add] *)
Definition add (models : input entry) (options : options) (w : world)
  : outcome (input slot) :=
  set models (add_options options) w.

(** [_reset] *)
Definition _reset (w : world) : world :=
  upd_coll (λ cl, Coll.Make 0 [] ∅ (Coll.comparator cl)) w.

(** [reset] *)
Definition reset (models : input entry) (options : options) (w : world)
  : outcome (input slot) :=
  let previousModels := Coll.models (coll w) in
  let w1 := foldl (λ w c, _removeReference c w) w previousModels in
  let o := with_previousModels previousModels options in
  let w2 := _reset w1 in
  (* _.extend({silent: true}, options) *)
  let o_add := with_silent (match o_silent o with None => Some true | s => s end) o in
  match add models o_add w2 with
  | Throw e w3 => Throw e w3
  | Ok r w3 =>
      Ok r (if truthy (o_silent o) then w3
            else emit (Notification OnCollection "reset" None None o) w3)
  end.

(** [toArray] *)
Definition toArray (w : world) : list bag :=
  (λ c, toJSON (get_model w c)) <$> Coll.models (coll w).

(** [new BaseCollectionClass(undefined, {comparator})] in a world without
    models. *)
Definition empty_world (cmp : option comparator) : world :=
  World ∅ 0 (Coll.Make 0 [] ∅ cmp) [].

(** *** Well-formed worlds: the invariants of the data model *)

Definition id_of (w : world) (c : cid) : value :=
  modelId (attributes (get_model w c)).

(** The keys under which a member is registered in [_byId]. *)
Definition keys_of (w : world) (c : cid) : list string :=
  cid_key c :: (if nullish (id_of w c) then [] else [to_key (id_of w c)]).

(** Keys that a lookup derives from [undefined], [null] or an object. *)
Definition reserved : list string := [object_key; "undefined"; "null"].

(** The index registers exactly the records [cs], each under its client
    identity and, if it has one, its domain identifier. *)
Definition indexed (w : world) (cs : list cid) : Prop :=
  NoDup cs
  ∧ (∀ k c, Coll._byId (coll w) !! k = Some c ↔ c ∈ cs ∧ k ∈ keys_of w c)
  ∧ Forall (λ k, Coll._byId (coll w) !! k = None) reserved.

(** The cached length is the length of the sequence, the index registers
    exactly the members, and client identities are fresh: every member
    was handed its identity already, and no key is registered that is the
    identity of a record yet to be made. *)
Definition wf (w : world) : Prop :=
  Coll.length (coll w) = Z.of_nat (List.length (Coll.models (coll w)))
  ∧ indexed w (Coll.models (coll w))
  ∧ Forall (λ c, c < next_cid w) (Coll.models (coll w))
  ∧ (∀ n, next_cid w ≤ n → Coll._byId (coll w) !! cid_key n = None).

(** Whether a key starts like a client identity. *)
Definition cid_like (k : string) : bool :=
  match k with String "c" _ => true | _ => false end.

(** A check of [wf] that computes. *)
Definition index_entries (w : world) (cs : list cid) : list (string * cid) :=
  c ← cs; (λ k, (k, c)) <$> keys_of w c.

Definition wf_check (w : world) : bool :=
  let ms := Coll.models (coll w) in
  bool_decide (Coll.length (coll w) = Z.of_nat (List.length ms))
  && bool_decide (NoDup ms)
  && bool_decide (NoDup (index_entries w ms).*1)
  && bool_decide (Coll._byId (coll w) = list_to_map (index_entries w ms))
  && bool_decide (Forall (λ k, Coll._byId (coll w) !! k = None) reserved)
  && bool_decide (Forall (λ c, c < next_cid w) ms)
  && bool_decide (Forall (λ c, cid_like (to_key (id_of w c)) = false) ms).

(** [add] as the specification words it: [set] with [add] fixed true and
    [remove] and [merge] fixed false. *)
Definition add_spec (models : input entry) (options : options) (w : world)
  : outcome (input slot) :=
  set models (with_flags (Some true) (Some false) (Some false) options) w.

(** The events a call appended to the log. *)
Definition emitted (w w' : world) : list notification :=
  drop (List.length (log w)) (log w').

(** [w'] extends the log of [w] by notifications that all satisfy [P]. *)
Definition emits (P : notification → Prop) (w w' : world) : Prop :=
  ∃ l, log w' = log w ++ l ∧ Forall P l.

Definition named (names : list string) (n : notification) : Prop :=
  n_event n ∈ names.

(** The "add" notification the [i]-th staged record is due: its payload is
    the options object, with [index] set to [at + i] only when a position
    was requested. *)
Fixpoint expected_adds (at_ : option Z) (i : Z) (toAdd : list cid) (o : options)
  : list notification :=
  match toAdd with
  | [] => []
  | m :: toAdd' =>
      Notification (OnModel m) "add" (Some m) None
                   (match at_ with Some a => with_index (a + i) o | None => o end)
      :: expected_adds at_ (i + 1) toAdd' o
  end.

Definition on_model (n : notification) : bool :=
  match n_target n with OnModel _ => true | OnCollection => false end.

Definition is_event (name : string) (n : notification) : bool :=
  bool_decide (n_event n = name).

(** Whether [set] sorts or reports a new order once the first loop is over:
    the value of [sort || orderChanged] at the end of the source. *)
Definition reordered (o : options) (w : world) (s : staging) : bool :=
  st_sort s || staged s && sortable o w || st_orderChanged s.

(** [remove] hands the options object back unchanged but for its [index]. *)
Definition reindexed (o o1 : options) : Prop := o1 = o ∨ ∃ j, o1 = with_index j o.

(** The models of [w'] hold the attributes they hold in [w]. *)
Definition same_attrs (w w' : world) : Prop :=
  ∀ c, attributes (get_model w' c) = attributes (get_model w c).

(** The index once the registrations of [c] are deleted. *)
Definition unregister (w : world) (c : cid) (ix : gmap string cid) : gmap string cid :=
  delete (cid_key c)
         (if nullish (id_of w c) then ix else delete (to_key (id_of w c)) ix).

(** The world once [_prepareModel] has rejected the attribute bag [b]:
    the record was made and dropped, and "invalid" was sent. *)
Definition rejected (b : bag) (err : string) (o : options) (w : world) : world :=
  emit (Notification OnCollection "invalid" None (Some err) (with_collection o))
       (World (<[next_cid w := new_model b (with_collection o)]> (heap w))
              (S (next_cid w)) (coll w) (log w)).

(** The result of a batch whose first entry was rejected, from the result
    of the rest of the batch. *)
Definition after_rejected (r : outcome (input slot)) : outcome (input slot) :=
  match r with
  | Ok (Many slots) w => Ok (Many (SFalse :: slots)) w
  | _ => r
  end.

(** The staging with [p] put before the slots. *)
Definition with_slots (p : list slot) (s : staging) : staging :=
  Staging (p ++ st_models s) (st_toAdd s) (st_modelMap s) (st_order s)
          (st_orderChanged s) (st_sort s) (st_model s).

(** Decimal numerals start with a digit or a minus sign; client identities
    start with the letter c. *)
Definition num_char (a : ascii) : bool :=
  match a with
  | "0" | "1" | "2" | "3" | "4" | "5" | "6" | "7" | "8" | "9" | "-" => true
  | _ => false
  end%char.

Definition num_head (s : string) : bool :=
  match s with String a _ => num_char a | EmptyString => false end.

(** The world once [_prepareModel] and [_addReference] have run for a new
    valid record with attributes [b]. *)
Definition with_new_record (b : bag) (w : world) : world :=
  let c := next_cid w in
  let ix := <[cid_key c := c]> (Coll._byId (coll w)) in
  let ix := if nullish (modelId b) then ix else <[to_key (modelId b) := c]> ix in
  World (<[c := Model b ∅ ∅ ThisCollection true None]> (heap w)) (S c)
        (set_byId ix (coll w)) (log w).

(** *** Positional and attribute queries *)

(** [at]: a negative index counts from the cached [length]; a position
    outside the array reads as [undefined]. *)
Definition at_index (index : Z) (w : world) : option cid :=
  let index := if (index <? 0)%Z then (index + Coll.length (coll w))%Z else index in
  if (index <? 0)%Z then None else Coll.models (coll w) !! Z.to_nat index.

(** [_.matches(attrs)] of Lodash, on attribute bags of primitive values:
    every property of [attrs] is a property of the object, with the same
    value. *)
Definition matches (attrs obj : bag) : bool := bool_decide (attrs ⊆ obj).

(** What [where] hands back: the result of [find] (a model or [undefined])
    or the array [filter] built. *)
Inductive selection : Type :=
  | Found (r : option cid)
  | Matching (l : list cid).

(** [where]; [find] and [filter] are the Lodash methods mixed in as proxies
    to [this.models]. *)
Definition where_ (attrs : bag) (first : bool) (w : world) : selection :=
  let pred := λ c, matches attrs (attributes (get_model w c)) in
  if first then Found (List.find pred (Coll.models (coll w)))
  else Matching (List.filter pred (Coll.models (coll w))).

(** [findWhere] *)
Definition findWhere (attrs : bag) (w : world) : selection := where_ attrs true w.

(** Modelled from the spec: the model class is missing; [model.get(attr)]
    reads the attribute. *)
Definition model_get (m : model) (attr : string) : value := prop (attributes m) attr.

(** [pluck] *)
Definition pluck (attr : string) (w : world) : list value :=
  (λ c, model_get (get_model w c) attr) <$> Coll.models (coll w).

(** *** Plain attribute bags *)

(** An attribute bag as a server would send it: it has no [cid] property
    and its identifier, if it has one, is a number. *)
Definition plain (b : bag) : bool :=
  nullish (prop b "cid")
  && match modelId b with VNum _ | VUndef | VNull => true | _ => false end.

(** The numeric identifier of a bag. *)
Definition num_id (b : bag) : option Z :=
  match modelId b with VNum z => Some z | _ => None end.

(** The state of the index while [set] runs its first loop: it registers
    exactly the records [cs] (the members and the records staged so far),
    and client identities are fresh. *)
Definition registered (w : world) (cs : list cid) : Prop :=
  indexed w cs
  ∧ Forall (λ c, c < next_cid w) cs
  ∧ (∀ n, next_cid w ≤ n → Coll._byId (coll w) !! cid_key n = None).

(** *** The constructor *)

(** [new BaseCollectionClass(models, options)].  The collection object is
    made in the world of the caller's models; [options.comparator] becomes
    the comparator (the prototype has none), [initialize] is the default
    no-op, and [models], unless it is missing, goes through [reset] under
    [_.extend({silent: true}, options)]. *)
Definition construct (models : option (input entry)) (cmp : option comparator)
    (options : options) (w : world) : outcome unit :=
  let w1 := _reset (World (heap w) (next_cid w) (Coll.Make 0 [] ∅ cmp) (log w)) in
  match models with
  | None => Ok () w1
  | Some ms =>
      let o := with_silent (match o_silent options with
                            | None => Some true
                            | s => s
                            end) options in
      match reset ms o w1 with
      | Ok _ w2 => Ok () w2
      | Throw e w2 => Throw e w2
      end
  end.

(** *** The state of the first loop of a reconciling [set]

    [M0] is the sequence and [ix0] the index the call started from, [pre]
    the attribute bags processed so far: [order] holds one record per
    processed bag, the record holds the attributes of its bag, the members
    among them are the ones marked in [modelMap] by client identity, the
    others are the staged records, and [orderChanged] is still off only
    while [order] is a prefix of the old sequence. *)
Definition reconciled (M0 : list cid) (ix0 : gmap string cid) (pre : list bag)
    (s : staging) (w : world) : Prop :=
  ∃ ord,
    st_order s = Some ord
    ∧ Forall2 (λ c b, b ⊆ attributes (get_model w c)) ord pre
    ∧ NoDup ord
    ∧ (∀ m, m ∈ M0 → (cid_key m ∈ st_modelMap s ↔ m ∈ ord))
    ∧ st_toAdd s = filter (λ c, c ∉ M0) ord
    ∧ (st_orderChanged s = false → ord = take (List.length pre) M0)
    ∧ (∀ z : Z, pretty z ∈ st_modelMap s → z ∈ omap num_id pre)
    ∧ st_models s = SModel <$> ord
    ∧ st_sort s = false
    ∧ (∀ k X, ix0 !! k = Some X → Coll._byId (coll w) !! k = Some X)
    ∧ (∀ (z : Z) X, ix0 !! pretty z = Some X → z ∈ omap num_id pre → X ∈ ord).

(** *** The state of the first loop of [set] over plain attribute bags

    [M0] is the sequence the call started from, [rem] says whether
    removal is enabled, [pre] are the bags processed so far and [rs], in
    the same order, the records they were resolved to.  A bag with a
    numeric identifier was resolved to the record registered under it; a
    bag without identifier had a record of its own staged, which no other
    bag was resolved to.  [modelMap] marks the identifiers seen and, when
    removal is enabled, the records resolved to; [order], where it is
    computed, holds the records resolved to, each once. *)
Definition batched (rem : bool) (M0 : list cid) (pre : list bag) (rs : list cid)
    (s : staging) (w : world) : Prop :=
  st_models s = SModel <$> rs
  ∧ registered w (M0 ++ st_toAdd s)
  ∧ Forall2 (λ r b, match num_id b with
                    | Some z => Coll._byId (coll w) !! pretty z = Some r
                    | None => r ∈ st_toAdd s ∧ attributes (get_model w r) = b
                              ∧ nullish (modelId b) = true
                    end) rs pre
  ∧ (∀ j k b, pre !! k = Some b → num_id b = None → j ≠ k → rs !! j ≠ rs !! k)
  ∧ (∀ r, r ∈ rs → r ∈ M0 ++ st_toAdd s)
  ∧ (∀ r, r ∈ st_toAdd s → r ∈ rs)
  ∧ (∀ z : Z, pretty z ∈ st_modelMap s ↔ z ∈ omap num_id pre)
  ∧ (∀ m, cid_key m ∈ st_modelMap s → m ∈ rs)
  ∧ (rem = true → ∀ m, m ∈ M0 → m ∈ rs → cid_key m ∈ st_modelMap s)
  ∧ (∀ ord, st_order s = Some ord →
            rem = true ∧ NoDup ord ∧ ∀ x, x ∈ ord ↔ x ∈ rs).

(** ** Event dispatch *)

(** The events a member emits towards its own collection, other than
    "destroy", are handled by [_onModelEvent] as [proxy_event] says. *)
Lemma _onModelEvent_proxy event c o w :
  event ≠ "destroy" → _onModelEvent event c true o w = proxy_event event c o w.
Proof.
  intros H. unfold _onModelEvent. rewrite andb_false_r.
  by destruct (decide (event = "destroy")).
Qed.

(** ** Keys *)

Lemma cid_key_inj c1 c2 : cid_key c1 = cid_key c2 → c1 = c2.
Proof. unfold cid_key. simpl. intros [= H]. by apply pretty_nat_inj in H. Qed.

Lemma pretty_N_go_num_head x s : num_head s → num_head (pretty_N_go x s).
Proof.
  revert s. induction (N.lt_wf_0 x) as [x _ IH]. intros s Hs.
  destruct (decide (x = 0%N)) as [->|Hx].
  - by rewrite pretty_N_go_0.
  - rewrite pretty_N_go_step by lia. apply IH.
    + apply N.div_lt; lia.
    + unfold pretty_N_char. by repeat case_match.
Qed.

Lemma pretty_N_num_head (x : N) : num_head (pretty x).
Proof.
  unfold pretty, pretty_N. case_decide; [done|].
  rewrite pretty_N_go_step by lia. apply pretty_N_go_num_head.
  unfold pretty_N_char. by repeat case_match.
Qed.

Lemma pretty_Z_num_head (z : Z) : num_head (pretty z).
Proof. destruct z; [done| |done]. apply pretty_N_num_head. Qed.

Lemma num_key_neq (z : Z) s : num_head s = false → pretty z ≠ s.
Proof.
  intros Hs Hz. pose proof (pretty_Z_num_head z) as H.
  rewrite Hz, Hs in H. done.
Qed.

Lemma cid_key_not_num c (z : Z) : cid_key c ≠ pretty z.
Proof. intros H. by apply (num_key_neq z (cid_key c)). Qed.

Lemma cid_key_not_reserved c : cid_key c ∉ reserved.
Proof.
  unfold reserved, object_key, cid_key. intros H.
  repeat (apply elem_of_cons in H as [H|H]; [discriminate H|]).
  by apply elem_of_nil in H.
Qed.

Lemma num_key_not_reserved (z : Z) : pretty z ∉ reserved.
Proof.
  unfold reserved, object_key. intros H.
  repeat (apply elem_of_cons in H as [H|H]; [by apply num_key_neq in H|]).
  by apply elem_of_nil in H.
Qed.

(** ** Sorting *)

Lemma insert_by_perm {A} (le : A → A → bool) x l : insert_by le x l ≡ₚ x :: l.
Proof.
  induction l as [|y l IH]; simpl; [done|].
  destruct (le x y); [done|]. rewrite IH. apply Permutation_swap.
Qed.

Lemma sort_by_perm {A} (le : A → A → bool) l : sort_by le l ≡ₚ l.
Proof.
  induction l as [|x l IH]; simpl; [done|].
  fold (sort_by le l). by rewrite insert_by_perm, IH.
Qed.

Lemma sort_by_singleton {A} (le : A → A → bool) x : sort_by le [x] = [x].
Proof. done. Qed.

Lemma array_sort_perm c w ms : array_sort c w ms ≡ₚ ms.
Proof. apply sort_by_perm. Qed.

Lemma sort_ok o w c :
  truthy_comparator (Coll.comparator (coll w)) = Some (ByCompare c) →
  sort o w =
    Ok () (let w1 := upd_coll (set_models (array_sort c w (Coll.models (coll w)))) w in
           if truthy (o_silent o) then w1
           else emit (Notification OnCollection "sort" None None o) w1).
Proof. unfold sort. intros ->. by destruct (truthy (o_silent o)). Qed.

Lemma sort_no_sortBy o w :
  needs_sortBy w = true →
  sort o w = Throw (TypeError "this.sortBy is not a function") w.
Proof.
  unfold sort, needs_sortBy.
  by destruct (truthy_comparator (Coll.comparator (coll w))) as [[]|].
Qed.

Lemma comparator_is_compare w :
  needs_sortBy w = false →
  is_Some (truthy_comparator (Coll.comparator (coll w))) →
  ∃ c, truthy_comparator (Coll.comparator (coll w)) = Some (ByCompare c).
Proof.
  unfold needs_sortBy. intros H [cmp Hc]. rewrite Hc in H |- *.
  destruct cmp; [done..|eauto].
Qed.

Lemma needs_sortBy_coll w w' :
  Coll.comparator (coll w') = Coll.comparator (coll w) →
  needs_sortBy w' = needs_sortBy w.
Proof. unfold needs_sortBy. by intros ->. Qed.

(** ** add *)

(** C6 (amended): [add] is [set] with [add] fixed true and [remove] fixed
    false whatever the caller passes for them, and with [merge] false by
    default but taken from the caller's options when supplied there. *)
Theorem add_is_set_with_merge_from_caller
    (models : input entry) (a r m : option bool) (o : options) (w : world) :
  add models (with_flags a r m o) w =
  set models (with_flags (Some true) (Some false) (Some (default false m)) o) w.
Proof. unfold add, add_options. by destruct m. Qed.

(** ** What each step appends to the log *)

Lemma emits_refl P w : emits P w w.
Proof. exists []. by rewrite app_nil_r. Qed.

Lemma emits_trans P w1 w2 w3 : emits P w1 w2 → emits P w2 w3 → emits P w1 w3.
Proof.
  intros (l1 & H1 & F1) (l2 & H2 & F2). exists (l1 ++ l2).
  rewrite H2, H1, (assoc_L (++)). split; [done|]. by apply Forall_app.
Qed.

Lemma emits_same P w w' : log w' = log w → emits P w w'.
Proof. intros H. exists []. by rewrite app_nil_r. Qed.

Lemma emits_weaken (P Q : notification → Prop) w w' :
  (∀ n, P n → Q n) → emits P w w' → emits Q w w'.
Proof. intros HPQ (l & H & F). exists l. split; [done|]. eapply Forall_impl; eauto. Qed.

Lemma log_rekey c w : log (rekey c w) = log w.
Proof. unfold rekey. by case_decide. Qed.

Lemma heap_rekey c w : heap (rekey c w) = heap w.
Proof. unfold rekey. by case_decide. Qed.

Lemma log_proxy_event ev c o w :
  log (proxy_event ev c o w) = log w ++ [Notification OnCollection ev (Some c) None o].
Proof. unfold proxy_event. case_decide; simpl; by rewrite ?log_rekey. Qed.

Lemma heap_proxy_event ev c o w : heap (proxy_event ev c o w) = heap w.
Proof. unfold proxy_event. case_decide; simpl; by rewrite ?heap_rekey. Qed.

Lemma log_trigger_model ev c o w :
  log (trigger_model ev c o w) =
  log w ++ Notification (OnModel c) ev (Some c) None o
        :: (if listening (get_model w c)
            then [Notification OnCollection ev (Some c) None o] else []).
Proof.
  unfold trigger_model. destruct (listening (get_model w c)); [|done].
  rewrite log_proxy_event. simpl. by rewrite <-(assoc_L (++)).
Qed.

Lemma heap_trigger_model ev c o w : heap (trigger_model ev c o w) = heap w.
Proof.
  unfold trigger_model. destruct (listening (get_model w c)); [|done].
  by rewrite heap_proxy_event.
Qed.

Lemma emits_trigger_model ev c o w :
  emits (named [ev]) w (trigger_model ev c o w).
Proof.
  eexists. split; [apply log_trigger_model|].
  destruct (listening (get_model w c)); repeat constructor.
Qed.

Lemma emits_model_set c attrs o w : emits (named ["change"]) w (model_set c attrs o w).
Proof.
  unfold model_set. case_match.
  - by apply emits_same.
  - eapply emits_trans; [|apply emits_trigger_model]. by apply emits_same.
Qed.

Lemma emits_prepareModel e o w :
  emits (named ["invalid"]) w (_prepareModel e o w).2.
Proof.
  unfold _prepareModel. destruct e as [b|c]; [|by apply emits_same].
  simpl. destruct (validate b); simpl; [|by apply emits_same].
  eexists. split; [done|]. repeat constructor.
Qed.

Lemma log_addReference c w : log (_addReference c w) = log w.
Proof. done. Qed.

Lemma log_removeReference c w : log (_removeReference c w) = log w.
Proof. done. Qed.

Lemma emits_remove_one p o w : emits (named ["remove"]) w (remove_one p o w).2.
Proof.
  unfold remove_one. destruct (get p w) as [c|]; [|apply emits_refl].
  destruct (truthy (o_silent o)); simpl; [by apply emits_same|].
  eapply emits_trans; [|apply emits_same, log_removeReference].
  eapply emits_trans; [|apply emits_trigger_model]. by apply emits_same.
Qed.

Lemma emits_remove_loop ps o w : emits (named ["remove"]) w (remove_loop ps o w).2.
Proof.
  revert o w. induction ps as [|p ps IH]; intros o w; simpl; [apply emits_refl|].
  pose proof (emits_remove_one p o w) as H1.
  destruct (remove_one p o w) as [[r o1] w1]. simpl in H1.
  pose proof (IH o1 w1) as H2.
  destruct (remove_loop ps o1 w1) as [[rs o2] w2]. simpl in *.
  by eapply emits_trans.
Qed.

Lemma emits_remove models o w : emits (named ["remove"]) w (remove models o w).2.
Proof.
  destruct models as [p|ps]; unfold remove.
  - pose proof (emits_remove_loop [p] o w) as H.
    by destruct (remove_loop [p] o w) as [[rs o1] w1].
  - pose proof (emits_remove_loop ps o w) as H.
    by destruct (remove_loop ps o w) as [[rs o1] w1].
Qed.

Lemma emits_merge_existing o srt sa e ex b w :
  emits (named ["change"]) w (merge_existing o srt sa e ex b w).2.
Proof.
  unfold merge_existing. case_match; simpl; [|apply emits_refl].
  apply emits_model_set.
Qed.

Lemma named_singleton name names n : name ∈ names → named [name] n → named names n.
Proof. unfold named. intros Hin H. apply list_elem_of_singleton in H. by rewrite H. Qed.

Lemma emits_classify_entry o srt sa i e s w :
  emits (named ["change"; "invalid"]) w (classify_entry o srt sa i e s w).2.
Proof.
  unfold classify_entry. destruct (get (probe_of e) w) as [ex|].
  - pose proof (emits_merge_existing o srt sa e ex (st_sort s) w) as H.
    destruct (merge_existing o srt sa e ex (st_sort s) w) as [b w1]. simpl in *.
    eapply emits_weaken; [|exact H]. intros n. apply named_singleton. by left.
  - destruct (truthy (o_add o)).
    + pose proof (emits_prepareModel e o w) as H.
      destruct (_prepareModel e o w) as [[m|] w1]; simpl in *.
      * eapply emits_weaken; [|eapply emits_trans; [exact H|by apply emits_same]].
        intros n. apply named_singleton. right; by left.
      * eapply emits_weaken; [|exact H]. intros n. apply named_singleton. right; by left.
    + destruct (st_model s); apply emits_refl.
Qed.

Lemma emits_classify o srt sa es i s w :
  emits (named ["change"; "invalid"]) w (classify o srt sa i es s w).2.
Proof.
  revert i s w. induction es as [|e es IH]; intros i s w; simpl; [apply emits_refl|].
  pose proof (emits_classify_entry o srt sa i e s w) as H.
  destruct (classify_entry o srt sa i e s w) as [s1 w1]. simpl in H.
  eapply emits_trans; [exact H|apply IH].
Qed.

Lemma log_splice_in at_ srt s w : log (splice_in at_ srt s w).2 = log w.
Proof. unfold splice_in. by case_match. Qed.

Lemma heap_splice_in at_ srt s w : heap (splice_in at_ srt s w).2 = heap w.
Proof. unfold splice_in. by case_match. Qed.

Lemma sort_silent_inv w r w' :
  sort silent_sort w = r → out_world r = w' →
  log w' = log w ∧ heap w' = heap w
  ∧ Coll.models (coll w') ≡ₚ Coll.models (coll w)
  ∧ Coll.length (coll w') = Coll.length (coll w)
  ∧ Coll._byId (coll w') = Coll._byId (coll w).
Proof.
  unfold sort. intros <- <-.
  destruct (truthy_comparator (Coll.comparator (coll w))) as [[| |c]|]; simpl;
    [done..| |done].
  repeat split; auto using array_sort_perm.
Qed.

Lemma log_notify_added at_ toAdd o : ∀ i w,
  ∃ l, log (notify_added at_ i toAdd o w) = log w ++ l
       ∧ filter (λ n, on_model n) l = expected_adds at_ i toAdd o
       ∧ Forall (named ["add"]) l.
Proof.
  induction toAdd as [|m toAdd IH]; intros i w; simpl.
  - exists []. by rewrite app_nil_r.
  - destruct (IH (i + 1)%Z
               (trigger_model "add" m
                  match at_ with Some a => with_index (a + i) o | None => o end w))
      as (l & Hl & Hf & Hn).
    rewrite Hl, log_trigger_model.
    eexists. split; [by rewrite <-(assoc_L (++))|].
    destruct (listening (get_model w m)); simpl;
      rewrite ?filter_cons_True, ?filter_cons_False by (simpl; auto);
      (split; [by rewrite Hf|]); repeat (constructor; [by left|]); done.
Qed.

(** The phases of a call of [set] that returns. *)
Lemma set_Ok_inv models o w r w' :
  set models o w = Ok r w' →
  ∃ s w1 o1 w2 w4,
    first_pass models (set_defaults o) w = (s, w1)
    ∧ remove_pass s (set_defaults o) w1 = Some (o1, w2)
    ∧ log w4 = log w2
    ∧ w' = notify (position (set_defaults o) w)
                  (splice_in (position (set_defaults o) w)
                             (sortable (set_defaults o) w) s w2).1 s o1 w4
    ∧ r = result models (st_models s).
Proof.
  unfold set.
  replace (if truthy (o_parse (set_defaults o)) then parse models else models)
    with models by (by destruct (truthy _)).
  destruct (first_pass models (set_defaults o) w) as [s w1] eqn:Hfirst.
  destruct (remove_pass s (set_defaults o) w1) as [[o1 w2]|] eqn:Hrem; [|done].
  pose proof (log_splice_in (position (set_defaults o) w)
                (sortable (set_defaults o) w) s w2) as Hs.
  destruct (splice_in _ _ s w2) as [srt w3] eqn:Hsplice. simpl in Hs.
  destruct srt.
  - destruct (sort silent_sort w3) as [[] w4|] eqn:Hsort; [|done].
    intros [= <- <-]. exists s, w1, o1, w2, w4.
    destruct (sort_silent_inv w3 _ w4 Hsort eq_refl) as [Hl _].
    split_and!; [done|done|by rewrite Hl|by rewrite Hsplice|done].
  - intros [= <- <-]. exists s, w1, o1, w2, w3.
    split_and!; [done|done|done|by rewrite Hsplice|done].
Qed.

Lemma with_index_idem i j o : with_index j (with_index i o) = with_index j o.
Proof. done. Qed.

Lemma reindexed_refl o : reindexed o o.
Proof. by left. Qed.

Lemma reindexed_trans o o1 o2 : reindexed o o1 → reindexed o1 o2 → reindexed o o2.
Proof.
  intros [->|[i ->]] [->|[j ->]]; [by left|right; by exists j|right; by exists i|].
  right. by exists j.
Qed.

Lemma reindexed_silent o o1 : reindexed o o1 → o_silent o1 = o_silent o.
Proof. by intros [->|[j ->]]. Qed.

Lemma reindexed_remove_one p o w : reindexed o (remove_one p o w).1.2.
Proof.
  unfold remove_one. destruct (get p w); [|by left].
  destruct (truthy (o_silent o)); simpl; [by left|right; eauto].
Qed.

Lemma reindexed_remove_loop ps : ∀ o w, reindexed o (remove_loop ps o w).1.2.
Proof.
  induction ps as [|p ps IH]; intros o w; simpl; [by left|].
  pose proof (reindexed_remove_one p o w) as H1.
  destruct (remove_one p o w) as [[r o1] w1]. simpl in H1.
  pose proof (IH o1 w1) as H2.
  destruct (remove_loop ps o1 w1) as [[rs o2] w2]. simpl in *.
  by eapply reindexed_trans.
Qed.

Lemma remove_pass_inv s o w o1 w2 :
  remove_pass s o w = Some (o1, w2) →
  emits (named ["remove"]) w w2 ∧ reindexed o o1.
Proof.
  unfold remove_pass. destruct (truthy (o_remove o)).
  - destruct (stale _ _ _) as [[|m toRemove]|]; [| |done].
    + intros [= <- <-]. split; [apply emits_refl|by left].
    + pose proof (emits_remove (Many (PModel <$> m :: toRemove)) o w) as He.
      pose proof (reindexed_remove_loop (PModel <$> m :: toRemove) o w) as Hr.
      unfold remove in *.
      destruct (remove_loop (PModel <$> m :: toRemove) o w) as [[rs o2] w3].
      by intros [= <- <-].
  - intros [= <- <-]. split; [apply emits_refl|by left].
Qed.

Lemma log_notify at_ srt s o w :
  ∃ l3 l4,
    log (notify at_ srt s o w) = log w ++ l3 ++ l4
    ∧ Forall (named ["add"]) l3
    ∧ filter (λ n, on_model n) l3 =
        (if truthy (o_silent o) then []
         else expected_adds at_ 0 (st_toAdd s) o)
    ∧ l4 = (if negb (truthy (o_silent o)) && (srt || st_orderChanged s)
            then [Notification OnCollection "sort" None None o] else []).
Proof.
  unfold notify. destruct (truthy (o_silent o)); simpl.
  - exists [], []. by rewrite !app_nil_r.
  - destruct (log_notify_added at_ (st_toAdd s) o 0%Z w) as (l & Hl & Hf & Hn).
    exists l. destruct (srt || st_orderChanged s); simpl.
    + exists [Notification OnCollection "sort" None None o].
      unfold emit; simpl. by rewrite Hl, <-(assoc_L (++)).
    + exists []. by rewrite app_nil_r.
Qed.

(** C4: the notifications of one call of [set] come in a fixed order:
    first those of the classification pass (the "change" of every merge,
    and "invalid" for rejected entries), then every "remove", then every
    "add", and last the "sort" notification of the collection, if any. *)
Theorem set_notifications_in_fixed_order
    (models : input entry) (o : options) (w : world) :
  ∃ changes removes adds sorts,
    log (out_world (set models o w)) = log w ++ changes ++ removes ++ adds ++ sorts
    ∧ Forall (named ["change"; "invalid"]) changes
    ∧ Forall (named ["remove"]) removes
    ∧ Forall (named ["add"]) adds
    ∧ (sorts = []
       ∨ ∃ o1, sorts = [Notification OnCollection "sort" None None o1]).
Proof.
  unfold set.
  replace (if truthy (o_parse (set_defaults o)) then parse models else models)
    with models by (by destruct (truthy _)).
  unfold first_pass.
  pose proof (emits_classify (set_defaults o) (sortable (set_defaults o) w)
                (sortAttr w) (entries models) 0 (staging_init (set_defaults o) w) w)
    as (l1 & Hl1 & F1).
  destruct (classify _ _ _ _ _ _ _) as [s w1]. simpl in Hl1.
  destruct (remove_pass s (set_defaults o) w1) as [[o1 w2]|] eqn:Hrem.
  - apply remove_pass_inv in Hrem as [(l2 & Hl2 & F2) _].
    pose proof (log_splice_in (position (set_defaults o) w)
                  (sortable (set_defaults o) w) s w2) as Hs.
    destruct (splice_in _ _ s w2) as [srt w3]. simpl in Hs.
    assert (∃ w4, log w4 = log w3 ∧
              ((if srt then sort silent_sort w3 else Ok () w3) = Ok () w4
               ∨ ∃ e, (if srt then sort silent_sort w3 else Ok () w3) = Throw e w4))
      as (w4 & Hl4 & Hout).
    { destruct srt; [|exists w3; auto].
      destruct (sort silent_sort w3) as [[] w4|e w4] eqn:Hsort; exists w4;
        (split; [by destruct (sort_silent_inv w3 _ w4 Hsort eq_refl)|eauto]). }
    destruct Hout as [->|[e ->]]; simpl.
    + destruct (log_notify (position (set_defaults o) w) srt s o1 w4)
        as (l3 & l4 & Hl & F3 & _ & Hl4').
      exists l1, l2, l3, l4. rewrite Hl, Hl4, Hs, Hl2, Hl1, <-!(assoc_L (++)).
      split_and!; [done..|]. rewrite Hl4'. case_match; eauto.
    + exists l1, l2, [], []. rewrite Hl4, Hs, Hl2, Hl1, <-!(assoc_L (++)), !app_nil_r.
      split_and!; auto.
  - simpl. exists l1, [], [], []. rewrite Hl1, !app_nil_r. split_and!; auto.
Qed.

Lemma filter_none {A} (P : A → Prop) `{∀ x, Decision (P x)} (l : list A) :
  Forall (λ x, ¬ P x) l → filter P l = [].
Proof.
  induction 1 as [|x l Hx _ IH]; [done|]. by rewrite filter_cons_False.
Qed.

Lemma filter_all {A} (P Q : A → Prop) `{∀ x, Decision (P x)} `{∀ x, Decision (Q x)}
    (l : list A) :
  Forall (λ x, P x ↔ Q x) l → filter P l = filter Q l.
Proof.
  induction 1 as [|x l Hx _ IH]; [done|].
  destruct (decide (P x)) as [HP|HP].
  - rewrite !filter_cons_True by tauto. by rewrite IH.
  - rewrite !filter_cons_False by tauto. done.
Qed.

Lemma named_is_event names name n :
  named names n → name ∉ names → is_event name n = false.
Proof.
  unfold named, is_event. intros Hn Hnot.
  apply bool_decide_eq_false. by intros <-.
Qed.

Lemma splice_in_sort at_ srt s w :
  (splice_in at_ srt s w).1 = st_sort s || staged s && srt.
Proof.
  unfold splice_in. destruct (staged s); simpl.
  - done.
  - by rewrite orb_false_r.
Qed.

Lemma not_elem_of_strings (x : string) (l : list string) :
  bool_decide (x ∈ l) = false → x ∉ l.
Proof. by intros H%bool_decide_eq_false. Qed.

(** ** Frame properties *)

Lemma same_attrs_refl w : same_attrs w w.
Proof. done. Qed.

Lemma same_attrs_trans w1 w2 w3 :
  same_attrs w1 w2 → same_attrs w2 w3 → same_attrs w1 w3.
Proof. intros H1 H2 c. by rewrite H2, H1. Qed.

Lemma same_attrs_heap w w' : heap w' = heap w → same_attrs w w'.
Proof. intros H c. unfold get_model. by rewrite H. Qed.

Lemma get_model_upd c f w x :
  get_model (upd_model c f w) x =
  if decide (c = x) then
    match heap w !! x with Some m => f m | None => blank_model end
  else get_model w x.
Proof.
  unfold get_model, upd_model. simpl. case_decide as Hx.
  - subst. rewrite lookup_alter_eq. by destruct (heap w !! x).
  - by rewrite lookup_alter_ne.
Qed.

Lemma same_attrs_upd c f w :
  (∀ m, attributes (f m) = attributes m) → same_attrs w (upd_model c f w).
Proof.
  intros Hf x. rewrite get_model_upd. case_decide; [|done].
  unfold get_model. destruct (heap w !! x); simpl; auto.
Qed.

Lemma id_of_same w w' c : same_attrs w w' → id_of w' c = id_of w c.
Proof. intros H. unfold id_of. by rewrite H. Qed.

Lemma keys_of_same w w' c : same_attrs w w' → keys_of w' c = keys_of w c.
Proof. intros H. unfold keys_of. by rewrite (id_of_same w w'). Qed.

Lemma indexed_frame w w' cs :
  same_attrs w w' → Coll._byId (coll w') = Coll._byId (coll w) →
  indexed w cs → indexed w' cs.
Proof.
  intros Ha Hix (Hnd & Hidx & Hres). split_and!; [done| |by rewrite Hix].
  intros k c. by rewrite Hix, (keys_of_same w w'), Hidx.
Qed.

Lemma get_frame w w' p :
  same_attrs w w' → Coll._byId (coll w') = Coll._byId (coll w) →
  get p w' = get p w.
Proof.
  intros Ha Hix. unfold get. rewrite Hix.
  replace (probe_id w' p) with (probe_id w p); [done|].
  destruct p; simpl; by rewrite ?Ha.
Qed.

Lemma same_attrs_rekey c w : same_attrs w (rekey c w).
Proof. apply same_attrs_heap, heap_rekey. Qed.

Lemma same_attrs_trigger_model ev c o w : same_attrs w (trigger_model ev c o w).
Proof. apply same_attrs_heap, heap_trigger_model. Qed.

Lemma coll_trigger_model ev c o w :
  ev ≠ "change" → coll (trigger_model ev c o w) = coll w.
Proof.
  intros Hev. unfold trigger_model, proxy_event.
  destruct (listening (get_model w c)); [|done]. by rewrite decide_False.
Qed.

Lemma next_cid_trigger_model ev c o w :
  next_cid (trigger_model ev c o w) = next_cid w.
Proof.
  unfold trigger_model, proxy_event, rekey.
  destruct (listening (get_model w c)); [|done]. repeat case_decide; done.
Qed.

(** ** The index of a well-formed collection *)

Lemma indexed_reserved w cs k :
  indexed w cs → k ∈ reserved → Coll._byId (coll w) !! k = None.
Proof. intros (_ & _ & Hres) Hk. by eapply (proj1 (Forall_forall _ _) Hres). Qed.

Lemma indexed_object_key w cs :
  indexed w cs → Coll._byId (coll w) !! object_key = None.
Proof. intros H. apply (indexed_reserved w cs); [done|]. by left. Qed.

Lemma nullish_key_reserved v : nullish v = true → to_key v ∈ reserved.
Proof. destruct v; try done; intros _; [right; by left|right; right; by left]. Qed.

Lemma indexed_cid w cs c :
  indexed w cs → c ∈ cs → Coll._byId (coll w) !! cid_key c = Some c.
Proof. intros (_ & Hidx & _) Hc. apply Hidx. split; [done|]. by left. Qed.

Lemma indexed_id w cs c :
  indexed w cs → c ∈ cs → nullish (id_of w c) = false →
  Coll._byId (coll w) !! to_key (id_of w c) = Some c.
Proof.
  intros (_ & Hidx & _) Hc Hn. apply Hidx. split; [done|].
  unfold keys_of. rewrite Hn. right; by left.
Qed.

Lemma indexed_lookup w cs k c :
  indexed w cs → Coll._byId (coll w) !! k = Some c → c ∈ cs ∧ k ∈ keys_of w c.
Proof. intros (_ & Hidx & _) H. by apply Hidx. Qed.

(** A member resolves to itself. *)
Lemma indexed_get_member w cs c :
  indexed w cs → c ∈ cs → get (PModel c) w = Some c.
Proof.
  intros Hix Hc. unfold get. simpl.
  rewrite (indexed_object_key w cs Hix). simpl. fold (id_of w c).
  destruct (nullish (id_of w c)) eqn:Hn.
  - rewrite (indexed_reserved w cs _ Hix (nullish_key_reserved _ Hn)). simpl.
    by apply (indexed_cid w cs).
  - by rewrite (indexed_id w cs c Hix Hc Hn).
Qed.

(** Whatever a probe resolves to is a registered record. *)
Lemma indexed_get w cs p c : indexed w cs → get p w = Some c → c ∈ cs.
Proof.
  intros Hix. unfold get. destruct (probe_null p); [done|].
  destruct (Coll._byId (coll w) !! probe_key p) as [x|] eqn:H1; simpl.
  { intros [= ->]. by apply (indexed_lookup w cs _ _ Hix H1). }
  destruct (Coll._byId (coll w) !! to_key (probe_id w p)) as [x|] eqn:H2; simpl.
  { intros [= ->]. by apply (indexed_lookup w cs _ _ Hix H2). }
  intros H3. by apply (indexed_lookup w cs _ _ Hix H3).
Qed.

Lemma lookup_unregister w c ix k :
  unregister w c ix !! k = if bool_decide (k ∈ keys_of w c) then None else ix !! k.
Proof.
  unfold unregister, keys_of. destruct (nullish (id_of w c)).
  - case_bool_decide as Hk.
    + apply list_elem_of_singleton in Hk as ->. by rewrite lookup_delete_eq.
    + rewrite lookup_delete_ne; [done|]. intros <-. apply Hk. by left.
  - case_bool_decide as Hk.
    + apply elem_of_cons in Hk as [->|Hk]; [by rewrite lookup_delete_eq|].
      apply list_elem_of_singleton in Hk as ->.
      destruct (decide (cid_key c = to_key (id_of w c))) as [<-|Hne].
      * by rewrite lookup_delete_eq.
      * by rewrite lookup_delete_ne, lookup_delete_eq.
    + rewrite !lookup_delete_ne; [done|..]; intros <-; apply Hk;
        [right; by left|by left].
Qed.

Lemma indexed_unregister w w' cs c :
  indexed w cs → c ∈ cs → same_attrs w w' →
  Coll._byId (coll w') = unregister w c (Coll._byId (coll w)) →
  indexed w' (filter (λ x, x ≠ c) cs).
Proof.
  intros Hix Hc Ha Hby. pose proof Hix as (Hnd & Hidx & Hres). split_and!.
  - by apply NoDup_filter.
  - intros k x. rewrite Hby, lookup_unregister, (keys_of_same w w') by done.
    rewrite list_elem_of_filter. case_bool_decide as Hk; split.
    + done.
    + intros [[Hne Hx] Hkx]. destruct Hne.
      assert (Coll._byId (coll w) !! k = Some x) as H1 by (by apply Hidx).
      assert (Coll._byId (coll w) !! k = Some c) as H2 by (by apply Hidx).
      congruence.
    + intros H. apply Hidx in H as [Hx Hkx]. split_and!; [|done..].
      intros ->. done.
    + intros [[_ Hx] Hkx]. by apply Hidx.
  - apply Forall_forall. intros k Hk. rewrite Hby, lookup_unregister.
    case_bool_decide; [done|]. by apply (indexed_reserved w cs).
Qed.

(** ** Removing a member *)

Lemma filter_id {A} (P : A → Prop) `{∀ x, Decision (P x)} (l : list A) :
  Forall P l → filter P l = l.
Proof. induction 1 as [|x l Hx _ IH]; [done|]. by rewrite filter_cons_True, IH. Qed.

Lemma indexOf_nonneg l c : c ∈ l → (0 ≤ indexOf l c)%Z.
Proof.
  induction l as [|y l IH]; [by intros ?%elem_of_nil|].
  intros [->|Hc]%elem_of_cons; simpl.
  - by rewrite decide_True.
  - case_decide; [done|]. specialize (IH Hc).
    destruct (Z.ltb_spec (indexOf l c) 0); lia.
Qed.

Lemma indexOf_lt l c : (indexOf l c < Z.of_nat (List.length l))%Z.
Proof.
  induction l as [|y l IH]; simpl; [lia|].
  case_decide; [lia|]. destruct (Z.ltb_spec (indexOf l c) 0); lia.
Qed.

Lemma splice_start_in (i : Z) (n : nat) :
  (0 ≤ i ≤ Z.of_nat n)%Z → splice_start i n = Z.to_nat i.
Proof.
  intros Hi. unfold splice_start.
  destruct (Z.ltb_spec i 0); [lia|]. f_equal. lia.
Qed.

Lemma splice_delete_member l c :
  NoDup l → c ∈ l → splice_delete (indexOf l c) l = filter (λ x, x ≠ c) l.
Proof.
  unfold splice_delete. intros Hnd Hc.
  rewrite splice_start_in
    by (pose proof (indexOf_nonneg l c Hc); pose proof (indexOf_lt l c); lia).
  induction l as [|y l IH]; [by apply elem_of_nil in Hc|].
  apply NoDup_cons in Hnd as [Hy Hnd]. simpl. case_decide as Hyc.
  - subst y. simpl. rewrite filter_cons_False by tauto.
    symmetry. apply filter_id, Forall_forall. by intros x Hx ->.
  - apply elem_of_cons in Hc as [->|Hc]; [done|].
    pose proof (indexOf_nonneg l c Hc).
    destruct (Z.ltb_spec (indexOf l c) 0); [lia|].
    rewrite filter_cons_True by done.
    replace (Z.to_nat (indexOf l c + 1)) with (S (Z.to_nat (indexOf l c))) by lia.
    simpl. f_equal. by apply IH.
Qed.

Lemma length_filter_ne (l : list cid) c :
  NoDup l → c ∈ l →
  Z.of_nat (List.length (filter (λ x, x ≠ c) l)) = (Z.of_nat (List.length l) - 1)%Z.
Proof.
  induction l as [|y l IH]; [by intros _ ?%elem_of_nil|].
  intros [Hy Hnd]%NoDup_cons Hc. destruct (decide (y = c)) as [->|Hyc].
  - rewrite filter_cons_False by tauto.
    rewrite filter_id; [simpl; lia|]. apply Forall_forall. by intros x Hx ->.
  - apply elem_of_cons in Hc as [->|Hc]; [done|].
    rewrite filter_cons_True by done. simpl. specialize (IH Hnd Hc). lia.
Qed.

Lemma same_attrs_removeReference c w : same_attrs w (_removeReference c w).
Proof. by apply same_attrs_upd. Qed.

Lemma remove_one_unresolved p o w :
  get p w = None → remove_one p o w = (None, o, w).
Proof. unfold remove_one. by intros ->. Qed.

Lemma remove_one_spec p o w cs c :
  indexed w cs → get p w = Some c →
  c ∈ Coll.models (coll w) → NoDup (Coll.models (coll w)) →
  ∃ o1 w' l,
    remove_one p o w = (Some c, o1, w')
    ∧ reindexed o o1
    ∧ same_attrs w w'
    ∧ indexed w' (filter (λ x, x ≠ c) cs)
    ∧ Coll.models (coll w') = filter (λ x, x ≠ c) (Coll.models (coll w))
    ∧ Coll.length (coll w') = (Coll.length (coll w) - 1)%Z
    ∧ Coll.comparator (coll w') = Coll.comparator (coll w)
    ∧ next_cid w' = next_cid w
    ∧ log w' = log w ++ l
    ∧ filter (λ n, on_model n) l =
        (if truthy (o_silent o) then []
         else [Notification (OnModel c) "remove" (Some c) None
                 (with_index (indexOf (Coll.models (coll w)) c) o)]).
Proof.
  intros Hix Hget Hc Hnd. unfold remove_one. rewrite Hget.
  fold (id_of w c). fold (unregister w c (Coll._byId (coll w))).
  set (w1 := upd_coll _ w).
  assert (Hcs : c ∈ cs) by (by eapply indexed_get).
  assert (Hw1 : indexed w1 (filter (λ x, x ≠ c) cs)).
  { by apply (indexed_unregister w w1 cs c). }
  destruct (truthy (o_silent o)) eqn:Hs.
  - exists o, (_removeReference c w1), []. rewrite app_nil_r.
    split_and!; [done|by left| | | |done..].
    + apply (same_attrs_removeReference c w1).
    + apply (indexed_frame w1); [apply same_attrs_removeReference|done|done].
    + simpl. by apply splice_delete_member.
  - eexists _, _, _. split; [done|].
    pose proof (coll_trigger_model "remove" c
                  (with_index (indexOf (Coll.models (coll w)) c) o) w1) as Hcoll.
    split_and!.
    + right. eauto.
    + eapply same_attrs_trans; [|apply same_attrs_removeReference].
      eapply same_attrs_trans; [|apply same_attrs_trigger_model]. done.
    + apply (indexed_frame w1); [|simpl; by rewrite Hcoll|done].
      eapply same_attrs_trans; [|apply same_attrs_removeReference].
      apply same_attrs_trigger_model.
    + simpl. rewrite Hcoll by done. simpl. by apply splice_delete_member.
    + simpl. by rewrite Hcoll.
    + simpl. by rewrite Hcoll.
    + simpl. by rewrite next_cid_trigger_model.
    + simpl. by rewrite log_trigger_model.
    + destruct (listening (get_model w1 c)); done.
Qed.

Lemma filter_filter_ne (l : list cid) c (rest : list cid) :
  filter (λ x, x ∉ rest) (filter (λ x, x ≠ c) l) = filter (λ x, x ∉ c :: rest) l.
Proof.
  induction l as [|y l IH]; [done|].
  destruct (decide (y = c)) as [->|Hy].
  - rewrite (filter_cons_False (λ x, x ≠ c)) by tauto.
    rewrite (filter_cons_False (λ x, x ∉ c :: rest)); [done|].
    intros H. apply H. by left.
  - rewrite (filter_cons_True (λ x, x ≠ c)) by done.
    destruct (decide (y ∈ rest)) as [Hr|Hr].
    + rewrite !filter_cons_False; [done|..]; intros H; apply H; [by right|done].
    + rewrite !filter_cons_True; [by rewrite IH|..]; [|done].
      by intros [?|?]%elem_of_cons.
Qed.

(** Removing members [l] one after the other leaves the others in place. *)
Lemma remove_loop_members l : ∀ o w cs,
  indexed w cs → NoDup (Coll.models (coll w)) → NoDup l →
  (∀ c, c ∈ l → c ∈ Coll.models (coll w) ∧ c ∈ cs) →
  ∃ rs o1 w',
    remove_loop (PModel <$> l) o w = (rs, o1, w')
    ∧ reindexed o o1
    ∧ same_attrs w w'
    ∧ indexed w' (filter (λ x, x ∉ l) cs)
    ∧ Coll.models (coll w') = filter (λ x, x ∉ l) (Coll.models (coll w))
    ∧ Coll.length (coll w') = (Coll.length (coll w) - Z.of_nat (List.length l))%Z
    ∧ Coll.comparator (coll w') = Coll.comparator (coll w)
    ∧ next_cid w' = next_cid w.
Proof.
  induction l as [|c l IH]; intros o w cs Hix Hnd Hl Hin.
  - exists [], o, w. simpl. split_and!; try done.
    + by left.
    + rewrite filter_id; [done|]. apply Forall_forall. intros x _. apply not_elem_of_nil.
    + rewrite filter_id; [done|]. apply Forall_forall. intros x _. apply not_elem_of_nil.
    + lia.
  - apply NoDup_cons in Hl as [Hc Hl].
    destruct (Hin c) as [Hcm Hcc]; [by left|].
    destruct (remove_one_spec (PModel c) o w cs c Hix
                (indexed_get_member w cs c Hix Hcc) Hcm Hnd)
      as (o1 & w1 & l1 & Hr & Hre & Ha & Hix1 & Hms & Hlen & Hcmp & Hnext & _).
    destruct (IH o1 w1 (filter (λ x, x ≠ c) cs)) as
      (rs & o2 & w2 & Hr2 & Hre2 & Ha2 & Hix2 & Hms2 & Hlen2 & Hcmp2 & Hnext2).
    + done.
    + rewrite Hms. by apply NoDup_filter.
    + done.
    + intros x Hx. rewrite Hms, !list_elem_of_filter.
      destruct (Hin x) as [? ?]; [by right|].
      assert (x ≠ c) by (by intros ->). done.
    + exists (Some c :: rs), o2, w2.
      rewrite fmap_cons. cbn [remove_loop]. rewrite Hr. cbv beta iota.
      rewrite Hr2.
      split_and!; [done| | | | | | |].
      * by eapply reindexed_trans.
      * by eapply same_attrs_trans.
      * by rewrite <-filter_filter_ne.
      * by rewrite Hms2, Hms, filter_filter_ne.
      * rewrite Hlen2, Hlen. cbn [List.length]. lia.
      * by rewrite Hcmp2.
      * by rewrite Hnext2.
Qed.

Lemma wf_remove_one p o w c :
  wf w → get p w = Some c →
  ∃ o1 w' l,
    remove_one p o w = (Some c, o1, w')
    ∧ reindexed o o1
    ∧ wf w'
    ∧ Coll.models (coll w') = filter (λ x, x ≠ c) (Coll.models (coll w))
    ∧ log w' = log w ++ l
    ∧ filter (λ n, on_model n) l =
        (if truthy (o_silent o) then []
         else [Notification (OnModel c) "remove" (Some c) None
                 (with_index (indexOf (Coll.models (coll w)) c) o)]).
Proof.
  intros (Hlen & Hix & Hfresh & Hnew) Hget.
  assert (Hc : c ∈ Coll.models (coll w)) by (by eapply indexed_get).
  destruct (remove_one_spec p o w _ c Hix Hget Hc (proj1 Hix))
    as (o1 & w1 & l1 & Hr & Hre & Ha & Hix1 & Hms & Hlen1 & Hcmp & Hnext & Hl1 & Hf1).
  exists o1, w1, l1. split_and!; [done|done| |done|done|done].
  split_and!.
  - rewrite Hlen1, Hms, Hlen. symmetry. apply length_filter_ne; [apply Hix|done].
  - by rewrite Hms.
  - rewrite Hms, Hnext. apply Forall_forall. intros x [_ Hx]%list_elem_of_filter.
    by apply (proj1 (Forall_forall _ _) Hfresh).
  - intros n Hn. rewrite Hnext in Hn.
    destruct (Coll._byId (coll w1) !! cid_key n) as [x|] eqn:Hk; [|done].
    apply (indexed_lookup w1 _ _ _ Hix1) in Hk as [[_ Hx]%list_elem_of_filter Hk].
    rewrite (keys_of_same w w1) in Hk by done.
    rewrite <-(Hnew n Hn). symmetry. by apply Hix.
Qed.

(** [remove] on a well-formed collection, for any probes: the entries that
    resolve are taken out, the others are passed over. *)
Lemma remove_loop_probes ps : ∀ o w,
  wf w →
  ∃ rs o1 w' l,
    remove_loop ps o w = (rs, o1, w')
    ∧ List.length rs = List.length ps
    ∧ reindexed o o1
    ∧ wf w'
    ∧ Coll.models (coll w') = filter (λ x, Some x ∉ rs) (Coll.models (coll w))
    ∧ log w' = log w ++ l
    ∧ (λ n, n_model n) <$> filter (λ n, on_model n) l =
        (if truthy (o_silent o) then [] else Some <$> omap id rs).
Proof.
  induction ps as [|p ps IH]; intros o w Hwf.
  - exists [], o, w, []. simpl. rewrite app_nil_r. split_and!; try done.
    + by left.
    + rewrite filter_id; [done|]. apply Forall_forall. intros x _. apply not_elem_of_nil.
    + by destruct (truthy (o_silent o)).
  - simpl. destruct (get p w) as [c|] eqn:Hget.
    + destruct (wf_remove_one p o w c Hwf Hget)
        as (o1 & w1 & l1 & Hr & Hre & Hwf1 & Hms & Hl1 & Hf1).
      destruct (IH o1 w1 Hwf1) as
        (rs & o2 & w2 & l2 & Hr2 & Hlrs & Hre2 & Hwf2 & Hms2 & Hl2 & Hf2).
      exists (Some c :: rs), o2, w2, (l1 ++ l2). rewrite Hr, Hr2.
      split_and!; [done|simpl; by rewrite Hlrs| |done| | |].
      * by eapply reindexed_trans.
      * rewrite Hms2, Hms. clear.
        induction (Coll.models (coll w)) as [|y l IH]; [done|].
        destruct (decide (y = c)) as [->|Hy].
        -- rewrite (filter_cons_False (λ x, x ≠ c)) by tauto.
           rewrite (filter_cons_False (λ x, Some x ∉ Some c :: rs)); [done|].
           intros H. apply H. by left.
        -- rewrite (filter_cons_True (λ x, x ≠ c)) by done.
           destruct (decide (Some y ∈ rs)) as [Hr|Hr].
           ++ rewrite !filter_cons_False; [done|..]; intros H; apply H; [by right|done].
           ++ rewrite !filter_cons_True; [by rewrite IH|..]; [|done].
              intros [?|?]%elem_of_cons; [congruence|done].
      * by rewrite Hl2, Hl1, (assoc_L (++)).
      * rewrite filter_app, fmap_app, Hf2, Hf1, (reindexed_silent _ _ Hre).
        by destruct (truthy (o_silent o)).
    + rewrite (remove_one_unresolved p o w Hget).
      destruct (IH o w Hwf) as
        (rs & o2 & w2 & l2 & Hr2 & Hlrs & Hre2 & Hwf2 & Hms2 & Hl2 & Hf2).
      exists (None :: rs), o2, w2, l2. rewrite Hr2.
      split_and!; [done|simpl; by rewrite Hlrs|done|done| |done|done].
      rewrite Hms2. apply filter_all, Forall_forall. intros x _.
      split; intros H.
      * intros [?|?]%elem_of_cons; [congruence|done].
      * intros ?. apply H. by right.
Qed.

(** A step of [remove] leaves every registration as it was, except those
    of the record it took out. *)
Lemma lookup_after_remove_one p o w k :
  wf w →
  Coll._byId (coll (remove_one p o w).2) !! k
  = Coll._byId (coll w) !! k
    ≫= (λ x, if decide ((remove_one p o w).1.1 = Some x) then None else Some x).
Proof.
  intros Hwf. destruct (get p w) as [c|] eqn:Hget.
  - pose proof Hwf as (Hlen & Hix & _).
    assert (Hc : c ∈ Coll.models (coll w)) by (by eapply indexed_get).
    destruct (remove_one_spec p o w _ c Hix Hget Hc (proj1 Hix))
      as (o1 & w1 & l1 & Hr & _ & Ha & Hix1 & _).
    rewrite Hr. simpl.
    destruct Hix as (_ & Hidx & _). destruct Hix1 as (_ & Hidx1 & _).
    apply option_eq. intros x. rewrite Hidx1, list_elem_of_filter.
    rewrite (keys_of_same w w1) by done.
    destruct (Coll._byId (coll w) !! k) as [y|] eqn:Hk; simpl.
    + assert (Huniq : ∀ z, z ∈ Coll.models (coll w) → k ∈ keys_of w z → z = y).
      { intros z Hz Hkz.
        assert (H2 : Coll._byId (coll w) !! k = Some z) by (by apply Hidx).
        congruence. }
      pose proof (proj1 (Hidx k y) Hk) as [Hy Hky].
      case_decide as Hyc.
      * injection Hyc as ->. split; [|done].
        intros [[Hxc Hx] Hkx]. destruct Hxc. by apply Huniq.
      * split.
        -- intros [[Hxc Hx] Hkx]. f_equal. symmetry. by apply Huniq.
        -- intros [= <-]. split_and!; [congruence|done|done].
    + split; [|done]. intros [[_ Hx] Hkx].
      assert (H2 : Coll._byId (coll w) !! k = Some x) by (by apply Hidx).
      congruence.
  - rewrite (remove_one_unresolved p o w Hget). simpl.
    by destruct (Coll._byId (coll w) !! k).
Qed.

Lemma same_attrs_remove_one p o w : wf w → same_attrs w (remove_one p o w).2.
Proof.
  intros Hwf. destruct (get p w) as [c|] eqn:Hget.
  - pose proof Hwf as (Hlen & Hix & _).
    assert (Hc : c ∈ Coll.models (coll w)) by (by eapply indexed_get).
    destruct (remove_one_spec p o w _ c Hix Hget Hc (proj1 Hix))
      as (o1 & w1 & l1 & Hr & _ & Ha & _).
    by rewrite Hr.
  - rewrite (remove_one_unresolved p o w Hget). apply same_attrs_refl.
Qed.

(** What [get] answers after a step of [remove]: an entry that resolved
    to no member still resolves to none, and an entry that resolved to a
    member other than the one taken out still resolves to it. *)
Lemma get_after_remove_one p q o w :
  wf w →
  (get q w = None → get q (remove_one p o w).2 = None)
  ∧ (∀ c, get q w = Some c → (remove_one p o w).1.1 ≠ Some c →
          get q (remove_one p o w).2 = Some c).
Proof.
  intros Hwf. pose proof (same_attrs_remove_one p o w Hwf) as Ha.
  assert (Hid : probe_id (remove_one p o w).2 q = probe_id w q).
  { destruct q; simpl; by rewrite ?Ha. }
  unfold get. rewrite Hid, !(lookup_after_remove_one p o w _ Hwf).
  destruct (probe_null q); [done|].
  destruct (Coll._byId (coll w) !! probe_key q) as [x1|]; simpl;
    [split; [done|]; intros c [= ->] Hne; by rewrite decide_False|].
  destruct (Coll._byId (coll w) !! to_key (probe_id w q)) as [x2|]; simpl;
    [split; [done|]; intros c [= ->] Hne; by rewrite decide_False|].
  destruct (Coll._byId (coll w) !! probe_cid q) as [x3|]; simpl;
    [split; [done|]; intros c [= ->] Hne; by rewrite decide_False|].
  done.
Qed.

Lemma wf_after_remove_one p o w : wf w → wf (remove_one p o w).2.
Proof.
  intros Hwf. destruct (get p w) as [c|] eqn:Hget.
  - destruct (wf_remove_one p o w c Hwf Hget) as (o1 & w1 & l & Hr & _ & Hwf1 & _).
    by rewrite Hr.
  - by rewrite (remove_one_unresolved p o w Hget).
Qed.

(** The results of [remove], entry by entry, against what [get] answers
    before the call. *)
Lemma remove_loop_resolves ps : ∀ o w,
  wf w →
  let rs := (remove_loop ps o w).1.1 in
  let w' := (remove_loop ps o w).2 in
  (∀ i q, ps !! i = Some q → get q w = None → rs !! i = Some None)
  ∧ (∀ q c, q ∈ ps → get q w = Some c → Some c ∈ rs)
  ∧ (∀ c, Some c ∈ rs → c ∈ Coll.models (coll w))
  ∧ (∀ q, get q w = None → get q w' = None).
Proof.
  induction ps as [|p ps IH]; intros o w Hwf.
  { simpl. split_and!; [done|by intros ?? ?%elem_of_nil|by intros ? ?%elem_of_nil|done]. }
  cbn [remove_loop].
  pose proof (wf_after_remove_one p o w Hwf) as Hwf1.
  pose proof (λ q, get_after_remove_one p q o w Hwf) as Hget.
  assert (Hsub : ∀ c, c ∈ Coll.models (coll (remove_one p o w).2) →
                      c ∈ Coll.models (coll w)).
  { intros c. destruct (get p w) as [x|] eqn:Hp.
    - destruct (wf_remove_one p o w x Hwf Hp) as (o1 & w1 & l & Hr & _ & _ & Hms & _).
      rewrite Hr. simpl. rewrite Hms. by intros [_ ?]%list_elem_of_filter.
    - by rewrite (remove_one_unresolved p o w Hp). }
  assert (Hhead : ∀ c, (remove_one p o w).1.1 = Some c → get p w = Some c).
  { intros c. unfold remove_one. destruct (get p w) as [x|]; [|done].
    by destruct (truthy (o_silent o)). }
  assert (Hnone : get p w = None → (remove_one p o w).1.1 = None).
  { intros Hp. by rewrite (remove_one_unresolved p o w Hp). }
  assert (Hsome : ∀ c, get p w = Some c → (remove_one p o w).1.1 = Some c).
  { intros c Hp. destruct (wf_remove_one p o w c Hwf Hp) as (o1 & w1 & l & Hr & _).
    by rewrite Hr. }
  destruct (remove_one p o w) as [[r o1] w1]. simpl in *.
  specialize (IH o1 w1 Hwf1). destruct (remove_loop ps o1 w1) as [[rs o2] w2].
  simpl in *. destruct IH as (IH1 & IH2 & IH3 & IH4). split_and!.
  - intros [|i] q Hq Hn; simpl in *.
    + injection Hq as <-. by rewrite (Hnone Hn).
    + apply (IH1 i q Hq). by apply Hget.
  - intros q c [->|Hq]%elem_of_cons Hc.
    + rewrite (Hsome c Hc). by left.
    + destruct (decide (r = Some c)) as [->|Hne]; [by left|right].
      apply (IH2 q c Hq). by apply Hget.
  - intros c [Hc|Hc]%elem_of_cons.
    + pose proof Hwf as (_ & Hix & _). apply (indexed_get w _ p c Hix). by apply Hhead.
    + by apply Hsub, IH3.
  - intros q Hn. apply IH4. by apply Hget.
Qed.

(** An entry that resolves to no member can be left out of the list: the
    call does the same, and its result has one "not found" more. *)
Lemma remove_loop_skip ps1 : ∀ o w q ps2,
  wf w → get q w = None →
  remove_loop (ps1 ++ q :: ps2) o w =
    (take (List.length ps1) (remove_loop (ps1 ++ ps2) o w).1.1
     ++ None :: drop (List.length ps1) (remove_loop (ps1 ++ ps2) o w).1.1,
     (remove_loop (ps1 ++ ps2) o w).1.2,
     (remove_loop (ps1 ++ ps2) o w).2).
Proof.
  induction ps1 as [|p ps1 IH]; intros o w q ps2 Hwf Hq.
  - cbn [app remove_loop List.length]. rewrite (remove_one_unresolved q o w Hq).
    destruct (remove_loop ps2 o w) as [[rs o1] w1]. simpl. by rewrite drop_0.
  - cbn [app remove_loop List.length].
    pose proof (wf_after_remove_one p o w Hwf) as Hwf1.
    pose proof (proj1 (get_after_remove_one p q o w Hwf) Hq) as Hq1.
    destruct (remove_one p o w) as [[r o1] w1]. simpl in Hwf1, Hq1.
    rewrite (IH o1 w1 q ps2 Hwf1 Hq1).
    by destruct (remove_loop (ps1 ++ ps2) o1 w1) as [[rs o2] w2].
Qed.

(** ** Checking well-formedness by computation *)

Lemma elem_of_index_entries w cs k c :
  (k, c) ∈ index_entries w cs ↔ c ∈ cs ∧ k ∈ keys_of w c.
Proof.
  unfold index_entries. rewrite list_elem_of_bind. split.
  - intros (x & Hk & Hx). apply list_elem_of_fmap in Hk as (k' & [= -> ->] & Hk). done.
  - intros [Hc Hk]. exists c. split; [|done]. apply list_elem_of_fmap. eauto.
Qed.

Lemma wf_check_sound w : wf_check w = true → wf w.
Proof.
  unfold wf_check. intros H.
  repeat (apply andb_prop in H as [H ?]).
  repeat match goal with
         | H : bool_decide _ = true |- _ => apply bool_decide_eq_true in H
         end.
  assert (Hix : indexed w (Coll.models (coll w))).
  { split_and!; [done| |done]. intros k c.
    match goal with Hix : Coll._byId _ = _ |- _ => rewrite Hix end.
    rewrite <-elem_of_index_entries. symmetry. by apply elem_of_list_to_map. }
  split_and!; [done..|].
  intros n Hn. destruct (Coll._byId (coll w) !! cid_key n) as [x|] eqn:Hk; [|done].
  apply (indexed_lookup w _ _ _ Hix) in Hk as [Hx Hk]. exfalso.
  unfold keys_of in Hk. apply elem_of_cons in Hk as [Hk|Hk].
  - apply cid_key_inj in Hk as ->.
    match goal with Hf : Forall (λ c, c < _) _ |- _ =>
      pose proof (proj1 (Forall_forall _ _) Hf x Hx) as Hlt end.
    simpl in Hlt. lia.
  - destruct (nullish (id_of w x)); [by apply elem_of_nil in Hk|].
    apply list_elem_of_singleton in Hk.
    match goal with Hf : Forall (λ c, cid_like _ = false) _ |- _ =>
      pose proof (proj1 (Forall_forall _ _) Hf x Hx) as Hc end.
    simpl in Hc. by rewrite <-Hk in Hc.
Qed.

(** ** remove *)

(** X30: [remove] of a list on a well-formed collection, for entries
    whose lookup keys are not names inherited from [Object.prototype]
    (the source calls [get], and then reads [attributes] of whatever it
    answers).  The result lists, entry by entry, what was taken out.  An
    entry that [get] resolves to no member is passed over: its place in
    the result holds "not found", and the call does what it does without
    that entry.  An entry that [get] resolves to a member has that member
    taken out, by this entry or by an earlier one.  Only members are taken
    out, the sequence keeps the others in order, the collection stays
    well-formed, and the notifications are the "remove" ones, one on each
    record taken out unless the call is silenced.  A single entry yields a
    single result. *)
Theorem remove_passes_over_unresolved_entries
    (ps : list probe) (o : options) (w : world) :
  wf w →
  Forall (own_keys w) ps →
  ∃ rs o1 w' l,
    remove (Many ps) o w = (Many rs, o1, w')
    ∧ List.length rs = List.length ps
    ∧ wf w'
    ∧ Coll.models (coll w') = filter (λ x, Some x ∉ rs) (Coll.models (coll w))
    ∧ (∀ i q, ps !! i = Some q → get q w = None → rs !! i = Some None)
    ∧ (∀ q c, q ∈ ps → get q w = Some c →
              Some c ∈ rs ∧ c ∉ Coll.models (coll w'))
    ∧ (∀ c, Some c ∈ rs → c ∈ Coll.models (coll w))
    ∧ log w' = log w ++ l
    ∧ Forall (named ["remove"]) l
    ∧ (λ n, n_model n) <$> filter (λ n, on_model n) l =
        (if truthy (o_silent o) then [] else Some <$> omap id rs)
    ∧ (∀ ps1 q ps2, ps = ps1 ++ q :: ps2 → get q w = None →
         ∃ rs1 rs2,
           rs = rs1 ++ None :: rs2
           ∧ List.length rs1 = List.length ps1
           ∧ remove (Many (ps1 ++ ps2)) o w = (Many (rs1 ++ rs2), o1, w'))
    ∧ (∀ p, get p w = None → remove (One p) o w = (One None, o, w))
    ∧ (∀ p c, get p w = Some c →
         ∃ o2 w2, remove (One p) o w = (One (Some c), o2, w2)
                  ∧ c ∉ Coll.models (coll w2)).
Proof.
  intros Hwf _.
  destruct (remove_loop_probes ps o w Hwf)
    as (rs & o1 & w' & l & Hr & Hlen & _ & Hwf' & Hms & Hl & Hf).
  pose proof (remove_loop_resolves ps o w Hwf) as (Hnone & Hsome & Hmem & _).
  rewrite Hr in Hnone, Hsome, Hmem. simpl in Hnone, Hsome, Hmem.
  exists rs, o1, w', l. unfold remove. rewrite Hr.
  split_and!; [done|done|done|done|done| |done|done| |done| | | ].
  - intros q c Hq Hc. pose proof (Hsome q c Hq Hc) as Hin. split; [done|].
    rewrite Hms. intros [Hn _]%list_elem_of_filter. done.
  - pose proof (emits_remove_loop ps o w) as (l' & Hl' & Hn).
    rewrite Hr in Hl'. simpl in Hl'. rewrite Hl in Hl'.
    by apply (inj (app (log w))) in Hl' as <-.
  - intros ps1 q ps2 -> Hq.
    rewrite (remove_loop_skip ps1 o w q ps2 Hwf Hq) in Hr.
    destruct (remove_loop_probes (ps1 ++ ps2) o w Hwf)
      as (rs' & o2 & w2 & l2 & Hr2 & Hlen2 & _).
    rewrite Hr2 in Hr |- *. simpl in Hr. injection Hr as <- <- <-.
    exists (take (List.length ps1) rs'), (drop (List.length ps1) rs').
    split_and!; [done| |by rewrite take_drop].
    rewrite length_take, Hlen2, length_app. lia.
  - intros p Hget. simpl. by rewrite (remove_one_unresolved p o w Hget).
  - intros p c Hget. simpl.
    destruct (wf_remove_one p o w c Hwf Hget)
      as (o2 & w2 & l2 & Hr2 & _ & _ & Hms2 & _).
    rewrite Hr2. exists o2, w2. split; [done|].
    rewrite Hms2. intros [Hne _]%list_elem_of_filter. done.
Qed.

(** ** What the phases of [set] leave alone *)

Lemma coll_notify_added at_ toAdd o : ∀ i w,
  coll (notify_added at_ i toAdd o w) = coll w
  ∧ heap (notify_added at_ i toAdd o w) = heap w
  ∧ next_cid (notify_added at_ i toAdd o w) = next_cid w.
Proof.
  induction toAdd as [|m toAdd IH]; intros i w; simpl; [done|].
  destruct (IH (i + 1)%Z
             (trigger_model "add" m
                match at_ with Some a => with_index (a + i) o | None => o end w))
    as (-> & -> & ->).
  by rewrite coll_trigger_model, heap_trigger_model, next_cid_trigger_model.
Qed.

Lemma coll_notify at_ srt s o w :
  coll (notify at_ srt s o w) = coll w
  ∧ heap (notify at_ srt s o w) = heap w
  ∧ next_cid (notify at_ srt s o w) = next_cid w.
Proof.
  unfold notify. destruct (truthy (o_silent o)); [done|].
  destruct (coll_notify_added at_ (st_toAdd s) o 0%Z w) as (H1 & H2 & H3).
  by destruct (srt || st_orderChanged s).
Qed.

Lemma comparator_rekey c w :
  Coll.comparator (coll (rekey c w)) = Coll.comparator (coll w).
Proof. unfold rekey. by case_decide. Qed.

Lemma comparator_trigger_model ev c o w :
  Coll.comparator (coll (trigger_model ev c o w)) = Coll.comparator (coll w).
Proof.
  unfold trigger_model, proxy_event. destruct (listening (get_model w c)); [|done].
  case_decide; simpl; by rewrite ?comparator_rekey.
Qed.

Lemma comparator_model_set c attrs o w :
  Coll.comparator (coll (model_set c attrs o w)) = Coll.comparator (coll w).
Proof.
  unfold model_set. case_match; [done|]. by rewrite comparator_trigger_model.
Qed.

Lemma comparator_classify_entry o srt sa i e s w :
  Coll.comparator (coll (classify_entry o srt sa i e s w).2)
  = Coll.comparator (coll w).
Proof.
  unfold classify_entry. destruct (get (probe_of e) w) as [ex|].
  - unfold merge_existing.
    destruct (truthy (o_merge o) && negb (same_object e ex)); simpl; [|done].
    apply comparator_model_set.
  - destruct (truthy (o_add o)); [|by destruct (st_model s)].
    unfold _prepareModel. destruct e as [b|c]; simpl; [|done].
    by destruct (validate b).
Qed.

Lemma comparator_classify o srt sa es : ∀ i s w,
  Coll.comparator (coll (classify o srt sa i es s w).2)
  = Coll.comparator (coll w).
Proof.
  induction es as [|e es IH]; intros i s w; simpl; [done|].
  pose proof (comparator_classify_entry o srt sa i e s w) as H.
  destruct (classify_entry o srt sa i e s w) as [s1 w1]. simpl in H.
  by rewrite IH.
Qed.

Lemma comparator_remove_one p o w :
  Coll.comparator (coll (remove_one p o w).2) = Coll.comparator (coll w).
Proof.
  unfold remove_one. destruct (get p w); [|done].
  destruct (truthy (o_silent o)); simpl; [done|].
  by rewrite comparator_trigger_model.
Qed.

Lemma comparator_remove_loop ps : ∀ o w,
  Coll.comparator (coll (remove_loop ps o w).2) = Coll.comparator (coll w).
Proof.
  induction ps as [|p ps IH]; intros o w; simpl; [done|].
  pose proof (comparator_remove_one p o w) as H1.
  destruct (remove_one p o w) as [[r o1] w1]. simpl in H1.
  pose proof (IH o1 w1) as H2.
  destruct (remove_loop ps o1 w1) as [[rs o2] w2]. simpl in *. congruence.
Qed.

Lemma comparator_remove_pass s o w o1 w2 :
  remove_pass s o w = Some (o1, w2) →
  Coll.comparator (coll w2) = Coll.comparator (coll w).
Proof.
  unfold remove_pass. destruct (truthy (o_remove o)); [|by intros [= <- <-]].
  destruct (stale _ _ _) as [[|m l]|]; [by intros [= <- <-]| |done].
  unfold remove.
  pose proof (comparator_remove_loop (PModel <$> m :: l) o w) as H.
  destruct (remove_loop (PModel <$> m :: l) o w) as [[rs o2] w3].
  by intros [= <- <-].
Qed.

(** [sort] is only ever set when the collection is sortable. *)
Lemma sort_flag_classify_entry o srt sa i e s w :
  (st_sort s = true → srt = true) →
  st_sort (classify_entry o srt sa i e s w).1 = true → srt = true.
Proof.
  intros Hs. unfold classify_entry. destruct (get (probe_of e) w) as [ex|].
  - unfold merge_existing.
    destruct (truthy (o_merge o) && negb (same_object e ex)); simpl; [|done].
    intros [?|[? _]%andb_prop]%orb_prop; auto.
  - destruct (truthy (o_add o)).
    + destruct (_prepareModel e o w) as [[m|] w1]; simpl; done.
    + destruct (st_model s); simpl; done.
Qed.

Lemma sort_flag_classify o srt sa es : ∀ i s w,
  (st_sort s = true → srt = true) →
  st_sort (classify o srt sa i es s w).1 = true → srt = true.
Proof.
  induction es as [|e es IH]; intros i s w Hs; simpl; [done|].
  pose proof (sort_flag_classify_entry o srt sa i e s w Hs) as H.
  destruct (classify_entry o srt sa i e s w) as [s1 w1]. simpl in H.
  by apply IH.
Qed.

Lemma sortable_comparator o w :
  sortable o w = true → is_Some (truthy_comparator (Coll.comparator (coll w))).
Proof.
  unfold sortable. intros [[H _]%andb_prop _]%andb_prop.
  by apply bool_decide_eq_true in H.
Qed.

Lemma first_pass_sort_flag models o w s w1 :
  first_pass models o w = (s, w1) → st_sort s = true → sortable o w = true.
Proof.
  unfold first_pass. intros H Hs.
  apply (sort_flag_classify o (sortable o w) (sortAttr w) (entries models) 0
           (staging_init o w) w); [done|]. by rewrite H.
Qed.

Lemma comparator_first_pass models o w s w1 :
  first_pass models o w = (s, w1) →
  Coll.comparator (coll w1) = Coll.comparator (coll w).
Proof.
  unfold first_pass. intros H.
  pose proof (comparator_classify o (sortable o w) (sortAttr w) (entries models) 0
                (staging_init o w) w) as Hc.
  by rewrite H in Hc.
Qed.

(** [set] without the [parse] hook, which passes its input through. *)
Lemma set_unfold models o w :
  set models o w =
  let o' := set_defaults o in
  let '(s, w1) := first_pass models o' w in
  match remove_pass s o' w1 with
  | None => Throw (TypeError "Cannot read property 'cid' of undefined") w1
  | Some (o1, w2) =>
      let '(srt, w3) := splice_in (position o' w) (sortable o' w) s w2 in
      match (if srt then sort silent_sort w3 else Ok () w3) with
      | Throw e w4 => Throw e w4
      | Ok _ w4 =>
          Ok (result models (st_models s)) (notify (position o' w) srt s o1 w4)
      end
  end.
Proof. unfold set. by destruct (truthy (o_parse (set_defaults o))). Qed.

Lemma splice_in_world at_ srt s w :
  let w3 := (splice_in at_ srt s w).2 in
  Coll.models (coll w3) =
    (if staged s then spliced at_ s (Coll.models (coll w)) else Coll.models (coll w))
  ∧ Coll.length (coll w3) =
      (if staged s
       then Coll.length (coll w) + Z.of_nat (List.length (st_toAdd s))
       else Coll.length (coll w))%Z
  ∧ Coll._byId (coll w3) = Coll._byId (coll w)
  ∧ Coll.comparator (coll w3) = Coll.comparator (coll w)
  ∧ heap w3 = heap w ∧ next_cid w3 = next_cid w ∧ log w3 = log w.
Proof. unfold splice_in. by destruct (staged s). Qed.

(** [set] sorts only a collection that is sortable. *)
Lemma sorts_sortable models o w s w1 :
  first_pass models o w = (s, w1) →
  st_sort s || staged s && sortable o w = true → sortable o w = true.
Proof.
  intros Hfirst [Hs|[_ ?]%andb_prop]%orb_prop; [|done].
  by apply (first_pass_sort_flag _ _ _ _ _ Hfirst).
Qed.

(** Once the first two passes are over, [set] returns unless it has to
    sort through [this.sortBy]; the sequence is the spliced one, possibly
    sorted, and only notifications follow. *)
Lemma set_finish models o w s w1 o1 w2 :
  first_pass models (set_defaults o) w = (s, w1) →
  remove_pass s (set_defaults o) w1 = Some (o1, w2) →
  (st_sort s || staged s && sortable (set_defaults o) w = true →
   needs_sortBy w = false) →
  let at_ := position (set_defaults o) w in
  let srt := st_sort s || staged s && sortable (set_defaults o) w in
  let ms := if staged s then spliced at_ s (Coll.models (coll w2))
            else Coll.models (coll w2) in
  ∃ w4,
    set models o w = Ok (result models (st_models s)) (notify at_ srt s o1 w4)
    ∧ Coll.models (coll w4) ≡ₚ ms
    ∧ (srt = false → Coll.models (coll w4) = ms)
    ∧ Coll.length (coll w4) =
        (if staged s
         then Coll.length (coll w2) + Z.of_nat (List.length (st_toAdd s))
         else Coll.length (coll w2))%Z
    ∧ Coll._byId (coll w4) = Coll._byId (coll w2)
    ∧ Coll.comparator (coll w4) = Coll.comparator (coll w2)
    ∧ heap w4 = heap w2
    ∧ next_cid w4 = next_cid w2
    ∧ log w4 = log w2.
Proof.
  intros Hfirst Hrem Hnative at_ srt ms.
  pose proof (sorts_sortable _ _ _ _ _ Hfirst) as Hsortable. fold srt in Hsortable.
  assert (Hcw2 : Coll.comparator (coll w2) = Coll.comparator (coll w)).
  { rewrite (comparator_remove_pass _ _ _ _ _ Hrem).
    by rewrite (comparator_first_pass _ _ _ _ _ Hfirst). }
  rewrite set_unfold. cbv zeta. rewrite Hfirst, Hrem.
  pose proof (splice_in_sort at_ (sortable (set_defaults o) w) s w2) as Hsrt.
  fold srt in Hsrt. fold at_.
  destruct (splice_in at_ (sortable (set_defaults o) w) s w2) as [srt' w3] eqn:Hsp.
  simpl in Hsrt. subst srt'.
  pose proof (splice_in_world at_ (sortable (set_defaults o) w) s w2) as Hw3.
  rewrite Hsp in Hw3. simpl in Hw3. fold ms in Hw3.
  destruct Hw3 as (Hms & Hlen & Hix & Hc3 & Hheap & Hnext & Hlog).
  destruct srt eqn:Hs.
  - destruct (comparator_is_compare w3) as [c Hc].
    { rewrite (needs_sortBy_coll w w3) by congruence. by apply Hnative. }
    { rewrite Hc3, Hcw2. apply sortable_comparator with (o := set_defaults o). auto. }
    rewrite (sort_ok _ _ _ Hc). simpl.
    eexists. split; [done|]. simpl.
    split_and!; [by rewrite array_sort_perm, Hms|done..].
  - exists w3. split_and!; [done|by rewrite Hms|done..].
Qed.

(** When [set] has to sort and the comparator asks for [this.sortBy], the
    call ends in the TypeError of [sort]: the staged records are in the
    sequence by then, and no "add" or "sort" notification was sent. *)
Lemma set_finish_throw models o w s w1 o1 w2 :
  first_pass models (set_defaults o) w = (s, w1) →
  remove_pass s (set_defaults o) w1 = Some (o1, w2) →
  st_sort s || staged s && sortable (set_defaults o) w = true →
  needs_sortBy w = true →
  set models o w =
    Throw (TypeError "this.sortBy is not a function")
          (splice_in (position (set_defaults o) w)
                     (sortable (set_defaults o) w) s w2).2.
Proof.
  intros Hfirst Hrem Hsrt Hsb.
  assert (Hcw2 : Coll.comparator (coll w2) = Coll.comparator (coll w)).
  { rewrite (comparator_remove_pass _ _ _ _ _ Hrem).
    by rewrite (comparator_first_pass _ _ _ _ _ Hfirst). }
  rewrite set_unfold. cbv zeta. rewrite Hfirst, Hrem.
  pose proof (splice_in_sort (position (set_defaults o) w)
                (sortable (set_defaults o) w) s w2) as Hs.
  pose proof (splice_in_world (position (set_defaults o) w)
                (sortable (set_defaults o) w) s w2) as Hw3.
  destruct (splice_in _ _ s w2) as [srt' w3] eqn:Hsp.
  simpl in Hs, Hw3 |- *. rewrite Hs, Hsrt.
  destruct Hw3 as (_ & _ & _ & Hc3 & _).
  rewrite sort_no_sortBy; [done|].
  rewrite (needs_sortBy_coll w w3) by congruence. done.
Qed.

(** The world a call of [set] ends in once the first two passes are over,
    whether it returns or raises the TypeError of [sort]. *)
Lemma set_finish_world models o w s w1 o1 w2 :
  first_pass models (set_defaults o) w = (s, w1) →
  remove_pass s (set_defaults o) w1 = Some (o1, w2) →
  let at_ := position (set_defaults o) w in
  let srt := st_sort s || staged s && sortable (set_defaults o) w in
  let ms := if staged s then spliced at_ s (Coll.models (coll w2))
            else Coll.models (coll w2) in
  let w' := out_world (set models o w) in
  Coll.models (coll w') ≡ₚ ms
  ∧ (srt = false → Coll.models (coll w') = ms)
  ∧ Coll.length (coll w') =
      (if staged s
       then Coll.length (coll w2) + Z.of_nat (List.length (st_toAdd s))
       else Coll.length (coll w2))%Z
  ∧ Coll._byId (coll w') = Coll._byId (coll w2)
  ∧ Coll.comparator (coll w') = Coll.comparator (coll w2)
  ∧ heap w' = heap w2
  ∧ next_cid w' = next_cid w2
  ∧ emits (named ["add"; "sort"]) w2 w'.
Proof.
  intros Hfirst Hrem at_ srt ms w'.
  destruct (decide (srt = true ∧ needs_sortBy w = true)) as [[Hsrt Hsb]|Hno].
  - unfold w'. rewrite (set_finish_throw _ _ _ _ _ _ _ Hfirst Hrem Hsrt Hsb). simpl.
    destruct (splice_in_world at_ (sortable (set_defaults o) w) s w2)
      as (Hms & Hlen & Hix & Hc & Hh & Hn & Hl).
    fold at_. fold ms in Hms. rewrite Hms.
    split_and!; try done. exists []. by rewrite app_nil_r.
  - destruct (set_finish models o w s w1 o1 w2 Hfirst Hrem)
      as (w4 & Hset & Hms & Hexact & Hlen & Hix & Hc & Hh & Hn & Hl).
    { fold srt. intros Hsrt. destruct (needs_sortBy w); [|done]. by destruct Hno. }
    unfold w'. rewrite Hset. simpl.
    match goal with |- context [notify ?a ?b ?c ?d ?e] =>
      destruct (coll_notify a b c d e) as (-> & -> & ->);
      destruct (log_notify a b c d e) as (l3 & l4 & Hlog & F3 & _ & Hl4)
    end.
    split_and!; try done.
    exists (l3 ++ l4). split; [by rewrite Hlog, Hl|].
    apply Forall_app. split.
    + eapply Forall_impl; [exact F3|]. unfold named. intros n Hn'.
      apply list_elem_of_singleton in Hn'. rewrite Hn'. by left.
    + rewrite Hl4. case_match; [|done]. apply Forall_singleton. simpl.
      right; by left.
Qed.

(** A call of [set] that returns did not have to sort through
    [this.sortBy]. *)
Lemma set_Ok_native models o w r w' s w1 :
  set models o w = Ok r w' →
  first_pass models (set_defaults o) w = (s, w1) →
  st_sort s || staged s && sortable (set_defaults o) w = true →
  needs_sortBy w = false.
Proof.
  intros Hset Hfirst Hsrt.
  destruct (set_Ok_inv _ _ _ _ _ Hset) as (s0 & w0 & o1 & w2 & _ & Hf & Hrem & _).
  rewrite Hfirst in Hf. injection Hf as <- <-.
  destruct (needs_sortBy w) eqn:Hsb; [|done].
  by rewrite (set_finish_throw _ _ _ _ _ _ _ Hfirst Hrem Hsrt Hsb) in Hset.
Qed.


(** ** Manufacturing a record *)

Lemma splice_insert_perm a x l : splice_insert a x l ≡ₚ x :: l.
Proof.
  unfold splice_insert. rewrite <-Permutation_middle. by rewrite take_drop.
Qed.

Lemma splice_all_perm l : ∀ a ms, splice_all a l ms ≡ₚ l ++ ms.
Proof.
  induction l as [|x l IH]; intros a ms; simpl; [done|].
  rewrite IH, splice_insert_perm. by rewrite Permutation_middle.
Qed.

Lemma classify_entry_new o srt sa i b s w :
  truthy (o_add o) = true → get (PBag b) w = None → validate b = None →
  classify_entry o srt sa i (EBag b) s w =
    (note_model i (next_cid w)
       (Staging (st_models s ++ [SModel (next_cid w)])
                (st_toAdd s ++ [next_cid w]) (st_modelMap s) (st_order s)
                (st_orderChanged s) (st_sort s) (Some (next_cid w)))
       (with_new_record b w),
     with_new_record b w).
Proof.
  intros Hadd Hget Hval. unfold classify_entry. simpl. rewrite Hget, Hadd. simpl.
  unfold new_model. rewrite Hval. simpl.
  assert (_addReference (next_cid w)
            (World (<[next_cid w := Model b ∅ ∅ ThisCollection false None]> (heap w))
                   (S (next_cid w)) (coll w) (log w))
          = with_new_record b w) as ->; [|done].
  unfold _addReference, with_new_record, upd_model, upd_coll, get_model. simpl.
  rewrite lookup_insert_eq, alter_insert_eq. simpl. done.
Qed.

Lemma get_model_new_record b w :
  get_model (with_new_record b w) (next_cid w) = Model b ∅ ∅ ThisCollection true None.
Proof. unfold get_model, with_new_record. simpl. by rewrite lookup_insert_eq. Qed.

Lemma get_model_new_record_ne b w c :
  c ≠ next_cid w → get_model (with_new_record b w) c = get_model w c.
Proof. intros H. unfold get_model, with_new_record. simpl. by rewrite lookup_insert_ne. Qed.

Lemma add_options_flags o :
  truthy (o_add (set_defaults (add_options o))) = true
  ∧ truthy (o_remove (set_defaults (add_options o))) = false.
Proof. done. Qed.

Lemma remove_pass_off s o w :
  truthy (o_remove o) = false → remove_pass s o w = Some (o, w).
Proof. unfold remove_pass. by intros ->. Qed.

Lemma get_bag w b :
  get (PBag b) w =
  Coll._byId (coll w) !! object_key
  ||| Coll._byId (coll w) !! to_key (modelId b)
  ||| Coll._byId (coll w) !! to_key (prop b "cid").
Proof. done. Qed.

Lemma reserved_not_cid_key k c : k ∈ reserved → cid_key c ≠ k.
Proof. intros Hk <-. by apply (cid_key_not_reserved c). Qed.

(** ** Setting a collection to its own content *)

Lemma coll_eq (c1 c2 : Coll.t) :
  Coll.length c1 = Coll.length c2 → Coll.models c1 = Coll.models c2 →
  Coll._byId c1 = Coll._byId c2 → Coll.comparator c1 = Coll.comparator c2 →
  c1 = c2.
Proof. destruct c1, c2. simpl. by intros -> -> -> ->. Qed.

Lemma unchanged_attributes (b : bag) : filter (λ kv, prop b kv.1 ≠ kv.2) b = ∅.
Proof.
  apply map_empty_filter_2. intros k v Hk. simpl. unfold prop. rewrite Hk. simpl. tauto.
Qed.

(** Merging its own attributes into a record changes nothing and emits
    nothing. *)
Lemma model_set_own c o w :
  let w1 := model_set c (attributes (get_model w c)) o w in
  coll w1 = coll w ∧ log w1 = log w ∧ next_cid w1 = next_cid w
  ∧ same_attrs w w1 ∧ changed (get_model w1 c) = ∅.
Proof.
  unfold model_set. rewrite unchanged_attributes.
  rewrite bool_decide_eq_true_2 by done. rewrite orb_true_r.
  split_and!; [done..| |].
  - intros x. rewrite get_model_upd. case_decide as Hx; [|done]. subst x.
    unfold get_model. destruct (heap w !! c) as [m|]; simpl; [|done].
    by rewrite (idemp_L (∪)).
  - rewrite get_model_upd. rewrite decide_True by done.
    by destruct (heap w !! c).
Qed.

Lemma hasChanged_unchanged m sa : changed m = ∅ → hasChanged m sa = false.
Proof.
  intros H. unfold hasChanged. rewrite H. destruct sa; [|done].
  apply bool_decide_eq_false. rewrite lookup_empty. by intros [? ?].
Qed.

Lemma merge_existing_own o srt sa c srt0 w :
  ∃ w1,
    merge_existing o srt sa (EBag (attributes (get_model w c))) c srt0 w = (srt0, w1)
    ∧ coll w1 = coll w ∧ log w1 = log w ∧ next_cid w1 = next_cid w
    ∧ same_attrs w w1.
Proof.
  unfold merge_existing. simpl.
  destruct (truthy (o_merge o)); simpl;
    [|exists w; split_and!; [done..|apply same_attrs_refl]].
  replace (if truthy (o_parse o) then model_parse (attributes (get_model w c))
           else attributes (get_model w c))
    with (attributes (get_model w c)) by (by destruct (truthy (o_parse o))).
  destruct (model_set_own c o w) as (H1 & H2 & H3 & H4 & H5).
  eexists. split; [|done].
  rewrite (hasChanged_unchanged _ sa H5). by rewrite andb_false_r, orb_false_r.
Qed.

Lemma stale_all_seen ms seen :
  (∀ c, c ∈ ms → cid_key c ∈ seen) → stale (List.length ms) ms seen = Some [].
Proof.
  induction ms as [|m ms IH]; intros H; simpl; [done|].
  rewrite bool_decide_eq_true_2 by (apply H; by left).
  rewrite IH; [done|]. intros c Hc. apply H. by right.
Qed.

(** The first loop over the collection's own content resolves every bag
    to the member it came from and stages nothing. *)
Lemma classify_own_content o srt sa w0 :
  truthy (o_remove o) = true →
  indexed w0 (Coll.models (coll w0)) →
  Forall (λ c, nullish (id_of w0 c) = false) (Coll.models (coll w0)) →
  ∀ suf pre s w,
    Coll.models (coll w0) = pre ++ suf →
    coll w = coll w0 → log w = log w0 → next_cid w = next_cid w0 →
    same_attrs w0 w →
    st_toAdd s = [] → st_orderChanged s = false → st_sort s = false →
    (∀ c, c ∈ pre → cid_key c ∈ st_modelMap s) →
    ∃ s' w',
      classify o srt sa (List.length pre)
               (EBag <$> ((λ c, toJSON (get_model w0 c)) <$> suf)) s w = (s', w')
      ∧ coll w' = coll w0 ∧ log w' = log w0 ∧ next_cid w' = next_cid w0
      ∧ same_attrs w0 w'
      ∧ st_toAdd s' = [] ∧ st_orderChanged s' = false ∧ st_sort s' = false
      ∧ st_models s' = st_models s ++ (SModel <$> suf)
      ∧ (∀ c, c ∈ Coll.models (coll w0) → cid_key c ∈ st_modelMap s').
Proof.
  intros Hrem Hix Hids suf.
  induction suf as [|c suf IH]; intros pre s w Hms Hcoll Hlog Hnext Ha Hadd Hoc Hsort Hseen.
  - exists s, w. simpl. rewrite app_nil_r in *. split_and!; try done.
    intros c Hc. apply Hseen. by rewrite <-Hms.
  - assert (Hc : c ∈ Coll.models (coll w0)).
    { rewrite Hms. apply elem_of_app. right. by left. }
    assert (Hid : nullish (id_of w0 c) = false)
      by (by apply (proj1 (Forall_forall _ _) Hids)).
    rewrite !fmap_cons. cbn [classify]. unfold toJSON at 1.
    assert (Hget : get (PBag (attributes (get_model w0 c))) w = Some c).
    { rewrite get_bag, Hcoll, (indexed_object_key w0 _ Hix). simpl.
      fold (id_of w0 c). by rewrite (indexed_id w0 _ c Hix Hc Hid). }
    unfold classify_entry. simpl probe_of. rewrite Hget.
    rewrite <-(Ha c).
    destruct (merge_existing_own o srt sa c (st_sort s) w)
      as (w1 & -> & Hcoll1 & Hlog1 & Hnext1 & Ha1).
    rewrite Hrem.
    set (s1 := note_model _ _ _ _).
    assert (Hlook : Coll.models (coll w1) !! List.length pre = Some c).
    { rewrite Hcoll1, Hcoll, Hms. by rewrite list_lookup_middle. }
    assert (Hs1 : st_toAdd s1 = [] ∧ st_orderChanged s1 = false ∧ st_sort s1 = false
                  ∧ st_models s1 = st_models s ++ [SModel c]
                  ∧ (∀ x, x ∈ pre ++ [c] → cid_key x ∈ st_modelMap s1)).
    { unfold s1, note_model. simpl. rewrite Hlook, Hoc.
      rewrite (bool_decide_eq_true_2 (c = c)) by done. simpl.
      split_and!; [done| |done|done|].
      - by case_match.
      - intros x [Hx| ->%list_elem_of_singleton]%elem_of_app.
        + apply elem_of_union. right. apply elem_of_union. right. by apply Hseen.
        + apply elem_of_union. right. apply elem_of_union. left.
          by apply elem_of_singleton. }
    destruct Hs1 as (Hadd1 & Hoc1 & Hsort1 & Hmod1 & Hseen1).
    destruct (IH (pre ++ [c]) s1 w1) as (s' & w' & Hcl & H); try done.
    + by rewrite <-(assoc_L (++)).
    + congruence.
    + congruence.
    + congruence.
    + by eapply same_attrs_trans.
    + exists s', w'. rewrite length_app, Nat.add_1_r in Hcl. rewrite Hcl.
      destruct H as (? & ? & ? & ? & ? & ? & ? & Hm & ?).
      split_and!; try done. rewrite Hm, Hmod1, <-(assoc_L (++)). done.
Qed.

(** C2 (amended): on a collection that satisfies the invariants of the
    data model and whose records all carry a domain identifier,
    [set(collection.toArray())] with default options returns the members
    in order, leaves the sequence, the length and the index as they are,
    changes no attribute, and emits no notification at all. *)
Theorem set_own_content_changes_nothing (w : world) :
  wf w →
  Forall (λ c, nullish (id_of w c) = false) (Coll.models (coll w)) →
  ∃ w',
    set (Many (EBag <$> toArray w)) no_options w
      = Ok (Many (SModel <$> Coll.models (coll w))) w'
    ∧ coll w' = coll w
    ∧ log w' = log w
    ∧ same_attrs w w'.
Proof.
  intros (Hlen & Hix & _) Hids.
  set (o' := set_defaults no_options).
  destruct (classify_own_content o' (sortable o' w) (sortAttr w) w eq_refl Hix Hids
              (Coll.models (coll w)) [] (staging_init o' w) w)
    as (s & w1 & Hcl & Hcoll & Hlog & Hnext & Ha & Hadd & Hoc & Hsort & Hmod & Hseen);
    try done.
  { intros c Hc. by apply elem_of_nil in Hc. }
  assert (Hfirst : first_pass (Many (EBag <$> toArray w)) o' w = (s, w1)) by exact Hcl.
  assert (Hrem : remove_pass s o' w1 = Some (o', w1)).
  { unfold remove_pass. simpl. rewrite Hcoll, Hlen, Nat2Z.id.
    by rewrite stale_all_seen. }
  assert (Hstaged : staged s = false).
  { unfold staged. by rewrite Hadd, Hoc. }
  destruct (set_finish _ no_options w s w1 o' w1 Hfirst Hrem)
    as (w4 & Hset & _ & Hms & Hlen4 & Hix4 & Hcmp4 & Hheap4 & Hnext4 & Hlog4).
  { by rewrite Hsort, Hstaged. }
  rewrite Hstaged in Hms, Hlen4, Hset. rewrite Hsort in Hms, Hset. simpl in Hms, Hset.
  assert (Hnotify : notify (position (set_defaults no_options) w) false s o' w4 = w4).
  { unfold notify. simpl. by rewrite Hadd, Hoc. }
  rewrite Hnotify in Hset. exists w4. split_and!.
  - rewrite Hset. simpl. by rewrite Hmod.
  - rewrite <-Hcoll. apply coll_eq; auto.
  - by rewrite Hlog4.
  - eapply same_attrs_trans; [exact Ha|]. by apply same_attrs_heap.
Qed.

(** ** Entries with a numeric domain identifier *)

Lemma get_bag_num w cs b (z : Z) :
  indexed w cs → modelId b = VNum z → nullish (prop b "cid") = true →
  get (PBag b) w = Coll._byId (coll w) !! pretty z.
Proof.
  intros Hix Hid Hcid. rewrite get_bag, Hid, (indexed_object_key w cs Hix). simpl.
  rewrite (indexed_reserved w cs _ Hix (nullish_key_reserved _ Hcid)).
  by destruct (Coll._byId (coll w) !! pretty z).
Qed.

(** A record registered under a numeric key has an identifier with that
    key. *)
Lemma indexed_num_key w cs (z : Z) X :
  indexed w cs → Coll._byId (coll w) !! pretty z = Some X →
  X ∈ cs ∧ nullish (id_of w X) = false ∧ to_key (id_of w X) = pretty z.
Proof.
  intros Hix Hk. apply (indexed_lookup w cs _ _ Hix) in Hk as [HX Hk].
  split; [done|]. unfold keys_of in Hk.
  apply elem_of_cons in Hk as [Hk|Hk]; [by destruct (cid_key_not_num X z)|].
  destruct (nullish (id_of w X)); [by apply elem_of_nil in Hk|].
  by apply list_elem_of_singleton in Hk.
Qed.

Lemma indexed_keys_frame w w' cs :
  (∀ c, keys_of w' c = keys_of w c) →
  Coll._byId (coll w') = Coll._byId (coll w) →
  indexed w cs → indexed w' cs.
Proof.
  intros Hk Hix (Hnd & Hidx & Hres). split_and!; [done| |by rewrite Hix].
  intros k c. by rewrite Hix, Hk, Hidx.
Qed.

Lemma modelId_union attrs old z :
  modelId attrs = VNum z → modelId (attrs ∪ old) = VNum z.
Proof.
  unfold modelId, prop. intros H.
  destruct (attrs !! idAttr) as [v|] eqn:Hv; [|done]. simpl in H. subst v.
  by rewrite (lookup_union_Some_l _ _ _ _ Hv).
Qed.

Lemma set_byId_same (cl : Coll.t) : set_byId (Coll._byId cl) cl = cl.
Proof. by destruct cl. Qed.

Lemma rekey_same_key c w :
  to_key (modelId (previous (get_model w c)))
  = to_key (modelId (attributes (get_model w c))) →
  nullish (modelId (previous (get_model w c))) = false →
  nullish (modelId (attributes (get_model w c))) = false →
  Coll._byId (coll w) !! to_key (modelId (attributes (get_model w c))) = Some c →
  coll (rekey c w) = coll w.
Proof.
  intros Hkey Hp Ha Hix. unfold rekey. case_decide; [done|].
  rewrite Hp, Ha, Hkey. simpl.
  rewrite insert_delete_eq, insert_id by done. apply set_byId_same.
Qed.

(** Merging attributes that keep the key of the identifier leaves the
    collection as it is. *)
Lemma model_set_same_key X attrs o w cs (z : Z) :
  indexed w cs → X ∈ cs →
  modelId attrs = VNum z →
  nullish (id_of w X) = false → to_key (id_of w X) = pretty z →
  let w1 := model_set X attrs o w in
  coll w1 = coll w
  ∧ next_cid w1 = next_cid w
  ∧ id_of w1 X = VNum z
  ∧ (∀ c, keys_of w1 c = keys_of w c)
  ∧ indexed w1 cs.
Proof.
  intros Hix HX Hid Hnn Hkey.
  assert (∃ m, heap w !! X = Some m) as [m Hm].
  { destruct (heap w !! X) as [m|] eqn:Hm; [eauto|].
    unfold id_of, get_model in Hnn. by rewrite Hm in Hnn. }
  assert (Hold : get_model w X = m) by (unfold get_model; by rewrite Hm).
  set (f := λ m : model, Model (attrs ∪ attributes m) (attributes m)
              (filter (λ kv, prop (attributes (get_model w X)) kv.1 ≠ kv.2) attrs)
              (collection m) (listening m) (validationError m)).
  set (wu := upd_model X f w).
  assert (Hnew : get_model wu X = f m).
  { unfold wu. rewrite get_model_upd, decide_True by done. by rewrite Hm. }
  assert (Hother : ∀ c, c ≠ X → get_model wu c = get_model w c).
  { intros c Hc. unfold wu. rewrite get_model_upd. by rewrite decide_False. }
  assert (HidX : id_of wu X = VNum z).
  { unfold id_of. rewrite Hnew. simpl. by apply modelId_union. }
  assert (Hkeys : ∀ c, keys_of wu c = keys_of w c).
  { intros c. unfold keys_of. destruct (decide (c = X)) as [->|Hc].
    - rewrite HidX, Hnn. simpl. by rewrite Hkey.
    - unfold id_of. by rewrite Hother. }
  assert (Hfinal : ∀ w', heap w' = heap wu → coll w' = coll w →
            next_cid w' = next_cid w →
            coll w' = coll w ∧ next_cid w' = next_cid w ∧ id_of w' X = VNum z
            ∧ (∀ c, keys_of w' c = keys_of w c) ∧ indexed w' cs).
  { intros w' Hh Hc Hn.
    assert (Hg : ∀ c, get_model w' c = get_model wu c)
      by (intros c; unfold get_model; by rewrite Hh).
    assert (Hk' : ∀ c, keys_of w' c = keys_of w c).
    { intros c. rewrite <-Hkeys. unfold keys_of, id_of. by rewrite Hg. }
    split_and!; [done|done| |done|].
    - unfold id_of. rewrite Hg. exact HidX.
    - apply (indexed_keys_frame w); [done|by rewrite Hc|done]. }
  unfold model_set. fold f. fold wu.
  destruct (truthy (o_silent o) || bool_decide (_ = ∅)); [by apply Hfinal|].
  apply Hfinal.
  - by rewrite heap_trigger_model.
  - unfold trigger_model. destruct (listening (get_model wu X)); [|done].
    unfold proxy_event. rewrite decide_True by done.
    set (we := emit _ wu).
    assert (Hge : get_model we X = f m) by exact Hnew.
    change (coll (rekey X we) = coll w).
    rewrite rekey_same_key; [done|rewrite Hge; simpl..].
    + rewrite <-Hold. fold (id_of w X). by rewrite Hkey, (modelId_union _ _ _ Hid).
    + rewrite <-Hold. exact Hnn.
    + by rewrite (modelId_union _ _ _ Hid).
    + rewrite (modelId_union _ _ _ Hid). simpl. rewrite <-Hkey.
      by apply (indexed_id w cs).
  - by rewrite next_cid_trigger_model.
Qed.

Lemma note_model_num i m s w z :
  id_of w m = VNum z →
  note_model i m s w =
    let push := match st_order s with
                | Some _ => negb (bool_decide (pretty z ∈ st_modelMap s))
                | None => false
                end in
    Staging (st_models s) (st_toAdd s) ({[pretty z]} ∪ st_modelMap s)
            (if push then (λ l, l ++ [m]) <$> st_order s else st_order s)
            (if push
             then st_orderChanged s
                  || match Coll.models (coll w) !! i with
                     | None => true
                     | Some c => negb (bool_decide (m = c))
                     end
             else st_orderChanged s)
            (st_sort s) (st_model s).
Proof.
  unfold id_of. intros Hid. unfold note_model, isNew. rewrite Hid. simpl. done.
Qed.

Lemma comparator_merge_existing o srt sa e ex b w :
  Coll.comparator (coll (merge_existing o srt sa e ex b w).2)
  = Coll.comparator (coll w).
Proof.
  unfold merge_existing. case_match; simpl; [|done]. apply comparator_model_set.
Qed.

(** A turn of the first loop for a bag with a numeric identifier that
    resolves to the record [X]. *)
Lemma classify_entry_resolved o srt sa i b s w cs (z : Z) X :
  indexed w cs → modelId b = VNum z → nullish (prop b "cid") = true →
  Coll._byId (coll w) !! pretty z = Some X →
  truthy (o_merge o) = true →
  let seen := if truthy (o_remove o) then {[cid_key X]} ∪ st_modelMap s
              else st_modelMap s in
  let push := match st_order s with
              | Some _ => negb (bool_decide (pretty z ∈ seen))
              | None => false
              end in
  ∃ srt' w',
    classify_entry o srt sa i (EBag b) s w =
      (Staging (st_models s ++ [SModel X]) (st_toAdd s) ({[pretty z]} ∪ seen)
               (if push then (λ l, l ++ [X]) <$> st_order s else st_order s)
               (if push
                then st_orderChanged s
                     || match Coll.models (coll w) !! i with
                        | None => true
                        | Some c => negb (bool_decide (X = c))
                        end
                else st_orderChanged s)
               srt' (Some X), w')
    ∧ coll w' = coll w ∧ next_cid w' = next_cid w
    ∧ id_of w' X = VNum z
    ∧ (∀ c, keys_of w' c = keys_of w c)
    ∧ indexed w' cs.
Proof.
  intros Hix Hid Hcid Hk Hmerge seen push.
  destruct (indexed_num_key w cs z X Hix Hk) as (HX & Hnn & Hkey).
  unfold classify_entry. simpl probe_of.
  rewrite (get_bag_num w cs b z Hix Hid Hcid), Hk.
  unfold merge_existing. simpl. rewrite Hmerge. simpl.
  replace (if truthy (o_parse o) then model_parse b else b) with b
    by (by destruct (truthy (o_parse o))).
  destruct (model_set_same_key X b o w cs z Hix HX Hid Hnn Hkey)
    as (Hcoll & Hnext & HidX & Hkeys & Hix').
  eexists _, _. split; [|done].
  rewrite (note_model_num _ _ _ _ z HidX). simpl. by rewrite Hcoll.
Qed.

(** A turn of the first loop for a bag with a numeric identifier that
    resolves to no member and passes validation. *)
Lemma classify_entry_new_num o srt sa i b s w (z : Z) :
  truthy (o_add o) = true → get (PBag b) w = None → validate b = None →
  modelId b = VNum z →
  let c := next_cid w in
  let push := match st_order s with
              | Some _ => negb (bool_decide (pretty z ∈ st_modelMap s))
              | None => false
              end in
  classify_entry o srt sa i (EBag b) s w =
    (Staging (st_models s ++ [SModel c]) (st_toAdd s ++ [c])
             ({[pretty z]} ∪ st_modelMap s)
             (if push then (λ l, l ++ [c]) <$> st_order s else st_order s)
             (if push
              then st_orderChanged s
                   || match Coll.models (coll w) !! i with
                      | None => true
                      | Some c' => negb (bool_decide (c = c'))
                      end
              else st_orderChanged s)
             (st_sort s) (Some c),
     with_new_record b w).
Proof.
  intros Hadd Hget Hval Hid c push.
  rewrite (classify_entry_new _ _ _ _ _ _ _ Hadd Hget Hval).
  rewrite (note_model_num _ _ _ _ z);
    [done|unfold id_of; by rewrite get_model_new_record].
Qed.


(** ** The removal pass *)

Lemma stale_filter ms seen :
  stale (List.length ms) ms seen = Some (filter (λ m, cid_key m ∉ seen) ms).
Proof.
  induction ms as [|m ms IH]; simpl; [done|]. rewrite IH. simpl.
  case_bool_decide.
  - by rewrite filter_cons_False by tauto.
  - by rewrite filter_cons_True by done.
Qed.

Lemma filter_not_in_filter {A} `{EqDecision A} (P : A → Prop)
    `{∀ x, Decision (P x)} (l : list A) :
  filter (λ x, x ∉ filter (λ y, ¬ P y) l) l = filter P l.
Proof.
  apply filter_all, Forall_forall. intros x Hx.
  rewrite list_elem_of_filter. split.
  - intros Hn. destruct (decide (P x)); [done|]. destruct Hn. done.
  - intros HP [Hn _]. done.
Qed.

Lemma length_filter_split {A} (P : A → Prop) `{∀ x, Decision (P x)} (l : list A) :
  List.length (filter P l) + List.length (filter (λ y, ¬ P y) l) = List.length l.
Proof.
  induction l as [|x l IH]; [done|]. destruct (decide (P x)).
  - rewrite (filter_cons_True P), (filter_cons_False (λ y, ¬ P y)) by tauto.
    simpl. lia.
  - rewrite (filter_cons_False P), (filter_cons_True (λ y, ¬ P y)) by tauto.
    simpl. lia.
Qed.

(** On a collection whose members are registered, the removal pass keeps
    exactly the members marked in the first loop. *)
Lemma remove_pass_seen s o w cs :
  truthy (o_remove o) = true →
  indexed w cs →
  NoDup (Coll.models (coll w)) →
  (∀ c, c ∈ Coll.models (coll w) → c ∈ cs) →
  Coll.length (coll w) = Z.of_nat (List.length (Coll.models (coll w))) →
  ∃ o1 w',
    remove_pass s o w = Some (o1, w')
    ∧ same_attrs w w'
    ∧ Coll.models (coll w')
      = filter (λ m, cid_key m ∈ st_modelMap s) (Coll.models (coll w))
    ∧ Coll.length (coll w') = Z.of_nat (List.length (Coll.models (coll w')))
    ∧ next_cid w' = next_cid w.
Proof.
  intros Hrem Hix Hnd Hsub Hlen. unfold remove_pass.
  rewrite Hrem, Hlen, Nat2Z.id, stale_filter.
  set (P := λ m, cid_key m ∈ st_modelMap s).
  set (R := filter (λ m, cid_key m ∉ st_modelMap s) (Coll.models (coll w))).
  assert (Hkept : filter (λ x, x ∉ R) (Coll.models (coll w))
                  = filter P (Coll.models (coll w)))
    by apply (filter_not_in_filter P).
  destruct R as [|r R'] eqn:HR.
  - exists o, w. split_and!; [done|done| |done|done].
    rewrite <-Hkept. symmetry. apply filter_id, Forall_forall.
    intros x _. apply not_elem_of_nil.
  - rewrite <-HR in *.
    destruct (remove_loop_members R o w cs Hix Hnd) as
      (rs & o1 & w' & Hr & _ & Ha & _ & Hms & Hlen' & _ & Hnext).
    + by apply NoDup_filter.
    + intros c [_ Hc]%list_elem_of_filter. auto.
    + unfold remove. rewrite Hr. exists o1, w'.
      split_and!; [done|done|by rewrite Hms|  |done].
      rewrite Hlen', Hms, Hkept, Hlen.
      pose proof (length_filter_split P (Coll.models (coll w))) as Hsplit.
      change (filter (λ y, ¬ P y) (Coll.models (coll w))) with R in Hsplit. lia.
Qed.

(** ** Keys of numeric identifiers *)

Lemma num_key_in_self (z : Z) (M : gset string) :
  bool_decide (pretty z ∈ {[pretty z]} ∪ M) = true.
Proof. apply bool_decide_eq_true. apply elem_of_union. left. by apply elem_of_singleton. Qed.

Lemma num_key_in_cid (z : Z) c (M : gset string) :
  bool_decide (pretty z ∈ {[cid_key c]} ∪ M) = bool_decide (pretty z ∈ M).
Proof.
  apply bool_decide_ext. rewrite elem_of_union, elem_of_singleton. split; [|auto].
  intros [H|H]; [|done]. by destruct (cid_key_not_num c z).
Qed.

Lemma num_key_in_empty (z : Z) : bool_decide (pretty z ∈ (∅ : gset string)) = false.
Proof. apply bool_decide_eq_false. apply not_elem_of_empty. Qed.

Lemma filter_unique {A} `{EqDecision A} (P : A → Prop) `{∀ x, Decision (P x)}
    (l : list A) (r : A) :
  NoDup l → r ∈ l → P r → (∀ c, c ∈ l → P c → c = r) → filter P l = [r].
Proof.
  induction l as [|x l IH]; [by intros _ ?%elem_of_nil|].
  intros [Hx Hnd]%NoDup_cons Hr HP Huniq.
  destruct (decide (x = r)) as [->|Hne].
  - rewrite filter_cons_True by done. f_equal.
    apply filter_none, Forall_forall. intros c Hc HPc.
    assert (c = r) as -> by (apply Huniq; [by right|done]). done.
  - apply elem_of_cons in Hr as [->|Hr]; [done|].
    rewrite filter_cons_False.
    + apply IH; [done..|]. intros c Hc. apply Huniq. by right.
    + intros HPx. apply Hne, Huniq; [by left|done].
Qed.

Lemma or_true_truthy b : b ≠ Some false → truthy (or_true b) = true.
Proof. by destruct b as [[]|]. Qed.

(** ** The notifications of [set] *)

Lemma splice_insert_in_range (a : nat) x (l : list cid) :
  a ≤ List.length l → splice_insert (Z.of_nat a) x l = take a l ++ x :: drop a l.
Proof.
  intros Ha. unfold splice_insert. rewrite splice_start_in by lia.
  by rewrite Nat2Z.id.
Qed.

Lemma splice_all_in_range toAdd : ∀ (a : nat) (l : list cid),
  a ≤ List.length l →
  splice_all (Z.of_nat a) toAdd l = take a l ++ toAdd ++ drop a l.
Proof.
  induction toAdd as [|x toAdd IH]; intros a l Ha; simpl.
  - by rewrite take_drop.
  - rewrite splice_insert_in_range by done.
    replace (Z.of_nat a + 1)%Z with (Z.of_nat (S a)) by lia.
    rewrite IH by (rewrite length_app, length_take; simpl; rewrite length_drop; lia).
    rewrite take_app_ge by (rewrite length_take; lia).
    rewrite drop_app_ge by (rewrite length_take; lia).
    rewrite length_take, Nat.min_l by lia.
    replace (S a - a) with 1 by lia. simpl. rewrite take_0, drop_0.
    by rewrite <-(assoc_L (++)).
Qed.

Lemma length_splice_all toAdd : ∀ a (l : list cid),
  List.length (splice_all a toAdd l) = List.length l + List.length toAdd.
Proof.
  induction toAdd as [|x toAdd IH]; intros a l; simpl; [lia|].
  rewrite IH. unfold splice_insert. rewrite length_app. simpl.
  rewrite length_take, length_drop. lia.
Qed.

Lemma sortable_at o w a : position o w = Some a → sortable o w = false.
Proof.
  intros H. unfold sortable. rewrite H.
  rewrite (bool_decide_eq_false_2 (Some a = None)) by done.
  by rewrite andb_false_r.
Qed.

(** C5 (amended): a call of [set] that is not silenced emits one "add"
    notification on every newly staged record, in staging order.  Its
    payload is the options object of the call, in which [index] is set,
    to [at + i] for the [i]-th staged record, only when an insertion
    position [at] was requested; without [at] no insertion index is put
    in.  When [at] lies within the sequence, [at + i] is the position at
    which the record sits when [set] returns.  One "sort" notification is
    emitted on the collection when the collection was sorted or the order
    changed, and none otherwise. *)
Theorem set_add_and_sort_notifications
    (models : input entry) (o : options) (w : world) (r : input slot) (w' : world) :
  truthy (o_silent o) = false →
  set models o w = Ok r w' →
  let o' := set_defaults o in
  let s := (first_pass models o' w).1 in
  ∃ o1, reindexed o' o1
    ∧ filter (λ n, on_model n && is_event "add" n) (emitted w w')
      = expected_adds (position o' w) 0 (st_toAdd s) o1
    ∧ filter (λ n, is_event "sort" n) (emitted w w')
      = (if reordered o' w s
         then [Notification OnCollection "sort" None None o1] else [])
    ∧ (∀ a : nat,
         position o' w = Some (Z.of_nat a) →
         a + List.length (st_toAdd s) ≤ List.length (Coll.models (coll w')) →
         ∀ i m, st_toAdd s !! i = Some m →
                Coll.models (coll w') !! (a + i) = Some m).
Proof.
  intros Hsilent Hset o' s.
  destruct (set_Ok_inv _ _ _ _ _ Hset)
    as (s0 & w1 & o1 & w2 & w0 & Hfirst & Hrem & _ & _ & _).
  fold o' in Hfirst, Hrem.
  assert (s = s0) as <- by (unfold s; by rewrite Hfirst).
  destruct (set_finish models o w s w1 o1 w2 Hfirst Hrem
              (set_Ok_native _ _ _ _ _ _ _ Hset Hfirst))
    as (w4 & Hset' & _ & Hexact & _ & _ & _ & _ & _ & Hl4).
  rewrite Hset in Hset'. injection Hset' as _ ->. fold o' in Hexact |- *.
  pose proof (emits_classify o' (sortable o' w) (sortAttr w) (entries models) 0
                (staging_init o' w) w) as (l1 & Hl1 & F1).
  fold (first_pass models o' w) in Hl1. rewrite Hfirst in Hl1. simpl in Hl1.
  pose proof (remove_pass_inv _ _ _ _ _ Hrem) as [(l2 & Hl2 & F2) Hre].
  set (srt := st_sort s || staged s && sortable o' w) in *.
  destruct (log_notify (position o' w) srt s o1 w4)
    as (l3 & l4 & Hl & F3 & Hf3 & Hl4').
  assert (Hs1 : truthy (o_silent o1) = false)
    by (by rewrite (reindexed_silent _ _ Hre)).
  rewrite Hs1 in Hf3, Hl4'. simpl in Hl4'.
  exists o1. split; [done|].
  assert (emitted w (notify (position o' w) srt s o1 w4) = l1 ++ l2 ++ l3 ++ l4) as ->.
  { unfold emitted. rewrite Hl, Hl4, Hl2, Hl1, <-!(assoc_L (++)).
    by rewrite drop_app_length. }
  rewrite !filter_app. split_and!.
  - rewrite (filter_none _ l1), (filter_none _ l2); simpl.
    + rewrite (filter_all _ (λ n, on_model n) l3), Hf3.
      * rewrite (filter_none _ l4); [by rewrite app_nil_r|].
        rewrite Hl4'. case_match; repeat constructor. simpl. tauto.
      * eapply Forall_impl; [exact F3|]. intros n Hn.
        unfold is_event. unfold named in Hn. apply list_elem_of_singleton in Hn.
        rewrite Hn. simpl. by rewrite andb_true_r.
    + eapply Forall_impl; [exact F2|]. intros n Hn.
      rewrite (named_is_event _ "add" n Hn), andb_false_r; [tauto|].
      by apply not_elem_of_strings.
    + eapply Forall_impl; [exact F1|]. intros n Hn.
      rewrite (named_is_event _ "add" n Hn), andb_false_r; [tauto|].
      by apply not_elem_of_strings.
  - rewrite (filter_none _ l1), (filter_none _ l2), (filter_none _ l3); simpl.
    + rewrite Hl4'. unfold reordered. fold srt.
      destruct (srt || st_orderChanged s); [|done].
      by rewrite filter_cons_True.
    + eapply Forall_impl; [exact F3|]. intros n Hn.
      rewrite (named_is_event _ "sort" n Hn); [tauto|]. by apply not_elem_of_strings.
    + eapply Forall_impl; [exact F2|]. intros n Hn.
      rewrite (named_is_event _ "sort" n Hn); [tauto|]. by apply not_elem_of_strings.
    + eapply Forall_impl; [exact F1|]. intros n Hn.
      rewrite (named_is_event _ "sort" n Hn); [tauto|]. by apply not_elem_of_strings.
  - intros a Hpos Hlen i m Hi.
    destruct (coll_notify (position o' w) srt s o1 w4) as (Hcoll & _ & _).
    rewrite Hcoll in Hlen |- *.
    assert (Hsortable : sortable o' w = false) by (by eapply sortable_at).
    assert (Hsort : st_sort s = false).
    { destruct (st_sort s) eqn:Hs; [|done].
      by rewrite (first_pass_sort_flag _ _ _ _ _ Hfirst Hs) in Hsortable. }
    assert (Hstaged : staged s = true).
    { unfold staged. destruct (st_toAdd s); [done|].
      by rewrite bool_decide_eq_false_2. }
    assert (Hsrt : srt = false).
    { unfold srt. by rewrite Hsort, Hsortable, andb_false_r. }
    rewrite (Hexact Hsrt), Hstaged, Hpos in Hlen |- *. unfold spliced in *.
    rewrite length_splice_all in Hlen.
    rewrite splice_all_in_range by lia.
    rewrite lookup_app_r by (rewrite length_take; lia).
    rewrite length_take, Nat.min_l by lia.
    replace (a + i - a) with i by lia.
    by apply lookup_app_l_Some.
Qed.

(** ** Rejected entries *)

Lemma classify_entry_rejected o srt sa i b s w err :
  truthy (o_add o) = true → get (PBag b) w = None → validate b = Some err →
  classify_entry o srt sa i (EBag b) s w =
    (Staging (st_models s ++ [SFalse]) (st_toAdd s) (st_modelMap s)
             (st_order s) (st_orderChanged s) (st_sort s) None,
     rejected b err o w).
Proof.
  intros Hadd Hget Hval. unfold classify_entry. simpl. rewrite Hget, Hadd. simpl.
  by rewrite Hval.
Qed.

(** While no order is being computed, the first loop does not depend on
    the index of the entry nor on the slots filled so far. *)
Lemma note_model_shift i j m p s w :
  st_order s = None →
  note_model i m (with_slots p s) w = with_slots p (note_model j m s w)
  ∧ st_order (note_model j m s w) = None.
Proof. intros H. unfold note_model, with_slots. simpl. by rewrite H. Qed.

Lemma classify_entry_shift o srt sa i j e p s w :
  st_order s = None →
  classify_entry o srt sa i e (with_slots p s) w
  = (with_slots p (classify_entry o srt sa j e s w).1,
     (classify_entry o srt sa j e s w).2)
  ∧ st_order (classify_entry o srt sa j e s w).1 = None.
Proof.
  intros Hord. unfold classify_entry.
  destruct (get (probe_of e) w) as [ex|].
  - cbn [st_sort with_slots].
    destruct (merge_existing o srt sa e ex (st_sort s) w) as [b w1]. cbn [fst snd].
    match goal with |- context [note_model j ex ?s1 w1] =>
      destruct (note_model_shift i j ex p s1 w1 Hord) as [<- ->] end.
    unfold with_slots. simpl. by rewrite (assoc_L (++)).
  - destruct (truthy (o_add o)).
    + destruct (_prepareModel e o w) as [[m|] w1]; cbn [fst snd].
      * match goal with |- context [note_model j m ?s1 ?w2] =>
          destruct (note_model_shift i j m p s1 w2 Hord) as [<- ->] end.
        unfold with_slots. simpl. by rewrite (assoc_L (++)).
      * unfold with_slots. simpl. by rewrite (assoc_L (++)).
    + cbn [st_model with_slots]. destruct (st_model s) as [m|]; cbn [fst snd].
      * match goal with |- context [note_model j m ?s1 w] =>
          destruct (note_model_shift i j m p s1 w Hord) as [<- ->] end.
        unfold with_slots. simpl. by rewrite (assoc_L (++)).
      * unfold with_slots. simpl. by rewrite (assoc_L (++)).
Qed.

Lemma classify_shift o srt sa es : ∀ i j p s w,
  st_order s = None →
  classify o srt sa i es (with_slots p s) w
  = (with_slots p (classify o srt sa j es s w).1, (classify o srt sa j es s w).2).
Proof.
  induction es as [|e es IH]; intros i j p s w Hord; simpl; [done|].
  destruct (classify_entry_shift o srt sa i j e p s w Hord) as [-> Hord'].
  destruct (classify_entry o srt sa j e s w) as [s1 w1]. simpl in *.
  by apply IH.
Qed.

Lemma remove_pass_with_slots p s o w :
  remove_pass (with_slots p s) o w = remove_pass s o w.
Proof. done. Qed.

Lemma splice_in_with_slots p at_ srt s w :
  splice_in at_ srt (with_slots p s) w = splice_in at_ srt s w.
Proof. done. Qed.

Lemma notify_with_slots p at_ srt s o w :
  notify at_ srt (with_slots p s) o w = notify at_ srt s o w.
Proof. done. Qed.

(** A batch whose first entry is rejected is processed like the rest of
    the batch, as long as no order is being computed. *)
Lemma set_rejected_head o b err rest w :
  truthy (o_add (set_defaults o)) = true →
  st_order (staging_init (set_defaults o) w) = None →
  get (PBag b) w = None → validate b = Some err →
  set (Many (EBag b :: rest)) o w
  = after_rejected (set (Many rest) o (rejected b err (set_defaults o) w)).
Proof.
  intros Hadd Hord Hget Hval. rewrite !set_unfold. cbv zeta.
  set (o' := set_defaults o) in *. set (w0 := rejected b err o' w).
  assert (Hfirst : first_pass (Many (EBag b :: rest)) o' w
                   = (with_slots [SFalse] (first_pass (Many rest) o' w0).1,
                      (first_pass (Many rest) o' w0).2)).
  { unfold first_pass. cbn [entries classify].
    rewrite (classify_entry_rejected _ _ _ _ _ _ _ _ Hadd Hget Hval). fold w0.
    change (Staging (st_models (staging_init o' w) ++ [SFalse])
              (st_toAdd (staging_init o' w)) (st_modelMap (staging_init o' w))
              (st_order (staging_init o' w)) (st_orderChanged (staging_init o' w))
              (st_sort (staging_init o' w)) None)
      with (with_slots [SFalse] (staging_init o' w0)).
    by apply classify_shift. }
  rewrite Hfirst.
  replace (position o' w0) with (position o' w) by done.
  replace (sortable o' w0) with (sortable o' w) by done.
  destruct (first_pass (Many rest) o' w0) as [s w1]. cbn [fst snd].
  rewrite remove_pass_with_slots.
  destruct (remove_pass s o' w1) as [[o1 w2]|]; [|done].
  rewrite splice_in_with_slots.
  destruct (splice_in (position o' w) (sortable o' w) s w2) as [srt w3].
  destruct (if srt then sort silent_sort w3 else Ok () w3) as [[] w4|e w4]; [|done].
  by rewrite notify_with_slots.
Qed.

(** C8: an entry of a [set] or [add] batch that resolves to no member,
    for which a record is manufactured, and whose record fails validation
    is skipped without an exception: the collection (sequence, length,
    index) stays as it is, one "invalid" notification carrying the
    validation error is emitted on the collection, the slot of the entry
    holds [false], and the first loop goes on with the remaining
    entries.  For [add], and for [set] whenever it computes no order, the
    call as a whole is the call on the rest of the batch, made after the
    notification. *)
Theorem invalid_entry_is_skipped
    (b : bag) (err : string) (rest : list entry) (w : world) :
  get (PBag b) w = None →
  validate b = Some err →
  (∀ o, coll (rejected b err o w) = coll w
        ∧ log (rejected b err o w) =
            log w ++ [Notification OnCollection "invalid" None (Some err)
                        (with_collection o)])
  ∧ (∀ o srt sa i s,
       truthy (o_add o) = true →
       classify o srt sa i (EBag b :: rest) s w =
         classify o srt sa (S i) rest
           (Staging (st_models s ++ [SFalse]) (st_toAdd s) (st_modelMap s)
                    (st_order s) (st_orderChanged s) (st_sort s) None)
           (rejected b err o w))
  ∧ (∀ o,
       truthy (o_add (set_defaults o)) = true →
       st_order (staging_init (set_defaults o) w) = None →
       set (Many (EBag b :: rest)) o w
       = after_rejected (set (Many rest) o (rejected b err (set_defaults o) w)))
  ∧ (∀ o,
       add (Many (EBag b :: rest)) o w
       = after_rejected
           (add (Many rest) o
                (rejected b err (set_defaults (add_options o)) w))).
Proof.
  intros Hget Hval. split_and!.
  - done.
  - intros o srt sa i s Hadd. cbn [classify].
    by rewrite (classify_entry_rejected _ _ _ _ _ _ _ _ Hadd Hget Hval).
  - intros o Hadd Hord. by apply set_rejected_head.
  - intros o. unfold add. apply set_rejected_head; [done| |done|done].
    unfold staging_init. simpl. by rewrite andb_false_r.
Qed.

(** ** Positional access *)

Lemma indexOf_absent (l : list cid) c : c ∉ l → indexOf l c = (-1)%Z.
Proof.
  induction l as [|y l IH]; [done|]. intros Hc. cbn [indexOf].
  destruct (decide (y = c)) as [->|_]; [by destruct Hc; left|].
  rewrite IH; [done|]. intros H. apply Hc. by right.
Qed.

Lemma indexOf_lookup (l : list cid) c :
  c ∈ l → l !! Z.to_nat (indexOf l c) = Some c.
Proof.
  induction l as [|y l IH]; [by intros ?%elem_of_nil|]. intros Hc. cbn [indexOf].
  destruct (decide (y = c)) as [->|Hne]; [done|].
  assert (Hin : c ∈ l) by (apply elem_of_cons in Hc as [->|]; done).
  pose proof (indexOf_nonneg l c Hin) as Hpos.
  destruct (indexOf l c <? 0)%Z eqn:Hneg; [lia|].
  replace (Z.to_nat (indexOf l c + 1)) with (S (Z.to_nat (indexOf l c))) by lia.
  by apply IH.
Qed.

Lemma at_index_nonneg (i : Z) (w : world) :
  (0 ≤ i)%Z → at_index i w = Coll.models (coll w) !! Z.to_nat i.
Proof.
  intros Hi. unfold at_index.
  assert (H : (i <? 0)%Z = false) by (apply Z.ltb_ge; lia). by rewrite H, H.
Qed.

Lemma at_index_neg (i : Z) (w : world) :
  (i < 0)%Z →
  at_index i w =
    if (i + Coll.length (coll w) <? 0)%Z then None
    else Coll.models (coll w) !! Z.to_nat (i + Coll.length (coll w)).
Proof.
  intros Hi. unfold at_index.
  assert (H : (i <? 0)%Z = true) by (apply Z.ltb_lt; lia). by rewrite H.
Qed.

(** X1: [at(index)] on a collection whose cached length is the length of
    its sequence: a position from 0 up to length - 1 reads that position, a
    negative index from -length up to -1 counts from the end, and every other
    index reads nothing; so [at] yields a record exactly for the indices
    from -length up to length - 1. *)
Theorem at_index_positions (i : Z) (w : world) :
  Coll.length (coll w) = Z.of_nat (List.length (Coll.models (coll w))) →
  let n := Coll.length (coll w) in
  at_index i w =
    (if decide (0 ≤ i < n)%Z then Coll.models (coll w) !! Z.to_nat i
     else if decide (- n ≤ i < 0)%Z then Coll.models (coll w) !! Z.to_nat (n + i)
     else None)
  ∧ (is_Some (at_index i w) ↔ (- n ≤ i < n)%Z).
Proof.
  intros Hlen n.
  assert (Hn : n = Z.of_nat (List.length (Coll.models (coll w)))) by done.
  destruct (decide (i < 0)%Z) as [Hi|Hi].
  - rewrite (at_index_neg i w Hi). fold n.
    destruct (decide (0 ≤ i < n)%Z) as [?|_]; [lia|].
    destruct (i + n <? 0)%Z eqn:Hin.
    + apply Z.ltb_lt in Hin. destruct (decide (- n ≤ i < 0)%Z) as [?|_]; [lia|].
      split; [done|]. split; [by intros [? ?]|lia].
    + apply Z.ltb_ge in Hin. destruct (decide (- n ≤ i < 0)%Z) as [_|?]; [|lia].
      replace (n + i)%Z with (i + n)%Z by lia. split; [done|].
      split; [lia|]. intros _. apply lookup_lt_is_Some. lia.
  - rewrite (at_index_nonneg i w) by lia.
    destruct (decide (0 ≤ i < n)%Z) as [Hr|Hr].
    + split; [done|]. split; [lia|]. intros _. apply lookup_lt_is_Some. lia.
    + destruct (decide (- n ≤ i < 0)%Z) as [?|_]; [lia|].
      assert (Hnone : Coll.models (coll w) !! Z.to_nat i = None)
        by (apply lookup_ge_None; lia).
      rewrite Hnone. split; [done|]. split; [by intros [? ?]|lia].
Qed.

(** X2: [at(indexOf(m))] gives a member back.  For a record that is not a
    member [indexOf] is -1, which [at] reads as the last position: the
    answer is then the last member (nothing on an empty collection). *)
Theorem at_index_of_indexOf (c : cid) (w : world) :
  Coll.length (coll w) = Z.of_nat (List.length (Coll.models (coll w))) →
  at_index (indexOf (Coll.models (coll w)) c) w =
    if decide (c ∈ Coll.models (coll w)) then Some c
    else last (Coll.models (coll w)).
Proof.
  intros Hlen. destruct (decide (c ∈ Coll.models (coll w))) as [Hc|Hc].
  - rewrite at_index_nonneg by by apply indexOf_nonneg.
    by apply indexOf_lookup.
  - rewrite (indexOf_absent _ _ Hc), at_index_neg by lia.
    rewrite Hlen, last_lookup.
    destruct (Coll.models (coll w)) as [|x l]; [done|].
    cbn [List.length].
    destruct (-1 + Z.of_nat (S (List.length l)) <? 0)%Z eqn:Hneg;
      [apply Z.ltb_lt in Hneg; lia|].
    f_equal. lia.
Qed.

(** ** Attribute queries *)

Lemma find_head_filter {A} (p : A → bool) (l : list A) :
  List.find p l = head (List.filter p l).
Proof. induction l as [|x l IH]; [done|]. simpl. by destruct (p x). Qed.

Lemma filter_sublist {A} (p : A → bool) (l : list A) : List.filter p l `sublist_of` l.
Proof.
  induction l as [|x l IH]; [done|]. simpl.
  destruct (p x); [by apply sublist_skip|by apply sublist_cons].
Qed.

(** X3: [where(attrs)] lists, in the order of the collection, exactly the
    members whose attributes include every property of [attrs] with the same
    value; [findWhere(attrs)] is the first record of that list, or nothing
    when the list is empty; and with no property to compare every member is
    listed. *)
Theorem findWhere_is_first_of_where (attrs : bag) (w : world) :
  ∃ l, where_ attrs false w = Matching l
       ∧ findWhere attrs w = Found (head l)
       ∧ l `sublist_of` Coll.models (coll w)
       ∧ (∀ c, c ∈ l ↔ c ∈ Coll.models (coll w)
                        ∧ attrs ⊆ attributes (get_model w c))
       ∧ (attrs = ∅ → l = Coll.models (coll w)).
Proof.
  eexists. split; [reflexivity|]. split_and!.
  - unfold findWhere, where_. by rewrite find_head_filter.
  - apply filter_sublist.
  - intros c. rewrite !list_elem_of_In, filter_In. unfold matches.
    by rewrite bool_decide_eq_true.
  - intros ->. induction (Coll.models (coll w)) as [|x l IH]; [done|].
    simpl. unfold matches at 1.
    rewrite bool_decide_eq_true_2 by apply map_empty_subseteq. by f_equal.
Qed.

(** X4: in a well-formed collection no identifier is held twice: [pluck]
    of the identifier attribute never lists the same identifier (other
    than [undefined] and [null], the mark of an unsaved record) at two
    positions. *)
Theorem wf_identifiers_unique (w : world) (i j : nat) (v : value) :
  wf w → nullish v = false →
  pluck idAttr w !! i = Some v → pluck idAttr w !! j = Some v → i = j.
Proof.
  intros (_ & Hidx & _) Hv Hi Hj. unfold pluck in Hi, Hj.
  apply list_lookup_fmap_Some in Hi as (ci & Hvi & Hci).
  apply list_lookup_fmap_Some in Hj as (cj & Hvj & Hcj).
  assert (Hidi : id_of w ci = v) by done.
  assert (Hidj : id_of w cj = v) by done.
  pose proof (indexed_id w _ ci Hidx) as Hki.
  pose proof (indexed_id w _ cj Hidx) as Hkj.
  rewrite Hidi in Hki. rewrite Hidj in Hkj.
  specialize (Hki (list_elem_of_lookup_2 _ _ _ Hci) Hv).
  specialize (Hkj (list_elem_of_lookup_2 _ _ _ Hcj) Hv).
  assert (ci = cj) as -> by congruence.
  destruct Hidx as (Hnd & _). by eapply NoDup_lookup.
Qed.

(** ** Lookups in a well-formed collection *)

(** X5: in a well-formed collection [get] finds every member by the record
    itself and by its client identity, and a member that carries an
    identifier also by that identifier and by an attribute bag that carries
    it; and whatever [get] is asked through keys that [Object.prototype]
    does not supply, its answer is a member. *)
Theorem get_finds_members_only (w : world) :
  wf w →
  (∀ c, c ∈ Coll.models (coll w) →
        get (PModel c) w = Some c
        ∧ get (PVal (VStr (cid_key c))) w = Some c
        ∧ (nullish (id_of w c) = false →
           get (PVal (id_of w c)) w = Some c
           ∧ ∀ b, modelId b = id_of w c → get (PBag b) w = Some c))
  ∧ (∀ p c, own_keys w p → get p w = Some c → c ∈ Coll.models (coll w)).
Proof.
  intros (_ & Hidx & _). split.
  - intros c Hc. split_and!.
    + by apply (indexed_get_member w _ c Hidx).
    + unfold get. simpl. by rewrite (indexed_cid w _ c Hidx Hc).
    + intros Hid. pose proof (indexed_id w _ c Hidx Hc Hid) as Hk. split.
      * unfold get. simpl. rewrite Hid. simpl. by rewrite Hk.
      * intros b Hb. rewrite get_bag, Hb, (indexed_object_key w _ Hidx). simpl.
        by rewrite Hk.
  - intros p c _. by apply indexed_get.
Qed.

(** ** Frames of the invariant *)

Lemma indexed_perm w cs cs' : cs ≡ₚ cs' → indexed w cs → indexed w cs'.
Proof.
  intros Hp (Hnd & Hidx & Hres). split_and!; [by rewrite <-Hp| |done].
  intros k c. rewrite Hidx. by rewrite Hp.
Qed.

Lemma wf_frame w w' :
  wf w → same_attrs w w' →
  Coll._byId (coll w') = Coll._byId (coll w) →
  Coll.models (coll w') ≡ₚ Coll.models (coll w) →
  Coll.length (coll w') = Coll.length (coll w) →
  next_cid w ≤ next_cid w' →
  wf w'.
Proof.
  intros (Hlen & Hidx & Hlt & Hfresh) Hattrs Hix Hp Hl Hn. split_and!.
  - rewrite Hl, Hlen. by rewrite Hp.
  - apply (indexed_perm _ (Coll.models (coll w))); [done|].
    by apply (indexed_frame w).
  - rewrite Hp. eapply Forall_impl; [exact Hlt|]. simpl. lia.
  - intros n Hle. rewrite Hix. apply Hfresh. lia.
Qed.

(** X6: what [sort] does, by the kind of comparator.  With a comparison
    function (two arguments) it returns normally: the records are those of
    before in another order, the collection stays well-formed, every
    lookup answers as before, and one "sort" notification is emitted
    unless the call is silenced.  With a string or a function of one
    argument it raises the TypeError of calling [this.sortBy], which does
    not exist, and without a comparator the error of the source; in both
    cases nothing was changed. *)
Theorem sort_keeps_wf (o : options) (w : world) :
  wf w →
  match truthy_comparator (Coll.comparator (coll w)) with
  | Some (ByCompare _) =>
      ∃ w', sort o w = Ok () w'
            ∧ wf w'
            ∧ Coll.models (coll w') ≡ₚ Coll.models (coll w)
            ∧ (∀ p, get p w' = get p w)
            ∧ log w' =
                log w ++ (if truthy (o_silent o) then []
                          else [Notification OnCollection "sort" None None o])
  | Some _ => sort o w = Throw (TypeError "this.sortBy is not a function") w
  | None => sort o w = Throw (Error "Cannot sort a set without a comparator") w
  end.
Proof.
  intros Hwf.
  destruct (truthy_comparator (Coll.comparator (coll w))) as [[f|k|c]|] eqn:Hcmp;
    [apply sort_no_sortBy; unfold needs_sortBy; by rewrite Hcmp..
    | |unfold sort; by rewrite Hcmp].
  rewrite (sort_ok o w c Hcmp). eexists. split; [done|].
  set (w1 := upd_coll (set_models (array_sort c w (Coll.models (coll w)))) w).
  assert (Hfacts : same_attrs w w1 ∧ Coll._byId (coll w1) = Coll._byId (coll w)
                   ∧ Coll.models (coll w1) ≡ₚ Coll.models (coll w)
                   ∧ Coll.length (coll w1) = Coll.length (coll w)
                   ∧ next_cid w1 = next_cid w).
  { split_and!; try done. apply array_sort_perm. }
  destruct Hfacts as (Ha & Hix & Hp & Hl & Hn).
  destruct (truthy (o_silent o)); cbv zeta.
  - split_and!; [apply (wf_frame w); try done; lia|done| |by rewrite app_nil_r].
    intros p. by apply get_frame.
  - split_and!; [apply (wf_frame w); try done; simpl; lia|done| |done].
    intros p. by apply get_frame.
Qed.

(** ** When [set] throws *)

(** The first loop of [set] leaves the sequence and the cached length
    alone: it only registers, merges and re-keys. *)
Lemma seq_rekey c w :
  Coll.models (coll (rekey c w)) = Coll.models (coll w)
  ∧ Coll.length (coll (rekey c w)) = Coll.length (coll w).
Proof. unfold rekey. by case_decide. Qed.

Lemma seq_trigger_model ev c o w :
  Coll.models (coll (trigger_model ev c o w)) = Coll.models (coll w)
  ∧ Coll.length (coll (trigger_model ev c o w)) = Coll.length (coll w).
Proof.
  unfold trigger_model, proxy_event. destruct (listening (get_model w c)); [|done].
  case_decide; simpl; [|done].
  match goal with |- context [rekey c ?w1] => by destruct (seq_rekey c w1) as [-> ->] end.
Qed.

Lemma seq_model_set c attrs o w :
  Coll.models (coll (model_set c attrs o w)) = Coll.models (coll w)
  ∧ Coll.length (coll (model_set c attrs o w)) = Coll.length (coll w).
Proof.
  unfold model_set. case_match; [done|].
  match goal with |- context [trigger_model ?ev c o ?w1] =>
    by destruct (seq_trigger_model ev c o w1) as [-> ->] end.
Qed.

Lemma seq_classify_entry o srt sa i e s w :
  Coll.models (coll (classify_entry o srt sa i e s w).2) = Coll.models (coll w)
  ∧ Coll.length (coll (classify_entry o srt sa i e s w).2) = Coll.length (coll w).
Proof.
  unfold classify_entry. destruct (get (probe_of e) w) as [ex|].
  - unfold merge_existing.
    destruct (truthy (o_merge o) && negb (same_object e ex)); simpl; [|done].
    apply seq_model_set.
  - destruct (truthy (o_add o)); [|by destruct (st_model s)].
    unfold _prepareModel. destruct e as [b|c]; simpl; [|done].
    by destruct (validate b).
Qed.

Lemma seq_classify o srt sa es : ∀ i s w,
  Coll.models (coll (classify o srt sa i es s w).2) = Coll.models (coll w)
  ∧ Coll.length (coll (classify o srt sa i es s w).2) = Coll.length (coll w).
Proof.
  induction es as [|e es IH]; intros i s w; simpl; [done|].
  pose proof (seq_classify_entry o srt sa i e s w) as [H1 H2].
  destruct (classify_entry o srt sa i e s w) as [s1 w1]. simpl in H1, H2.
  destruct (IH (S i) s1 w1) as [H3 H4]. split; congruence.
Qed.





(** ** Silenced calls *)

Lemma log_model_set_silent c attrs o w :
  truthy (o_silent o) = true → log (model_set c attrs o w) = log w.
Proof. intros H. unfold model_set. by rewrite H. Qed.

Lemma emits_classify_entry_silent o srt sa i e s w :
  truthy (o_silent o) = true →
  emits (named ["invalid"]) w (classify_entry o srt sa i e s w).2.
Proof.
  intros Hs. unfold classify_entry. destruct (get (probe_of e) w) as [ex|].
  - unfold merge_existing.
    destruct (truthy (o_merge o) && negb (same_object e ex)); simpl;
      [|apply emits_refl].
    by apply emits_same, log_model_set_silent.
  - destruct (truthy (o_add o)); [|destruct (st_model s); apply emits_refl].
    pose proof (emits_prepareModel e o w) as H.
    destruct (_prepareModel e o w) as [[m|] w1]; simpl in *; [|done].
    eapply emits_trans; [exact H|by apply emits_same].
Qed.

Lemma emits_classify_silent o srt sa es : ∀ i s w,
  truthy (o_silent o) = true →
  emits (named ["invalid"]) w (classify o srt sa i es s w).2.
Proof.
  induction es as [|e es IH]; intros i s w Hs; simpl; [apply emits_refl|].
  pose proof (emits_classify_entry_silent o srt sa i e s w Hs) as H.
  destruct (classify_entry o srt sa i e s w) as [s1 w1]. simpl in H.
  eapply emits_trans; [exact H|by apply IH].
Qed.

Lemma remove_one_silent p o w :
  truthy (o_silent o) = true →
  (remove_one p o w).1.2 = o ∧ log (remove_one p o w).2 = log w.
Proof.
  intros Hs. unfold remove_one. destruct (get p w); [|done]. by rewrite Hs.
Qed.

Lemma remove_loop_silent ps : ∀ o w,
  truthy (o_silent o) = true →
  (remove_loop ps o w).1.2 = o ∧ log (remove_loop ps o w).2 = log w.
Proof.
  induction ps as [|p ps IH]; intros o w Hs; simpl; [done|].
  pose proof (remove_one_silent p o w Hs) as [H1 H2].
  destruct (remove_one p o w) as [[r o1] w1]. simpl in H1, H2. subst o1.
  pose proof (IH o w1 Hs) as [H3 H4].
  destruct (remove_loop ps o w1) as [[rs o2] w2]. simpl in *. split; congruence.
Qed.

Lemma remove_silent models o w :
  truthy (o_silent o) = true →
  (remove models o w).1.2 = o ∧ log (remove models o w).2 = log w.
Proof.
  intros Hs. destruct models as [p|ps]; unfold remove.
  - pose proof (remove_loop_silent [p] o w Hs) as H.
    by destruct (remove_loop [p] o w) as [[rs o1] w1].
  - pose proof (remove_loop_silent ps o w Hs) as H.
    by destruct (remove_loop ps o w) as [[rs o1] w1].
Qed.

Lemma remove_pass_silent s o w o1 w2 :
  truthy (o_silent o) = true →
  remove_pass s o w = Some (o1, w2) → o1 = o ∧ log w2 = log w.
Proof.
  intros Hs. unfold remove_pass. destruct (truthy (o_remove o)); [|by intros [= <- <-]].
  destruct (stale _ _ _) as [[|m l]|]; [by intros [= <- <-]| |done].
  pose proof (remove_silent (Many (PModel <$> m :: l)) o w Hs) as H.
  destruct (remove (Many (PModel <$> m :: l)) o w) as [[rs o2] w3].
  by intros [= <- <-].
Qed.

Lemma set_silent_emits models o w :
  truthy (o_silent o) = true →
  emits (named ["invalid"]) w (out_world (set models o w)).
Proof.
  intros Hs.
  assert (Hs' : truthy (o_silent (set_defaults o)) = true) by done.
  pose proof (emits_classify_silent (set_defaults o) (sortable (set_defaults o) w)
                (sortAttr w) (entries models) 0
                (staging_init (set_defaults o) w) w Hs') as Hfirst.
  destruct (set models o w) as [r w'|e w'] eqn:Hset.
  - apply set_Ok_inv in Hset as (s & w1 & o1 & w2 & w4 & Hf & Hr & Hlog & -> & _).
    unfold first_pass in Hf. rewrite Hf in Hfirst. simpl in Hfirst.
    destruct (remove_pass_silent _ _ _ _ _ Hs' Hr) as [-> Hlog2].
    unfold notify. rewrite Hs'. simpl.
    eapply emits_trans; [exact Hfirst|]. apply emits_same. congruence.
  - rewrite set_unfold in Hset. cbv zeta in Hset.
    destruct (first_pass models (set_defaults o) w) as [s w1] eqn:Hf.
    unfold first_pass in Hf. rewrite Hf in Hfirst. simpl in Hfirst.
    destruct (remove_pass s (set_defaults o) w1) as [[o1 w2]|] eqn:Hr;
      [|by injection Hset as _ <-].
    destruct (remove_pass_silent _ _ _ _ _ Hs' Hr) as [-> Hlog2].
    pose proof (log_splice_in (position (set_defaults o) w)
                  (sortable (set_defaults o) w) s w2) as Hsp.
    destruct (splice_in _ _ s w2) as [srt w3]. simpl in Hsp.
    destruct srt; [|done].
    destruct (sort silent_sort w3) as [[] w4|e' w4] eqn:Hsort; [done|].
    injection Hset as _ <-.
    destruct (sort_silent_inv w3 _ w4 Hsort eq_refl) as [Hl _].
    eapply emits_trans; [exact Hfirst|]. apply emits_same. simpl in *. congruence.
Qed.

(** X8: a silenced call ([silent: true]) emits no "add", "remove", "sort"
    or "change" notification: [remove] and [sort] emit nothing at all, and
    the only notifications of [set] and [add] are the "invalid" ones of
    rejected entries, which [silent] does not suppress. *)
Theorem silent_calls_emit_only_invalid (o : options) (w : world) :
  truthy (o_silent o) = true →
  (∀ models, ∃ l, log (out_world (set models o w)) = log w ++ l
                  ∧ Forall (named ["invalid"]) l)
  ∧ (∀ models, ∃ l, log (out_world (add models o w)) = log w ++ l
                    ∧ Forall (named ["invalid"]) l)
  ∧ (∀ models, log (remove models o w).2 = log w)
  ∧ log (out_world (sort o w)) = log w.
Proof.
  intros Hs. split_and!.
  - intros models. by apply set_silent_emits.
  - intros models. unfold add. by apply set_silent_emits.
  - intros models. by apply remove_silent.
  - unfold sort. destruct (truthy_comparator _) as [[| |c]|]; [done..| |done].
    by rewrite Hs.
Qed.

(** ** What [add] and [reset] do to the sequence *)

Lemma named_mono names names' n :
  Forall (λ x, x ∈ names') names → named names n → named names' n.
Proof. unfold named. intros H Hn. by apply (proj1 (Forall_forall _ _) H). Qed.

Ltac solve_names :=
  repeat first [apply Forall_nil_2 | apply Forall_cons_2];
  repeat first [apply list_elem_of_here | apply list_elem_of_further].

Lemma order_none_classify o srt sa es : ∀ i s w,
  st_order s = None → st_order (classify o srt sa i es s w).1 = None.
Proof.
  induction es as [|e es IH]; intros i s w Hord; simpl; [done|].
  destruct (classify_entry_shift o srt sa i i e [] s w Hord) as [_ Hord'].
  destruct (classify_entry o srt sa i e s w) as [s1 w1]. simpl in *.
  by apply IH.
Qed.

Lemma emits_notify at_ srt s o w :
  emits (named ["add"; "sort"]) w (notify at_ srt s o w).
Proof.
  destruct (log_notify at_ srt s o w) as (l3 & l4 & Hlog & F3 & _ & ->).
  exists (l3 ++ (if negb (truthy (o_silent o)) && (srt || st_orderChanged s)
                 then [Notification OnCollection "sort" None None o] else [])).
  split; [done|]. apply Forall_app. split.
  - eapply Forall_impl; [exact F3|]. intros n. apply named_mono. solve_names.
  - case_match; [|done]. apply Forall_singleton. unfold named. simpl. solve_names.
Qed.

Lemma add_shape models o w :
  let o' := set_defaults (add_options o) in
  let w' := out_world (add models o w) in
  ∃ added,
    Coll.models (coll w') ≡ₚ Coll.models (coll w) ++ added
    ∧ (sortable o' w = false → position o' w = None →
       Coll.models (coll w') = Coll.models (coll w) ++ added)
    ∧ Coll.length (coll w') =
        (Coll.length (coll w) + Z.of_nat (List.length added))%Z
    ∧ Coll.comparator (coll w') = Coll.comparator (coll w)
    ∧ emits (named ["change"; "invalid"; "add"; "sort"]) w w'
    ∧ (entries models = [] → coll w' = coll w)
    ∧ ((sortable o' w = true → needs_sortBy w = false) →
       ∃ r, add models o w = Ok r w').
Proof.
  intros o' w'. unfold add in w'.
  destruct (add_options_flags o) as [Hadd Hrem]. fold o' in Hadd, Hrem.
  destruct (first_pass models o' w) as [s w1] eqn:Hfirst.
  pose proof (seq_classify o' (sortable o' w) (sortAttr w) (entries models) 0
                (staging_init o' w) w) as [Hm Hl].
  pose proof (order_none_classify o' (sortable o' w) (sortAttr w) (entries models) 0
                (staging_init o' w) w) as Hord.
  pose proof (emits_classify o' (sortable o' w) (sortAttr w) (entries models) 0
                (staging_init o' w) w) as Hemit.
  pose proof (first_pass_sort_flag _ _ _ _ _ Hfirst) as Hflag.
  pose proof (comparator_first_pass _ _ _ _ _ Hfirst) as Hcmp.
  pose proof (sorts_sortable _ _ _ _ _ Hfirst) as Hsorts.
  unfold first_pass in Hfirst. rewrite Hfirst in Hm, Hl, Hord, Hemit.
  simpl in Hm, Hl, Hord, Hemit.
  assert (Hord' : st_order s = None).
  { apply Hord. unfold staging_init. by rewrite ?Hrem, ?andb_false_r. }
  destruct (set_finish_world models (add_options o) w s w1 o' w1 Hfirst
              (remove_pass_off _ _ _ Hrem))
    as (Hms & Hexact & Hlen & Hix & Hc4 & _ & _ & Hnote).
  fold o' in Hms, Hexact, Hlen. fold w' in Hms, Hexact, Hlen, Hix, Hc4, Hnote.
  exists (st_toAdd s).
  assert (Hstaged : staged s = false → st_toAdd s = []).
  { unfold staged. intros [H _]%orb_false_elim.
    by apply negb_false_iff, bool_decide_eq_true in H. }
  split_and!.
  - rewrite Hms, Hm. destruct (staged s) eqn:Hst.
    + unfold spliced. rewrite Hord'. destruct (position o' w); [|done].
      by rewrite splice_all_perm, Permutation_app_comm.
    + by rewrite (Hstaged eq_refl), app_nil_r.
  - intros Hsortable Hpos. rewrite Hexact, Hm.
    + destruct (staged s) eqn:Hst.
      * unfold spliced. by rewrite Hpos, Hord'.
      * by rewrite (Hstaged eq_refl), app_nil_r.
    + rewrite Hsortable, andb_false_r, orb_false_r.
      destruct (st_sort s) eqn:Hs; [|done]. by rewrite Hflag in Hsortable.
  - rewrite Hlen, Hl. destruct (staged s) eqn:Hst; [done|].
    rewrite (Hstaged eq_refl). simpl. lia.
  - by rewrite Hc4.
  - eapply emits_trans; [|eapply emits_weaken; [|exact Hnote]].
    + eapply emits_weaken; [|exact Hemit].
      intros n. apply named_mono. solve_names.
    + intros n. apply named_mono. solve_names.
  - intros Hnil. rewrite Hnil in Hfirst. simpl in Hfirst.
    injection Hfirst as <- <-. apply coll_eq; [| |done|done].
    + rewrite Hlen. unfold staged. simpl. done.
    + rewrite Hexact; [by unfold staged|]. unfold staged. simpl. done.
  - intros Hnative.
    destruct (set_finish models (add_options o) w s w1 o' w1 Hfirst
                (remove_pass_off _ _ _ Hrem)) as (w4 & Hset & _).
    { intros Hsrt. apply Hnative. by apply Hsorts. }
    unfold add, w'. rewrite Hset. by eexists.
Qed.

(** X9: [add] only ever adds.  For a batch of plain attribute bags, and
    whether the call returns or ends in the TypeError of a sort through
    [sortBy]: the sequence afterwards holds the records of before together
    with the newly staged ones (appended in staging order when the
    collection neither sorts nor was given a position), the cached length
    grows by their number, so a length that was in step with the sequence
    stays in step, and no "remove" notification is emitted.  The call
    returns whenever the collection does not sort or sorts by a comparison
    function. *)
Theorem add_only_adds (bs : list bag) (o : options) (w : world) :
  Forall (λ b, plain b = true) bs →
  let r := add (Many (EBag <$> bs)) o w in
  let w' := out_world r in
  ∃ added l,
    Coll.models (coll w') ≡ₚ Coll.models (coll w) ++ added
    ∧ (sortable (set_defaults (add_options o)) w = false → o_at o = None →
       Coll.models (coll w') = Coll.models (coll w) ++ added)
    ∧ Coll.length (coll w') =
        (Coll.length (coll w) + Z.of_nat (List.length added))%Z
    ∧ (Coll.length (coll w) = Z.of_nat (List.length (Coll.models (coll w))) →
       Coll.length (coll w') = Z.of_nat (List.length (Coll.models (coll w'))))
    ∧ log w' = log w ++ l
    ∧ Forall (named ["change"; "invalid"; "add"; "sort"]) l
    ∧ ((sortable (set_defaults (add_options o)) w = true → needs_sortBy w = false) →
       ∃ res, r = Ok res w').
Proof.
  intros _ r w'.
  destruct (add_shape (Many (EBag <$> bs)) o w)
    as (added & Hp & Hexact & Hlen & _ & (l & Hlog & Hl) & _ & Hok).
  exists added, l. split_and!; try done.
  - intros Hs Hat. apply Hexact; [done|]. unfold position. simpl. by rewrite Hat.
  - intros Hsync. unfold w', r. rewrite Hlen, Hsync, Hp, length_app. lia.
Qed.

Lemma untie_all cs : ∀ w,
  let w1 := foldl (λ w c, _removeReference c w) w cs in
  coll w1 = coll w ∧ log w1 = log w ∧ next_cid w1 = next_cid w.
Proof.
  induction cs as [|c cs IH]; intros w; [done|]. simpl.
  destruct (IH (_removeReference c w)) as (-> & -> & ->). done.
Qed.

(** X10: [reset] replaces the collection wholesale.  For a batch of plain
    attribute bags on a collection whose comparator, if it has one, is a
    comparison function, the call returns, whatever state the collection
    was in: the cached length is afterwards the length of the sequence, the
    comparator is kept, and with nothing to add the sequence and the index
    are empty.  No "remove" notification is emitted; unless [silent: false]
    was passed explicitly the only notifications before the closing "reset"
    are the "invalid" ones of rejected entries; and the "reset"
    notification, skipped when silenced, comes last and carries the
    previous sequence. *)
Theorem reset_replaces_everything (bs : list bag) (o : options) (w : world) :
  Forall (λ b, plain b = true) bs →
  needs_sortBy w = false →
  ∃ r w' l,
    reset (Many (EBag <$> bs)) o w = Ok r w'
    ∧ Coll.length (coll w') = Z.of_nat (List.length (Coll.models (coll w')))
    ∧ Coll.comparator (coll w') = Coll.comparator (coll w)
    ∧ (bs = [] → Coll.models (coll w') = [] ∧ Coll._byId (coll w') = ∅)
    ∧ log w' =
        log w ++ l
        ++ (if truthy (o_silent o) then []
            else [Notification OnCollection "reset" None None
                    (with_previousModels (Coll.models (coll w)) o)])
    ∧ Forall (named ["change"; "invalid"; "add"; "sort"]) l
    ∧ (o_silent o ≠ Some false → Forall (named ["invalid"]) l).
Proof.
  intros _ Hsb. unfold reset.
  set (models := Many (EBag <$> bs)).
  set (prev := Coll.models (coll w)).
  set (w1 := foldl (λ w c, _removeReference c w) w prev).
  destruct (untie_all prev w) as (Hc1 & Hl1 & _). fold w1 in Hc1, Hl1.
  set (o1 := with_previousModels prev o).
  set (oa := with_silent (match o_silent o1 with None => Some true | s => s end) o1).
  destruct (add_shape models oa (_reset w1))
    as (added & Hp & _ & Hlen & Hcmp & (l & Hlog & Hl) & Hnil & Hok).
  destruct Hok as [r Hadd].
  { intros _. rewrite <-Hsb. apply needs_sortBy_coll. simpl. by rewrite Hc1. }
  pose proof (set_silent_emits models (add_options oa) (_reset w1)) as Hsilent.
  fold (add models oa (_reset w1)) in Hsilent.
  set (w3 := out_world (add models oa (_reset w1))) in *.
  rewrite Hadd.
  simpl in Hsilent, Hlog, Hp, Hlen, Hcmp.
  assert (Hsync : Coll.length (coll w3)
                  = Z.of_nat (List.length (Coll.models (coll w3)))).
  { rewrite Hlen, Hp. simpl. lia. }
  assert (Hempty : bs = [] →
                   Coll.models (coll w3) = [] ∧ Coll._byId (coll w3) = ∅).
  { intros H. rewrite Hnil; [done|]. unfold models. by rewrite H. }
  assert (Hquiet : o_silent o ≠ Some false → Forall (named ["invalid"]) l).
  { intros Hs. destruct Hsilent as (l' & Hlog' & Hl').
    - unfold oa, o1. simpl. by destruct (o_silent o) as [[]|].
    - rewrite Hlog in Hlog'. by apply app_inv_head in Hlog' as ->. }
  exists r. change (o_silent o1) with (o_silent o).
  destruct (truthy (o_silent o)) eqn:Hs.
  - exists w3, l. rewrite app_nil_r, Hlog, Hl1, Hcmp, Hc1. by split_and!.
  - eexists _, l. split; [done|]. simpl.
    rewrite Hlog, Hl1, Hcmp, Hc1, <-(assoc_L (++)). by split_and!.
Qed.

(** ** A removed record is forgotten *)






(** ** Merging without adding or removing *)

Lemma next_cid_model_set c attrs o w : next_cid (model_set c attrs o w) = next_cid w.
Proof. unfold model_set. case_match; [done|]. by rewrite next_cid_trigger_model. Qed.

Lemma classify_entry_no_add o srt sa i e s w :
  truthy (o_add o) = false → st_order s = None →
  let r := classify_entry o srt sa i e s w in
  st_toAdd r.1 = st_toAdd s ∧ st_orderChanged r.1 = st_orderChanged s
  ∧ st_order r.1 = None
  ∧ next_cid r.2 = next_cid w ∧ emits (named ["change"]) w r.2.
Proof.
  intros Hadd Hord. unfold classify_entry.
  destruct (get (probe_of e) w) as [ex|].
  - pose proof (emits_merge_existing o srt sa e ex (st_sort s) w) as He.
    assert (Hn : next_cid (merge_existing o srt sa e ex (st_sort s) w).2 = next_cid w).
    { unfold merge_existing. case_match; [|done]. apply next_cid_model_set. }
    destruct (merge_existing o srt sa e ex (st_sort s) w) as [b w1].
    unfold note_model. simpl in *. by rewrite Hord.
  - rewrite Hadd. destruct (st_model s); unfold note_model; simpl; rewrite ?Hord;
      (split_and!; [done..|apply emits_refl]).
Qed.

Lemma classify_no_add o srt sa es : ∀ i s w,
  truthy (o_add o) = false → st_order s = None →
  let r := classify o srt sa i es s w in
  st_toAdd r.1 = st_toAdd s ∧ st_orderChanged r.1 = st_orderChanged s
  ∧ next_cid r.2 = next_cid w ∧ emits (named ["change"]) w r.2.
Proof.
  induction es as [|e es IH]; intros i s w Hadd Hord; simpl.
  { split_and!; [done..|apply emits_refl]. }
  destruct (classify_entry_no_add o srt sa i e s w Hadd Hord) as (H1 & H2 & H3 & H4 & H5).
  destruct (classify_entry o srt sa i e s w) as [s1 w1]. simpl in *.
  destruct (IH (S i) s1 w1 Hadd H3) as (H6 & H7 & H8 & H9).
  split_and!; [congruence..|by eapply emits_trans].
Qed.

(** X13: [set] with both [add] and [remove] switched off never changes
    who is a member.  For a batch of plain attribute bags, and whether the
    call returns or ends in the TypeError of a sort through [sortBy]: no
    record is manufactured, the sequence holds the records of before (in
    the same order unless the collection sorts), the cached length is
    untouched, and the only notifications are the "change" ones of merged
    records and at most one closing "sort".  The call returns whenever the
    collection does not sort or sorts by a comparison function. *)
Theorem merge_only_set_keeps_membership
    (bs : list bag) (m : option bool) (o : options) (w : world) :
  Forall (λ b, plain b = true) bs →
  let o0 := with_flags (Some false) (Some false) m o in
  let r := set (Many (EBag <$> bs)) o0 w in
  let w' := out_world r in
  ∃ l,
    Coll.models (coll w') ≡ₚ Coll.models (coll w)
    ∧ (sortable (set_defaults o0) w = false →
       Coll.models (coll w') = Coll.models (coll w))
    ∧ Coll.length (coll w') = Coll.length (coll w)
    ∧ next_cid w' = next_cid w
    ∧ log w' = log w ++ l
    ∧ Forall (named ["change"; "sort"]) l
    ∧ ((sortable (set_defaults o0) w = true → needs_sortBy w = false) →
       ∃ res, r = Ok res w').
Proof.
  intros _ o0 r w'. set (models := Many (EBag <$> bs)) in *.
  set (o' := set_defaults o0).
  assert (Hadd : truthy (o_add o') = false) by done.
  assert (Hrem : truthy (o_remove o') = false) by done.
  destruct (first_pass models o' w) as [s w1] eqn:Hfirst.
  pose proof (seq_classify o' (sortable o' w) (sortAttr w) (entries models) 0
                (staging_init o' w) w) as [Hm Hl].
  assert (Hinit : st_order (staging_init o' w) = None).
  { unfold staging_init. simpl. by rewrite andb_false_r. }
  pose proof (classify_no_add o' (sortable o' w) (sortAttr w) (entries models) 0
                (staging_init o' w) w Hadd Hinit) as (Hta & Hoc & Hn & Hemit).
  pose proof (first_pass_sort_flag _ _ _ _ _ Hfirst) as Hflag.
  pose proof (sorts_sortable _ _ _ _ _ Hfirst) as Hsorts.
  unfold first_pass in Hfirst. rewrite Hfirst in Hm, Hl, Hta, Hoc, Hn, Hemit.
  simpl in Hm, Hl, Hta, Hoc, Hn, Hemit.
  assert (Hstaged : staged s = false) by (unfold staged; by rewrite Hta, Hoc).
  destruct (set_finish_world models o0 w s w1 o' w1 Hfirst
              (remove_pass_off _ _ _ Hrem))
    as (Hms & Hexact & Hlen & _ & _ & _ & Hn4 & _).
  fold o' r w' in Hms, Hexact, Hlen, Hn4.
  rewrite Hstaged in Hms, Hexact, Hlen. rewrite orb_false_r in Hexact.
  destruct Hemit as (l1 & Hl1 & F1).
  assert (Hlog : ∃ l, log w' = log w ++ l ∧ Forall (named ["change"; "sort"]) l).
  { assert (F1' : Forall (named ["change"; "sort"]) l1).
    { eapply Forall_impl; [exact F1|]. intros n. apply named_mono. solve_names. }
    destruct (decide (st_sort s || staged s && sortable o' w = true
                      ∧ needs_sortBy w = true)) as [[Hsrt Hsb]|Hno].
    - unfold w', r.
      rewrite (set_finish_throw _ _ _ _ _ _ _ Hfirst (remove_pass_off _ _ _ Hrem)
                 Hsrt Hsb). cbn [out_world]. fold o'.
      destruct (splice_in_world (position o' w) (sortable o' w) s w1)
        as (_ & _ & _ & _ & _ & _ & Hl3).
      exists l1. by rewrite Hl3, Hl1.
    - destruct (set_finish models o0 w s w1 o' w1 Hfirst (remove_pass_off _ _ _ Hrem))
        as (w4 & Hset & _ & _ & _ & _ & _ & _ & _ & Hlog4).
      { fold o'. intros Hsrt. destruct (needs_sortBy w); [|done]. by destruct Hno. }
      fold o' in Hset. rewrite Hstaged in Hset. simpl in Hset.
      rewrite orb_false_r in Hset.
      unfold w', r. rewrite Hset. simpl.
      unfold notify. rewrite Hta, Hoc, orb_false_r. cbn [notify_added].
      destruct (truthy (o_silent o')); [exists l1; by rewrite Hlog4, Hl1|].
      destruct (st_sort s); simpl.
      + eexists (l1 ++ [_]). rewrite Hlog4, Hl1, <-(assoc_L (++)). split; [done|].
        apply Forall_app. split; [done|]. apply Forall_singleton.
        unfold named. simpl. solve_names.
      + exists l1. by rewrite Hlog4, Hl1. }
  destruct Hlog as (l & Hlog & Fl).
  exists l. split_and!.
  - by rewrite Hms, Hm.
  - intros Hs. rewrite Hexact, Hm; [done|].
    destruct (st_sort s) eqn:Hsort; [|done]. by rewrite Hflag in Hs.
  - by rewrite Hlen, Hl.
  - by rewrite Hn4, Hn.
  - done.
  - done.
  - intros Hnative.
    destruct (set_finish models o0 w s w1 o' w1 Hfirst (remove_pass_off _ _ _ Hrem))
      as (w4 & Hset & _).
    { intros Hsrt. apply Hnative. by apply Hsorts. }
    unfold w', r. rewrite Hset. by eexists.
Qed.

(** ** A member that changes its identifier *)

Lemma modelId_lookup (b : bag) (z : Z) : modelId b = VNum z → b !! idAttr = Some (VNum z).
Proof. unfold modelId, prop. destruct (b !! idAttr) as [v|]; simpl; [|done]. by intros ->. Qed.

Lemma rekeyed_index (ix : gmap string cid) (old : value) (z' : Z) (c : cid) k :
  (nullish old = true ∨ ∃ z, old = VNum z) →
  (<[pretty z' := c]> (if nullish old then ix else delete (to_key old) ix)) !! k
  = if decide (k = pretty z') then Some c
    else if negb (nullish old) && bool_decide (k = to_key old) then None
    else ix !! k.
Proof.
  intros Hold. destruct (decide (k = pretty z')) as [->|Hne].
  - by rewrite lookup_insert_eq.
  - rewrite lookup_insert_ne by done. destruct (nullish old); [done|]. simpl.
    case_bool_decide as Hk.
    + subst k. by rewrite lookup_delete_eq.
    + by rewrite lookup_delete_ne.
Qed.

(** X14: when a member of a well-formed collection is given a new
    numeric identifier that no member holds, and the change is not
    silenced, the "change" notification makes the collection re-key its
    index: the collection stays well-formed, finds the record under the new
    identifier and no longer under the old one, keeps its sequence, and
    re-emits the "change" on itself. *)
Theorem changing_identifier_rekeys
    (c : cid) (attrs : bag) (z' : Z) (o : options) (w : world) :
  wf w → c ∈ Coll.models (coll w) →
  listening (get_model w c) = true →
  truthy (o_silent o) = false →
  modelId attrs = VNum z' →
  Coll._byId (coll w) !! pretty z' = None →
  (nullish (id_of w c) = true ∨ ∃ z, id_of w c = VNum z) →
  let w' := model_set c attrs o w in
  wf w'
  ∧ id_of w' c = VNum z'
  ∧ get (PVal (VNum z')) w' = Some c
  ∧ (∀ z, id_of w c = VNum z → get (PVal (VNum z)) w' = None)
  ∧ Coll.models (coll w') = Coll.models (coll w)
  ∧ log w' = log w ++ [Notification (OnModel c) "change" (Some c) None o;
                       Notification OnCollection "change" (Some c) None o].
Proof.
  intros Hwf Hc Hlisten Hsilent Hid' Hfree Hold w'.
  pose proof Hwf as (Hlen & Hix & Hlt & Hfresh).
  pose proof Hix as (Hnd & Hidx & Hres).
  assert (∃ m, heap w !! c = Some m) as [m Hm].
  { destruct (heap w !! c) as [m|] eqn:Hm; [eauto|].
    unfold get_model in Hlisten. by rewrite Hm in Hlisten. }
  assert (Hgm : get_model w c = m) by (unfold get_model; by rewrite Hm).
  assert (Hne : id_of w c ≠ VNum z').
  { intros Heq. pose proof (indexed_id w _ c Hix Hc) as H.
    rewrite Heq in H. specialize (H eq_refl). simpl in H. congruence. }
  set (chg := filter (λ kv : string * value,
                        prop (attributes (get_model w c)) kv.1 ≠ kv.2) attrs).
  assert (Hchg : chg ≠ ∅).
  { intros Hempty.
    assert (chg !! idAttr = Some (VNum z')) as H; [|by rewrite Hempty in H].
    apply map_lookup_filter_Some. split; [by apply modelId_lookup|]. simpl.
    exact Hne. }
  set (f := λ m : model, Model (attrs ∪ attributes m) (attributes m) chg
                               (collection m) (listening m) (validationError m)).
  set (wu := upd_model c f w).
  set (we := emit (Notification (OnModel c) "change" (Some c) None o) wu).
  assert (Hnew : get_model we c = f m).
  { unfold we, wu, get_model. simpl. by rewrite lookup_alter_eq, Hm. }
  assert (Hother : ∀ d, d ≠ c → get_model we d = get_model w d).
  { intros d Hd. unfold we, wu, get_model. simpl. by rewrite lookup_alter_ne. }
  set (ix := <[pretty z' := c]>
               (if nullish (id_of w c) then Coll._byId (coll w)
                else delete (to_key (id_of w c)) (Coll._byId (coll w)))).
  set (wr := upd_coll (set_byId ix) we).
  assert (Hw' : w' = emit (Notification OnCollection "change" (Some c) None o) wr).
  { unfold w', model_set. fold chg. fold f. fold wu. rewrite Hsilent.
    rewrite bool_decide_eq_false_2 by done. simpl.
    unfold trigger_model. fold we.
    replace (listening (get_model wu c)) with true
      by (symmetry; change (listening (get_model we c) = true);
          by rewrite Hnew; simpl; rewrite <-Hgm).
    unfold proxy_event. rewrite decide_True by done. f_equal.
    unfold rekey. rewrite Hnew. simpl.
    rewrite (modelId_union _ _ _ Hid'). rewrite <-Hgm. fold (id_of w c).
    rewrite decide_False by done. done. }
  assert (Hattr : ∀ d, get_model w' d = get_model we d) by (by rewrite Hw').
  assert (Hidc : id_of w' c = VNum z').
  { unfold id_of. rewrite Hattr, Hnew. simpl. by apply modelId_union. }
  assert (Hkeys_other : ∀ d, d ≠ c → keys_of w' d = keys_of w d).
  { intros d Hd. unfold keys_of, id_of. by rewrite Hattr, Hother. }
  assert (Hkeys_c : keys_of w' c = [cid_key c; pretty z']).
  { unfold keys_of. by rewrite Hidc. }
  assert (Hbyid : Coll._byId (coll w') = ix) by (by rewrite Hw').
  assert (Hlook : ∀ k, ix !! k =
            if decide (k = pretty z') then Some c
            else if negb (nullish (id_of w c)) && bool_decide (k = to_key (id_of w c))
                 then None else Coll._byId (coll w) !! k).
  { intros k. by apply rekeyed_index. }
  assert (Holdkey : nullish (id_of w c) = false →
                    Coll._byId (coll w) !! to_key (id_of w c) = Some c)
    by (by apply (indexed_id w _ c Hix)).
  assert (Hix' : indexed w' (Coll.models (coll w))).
  { split_and!; [done| |].
    - intros k d. rewrite Hbyid, Hlook.
      destruct (decide (k = pretty z')) as [->|Hk].
      + split.
        * intros [= <-]. split; [done|]. rewrite Hkeys_c. right; by left.
        * intros [Hd Hkd]. destruct (decide (d = c)) as [->|Hdc]; [done|].
          rewrite Hkeys_other in Hkd by done.
          assert (Coll._byId (coll w) !! pretty z' = Some d) by (by apply Hidx).
          congruence.
      + destruct (nullish (id_of w c)) eqn:Hn; simpl.
        * rewrite Hidx. destruct (decide (d = c)) as [->|Hdc].
          -- rewrite Hkeys_c. unfold keys_of. rewrite Hn.
             rewrite !elem_of_cons, !elem_of_nil. tauto.
          -- by rewrite Hkeys_other.
        * case_bool_decide as Hko.
          -- subst k. split; [done|]. intros [Hd Hkd].
             destruct (decide (d = c)) as [->|Hdc].
             ++ rewrite Hkeys_c in Hkd.
                apply elem_of_cons in Hkd as [Hkd|Hkd].
                ** destruct Hold as [?|[z Hz]]; [congruence|].
                   rewrite Hz in Hkd. simpl in Hkd.
                   by apply eq_sym, cid_key_not_num in Hkd.
                ** by apply list_elem_of_singleton in Hkd.
             ++ rewrite Hkeys_other in Hkd by done.
                assert (Coll._byId (coll w) !! to_key (id_of w c) = Some d)
                  by (by apply Hidx).
                rewrite (Holdkey eq_refl) in H. congruence.
          -- rewrite Hidx. destruct (decide (d = c)) as [->|Hdc].
             ++ rewrite Hkeys_c. unfold keys_of. rewrite Hn.
                rewrite !elem_of_cons, !elem_of_nil. tauto.
             ++ by rewrite Hkeys_other.
    - apply Forall_forall. intros k Hk. rewrite Hbyid, Hlook.
      rewrite decide_False
        by (intros ->; by apply (num_key_not_reserved z')).
      case_match; [done|]. by apply (indexed_reserved w _ k Hix). }
  assert (Hms' : Coll.models (coll w') = Coll.models (coll w)) by (by rewrite Hw').
  assert (Hlen' : Coll.length (coll w') = Coll.length (coll w)) by (by rewrite Hw').
  assert (Hnext' : next_cid w' = next_cid w) by (by rewrite Hw').
  assert (Hwf' : wf w').
  { split_and!.
    - by rewrite Hlen', Hms'.
    - by rewrite Hms'.
    - by rewrite Hms', Hnext'.
    - intros n Hn. rewrite Hbyid, Hlook.
      rewrite decide_False by apply cid_key_not_num.
      case_match; [done|]. apply Hfresh. by rewrite Hnext' in Hn. }
  split_and!; try done.
  - unfold get. simpl. by rewrite Hbyid, Hlook, decide_True.
  - intros z Hz. unfold get. simpl. rewrite Hbyid, !Hlook.
    assert (Hzz : pretty z ≠ pretty z') by (intros ?%(inj _); congruence).
    rewrite decide_False by done. rewrite Hz. simpl.
    rewrite bool_decide_eq_true_2 by done.
    rewrite decide_False by (intros H; by apply (num_key_not_reserved z');
                             rewrite <-H; right; left).
    rewrite bool_decide_eq_false_2
      by (intros H; by apply (num_key_not_reserved z); rewrite <-H; right; left).
    by rewrite (indexed_reserved w _ "undefined" Hix) by (right; by left).
  - rewrite Hw'. simpl. by rewrite <-(assoc_L (++)).
Qed.

(** ** Adding a batch of plain attribute bags *)

Lemma wf_registered w :
  wf w ↔ Coll.length (coll w) = Z.of_nat (List.length (Coll.models (coll w)))
         ∧ registered w (Coll.models (coll w)).
Proof. unfold wf, registered. tauto. Qed.

Lemma plain_inv b :
  plain b = true →
  nullish (prop b "cid") = true
  ∧ (nullish (modelId b) = true ∨ ∃ z, modelId b = VNum z ∧ num_id b = Some z).
Proof.
  unfold plain, num_id. intros [Hc Hid]%andb_prop. split; [done|].
  destruct (modelId b); try done; eauto.
Qed.

Lemma lookup_new_record b w k :
  Coll._byId (coll (with_new_record b w)) !! k =
    if negb (nullish (modelId b)) && bool_decide (k = to_key (modelId b))
    then Some (next_cid w)
    else if bool_decide (k = cid_key (next_cid w)) then Some (next_cid w)
    else Coll._byId (coll w) !! k.
Proof.
  unfold with_new_record. simpl. destruct (nullish (modelId b)); simpl.
  - case_bool_decide as Hk; [subst k; by rewrite lookup_insert_eq|].
    by rewrite lookup_insert_ne.
  - case_bool_decide as Hk; [subst k; by rewrite lookup_insert_eq|].
    rewrite lookup_insert_ne by done.
    case_bool_decide as Hk'; [subst k; by rewrite lookup_insert_eq|].
    by rewrite lookup_insert_ne.
Qed.

Lemma registered_new_record b w cs :
  registered w cs → plain b = true →
  (∀ z, num_id b = Some z → Coll._byId (coll w) !! pretty z = None) →
  get (PBag b) w = None
  ∧ registered (with_new_record b w) (cs ++ [next_cid w]).
Proof.
  intros (Hix & Hlt & Hfresh) Hplain Hfree.
  destruct (plain_inv b Hplain) as [Hcid Hid].
  pose proof Hix as (Hnd & Hidx & Hres).
  set (n := next_cid w).
  assert (Hkeyfree : nullish (modelId b) = false →
                     Coll._byId (coll w) !! to_key (modelId b) = None).
  { intros Hn. destruct Hid as [?|(z & Hz & Hnum)]; [congruence|].
    rewrite Hz. simpl. by apply Hfree. }
  assert (Hkeynum : nullish (modelId b) = false →
                    ∃ z : Z, to_key (modelId b) = pretty z).
  { intros Hn. destruct Hid as [?|(z & Hz & _)]; [congruence|].
    exists z. by rewrite Hz. }
  assert (Hget : get (PBag b) w = None).
  { rewrite get_bag, (indexed_object_key w cs Hix). simpl.
    rewrite (indexed_reserved w cs _ Hix (nullish_key_reserved _ Hcid)).
    destruct (nullish (modelId b)) eqn:Hn.
    - by rewrite (indexed_reserved w cs _ Hix (nullish_key_reserved _ Hn)).
    - by rewrite (Hkeyfree eq_refl). }
  split; [done|].
  assert (Hnotin : n ∉ cs).
  { intros Hin. pose proof (proj1 (Forall_forall _ _) Hlt _ Hin) as H.
    simpl in H. unfold n in H. lia. }
  assert (Hkeys : ∀ c, c ≠ n → keys_of (with_new_record b w) c = keys_of w c).
  { intros c Hc. unfold keys_of, id_of. by rewrite get_model_new_record_ne. }
  assert (Hkeysn : keys_of (with_new_record b w) n
                   = cid_key n :: (if nullish (modelId b) then []
                                   else [to_key (modelId b)])).
  { unfold keys_of, id_of. by rewrite get_model_new_record. }
  assert (Hcidfree : Coll._byId (coll w) !! cid_key n = None) by (by apply Hfresh).
  split_and!.
  - split_and!.
    + apply NoDup_app. split_and!; [done| |apply NoDup_singleton].
      intros x Hx ->%list_elem_of_singleton. done.
    + intros k x. rewrite lookup_new_record, elem_of_app, list_elem_of_singleton.
      fold n. destruct (nullish (modelId b)) eqn:Hn; simpl.
      * case_bool_decide as Hk.
        -- subst k. split.
           ++ intros [= <-]. split; [by right|]. rewrite Hkeysn. by left.
           ++ intros [[Hx| ->] Hk]; [|done]. exfalso.
              rewrite Hkeys in Hk by (by intros ->).
              assert (Coll._byId (coll w) !! cid_key n = Some x) by (by apply Hidx).
              congruence.
        -- rewrite Hidx. split.
           ++ intros [Hx Hkx]. split; [by left|].
              rewrite Hkeys; [done|by intros ->].
           ++ intros [[Hx| ->] Hkx].
              ** split; [done|]. rewrite <-Hkeys; [done|by intros ->].
              ** rewrite Hkeysn in Hkx. by apply list_elem_of_singleton in Hkx.
      * case_bool_decide as Hk.
        -- subst k. split.
           ++ intros [= <-]. split; [by right|]. rewrite Hkeysn. right; by left.
           ++ intros [[Hx| ->] Hk]; [|done]. exfalso.
              rewrite Hkeys in Hk by (by intros ->).
              assert (Coll._byId (coll w) !! to_key (modelId b) = Some x)
                by (by apply Hidx).
              rewrite (Hkeyfree eq_refl) in H. congruence.
        -- case_bool_decide as Hk'.
           ++ subst k. split.
              ** intros [= <-]. split; [by right|]. rewrite Hkeysn. by left.
              ** intros [[Hx| ->] Hkx]; [|done]. exfalso.
                 rewrite Hkeys in Hkx by (by intros ->).
                 assert (Coll._byId (coll w) !! cid_key n = Some x) by (by apply Hidx).
                 congruence.
           ++ rewrite Hidx. split.
              ** intros [Hx Hkx]. split; [by left|].
                 rewrite Hkeys; [done|by intros ->].
              ** intros [[Hx| ->] Hkx].
                 --- split; [done|]. rewrite <-Hkeys; [done|by intros ->].
                 --- rewrite Hkeysn in Hkx.
                     apply elem_of_cons in Hkx as [?|Hkx]; [done|].
                     by apply list_elem_of_singleton in Hkx.
    + apply Forall_forall. intros k Hk. rewrite lookup_new_record.
      destruct (nullish (modelId b)) eqn:Hn; simpl.
      * rewrite bool_decide_eq_false_2 by (intros ->; by apply (cid_key_not_reserved n)).
        by apply (indexed_reserved w cs).
      * destruct (Hkeynum eq_refl) as [z Hz].
        rewrite bool_decide_eq_false_2
          by (rewrite Hz; intros ->; by apply (num_key_not_reserved z)).
        rewrite bool_decide_eq_false_2 by (intros ->; by apply (cid_key_not_reserved n)).
        by apply (indexed_reserved w cs).
  - apply Forall_app. split.
    + eapply Forall_impl; [exact Hlt|]. simpl. intros; lia.
    + apply Forall_singleton. simpl. unfold n. lia.
  - intros m Hm. simpl in Hm. rewrite lookup_new_record. fold n.
    assert (Hmn : cid_key m ≠ cid_key n) by (intros ?%cid_key_inj; unfold n in *; lia).
    rewrite (bool_decide_eq_false_2 (cid_key m = cid_key n)) by done.
    destruct (nullish (modelId b)) eqn:Hn; simpl.
    * apply Hfresh. lia.
    * destruct (Hkeynum eq_refl) as [z Hz].
      rewrite bool_decide_eq_false_2 by (rewrite Hz; apply cid_key_not_num).
      apply Hfresh. lia.
Qed.

Lemma note_model_no_order i m s w :
  st_order s = None →
  note_model i m s w =
    Staging (st_models s) (st_toAdd s)
            ({[to_key (id_of w m)]} ∪ st_modelMap s) None
            (st_orderChanged s) (st_sort s) (st_model s).
Proof. intros H. unfold note_model. by rewrite H. Qed.

Lemma elem_of_omap_cons {A B} (f : A → option B) x l y :
  y ∈ omap f l → y ∈ omap f (x :: l).
Proof. intros H. simpl. destruct (f x); [by right|done]. Qed.

Lemma classify_plain o srt sa bs : ∀ i s w cs,
  truthy (o_add o) = true → st_order s = None →
  registered w cs →
  Forall (λ b, plain b = true ∧ validate b = None) bs →
  NoDup (omap num_id bs) →
  (∀ z, z ∈ omap num_id bs → Coll._byId (coll w) !! pretty z = None) →
  let news := seq (next_cid w) (List.length bs) in
  ∃ s' w',
    classify o srt sa i (EBag <$> bs) s w = (s', w')
    ∧ st_toAdd s' = st_toAdd s ++ news
    ∧ st_models s' = st_models s ++ (SModel <$> news)
    ∧ st_order s' = None
    ∧ st_orderChanged s' = st_orderChanged s
    ∧ st_sort s' = st_sort s
    ∧ registered w' (cs ++ news)
    ∧ next_cid w' = next_cid w + List.length bs
    ∧ log w' = log w
    ∧ (∀ k b, bs !! k = Some b → attributes (get_model w' (next_cid w + k)) = b)
    ∧ (∀ d, d < next_cid w → get_model w' d = get_model w d).
Proof.
  induction bs as [|b bs IH]; intros i s w cs Hadd Hord Hreg Hall Hnd Hfree news.
  { exists s, w. unfold news. simpl. rewrite !app_nil_r.
    split_and!; try done; try lia. }
  apply Forall_cons in Hall as [[Hplain Hvalid] Hall].
  destruct (registered_new_record b w cs Hreg Hplain) as [Hget Hreg1].
  { intros z Hz. apply Hfree. simpl. rewrite Hz. by left. }
  set (n := next_cid w) in *.
  set (w1 := with_new_record b w) in *.
  assert (Hnd' : NoDup (omap num_id bs)).
  { simpl in Hnd. destruct (num_id b); [by apply NoDup_cons in Hnd as [_ ?]|done]. }
  assert (Hfree' : ∀ z, z ∈ omap num_id bs →
                        Coll._byId (coll w1) !! pretty z = None).
  { intros z Hz. unfold w1. rewrite lookup_new_record. fold n.
    rewrite (bool_decide_eq_false_2 (pretty z = cid_key n))
      by (intros H; by apply eq_sym, cid_key_not_num in H).
    destruct (plain_inv b Hplain) as [_ [Hn|(zb & Hzb & Hnum)]].
    - rewrite Hn. simpl. apply Hfree. by apply elem_of_omap_cons.
    - rewrite Hzb. simpl. case_bool_decide as Hk.
      + apply (inj _) in Hk. subst zb. simpl in Hnd. rewrite Hnum in Hnd.
        by apply NoDup_cons in Hnd as [? _].
      + apply Hfree. by apply elem_of_omap_cons. }
  cbn [fmap list_fmap classify].
  rewrite (classify_entry_new _ _ _ _ _ _ _ Hadd Hget Hvalid). fold n. fold w1.
  rewrite note_model_no_order by done.
  match goal with |- context [classify o srt sa (S i) _ ?s1 w1] =>
    destruct (IH (S i) s1 w1 (cs ++ [n]) Hadd eq_refl Hreg1 Hall Hnd' Hfree')
      as (s' & w' & Hcl & Hta & Hsl & Hord' & Hoc & Hsort & Hreg' & Hnext & Hlog
          & Hattrs & Hold)
  end.
  assert (Hn1 : next_cid w1 = S n) by done.
  rewrite Hn1 in Hta, Hsl, Hreg', Hnext, Hattrs, Hold.
  exists s', w'. split; [exact Hcl|].
  simpl in Hta, Hsl, Hoc, Hsort.
  unfold news. cbn [List.length seq fmap list_fmap].
  split_and!.
  - by rewrite Hta, <-(assoc_L (++)).
  - by rewrite Hsl, <-(assoc_L (++)).
  - done.
  - done.
  - done.
  - by rewrite <-(assoc_L (++)) in Hreg'.
  - lia.
  - by rewrite Hlog.
  - intros [|k] b' Hb'.
    + injection Hb' as <-. rewrite Nat.add_0_r, Hold by lia.
      unfold w1, n. by rewrite get_model_new_record.
    + replace (n + S k) with (S n + k) by lia. by apply Hattrs.
  - intros d Hd. rewrite Hold by lia. unfold w1.
    apply get_model_new_record_ne. unfold n in Hd. lia.
Qed.

Lemma registered_frame w w' cs :
  registered w cs → heap w' = heap w →
  Coll._byId (coll w') = Coll._byId (coll w) → next_cid w' = next_cid w →
  registered w' cs.
Proof.
  intros (Hix & Hlt & Hfresh) Hh Hb Hn. split_and!.
  - apply (indexed_frame w); [by apply same_attrs_heap|done|done].
  - by rewrite Hn.
  - intros n. rewrite Hn, Hb. apply Hfresh.
Qed.

Lemma registered_perm w cs cs' : cs ≡ₚ cs' → registered w cs → registered w cs'.
Proof.
  intros Hp (Hix & Hlt & Hfresh). split_and!; [|by rewrite <-Hp|done].
  by apply (indexed_perm w cs).
Qed.

Lemma add_plain bs o w cs :
  registered w cs →
  Forall (λ b, plain b = true ∧ validate b = None) bs →
  NoDup (omap num_id bs) →
  (∀ z, z ∈ omap num_id bs → Coll._byId (coll w) !! pretty z = None) →
  (sortable (set_defaults (add_options o)) w = true → needs_sortBy w = false) →
  let news := seq (next_cid w) (List.length bs) in
  ∃ w',
    add (Many (EBag <$> bs)) o w = Ok (Many (SModel <$> news)) w'
    ∧ registered w' (cs ++ news)
    ∧ Coll.models (coll w') ≡ₚ Coll.models (coll w) ++ news
    ∧ (sortable (set_defaults (add_options o)) w = false → o_at o = None →
       Coll.models (coll w') = Coll.models (coll w) ++ news)
    ∧ Coll.length (coll w') = (Coll.length (coll w) + Z.of_nat (List.length bs))%Z
    ∧ Coll.comparator (coll w') = Coll.comparator (coll w)
    ∧ next_cid w' = next_cid w + List.length bs
    ∧ (∀ k b, bs !! k = Some b → attributes (get_model w' (next_cid w + k)) = b)
    ∧ (∀ d, d < next_cid w → get_model w' d = get_model w d)
    ∧ emits (named ["add"; "sort"]) w w'.
Proof.
  intros Hreg Hall Hnd Hfree Hnative news. unfold add.
  set (o' := set_defaults (add_options o)).
  destruct (add_options_flags o) as [Hadd Hrem]. fold o' in Hadd, Hrem.
  assert (Hinit : st_order (staging_init o' w) = None).
  { unfold staging_init. by rewrite Hrem, andb_false_r. }
  destruct (classify_plain o' (sortable o' w) (sortAttr w) bs 0 (staging_init o' w)
              w cs Hadd Hinit Hreg Hall Hnd Hfree)
    as (s & w1 & Hcl & Hta & Hsl & Hord & Hoc & Hsort & Hreg1 & Hnext & Hlog
        & Hattrs & Hold).
  fold news in Hta, Hsl, Hreg1. simpl in Hta, Hsl, Hoc, Hsort.
  pose proof (seq_classify o' (sortable o' w) (sortAttr w) (EBag <$> bs) 0
                (staging_init o' w) w) as [Hm Hl].
  pose proof (comparator_classify o' (sortable o' w) (sortAttr w) (EBag <$> bs) 0
                (staging_init o' w) w) as Hcmp.
  rewrite Hcl in Hm, Hl, Hcmp. simpl in Hm, Hl, Hcmp.
  assert (Hfirst : first_pass (Many (EBag <$> bs)) o' w = (s, w1)) by exact Hcl.
  destruct (set_finish (Many (EBag <$> bs)) (add_options o) w s w1 o' w1 Hfirst
              (remove_pass_off _ _ _ Hrem)
              (λ H, Hnative (sorts_sortable _ _ _ _ _ Hfirst H)))
    as (w4 & Hset & Hms & Hexact & Hlen & Hix & Hc4 & Hheap & Hn4 & Hlog4).
  fold o' in Hset, Hms, Hexact, Hlen.
  assert (Hres : result (Many (EBag <$> bs)) (st_models s) = Many (SModel <$> news))
    by (by rewrite Hsl).
  rewrite Hres in Hset. eexists. split; [exact Hset|].
  match goal with |- context [notify ?a ?b ?c ?d ?e] =>
    destruct (coll_notify a b c d e) as (Hcn & Hhn & Hnn);
    pose proof (emits_notify a b c d e) as Hnote;
    set (wn := notify a b c d e) in *
  end.
  assert (Hstaged : staged s = negb (bool_decide (news = []))).
  { unfold staged. by rewrite Hta, Hoc, orb_false_r. }
  assert (Hgm : ∀ d, get_model wn d = get_model w1 d).
  { intros d. unfold get_model. by rewrite Hhn, Hheap. }
  split_and!.
  - apply (registered_frame w1); [done|by rewrite Hhn|by rewrite Hcn|congruence].
  - rewrite Hcn, Hms, Hm, Hstaged. case_bool_decide as Hnil; simpl.
    + by rewrite Hnil, app_nil_r.
    + unfold spliced. rewrite Hord, Hta. destruct (position o' w); [|done].
      by rewrite splice_all_perm, Permutation_app_comm.
  - intros Hs Hat. rewrite Hcn, Hexact, Hm, Hstaged.
    + case_bool_decide as Hnil; simpl; [by rewrite Hnil, app_nil_r|].
      unfold spliced, position. simpl. by rewrite Hat, Hord, Hta.
    + by rewrite Hsort, Hs, andb_false_r.
  - rewrite Hcn, Hlen, Hl, Hstaged, Hta.
    case_bool_decide as Hnil; cbn [negb app].
    + apply (f_equal List.length) in Hnil. unfold news in Hnil.
      rewrite length_seq in Hnil. simpl in Hnil. lia.
    + unfold news. by rewrite length_seq.
  - by rewrite Hcn, Hc4.
  - by rewrite Hnn, Hn4.
  - intros k b Hb. rewrite Hgm. by apply Hattrs.
  - intros d Hd. rewrite Hgm. by apply Hold.
  - eapply emits_trans; [|exact Hnote]. apply emits_same. by rewrite Hlog4.
Qed.

(** [add] of valid plain attribute bags of which none resolves to a member,
    stated on the world the call ends in: the call returns unless the
    sequence has to be sorted through [sortBy]. *)
Lemma add_plain_world bs o w cs :
  registered w cs →
  Forall (λ b, plain b = true ∧ validate b = None) bs →
  NoDup (omap num_id bs) →
  (∀ z, z ∈ omap num_id bs → Coll._byId (coll w) !! pretty z = None) →
  let news := seq (next_cid w) (List.length bs) in
  let r := add (Many (EBag <$> bs)) o w in
  let w' := out_world r in
  ((sortable (set_defaults (add_options o)) w = true → needs_sortBy w = false) →
   r = Ok (Many (SModel <$> news)) w')
  ∧ registered w' (cs ++ news)
  ∧ Coll.models (coll w') ≡ₚ Coll.models (coll w) ++ news
  ∧ Coll.length (coll w') = (Coll.length (coll w) + Z.of_nat (List.length bs))%Z
  ∧ Coll.comparator (coll w') = Coll.comparator (coll w)
  ∧ next_cid w' = next_cid w + List.length bs
  ∧ (∀ k b, bs !! k = Some b → attributes (get_model w' (next_cid w + k)) = b)
  ∧ (∀ d, d < next_cid w → get_model w' d = get_model w d).
Proof.
  intros Hreg Hall Hnd Hfree news r w'. unfold add in r.
  set (o' := set_defaults (add_options o)).
  destruct (add_options_flags o) as [Hadd Hrem]. fold o' in Hadd, Hrem.
  assert (Hinit : st_order (staging_init o' w) = None).
  { unfold staging_init. by rewrite Hrem, andb_false_r. }
  destruct (classify_plain o' (sortable o' w) (sortAttr w) bs 0 (staging_init o' w)
              w cs Hadd Hinit Hreg Hall Hnd Hfree)
    as (s & w1 & Hcl & Hta & Hsl & Hord & Hoc & Hsort & Hreg1 & Hnext & Hlog
        & Hattrs & Hold).
  fold news in Hta, Hsl, Hreg1. simpl in Hta, Hsl, Hoc, Hsort.
  pose proof (seq_classify o' (sortable o' w) (sortAttr w) (EBag <$> bs) 0
                (staging_init o' w) w) as [Hm Hl].
  pose proof (comparator_classify o' (sortable o' w) (sortAttr w) (EBag <$> bs) 0
                (staging_init o' w) w) as Hcmp.
  rewrite Hcl in Hm, Hl, Hcmp. simpl in Hm, Hl, Hcmp.
  assert (Hfirst : first_pass (Many (EBag <$> bs)) o' w = (s, w1)) by exact Hcl.
  destruct (set_finish_world (Many (EBag <$> bs)) (add_options o) w s w1 o' w1 Hfirst
              (remove_pass_off _ _ _ Hrem))
    as (Hms & _ & Hlen & Hix & Hc4 & Hheap & Hn4 & _).
  fold o' r w' in Hms, Hlen, Hix, Hc4, Hheap, Hn4.
  assert (Hstaged : staged s = negb (bool_decide (news = []))).
  { unfold staged. by rewrite Hta, Hoc, orb_false_r. }
  assert (Hgm : ∀ d, get_model w' d = get_model w1 d).
  { intros d. unfold get_model. by rewrite Hheap. }
  split_and!.
  - intros Hnative.
    destruct (set_finish (Many (EBag <$> bs)) (add_options o) w s w1 o' w1 Hfirst
                (remove_pass_off _ _ _ Hrem)
                (λ H, Hnative (sorts_sortable _ _ _ _ _ Hfirst H)))
      as (w4 & Hset & _).
    unfold w', r. rewrite Hset. cbn [result out_world]. by rewrite Hsl.
  - by apply (registered_frame w1).
  - rewrite Hms, Hm, Hstaged. case_bool_decide as Hnil; simpl.
    + by rewrite Hnil, app_nil_r.
    + unfold spliced. rewrite Hord, Hta. destruct (position o' w); [|done].
      by rewrite splice_all_perm, Permutation_app_comm.
  - rewrite Hlen, Hl, Hstaged, Hta.
    case_bool_decide as Hnil; cbn [negb app].
    + apply (f_equal List.length) in Hnil. unfold news in Hnil.
      rewrite length_seq in Hnil. simpl in Hnil. lia.
    + unfold news. by rewrite length_seq.
  - by rewrite Hc4.
  - by rewrite Hn4.
  - intros k b Hb. rewrite Hgm. by apply Hattrs.
  - intros d Hd. rewrite Hgm. by apply Hold.
Qed.

Lemma get_num_unregistered w (z : Z) :
  get (PVal (VNum z)) w = None → Coll._byId (coll w) !! pretty z = None.
Proof.
  unfold get. simpl. by destruct (Coll._byId (coll w) !! pretty z).
Qed.

Lemma fmap_seq_lookup {A} (f : nat → A) (n : nat) (l : list A) :
  (∀ k x, l !! k = Some x → f (n + k) = x) → f <$> seq n (List.length l) = l.
Proof.
  intros H. apply list_eq. intros k. rewrite list_lookup_fmap.
  destruct (l !! k) as [x|] eqn:Hx.
  - rewrite lookup_seq_lt by (by eapply lookup_lt_Some). simpl. f_equal. by apply H.
  - rewrite lookup_seq_ge; [done|]. by apply lookup_ge_None.
Qed.

(** X15: [add] of a batch of plain attribute bags (no [cid] property, a
    numeric identifier or none), all valid, whose identifiers are pairwise
    distinct and held by no member of a well-formed collection that does
    not sort or sorts by a comparison function: every bag becomes a new
    record with the next client identities in turn, the collection stays
    well-formed, the new records come after the members of before (exactly
    so when the collection neither sorts nor was given a position), each
    holds the attributes of its bag, and [get] finds each by a bag that
    carries its identifier. *)
Theorem add_plain_batch (bs : list bag) (o : options) (w : world) :
  wf w →
  Forall (λ b, plain b = true ∧ validate b = None) bs →
  NoDup (omap num_id bs) →
  (∀ z, z ∈ omap num_id bs → get (PVal (VNum z)) w = None) →
  (sortable (set_defaults (add_options o)) w = true → needs_sortBy w = false) →
  let news := seq (next_cid w) (List.length bs) in
  ∃ w',
    add (Many (EBag <$> bs)) o w = Ok (Many (SModel <$> news)) w'
    ∧ wf w'
    ∧ Coll.models (coll w') ≡ₚ Coll.models (coll w) ++ news
    ∧ (sortable (set_defaults (add_options o)) w = false → o_at o = None →
       Coll.models (coll w') = Coll.models (coll w) ++ news)
    ∧ (λ c, toJSON (get_model w' c)) <$> news = bs
    ∧ (∀ k b, bs !! k = Some b → nullish (modelId b) = false →
              get (PBag b) w' = Some (next_cid w + k)).
Proof.
  intros Hwf Hall Hnd Hfree Hnative news.
  apply wf_registered in Hwf as [Hlen Hreg].
  destruct (add_plain bs o w _ Hreg Hall Hnd) as
    (w' & Hadd & Hreg' & Hp & Hexact & Hlen' & _ & Hnext & Hattrs & _ & _).
  { intros z Hz. by apply get_num_unregistered, Hfree. }
  { done. }
  fold news in Hadd, Hreg', Hp, Hexact.
  exists w'. split; [exact Hadd|].
  assert (Hreg'' : registered w' (Coll.models (coll w')))
    by (by apply (registered_perm w' (Coll.models (coll w) ++ news))).
  split_and!; try done.
  - apply wf_registered. split; [|done].
    rewrite Hlen', Hlen, Hp, length_app. unfold news. rewrite length_seq. lia.
  - by apply fmap_seq_lookup.
  - intros k b Hb Hn.
    destruct (plain_inv b) as [Hcid [?|(z & Hz & _)]]; [|congruence|].
    { apply (proj1 (Forall_forall _ _) Hall b). by eapply list_elem_of_lookup_2. }
    destruct Hreg' as (Hix' & _).
    rewrite (get_bag_num w' _ b z Hix' Hz Hcid).
    apply Hix'. split.
    + apply elem_of_app. right. unfold news. apply elem_of_seq.
      apply lookup_lt_Some in Hb. lia.
    + unfold keys_of, id_of. rewrite (Hattrs k b Hb), Hz. simpl. right; by left.
Qed.

(** ** Resetting to a batch of plain attribute bags *)

Lemma registered_reset w : registered (_reset w) [].
Proof.
  split_and!; [|done|done].
  split_and!; [apply NoDup_nil_2| |by apply Forall_forall].
  intros k c. simpl. rewrite lookup_empty, elem_of_nil. split; [done|by intros [? _]].
Qed.

Lemma quiet_log l :
  Forall (named ["invalid"]) l → Forall (named ["add"; "sort"]) l → l = [].
Proof.
  destruct l as [|n l]; [done|]. intros [H1 _]%Forall_cons [H2 _]%Forall_cons.
  unfold named in H1, H2. apply list_elem_of_singleton in H1. rewrite H1 in H2.
  apply elem_of_cons in H2 as [?|H2]; [done|].
  by apply list_elem_of_singleton in H2.
Qed.

Lemma reset_plain bs o w :
  Forall (λ b, plain b = true ∧ validate b = None) bs →
  NoDup (omap num_id bs) →
  o_at o = None →
  (truthy_comparator (Coll.comparator (coll w)) = None ∨ o_sort o = Some false) →
  let news := seq (next_cid w) (List.length bs) in
  ∃ w' l,
    reset (Many (EBag <$> bs)) o w = Ok (Many (SModel <$> news)) w'
    ∧ wf w'
    ∧ Coll.models (coll w') = news
    ∧ toArray w' = bs
    ∧ Coll.comparator (coll w') = Coll.comparator (coll w)
    ∧ log w' = log w ++ l
               ++ (if truthy (o_silent o) then []
                   else [Notification OnCollection "reset" None None
                           (with_previousModels (Coll.models (coll w)) o)])
    ∧ Forall (named ["add"; "sort"]) l
    ∧ (o_silent o ≠ Some false → l = []).
Proof.
  intros Hall Hnd Hat Hsort news. unfold reset.
  set (prev := Coll.models (coll w)).
  set (w1 := foldl (λ w c, _removeReference c w) w prev).
  destruct (untie_all prev w) as (Hc1 & Hl1 & Hn1). fold w1 in Hc1, Hl1, Hn1.
  set (o1 := with_previousModels prev o).
  set (oa := with_silent (match o_silent o1 with None => Some true | s => s end) o1).
  assert (Hns : sortable (set_defaults (add_options oa)) (_reset w1) = false).
  { unfold sortable. simpl. rewrite Hc1.
    destruct Hsort as [-> | ->]; [done|]. simpl. by rewrite andb_false_r. }
  destruct (add_plain bs oa (_reset w1) [] (registered_reset w1) Hall Hnd)
    as (w3 & Hadd & Hreg & _ & Hexact & Hlen & Hcmp & _ & Hattrs & _ & (l & Hlog & Hl)).
  { intros z _. apply lookup_empty. }
  { intros H. by rewrite Hns in H. }
  change (next_cid (_reset w1)) with (next_cid w1) in *. rewrite Hn1 in *.
  fold news in Hadd, Hreg, Hexact. rewrite Hadd.
  simpl in Hexact, Hlen, Hcmp, Hlog. rewrite Hc1 in Hcmp. rewrite Hl1 in Hlog.
  assert (Hms : Coll.models (coll w3) = news).
  { apply Hexact; [|done]. unfold sortable. simpl. rewrite Hc1.
    destruct Hsort as [-> | ->]; [done|]. simpl. by rewrite andb_false_r. }
  assert (Hwf : wf w3).
  { apply wf_registered. rewrite Hms. split; [|done].
    rewrite Hlen. unfold news. rewrite length_seq. lia. }
  assert (Harr : toArray w3 = bs).
  { unfold toArray. rewrite Hms. by apply fmap_seq_lookup. }
  assert (Hquiet : o_silent o ≠ Some false → l = []).
  { intros Hs. apply quiet_log; [|done].
    pose proof (set_silent_emits (Many (EBag <$> bs)) (add_options oa) (_reset w1))
      as (l' & Hlog' & Hl').
    - unfold oa, o1. simpl. by destruct (o_silent o) as [[]|].
    - fold (add (Many (EBag <$> bs)) oa (_reset w1)) in Hlog'.
      rewrite Hadd in Hlog'. simpl in Hlog'. rewrite Hl1, Hlog in Hlog'.
      by apply app_inv_head in Hlog' as ->. }
  change (o_silent o1) with (o_silent o).
  destruct (truthy (o_silent o)) eqn:Hs.
  - exists w3, l. rewrite app_nil_r. by split_and!.
  - eexists _, l. split; [done|].
    split_and!; [|done|done|done| |done|done].
    + apply (wf_frame w3); try done.
    + simpl. by rewrite Hlog, <-(assoc_L (++)).
Qed.

(** X16: [reset(L)] followed by [toArray()] gives [L] back, and [length]
    is the length of [L], for every list [L] of plain attribute bags (no
    [cid] property, a numeric identifier or none) that are all valid and
    carry pairwise distinct identifiers, on a collection that does not
    sort (no comparator, or [sort: false]) and with no position requested;
    whatever state the collection was in before, it is well-formed
    afterwards. *)
Theorem reset_then_toArray (bs : list bag) (o : options) (w : world) :
  Forall (λ b, plain b = true ∧ validate b = None) bs →
  NoDup (omap num_id bs) →
  o_at o = None →
  (truthy_comparator (Coll.comparator (coll w)) = None ∨ o_sort o = Some false) →
  ∃ r w',
    reset (Many (EBag <$> bs)) o w = Ok r w'
    ∧ r = Many (SModel <$> Coll.models (coll w'))
    ∧ toArray w' = bs
    ∧ Coll.length (coll w') = Z.of_nat (List.length bs)
    ∧ wf w'.
Proof.
  intros Hall Hnd Hat Hsort.
  destruct (reset_plain bs o w Hall Hnd Hat Hsort)
    as (w' & l & Hreset & Hwf & Hms & Harr & _).
  eexists _, w'. split; [exact Hreset|]. rewrite Hms. split_and!; try done.
  destruct Hwf as (-> & _). by rewrite Hms, length_seq.
Qed.

(** X17: the constructor.  [new Collection(L, options)] with a list [L] as
    in X16 makes, in any world of models, a well-formed collection whose
    [toArray()] is [L]; unless [silent: false] is passed it emits no
    notification at all.  Without models it makes the empty collection. *)
Theorem construct_then_toArray
    (bs : list bag) (cmp : option comparator) (o : options) (w : world) :
  Forall (λ b, plain b = true ∧ validate b = None) bs →
  NoDup (omap num_id bs) →
  o_at o = None →
  (truthy_comparator cmp = None ∨ o_sort o = Some false) →
  (∃ w',
     construct (Some (Many (EBag <$> bs))) cmp o w = Ok () w'
     ∧ wf w'
     ∧ toArray w' = bs
     ∧ Coll.length (coll w') = Z.of_nat (List.length bs)
     ∧ Coll.comparator (coll w') = cmp
     ∧ (o_silent o ≠ Some false → log w' = log w))
  ∧ construct None cmp o w
    = Ok () (World (heap w) (next_cid w) (Coll.Make 0 [] ∅ cmp) (log w)).
Proof.
  intros Hall Hnd Hat Hsort. split; [|done]. unfold construct.
  set (w1 := _reset (World (heap w) (next_cid w) (Coll.Make 0 [] ∅ cmp) (log w))).
  set (o' := with_silent (match o_silent o with None => Some true | s => s end) o).
  destruct (reset_plain bs o' w1 Hall Hnd Hat Hsort)
    as (w' & l & Hreset & Hwf & Hms & Harr & Hcmp & Hlog & _ & Hquiet).
  rewrite Hreset. exists w'. split_and!; try done.
  - destruct Hwf as (-> & _). by rewrite Hms, length_seq.
  - intros Hs. rewrite Hlog.
    assert (Ho' : o_silent o' = Some true ∧ o_silent o' ≠ Some false).
    { unfold o'. simpl. by destruct (o_silent o) as [[]|]. }
    destruct Ho' as [Ht Hf]. rewrite (Hquiet Hf), Ht. simpl.
    by rewrite app_nil_r.
Qed.

(** ** Removing what was added *)

Lemma filter_not_in_app (l news : list cid) :
  (∀ x, x ∈ l → x ∉ news) → filter (λ x, x ∉ news) (l ++ news) = l.
Proof.
  intros Hdisj. rewrite filter_app.
  rewrite (filter_id (λ x, x ∉ news) l) by (by apply Forall_forall).
  rewrite (filter_none (λ x, x ∉ news) news); [by rewrite app_nil_r|].
  apply Forall_forall. intros x Hx Hn. done.
Qed.

(** X18: [remove] undoes [add].  After a batch of plain attribute bags (as
    in X15) was added to a well-formed collection that neither sorts nor
    was given a position, removing the records that were made gives the
    collection object back as it was: sequence, length, index and
    comparator. *)
Theorem remove_undoes_add (bs : list bag) (o o2 : options) (w : world) :
  wf w →
  Forall (λ b, plain b = true ∧ validate b = None) bs →
  NoDup (omap num_id bs) →
  (∀ z, z ∈ omap num_id bs → get (PVal (VNum z)) w = None) →
  sortable (set_defaults (add_options o)) w = false → o_at o = None →
  let news := seq (next_cid w) (List.length bs) in
  ∃ w' rs o3 w'',
    add (Many (EBag <$> bs)) o w = Ok (Many (SModel <$> news)) w'
    ∧ remove (Many (PModel <$> news)) o2 w' = (Many rs, o3, w'')
    ∧ coll w'' = coll w.
Proof.
  intros Hwf Hall Hnd Hfree Hsortable Hat news.
  pose proof Hwf as (Hlen & Hix & Hlt & _).
  apply wf_registered in Hwf as [_ Hreg].
  destruct (add_plain bs o w _ Hreg Hall Hnd) as
    (w' & Hadd & Hreg' & _ & Hexact & Hlen' & Hcmp' & _ & _ & Hold & _).
  { intros z Hz. by apply get_num_unregistered, Hfree. }
  { intros H. by rewrite Hsortable in H. }
  fold news in Hadd, Hreg', Hexact. specialize (Hexact Hsortable Hat).
  assert (Hdisj : ∀ x, x ∈ Coll.models (coll w) → x ∉ news).
  { intros x Hx Hn. unfold news in Hn. apply elem_of_seq in Hn.
    pose proof (proj1 (Forall_forall _ _) Hlt x Hx) as H. simpl in H. lia. }
  assert (Hndn : NoDup news) by apply NoDup_seq.
  destruct Hreg' as (Hix' & _).
  destruct (remove_loop_members news o2 w' (Coll.models (coll w) ++ news))
    as (rs & o3 & w'' & Hr & _ & Ha & Hix'' & Hms & Hlen'' & Hcmp'' & _).
  { done. }
  { rewrite Hexact. apply Hix'. }
  { done. }
  { intros c Hc. rewrite Hexact. split; apply elem_of_app; by right. }
  exists w', rs, o3, w''. split; [exact Hadd|]. unfold remove. rewrite Hr.
  split; [done|].
  rewrite (filter_not_in_app _ _ Hdisj) in Hix''.
  rewrite Hexact, (filter_not_in_app _ _ Hdisj) in Hms.
  assert (Hkeys : ∀ d, d ∈ Coll.models (coll w) → keys_of w'' d = keys_of w d).
  { intros d Hd. rewrite (keys_of_same w' w'') by done.
    unfold keys_of, id_of. rewrite Hold; [done|].
    by apply (proj1 (Forall_forall _ _) Hlt d). }
  apply coll_eq.
  - rewrite Hlen'', Hlen'. unfold news. rewrite length_seq. lia.
  - done.
  - apply map_eq. intros k. apply option_eq. intros d.
    destruct Hix as (_ & Hidx & _). destruct Hix'' as (_ & Hidx'' & _).
    rewrite Hidx'', Hidx. split; intros [Hd Hk]; (split; [done|]).
    + by rewrite <-Hkeys.
    + by rewrite Hkeys.
  - by rewrite Hcmp'', Hcmp'.
Qed.

(** ** What [remove] reports *)

(** X24: unless silenced, [remove] of a member of a well-formed collection
    writes the position the record had into the options object it was
    given (the caller's object is handed back changed) and emits "remove"
    on the record with that object, re-emitted on the collection if it
    listens to the record; silenced, it changes neither the options object
    nor the log. *)
Theorem remove_reports_position (p : probe) (c : cid) (o : options) (w : world) :
  wf w → get p w = Some c →
  ∃ i w',
    at_index i w = Some c
    ∧ remove (One p) o w
      = (One (Some c), if truthy (o_silent o) then o else with_index i o, w')
    ∧ log w' =
        log w ++
        (if truthy (o_silent o) then []
         else Notification (OnModel c) "remove" (Some c) None (with_index i o)
              :: (if listening (get_model w c)
                  then [Notification OnCollection "remove" (Some c) None
                          (with_index i o)]
                  else [])).
Proof.
  intros (_ & Hix & _) Hget.
  assert (Hc : c ∈ Coll.models (coll w)) by (by eapply indexed_get).
  exists (indexOf (Coll.models (coll w)) c).
  unfold remove. cbn [remove_loop]. unfold remove_one. rewrite Hget.
  destruct (truthy (o_silent o)); eexists; (split_and!; [|reflexivity|]).
  - rewrite at_index_nonneg by by apply indexOf_nonneg. by apply indexOf_lookup.
  - simpl. by rewrite app_nil_r.
  - rewrite at_index_nonneg by by apply indexOf_nonneg. by apply indexOf_lookup.
  - simpl. by rewrite log_trigger_model.
Qed.

(** ** Adding what is there already *)

Lemma classify_resolved o srt sa es : ∀ Xs i s w,
  truthy (o_merge o) = false → st_order s = None →
  Forall2 (λ e X, get (probe_of e) w = Some X) es Xs →
  ∃ s', classify o srt sa i es s w = (s', w)
        ∧ st_models s' = st_models s ++ (SModel <$> Xs)
        ∧ st_toAdd s' = st_toAdd s
        ∧ st_orderChanged s' = st_orderChanged s
        ∧ st_sort s' = st_sort s.
Proof.
  induction es as [|e es IH]; intros Xs i s w Hmerge Hord Hall.
  { apply Forall2_nil_inv_l in Hall as ->. exists s. simpl.
    by rewrite app_nil_r. }
  apply Forall2_cons_inv_l in Hall as (X & Xs' & Hget & Hall & ->).
  cbn [classify]. unfold classify_entry. rewrite Hget.
  unfold merge_existing. rewrite Hmerge. cbn [andb].
  rewrite note_model_no_order by done.
  match goal with |- context [classify o srt sa (S i) es ?s1 w] =>
    destruct (IH Xs' (S i) s1 w Hmerge eq_refl Hall) as (s' & -> & Hsl & Hta & Hoc & Hso)
  end.
  exists s'. simpl in *. split_and!; try done.
  by rewrite Hsl, <-(assoc_L (++)).
Qed.

(** X25: [add] of entries the collection already holds is a no-op.  When
    every entry of the batch resolves to a member (by identifier or client
    identity) and merging was not asked for, [add] hands those members back
    and changes nothing: not the sequence, not the index, not a record,
    and no notification is emitted. *)
Theorem add_of_members_changes_nothing
    (es : list entry) (Xs : list cid) (o : options) (w : world) :
  o_merge o ≠ Some true →
  Forall2 (λ e X, get (probe_of e) w = Some X) es Xs →
  add (Many es) o w = Ok (Many (SModel <$> Xs)) w.
Proof.
  intros Hmerge Hall. unfold add. rewrite set_unfold. cbv zeta.
  set (o' := set_defaults (add_options o)).
  destruct (add_options_flags o) as [Hadd Hrem]. fold o' in Hadd, Hrem.
  assert (Hm : truthy (o_merge o') = false).
  { unfold o'. simpl. by destruct (o_merge o) as [[]|]. }
  assert (Hinit : st_order (staging_init o' w) = None).
  { unfold staging_init. by rewrite Hrem, andb_false_r. }
  destruct (classify_resolved o' (sortable o' w) (sortAttr w) es Xs 0
              (staging_init o' w) w Hm Hinit Hall)
    as (s & Hcl & Hsl & Hta & Hoc & Hso).
  unfold first_pass. cbn [entries]. rewrite Hcl.
  rewrite remove_pass_off by done.
  unfold splice_in, staged. rewrite Hta, Hoc, Hso. simpl.
  unfold notify. rewrite ?Hta, ?Hoc, ?Hso. simpl.
  rewrite Hsl. simpl. by destruct (truthy (o_silent o)).
Qed.

(** ** Adding a model object *)

Lemma lookup_addReference c w k :
  Coll._byId (coll (_addReference c w)) !! k =
    if negb (nullish (id_of w c)) && bool_decide (k = to_key (id_of w c))
    then Some c
    else if bool_decide (k = cid_key c) then Some c
    else Coll._byId (coll w) !! k.
Proof.
  unfold _addReference. simpl. fold (id_of w c).
  destruct (nullish (id_of w c)); simpl.
  - case_bool_decide as Hk; [subst k; by rewrite lookup_insert_eq|].
    by rewrite lookup_insert_ne.
  - case_bool_decide as Hk; [subst k; by rewrite lookup_insert_eq|].
    rewrite lookup_insert_ne by done.
    case_bool_decide as Hk'; [subst k; by rewrite lookup_insert_eq|].
    by rewrite lookup_insert_ne.
Qed.

Lemma get_model_None w c :
  get (PModel c) w = None →
  Coll._byId (coll w) !! to_key (id_of w c) = None
  ∧ Coll._byId (coll w) !! cid_key c = None.
Proof.
  unfold get. simpl. fold (id_of w c).
  destruct (Coll._byId (coll w) !! object_key); [done|]. simpl.
  destruct (Coll._byId (coll w) !! to_key (id_of w c)); [done|]. simpl. done.
Qed.

Lemma registered_model w cs c :
  registered w cs → c < next_cid w →
  get (PModel c) w = None →
  (nullish (id_of w c) = true ∨ ∃ z : Z, id_of w c = VNum z) →
  ∀ w1, same_attrs w w1 → Coll._byId (coll w1) = Coll._byId (coll w) →
        next_cid w1 = next_cid w →
        registered (_addReference c w1) (cs ++ [c]).
Proof.
  intros (Hix & Hlt & Hfresh) Hc Hget Hid w1 Ha Hby Hn.
  destruct (get_model_None w c Hget) as [Hidfree Hcidfree].
  pose proof Hix as (Hnd & Hidx & Hres).
  assert (Hnotin : c ∉ cs).
  { intros Hin. by rewrite (indexed_get_member w cs c Hix Hin) in Hget. }
  assert (Ha' : same_attrs w (_addReference c w1)).
  { eapply same_attrs_trans; [exact Ha|]. unfold _addReference.
    eapply same_attrs_trans; [|by apply same_attrs_upd]. done. }
  assert (Hkeys : ∀ d, keys_of (_addReference c w1) d = keys_of w d)
    by (intros d; by apply keys_of_same).
  assert (Hidc : id_of w1 c = id_of w c) by (by apply id_of_same).
  assert (Hkeynum : nullish (id_of w c) = false →
                    ∃ z : Z, to_key (id_of w c) = pretty z).
  { intros Hn0. destruct Hid as [?|(z & Hz)]; [congruence|]. exists z. by rewrite Hz. }
  assert (Hlook : ∀ k, Coll._byId (coll (_addReference c w1)) !! k =
            if bool_decide (k ∈ keys_of w c) then Some c
            else Coll._byId (coll w) !! k).
  { intros k. rewrite lookup_addReference, Hidc, Hby. unfold keys_of.
    destruct (nullish (id_of w c)) eqn:Hn0; simpl.
    - case_bool_decide as H1; case_bool_decide as H2; try done.
      + destruct H2. subst. by left.
      + by apply list_elem_of_singleton in H2.
    - case_bool_decide as H1.
      + rewrite bool_decide_eq_true_2; [done|]. subst. right; by left.
      + case_bool_decide as H2.
        * rewrite bool_decide_eq_true_2; [done|]. subst. by left.
        * rewrite bool_decide_eq_false_2; [done|].
          intros [?|H3]%elem_of_cons; [done|].
          by apply list_elem_of_singleton in H3. }
  assert (Hfreekeys : ∀ k, k ∈ keys_of w c → Coll._byId (coll w) !! k = None).
  { intros k. unfold keys_of. destruct (nullish (id_of w c)).
    - by intros ->%list_elem_of_singleton.
    - intros [->|H]%elem_of_cons; [done|].
      by apply list_elem_of_singleton in H as ->. }
  split_and!.
  - split_and!.
    + apply NoDup_app. split_and!; [done| |apply NoDup_singleton].
      intros x Hx ->%list_elem_of_singleton. done.
    + intros k x. rewrite Hlook, Hkeys, elem_of_app, list_elem_of_singleton.
      case_bool_decide as Hk.
      * split.
        -- intros [= <-]. split; [by right|done].
        -- intros [[Hx| ->] Hkx]; [|done]. exfalso.
           assert (Coll._byId (coll w) !! k = Some x) by (by apply Hidx).
           rewrite (Hfreekeys k Hk) in H. congruence.
      * rewrite Hidx. split.
        -- intros [Hx Hkx]. split; [by left|done].
        -- intros [[Hx| ->] Hkx]; [done|done].
    + apply Forall_forall. intros k Hk. rewrite Hlook.
      rewrite bool_decide_eq_false_2; [by apply (indexed_reserved w cs)|].
      unfold keys_of. intros [->|H]%elem_of_cons.
      * by apply (cid_key_not_reserved c).
      * destruct (nullish (id_of w c)) eqn:Hn0; [by apply elem_of_nil in H|].
        apply list_elem_of_singleton in H as ->.
        destruct (Hkeynum eq_refl) as [z Hz]. rewrite Hz in Hk.
        by apply (num_key_not_reserved z).
  - apply Forall_app. split.
    + eapply Forall_impl; [exact Hlt|]. simpl. intros x Hx.
      change (next_cid (_addReference c w1)) with (next_cid w1). lia.
    + apply Forall_singleton.
      change (next_cid (_addReference c w1)) with (next_cid w1). lia.
  - intros m Hm. change (next_cid (_addReference c w1)) with (next_cid w1) in Hm.
    rewrite Hlook. rewrite bool_decide_eq_false_2; [apply Hfresh; lia|].
    unfold keys_of. intros [H|H]%elem_of_cons.
    + apply cid_key_inj in H. lia.
    + destruct (nullish (id_of w c)) eqn:Hn0; [by apply elem_of_nil in H|].
      apply list_elem_of_singleton in H.
      destruct (Hkeynum eq_refl) as [z Hz]. rewrite Hz in H.
      by apply cid_key_not_num in H.
Qed.

(** X26: [add] of a model object that the collection does not hold yet
    (its client identity was issued, its identifier is a number no member
    holds, or missing), to a collection that does not sort or sorts by a
    comparison function.  The very same record becomes a member: no record
    is manufactured, its attributes are untouched, the collection stays
    well-formed and finds it, the collection listens to it from then on,
    and it is made to belong to this collection only if it belonged to
    none. *)
Theorem add_model_object (c : cid) (o : options) (w : world) :
  wf w → c < next_cid w → is_Some (heap w !! c) →
  get (PModel c) w = None →
  (nullish (id_of w c) = true ∨ ∃ z : Z, id_of w c = VNum z) →
  (sortable (set_defaults (add_options o)) w = true → needs_sortBy w = false) →
  ∃ w',
    add (One (EModel c)) o w = Ok (One (SModel c)) w'
    ∧ wf w'
    ∧ Coll.models (coll w') ≡ₚ Coll.models (coll w) ++ [c]
    ∧ next_cid w' = next_cid w
    ∧ get (PModel c) w' = Some c
    ∧ attributes (get_model w' c) = attributes (get_model w c)
    ∧ listening (get_model w' c) = true
    ∧ collection (get_model w' c)
      = (if decide (collection (get_model w c) = NoOwner) then ThisCollection
         else collection (get_model w c)).
Proof.
  intros Hwf Hc [m Hm] Hget Hid Hnative.
  apply wf_registered in Hwf as [Hlen Hreg]. unfold add.
  set (o' := set_defaults (add_options o)).
  destruct (add_options_flags o) as [Hadd Hrem]. fold o' in Hadd, Hrem.
  set (f := λ m : model, Model (attributes m) (previous m) (changed m)
                               (if decide (collection m = NoOwner)
                                then ThisCollection else collection m)
                               (listening m) (validationError m)).
  set (w1 := upd_model c f w).
  set (w2 := _addReference c w1).
  assert (Ha1 : same_attrs w w1) by (by apply same_attrs_upd).
  assert (Hreg2 : registered w2 (Coll.models (coll w) ++ [c])).
  { by apply (registered_model w _ c Hreg Hc Hget Hid w1). }
  assert (Hinit : st_order (staging_init o' w) = None).
  { unfold staging_init. by rewrite Hrem, andb_false_r. }
  assert (Hfirst : ∃ s, first_pass (One (EModel c)) o' w = (s, w2)
                        ∧ st_models s = [SModel c] ∧ st_toAdd s = [c]
                        ∧ st_order s = None ∧ st_orderChanged s = false
                        ∧ st_sort s = false).
  { unfold first_pass. cbn [entries classify]. unfold classify_entry.
    cbn [probe_of]. rewrite Hget, Hadd. cbn [_prepareModel]. fold f. fold w1. fold w2.
    rewrite note_model_no_order by done. eexists. split; [reflexivity|]. done. }
  destruct Hfirst as (s & Hfirst & Hsl & Hta & Hord & Hoc & Hso).
  destruct (set_finish (One (EModel c)) (add_options o) w s w2 o' w2 Hfirst
              (remove_pass_off _ _ _ Hrem)
              (λ H, Hnative (sorts_sortable _ _ _ _ _ Hfirst H)))
    as (w4 & Hset & Hms & _ & Hlen4 & Hix4 & _ & Hheap & Hn4 & _).
  fold o' in Hset, Hms, Hlen4.
  assert (Hstaged : staged s = true) by (unfold staged; by rewrite Hta).
  rewrite Hstaged in Hms, Hlen4. rewrite Hsl in Hset. cbn [result head default] in Hset.
  eexists. split; [exact Hset|].
  match goal with |- context [notify ?a ?b ?c ?d ?e] =>
    destruct (coll_notify a b c d e) as (Hcn & Hhn & Hnn);
    set (wn := notify a b c d e) in *
  end.
  assert (Hgm : ∀ d, get_model wn d = get_model w2 d).
  { intros d. unfold get_model. by rewrite Hhn, Hheap. }
  assert (Hregn : registered wn (Coll.models (coll w) ++ [c])).
  { apply (registered_frame w2); [done|by rewrite Hhn|by rewrite Hcn|congruence]. }
  assert (Hp : Coll.models (coll wn) ≡ₚ Coll.models (coll w) ++ [c]).
  { rewrite Hcn, Hms. unfold spliced. rewrite Hord, Hta.
    change (Coll.models (coll w2)) with (Coll.models (coll w)).
    destruct (position o' w); [|done].
    by rewrite splice_all_perm, Permutation_app_comm. }
  assert (Hc2 : get_model w2 c = Model (attributes m) (previous m) (changed m)
                                       (if decide (collection m = NoOwner)
                                        then ThisCollection else collection m)
                                       true (validationError m)).
  { unfold w2, _addReference, w1. rewrite !get_model_upd, !decide_True by done.
    simpl. by rewrite lookup_alter_eq, Hm. }
  assert (Hgc : get_model w c = m) by (unfold get_model; by rewrite Hm).
  split_and!.
  - apply wf_registered. split.
    + rewrite Hp, length_app, Hcn, Hlen4, Hta.
      change (Coll.length (coll w2)) with (Coll.length (coll w)). rewrite Hlen.
      simpl. lia.
    + by apply (registered_perm wn (Coll.models (coll w) ++ [c])).
  - done.
  - by rewrite Hnn, Hn4.
  - destruct Hregn as (Hixn & _). apply (indexed_get_member wn _ c Hixn).
    apply elem_of_app. right. by left.
  - by rewrite Hgm, Hc2, Hgc.
  - by rewrite Hgm, Hc2.
  - by rewrite Hgm, Hc2, Hgc.
Qed.

(** ** Reconciling with a list of attribute bags *)

Lemma heap_model_set c attrs o w :
  heap (model_set c attrs o w)
  = alter (λ m, Model (attrs ∪ attributes m) (attributes m)
                      (filter (λ kv, prop (attributes (get_model w c)) kv.1 ≠ kv.2) attrs)
                      (collection m) (listening m) (validationError m)) c (heap w).
Proof. unfold model_set. case_match; [done|]. by rewrite heap_trigger_model. Qed.

Lemma get_model_set_other c attrs o w d :
  d ≠ c → get_model (model_set c attrs o w) d = get_model w d.
Proof.
  intros Hd. unfold get_model. by rewrite heap_model_set, lookup_alter_ne.
Qed.

Lemma attributes_model_set c attrs o w m :
  heap w !! c = Some m →
  attributes (get_model (model_set c attrs o w) c) = attrs ∪ attributes m.
Proof.
  intros Hm. unfold get_model. by rewrite heap_model_set, lookup_alter_eq, Hm.
Qed.

Lemma classify_entry_merge o sa i b s w cs (z : Z) X :
  indexed w cs → modelId b = VNum z → nullish (prop b "cid") = true →
  Coll._byId (coll w) !! pretty z = Some X →
  truthy (o_merge o) = true → truthy (o_remove o) = true →
  ∀ ord, st_order s = Some ord →
  bool_decide (pretty z ∈ st_modelMap s) = false →
  classify_entry o false sa i (EBag b) s w =
    (Staging (st_models s ++ [SModel X]) (st_toAdd s)
             ({[pretty z]} ∪ ({[cid_key X]} ∪ st_modelMap s))
             (Some (ord ++ [X]))
             (st_orderChanged s
              || match Coll.models (coll w) !! i with
                 | None => true
                 | Some c => negb (bool_decide (X = c))
                 end)
             (st_sort s) (Some X),
     model_set X b o w).
Proof.
  intros Hix Hid Hcid Hk Hmerge Hrem ord Hord Hnew.
  destruct (indexed_num_key w cs z X Hix Hk) as (HX & Hnn & Hkey).
  destruct (model_set_same_key X b o w cs z Hix HX Hid Hnn Hkey)
    as (Hcoll & _ & HidX & _).
  unfold classify_entry. simpl probe_of.
  rewrite (get_bag_num w cs b z Hix Hid Hcid), Hk.
  unfold merge_existing. simpl. rewrite Hmerge, Hrem. simpl.
  replace (if truthy (o_parse o) then model_parse b else b) with b
    by (by destruct (truthy (o_parse o))).
  rewrite (note_model_num _ _ _ _ z HidX). simpl.
  rewrite Hord, num_key_in_cid, Hnew, Hcoll, orb_false_r. done.
Qed.

Lemma num_id_inv b z : num_id b = Some z → modelId b = VNum z.
Proof. unfold num_id. destruct (modelId b); try done. by intros [= ->]. Qed.

Lemma id_of_subseteq w c b (z : Z) :
  b ⊆ attributes (get_model w c) → modelId b = VNum z → id_of w c = VNum z.
Proof.
  intros Hsub Hid. apply modelId_lookup in Hid.
  unfold id_of, modelId, prop.
  by rewrite (lookup_weaken _ _ _ _ Hid Hsub).
Qed.

Lemma ord_ids w ord pre c :
  Forall2 (λ c b, b ⊆ attributes (get_model w c)) ord pre →
  Forall (λ b, is_Some (num_id b)) pre →
  c ∈ ord →
  ∃ z, z ∈ omap num_id pre ∧ id_of w c = VNum z.
Proof.
  intros Hall Hnum [k Hk]%list_elem_of_lookup.
  destruct (Forall2_lookup_l _ _ _ _ _ Hall Hk) as (b & Hb & Hsub).
  pose proof (proj1 (Forall_forall _ _) Hnum b (list_elem_of_lookup_2 _ _ _ Hb))
    as [z Hz].
  exists z. split.
  - apply list_elem_of_omap. exists b. split; [by eapply list_elem_of_lookup_2|done].
  - apply (id_of_subseteq w c b z Hsub). by apply num_id_inv.
Qed.

Lemma ord_registered M0 (ord : list cid) c :
  c ∈ ord → c ∈ M0 ++ filter (λ c, c ∉ M0) ord.
Proof.
  intros Hc. apply elem_of_app. destruct (decide (c ∈ M0)); [by left|].
  right. by apply list_elem_of_filter.
Qed.

Lemma Forall2_frame {A B} (P Q : A → B → Prop) l k :
  Forall2 P l k → (∀ x y, x ∈ l → P x y → Q x y) → Forall2 Q l k.
Proof.
  induction 1 as [|x y l k Hxy _ IH]; intros HPQ; [done|].
  constructor.
  - apply HPQ; [by left|done].
  - apply IH. intros x' y' Hx'. apply HPQ. by right.
Qed.

Lemma reconcile_step o sa M0 ix0 pre b s w (z : Z) :
  truthy (o_add o) = true → truthy (o_merge o) = true →
  truthy (o_remove o) = true →
  Coll.models (coll w) = M0 →
  registered w (M0 ++ st_toAdd s) →
  reconciled M0 ix0 pre s w →
  Forall (λ b, is_Some (num_id b)) pre →
  plain b = true → validate b = None →
  num_id b = Some z → z ∉ omap num_id pre →
  ∃ s' w',
    classify_entry o false sa (List.length pre) (EBag b) s w = (s', w')
    ∧ registered w' (M0 ++ st_toAdd s')
    ∧ reconciled M0 ix0 (pre ++ [b]) s' w'.
Proof.
  intros Hadd Hmerge Hrem HM0 Hreg Hrec Hnum Hplain Hvalid Hz Hfreshz.
  destruct Hrec as (ord & Hord & Hattrs & Hnd & Hmarks & Hta & Hoc & Hids & Hsl
                    & Hso & HJ & HK).
  pose proof (num_id_inv b z Hz) as Hid.
  destruct (plain_inv b Hplain) as [Hcid _].
  pose proof Hreg as (Hix & Hlt & Hfresh).
  assert (Hnew : bool_decide (pretty z ∈ st_modelMap s) = false).
  { apply bool_decide_eq_false. intros H. by apply Hfreshz, Hids. }
  assert (Homap : omap num_id (pre ++ [b]) = omap num_id pre ++ [z]).
  { rewrite omap_app. simpl. by rewrite Hz. }
  assert (Hids' : ∀ (X : cid) (MM : gset string) (z' : Z),
            (∀ z'' : Z, pretty z'' ∈ MM → z'' ∈ omap num_id pre) →
            pretty z' ∈ ({[pretty z]} ∪ MM : gset string) →
            z' ∈ omap num_id (pre ++ [b])).
  { intros X MM z' HMM [H|H]%elem_of_union; rewrite Homap, elem_of_app.
    - apply elem_of_singleton in H. apply (inj _) in H. subst. right. by left.
    - left. by apply HMM. }
  destruct (Coll._byId (coll w) !! pretty z) as [X|] eqn:Hk.
  - (* the bag resolves to a member *)
    destruct (indexed_num_key w _ z X Hix Hk) as (HX & Hnn & Hkey).
    assert (HXord : X ∉ ord).
    { intros Hin. destruct (ord_ids w ord pre X Hattrs Hnum Hin) as (z' & Hz' & HidX).
      rewrite HidX in Hkey. simpl in Hkey. apply (inj _) in Hkey. by subst. }
    assert (HXM : X ∈ M0).
    { apply elem_of_app in HX as [?|HX]; [done|].
      rewrite Hta in HX. by apply list_elem_of_filter in HX as [_ ?]. }
    assert (∃ m, heap w !! X = Some m) as [m Hm].
    { destruct (heap w !! X) as [m|] eqn:Hm; [eauto|].
      unfold id_of, get_model in Hnn. by rewrite Hm in Hnn. }
    rewrite (classify_entry_merge o sa _ b s w _ z X Hix Hid Hcid Hk Hmerge Hrem
               ord Hord Hnew).
    destruct (model_set_same_key X b o w _ z Hix HX Hid Hnn Hkey)
      as (Hcoll & Hnext & HidX & Hkeys & Hix').
    eexists _, _. split; [reflexivity|]. cbn [st_toAdd]. split.
    + split_and!; [done|by rewrite Hnext|]. intros n. rewrite Hnext, Hcoll. apply Hfresh.
    + exists (ord ++ [X]). cbn [st_order st_modelMap st_toAdd st_orderChanged
                                 st_models st_sort]. split_and!.
      * done.
      * apply Forall2_app.
        -- eapply Forall2_frame; [exact Hattrs|]. intros c b' Hc Hsub. simpl in *.
           rewrite get_model_set_other; [done|]. by intros ->.
        -- constructor; [|constructor]. rewrite (attributes_model_set _ _ _ _ m Hm).
           apply map_union_subseteq_l.
      * apply NoDup_app. split_and!; [done| |apply NoDup_singleton].
        intros x Hx ->%list_elem_of_singleton. done.
      * intros c Hc. rewrite !elem_of_union, !elem_of_singleton, elem_of_app,
          list_elem_of_singleton, (Hmarks c Hc). split.
        -- intros [H|[H|H]]; [by apply cid_key_not_num in H| |by left].
           right. by apply cid_key_inj.
        -- intros [H| ->]; [by right; right|]. right; by left.
      * rewrite filter_app, <-Hta. rewrite filter_cons_False by (by intros H; apply H).
        by rewrite filter_nil, app_nil_r.
      * intros Hoff. apply orb_false_elim in Hoff as [Hoff1 Hoff2].
        rewrite HM0 in Hoff2. rewrite length_app. simpl.
        replace (List.length pre + 1) with (S (List.length pre)) by lia.
        destruct (M0 !! List.length pre) as [c|] eqn:Hc; [|done].
        apply negb_false_iff, bool_decide_eq_true in Hoff2. subst c.
        by rewrite (take_S_r _ _ _ Hc), <-(Hoc Hoff1).
      * intros z' Hz'. apply (Hids' X ({[cid_key X]} ∪ st_modelMap s)); [|done].
        intros z'' [H|H]%elem_of_union; [|by apply Hids].
        apply elem_of_singleton in H. by apply eq_sym, cid_key_not_num in H.
      * by rewrite Hsl, fmap_app.
      * done.
      * intros k X' Hk'. rewrite Hcoll. by apply HJ.
      * intros z' X' Hz' Hin. rewrite Homap in Hin. apply elem_of_app.
        apply elem_of_app in Hin as [Hin|Hin]; [left; by eapply HK|].
        apply list_elem_of_singleton in Hin. subst z'. right.
        apply HJ in Hz'. rewrite Hk in Hz'. injection Hz' as ->. by left.
  - (* no member holds the identifier: a new record *)
    destruct (registered_new_record b w _ Hreg Hplain) as [Hget Hreg1].
    { intros z' Hz'. rewrite Hz in Hz'. by injection Hz' as <-. }
    set (n := next_cid w) in *.
    assert (HnM : n ∉ M0).
    { intros Hin. assert (n < n) as H; [|lia].
      apply (proj1 (Forall_forall _ _) Hlt n). apply elem_of_app. by left. }
    assert (Hnord : n ∉ ord).
    { intros Hin. apply (ord_registered M0) in Hin. rewrite <-Hta in Hin.
      pose proof (proj1 (Forall_forall _ _) Hlt n Hin) as H. simpl in H. lia. }
    rewrite (classify_entry_new_num o false sa _ b s w z Hadd Hget Hvalid Hid).
    fold n. rewrite Hord, Hnew. cbn [negb fmap option_fmap option_map].
    eexists _, _. split; [reflexivity|]. cbn [st_toAdd]. split.
    + by rewrite (assoc_L (++)).
    + exists (ord ++ [n]). cbn [st_order st_modelMap st_toAdd st_orderChanged
                                 st_models st_sort]. split_and!.
      * done.
      * apply Forall2_app.
        -- eapply Forall2_frame; [exact Hattrs|]. intros c b' Hc Hsub. simpl in *.
           rewrite get_model_new_record_ne; [done|]. by intros ->.
        -- constructor; [|constructor]. unfold n. by rewrite get_model_new_record.
      * apply NoDup_app. split_and!; [done| |apply NoDup_singleton].
        intros x Hx ->%list_elem_of_singleton. done.
      * intros c Hc. rewrite elem_of_union, elem_of_singleton, elem_of_app,
          list_elem_of_singleton, (Hmarks c Hc). split.
        -- intros [H|H]; [by apply cid_key_not_num in H|by left].
        -- intros [H| ->]; [by right|done].
      * rewrite filter_app, <-Hta. rewrite filter_cons_True by done.
        by rewrite filter_nil.
      * intros Hoff. apply orb_false_elim in Hoff as [_ Hoff2].
        change (Coll.models (coll (with_new_record b w)))
          with (Coll.models (coll w)) in Hoff2 || idtac.
        rewrite HM0 in Hoff2.
        destruct (M0 !! List.length pre) as [c|] eqn:Hc; [|done].
        apply negb_false_iff, bool_decide_eq_true in Hoff2. subst c.
        destruct HnM. by eapply list_elem_of_lookup_2.
      * intros z' Hz'. by apply (Hids' n (st_modelMap s)).
      * by rewrite Hsl, fmap_app.
      * done.
      * intros k X' Hk'. apply HJ in Hk'. rewrite lookup_new_record. fold n.
        rewrite Hid. simpl.
        rewrite bool_decide_eq_false_2 by (intros ->; congruence).
        rewrite bool_decide_eq_false_2; [done|].
        intros ->. rewrite Hfresh in Hk'; [done|unfold n; lia].
      * intros z' X' Hz' Hin. rewrite Homap in Hin. apply elem_of_app.
        apply elem_of_app in Hin as [Hin|Hin]; [left; by eapply HK|].
        apply list_elem_of_singleton in Hin. subst z'.
        apply HJ in Hz'. congruence.
Qed.

Lemma reconcile_loop o sa M0 ix0 bs : ∀ pre s w,
  truthy (o_add o) = true → truthy (o_merge o) = true →
  truthy (o_remove o) = true →
  Coll.models (coll w) = M0 →
  registered w (M0 ++ st_toAdd s) →
  reconciled M0 ix0 pre s w →
  Forall (λ b, is_Some (num_id b)) pre →
  Forall (λ b, plain b = true ∧ validate b = None ∧ is_Some (num_id b)) bs →
  NoDup (omap num_id (pre ++ bs)) →
  ∃ s' w',
    classify o false sa (List.length pre) (EBag <$> bs) s w = (s', w')
    ∧ registered w' (M0 ++ st_toAdd s')
    ∧ reconciled M0 ix0 (pre ++ bs) s' w'.
Proof.
  induction bs as [|b bs IH]; intros pre s w Hadd Hmerge Hrem HM0 Hreg Hrec Hnum Hall Hnd.
  { exists s, w. by rewrite app_nil_r. }
  apply Forall_cons in Hall as [(Hplain & Hvalid & [z Hz]) Hall].
  assert (Hfreshz : z ∉ omap num_id pre).
  { rewrite omap_app in Hnd. simpl in Hnd. rewrite Hz in Hnd.
    apply NoDup_app in Hnd as (_ & Hdisj & _). intros Hin.
    apply (Hdisj z Hin). by left. }
  destruct (reconcile_step o sa M0 ix0 pre b s w z Hadd Hmerge Hrem HM0 Hreg Hrec
              Hnum Hplain Hvalid Hz Hfreshz) as (s1 & w1 & Hstep & Hreg1 & Hrec1).
  pose proof (seq_classify_entry o false sa (List.length pre) (EBag b) s w) as [Hm1 _].
  rewrite Hstep in Hm1. simpl in Hm1.
  destruct (IH (pre ++ [b]) s1 w1) as (s' & w' & Hcl & Hreg' & Hrec'); try done.
  - congruence.
  - apply Forall_app. split; [done|]. apply Forall_singleton. by eexists.
  - by rewrite <-(assoc_L (++)).
  - exists s', w'. cbn [fmap list_fmap classify]. rewrite Hstep.
    rewrite length_app in Hcl. simpl in Hcl.
    replace (List.length pre + 1) with (S (List.length pre)) in Hcl by lia.
    rewrite <-(assoc_L (++)) in Hrec'. done.
Qed.

Lemma remove_pass_registered s o w cs :
  truthy (o_remove o) = true →
  registered w cs →
  NoDup (Coll.models (coll w)) →
  (∀ c, c ∈ Coll.models (coll w) → c ∈ cs) →
  Coll.length (coll w) = Z.of_nat (List.length (Coll.models (coll w))) →
  let gone := filter (λ m, cid_key m ∉ st_modelMap s) (Coll.models (coll w)) in
  ∃ o1 w',
    remove_pass s o w = Some (o1, w')
    ∧ same_attrs w w'
    ∧ registered w' (filter (λ x, x ∉ gone) cs)
    ∧ Coll.models (coll w')
      = filter (λ m, cid_key m ∈ st_modelMap s) (Coll.models (coll w))
    ∧ Coll.length (coll w') = Z.of_nat (List.length (Coll.models (coll w')))
    ∧ Coll.comparator (coll w') = Coll.comparator (coll w)
    ∧ next_cid w' = next_cid w.
Proof.
  intros Hrem (Hix & Hlt & Hfresh) Hnd Hsub Hlen gone.
  destruct (remove_pass_seen s o w cs Hrem Hix Hnd Hsub Hlen)
    as (o1 & w' & Hpass & Ha & Hms & Hlen' & Hnext).
  exists o1, w'. split; [exact Hpass|].
  assert (Hfacts : indexed w' (filter (λ x, x ∉ gone) cs)
                   ∧ Coll.comparator (coll w') = Coll.comparator (coll w)).
  { unfold remove_pass in Hpass. rewrite Hrem, Hlen, Nat2Z.id, stale_filter in Hpass.
    fold gone in Hpass. destruct gone as [|r R'] eqn:HR.
    - injection Hpass as <- <-. split; [|done].
      rewrite filter_id; [done|]. apply Forall_forall. intros x _. apply not_elem_of_nil.
    - rewrite <-HR in *.
      destruct (remove_loop_members gone o w cs Hix Hnd) as
        (rs & o2 & w2 & Hr & _ & _ & Hix2 & _ & _ & Hcmp & _).
      + unfold gone in HR |- *. rewrite HR. rewrite <-HR. by apply NoDup_filter.
      + intros c Hc. rewrite HR in Hc. rewrite <-HR in Hc. unfold gone in Hc.
        apply list_elem_of_filter in Hc as [_ Hc]. auto.
      + rewrite HR in Hpass. rewrite <-HR in Hpass.
        unfold remove in Hpass. rewrite Hr in Hpass. by injection Hpass as <- <-. }
  destruct Hfacts as [Hix' Hcmp].
  split_and!; try done. split_and!; [done| |].
  - rewrite Hnext. apply Forall_forall. intros x [_ Hx]%list_elem_of_filter.
    by apply (proj1 (Forall_forall _ _) Hlt).
  - intros n Hn. rewrite Hnext in Hn.
    destruct (Coll._byId (coll w') !! cid_key n) as [x|] eqn:Hk; [|done].
    apply (indexed_lookup w' _ _ _ Hix') in Hk as [[_ Hx]%list_elem_of_filter Hk].
    rewrite (keys_of_same w w') in Hk by done.
    rewrite <-(Hfresh n Hn). symmetry. by apply Hix.
Qed.

Lemma filter_in_take {A} `{EqDecision A} (l : list A) n :
  NoDup l → filter (λ x, x ∈ take n l) l = take n l.
Proof.
  intros Hnd.
  transitivity (filter (λ x, x ∈ take n l) (take n l ++ drop n l));
    [by rewrite take_drop|].
  rewrite filter_app.
  rewrite filter_id by (apply Forall_forall; auto).
  rewrite filter_none; [by rewrite app_nil_r|].
  apply Forall_forall. intros x Hx Hin.
  rewrite <-(take_drop n l) in Hnd. apply NoDup_app in Hnd as (_ & Hdisj & _).
  by apply (Hdisj x).
Qed.

Lemma Forall2_fmap_eq {A B C} (f : A → C) (g : B → C) l k :
  Forall2 (λ a b, f a = g b) l k → f <$> l = g <$> k.
Proof.
  induction 1 as [|x y l k Hxy _ IH]; [done|]. rewrite !fmap_cons. by f_equal.
Qed.

(** X27: reconciliation.  [set(L)] on a well-formed collection that does
    not sort, with adding, merging and removing left enabled and no
    position, for a list [L] of valid plain attribute bags that all carry a
    numeric identifier, pairwise distinct: afterwards the collection is
    well-formed and holds exactly one record per bag, in the order of [L]:
    the identifiers read off the sequence are those of [L], every record
    holds the attributes of its bag, [length] is the length of [L], and a
    member of before whose identifier is in [L] is still a member, the
    same record as before. *)
Theorem set_reconciles (bs : list bag) (o : options) (w : world) :
  wf w →
  o_add o ≠ Some false → o_remove o ≠ Some false → o_merge o ≠ Some false →
  o_at o = None → sortable (set_defaults o) w = false →
  Forall (λ b, plain b = true ∧ validate b = None ∧ is_Some (num_id b)) bs →
  NoDup (omap num_id bs) →
  ∃ w',
    set (Many (EBag <$> bs)) o w = Ok (Many (SModel <$> Coll.models (coll w'))) w'
    ∧ wf w'
    ∧ Forall2 (λ c b, b ⊆ attributes (get_model w' c)) (Coll.models (coll w')) bs
    ∧ pluck idAttr w' = modelId <$> bs
    ∧ Coll.length (coll w') = Z.of_nat (List.length bs)
    ∧ (∀ c (z : Z), c ∈ Coll.models (coll w) → id_of w c = VNum z →
                    z ∈ omap num_id bs → c ∈ Coll.models (coll w')).
Proof.
  intros Hwf Ha Hr Hm Hat Hsortable Hall Hnd.
  pose proof Hwf as (Hlen & Hix & _). pose proof Hix as (HndM & _).
  apply wf_registered in Hwf as [_ Hreg].
  set (o' := set_defaults o) in *.
  assert (Hadd : truthy (o_add o') = true) by (by apply or_true_truthy).
  assert (Hrem : truthy (o_remove o') = true) by (by apply or_true_truthy).
  assert (Hmerge : truthy (o_merge o') = true) by (by apply or_true_truthy).
  assert (Hpos : position o' w = None) by (unfold position; simpl; by rewrite Hat).
  set (M0 := Coll.models (coll w)) in *.
  set (ix0 := Coll._byId (coll w)).
  assert (Hinit : reconciled M0 ix0 [] (staging_init o' w) w).
  { exists []. unfold staging_init. rewrite Hsortable, Hadd, Hrem. simpl.
    split_and!.
    - done.
    - constructor.
    - apply NoDup_nil_2.
    - intros m _. by rewrite elem_of_nil, elem_of_empty.
    - done.
    - by rewrite take_0.
    - intros z Hz. by apply elem_of_empty in Hz.
    - done.
    - done.
    - done.
    - intros z X _ Hz. by apply elem_of_nil in Hz. }
  destruct (reconcile_loop o' (sortAttr w) M0 ix0 bs [] (staging_init o' w) w
              Hadd Hmerge Hrem eq_refl) as (s & w1 & Hcl & Hreg1 & Hrec); try done.
  { by rewrite app_nil_r. }
  cbn [app List.length] in Hcl, Hrec.
  assert (Hfirst : first_pass (Many (EBag <$> bs)) o' w = (s, w1)).
  { unfold first_pass. rewrite Hsortable. exact Hcl. }
  pose proof (seq_classify o' false (sortAttr w) (EBag <$> bs) 0
                (staging_init o' w) w) as [Hm1 Hl1].
  rewrite Hcl in Hm1, Hl1. simpl in Hm1, Hl1. fold M0 in Hm1.
  destruct Hrec as (ord & Hord & Hattrs & Hndo & Hmarks & Hta & Hoc & _ & Hsl
                    & Hso & _ & HK).
  destruct (remove_pass_registered s o' w1 (M0 ++ st_toAdd s) Hrem Hreg1)
    as (o1 & w2 & Hpass & Ha12 & Hreg2 & Hms2 & Hlen2 & _ & Hn2).
  { by rewrite Hm1. }
  { intros c Hc. rewrite Hm1 in Hc. apply elem_of_app. by left. }
  { by rewrite Hl1, Hm1. }
  rewrite Hm1 in Hms2, Hreg2.
  set (kept := filter (λ m, m ∈ ord) M0).
  assert (Hkept : filter (λ m, cid_key m ∈ st_modelMap s) M0 = kept).
  { apply filter_all, Forall_forall. intros m Hm'. by apply Hmarks. }
  assert (Hcs2 : filter (λ x, x ∉ filter (λ m, cid_key m ∉ st_modelMap s) M0)
                        (M0 ++ st_toAdd s) = kept ++ st_toAdd s).
  { rewrite filter_app. f_equal.
    - rewrite <-Hkept. apply (filter_not_in_filter (λ m, cid_key m ∈ st_modelMap s)).
    - apply filter_id, Forall_forall. intros x Hx [_ Hin]%list_elem_of_filter.
      rewrite Hta in Hx. by apply list_elem_of_filter in Hx as [? _]. }
  rewrite Hcs2 in Hreg2. rewrite Hkept in Hms2.
  assert (Hperm : kept ++ st_toAdd s ≡ₚ ord).
  { apply list.NoDup_Permutation; [|done|].
    - apply NoDup_app. split_and!; [by apply NoDup_filter| |].
      + intros x [_ Hx]%list_elem_of_filter. rewrite Hta.
        intros [Hno _]%list_elem_of_filter.
        unfold kept in Hx. done.
      + rewrite Hta. by apply NoDup_filter.
    - intros x. rewrite elem_of_app, Hta. unfold kept.
      rewrite !list_elem_of_filter. destruct (decide (x ∈ M0)); tauto. }
  destruct (set_finish (Many (EBag <$> bs)) o w s w1 o1 w2 Hfirst Hpass)
    as (w4 & Hset & _ & Hexact & Hlen4 & Hix4 & _ & Hheap4 & Hn4 & _).
  { fold o'. by rewrite Hsortable, Hso, andb_false_r. }
  fold o' in Hset, Hexact, Hlen4. rewrite Hsortable, Hso, andb_false_r in Hexact, Hset.
  specialize (Hexact eq_refl). rewrite Hpos in Hexact, Hset.
  match type of Hset with context [notify ?a ?b ?c ?d ?e] =>
    destruct (coll_notify a b c d e) as (Hcn & Hhn & Hnn);
    set (wn := notify a b c d e) in *
  end.
  assert (Hmsn : Coll.models (coll wn) = ord).
  { rewrite Hcn, Hexact. destruct (staged s) eqn:Hst.
    - unfold spliced. by rewrite Hord.
    - unfold staged in Hst. apply orb_false_elim in Hst as [Hst1 Hst2].
      apply negb_false_iff, bool_decide_eq_true in Hst1.
      rewrite Hms2. unfold kept. rewrite (Hoc Hst2).
      by apply filter_in_take. }
  assert (Hlenn : Coll.length (coll wn) = Z.of_nat (List.length ord)).
  { rewrite Hcn, Hlen4, Hlen2, Hms2, <-Hperm, length_app.
    destruct (staged s) eqn:Hst; [lia|].
    unfold staged in Hst. apply orb_false_elim in Hst as [Hst1 _].
    apply negb_false_iff, bool_decide_eq_true in Hst1. rewrite Hst1. simpl. lia. }
  assert (Hgm : ∀ c, attributes (get_model wn c) = attributes (get_model w1 c)).
  { intros c. rewrite <-Ha12. unfold get_model. by rewrite Hhn, Hheap4. }
  assert (Hattrsn : Forall2 (λ c b, b ⊆ attributes (get_model wn c)) ord bs).
  { eapply Forall2_impl; [exact Hattrs|]. intros c b Hsub. simpl. by rewrite Hgm. }
  assert (Hlenb : List.length ord = List.length bs) by (by eapply Forall2_length).
  exists wn. rewrite Hmsn. split_and!.
  - by rewrite Hset, Hsl.
  - apply wf_registered. rewrite Hmsn. split; [done|].
    apply (registered_perm wn (kept ++ st_toAdd s)); [done|].
    apply (registered_frame w2); [done|by rewrite Hhn|by rewrite Hcn|congruence].
  - done.
  - unfold pluck. rewrite Hmsn. apply Forall2_fmap_eq.
    apply Forall2_same_length_lookup. split; [done|].
    intros k c b Hc Hb.
    destruct (Forall2_lookup_l _ _ _ _ _ Hattrsn Hc) as (b' & Hb' & Hsub).
    assert (b' = b) as -> by congruence.
    pose proof (proj1 (Forall_forall _ _) Hall b (list_elem_of_lookup_2 _ _ _ Hb))
      as (_ & _ & [z Hz]).
    pose proof (num_id_inv b z Hz) as Hid. rewrite Hid.
    by apply (id_of_subseteq wn c b z).
  - by rewrite Hlenn, Hlenb.
  - intros c z Hc Hidc Hz. apply (HK z c); [|done].
    pose proof (indexed_id w _ c Hix Hc) as H. rewrite Hidc in H. by apply H.
Qed.

(** ** What [reset] does to the members of before *)

Lemma removeReference_other c w d :
  d ≠ c → get_model (_removeReference c w) d = get_model w d.
Proof. intros Hd. unfold _removeReference. rewrite get_model_upd. by rewrite decide_False. Qed.

Lemma untie_all_models cs : ∀ w c,
  let w1 := foldl (λ w c, _removeReference c w) w cs in
  (c ∈ cs → listening (get_model w1 c) = false
            ∧ collection (get_model w1 c) ≠ ThisCollection)
  ∧ (c ∉ cs → get_model w1 c = get_model w c)
  ∧ (listening (get_model w c) = false → listening (get_model w1 c) = false)
  ∧ (collection (get_model w c) ≠ ThisCollection →
     collection (get_model w1 c) ≠ ThisCollection).
Proof.
  induction cs as [|x cs IH]; intros w c; simpl.
  { split_and!; try done. by intros ?%elem_of_nil. }
  destruct (IH (_removeReference x w) c) as (Hin & Hout & Hl & Hc).
  assert (Hx : listening (get_model (_removeReference x w) x) = false
               ∧ collection (get_model (_removeReference x w) x) ≠ ThisCollection).
  { unfold _removeReference. rewrite get_model_upd, decide_True by done.
    destruct (heap w !! x) as [m|]; [|done]. simpl. split; [done|].
    by destruct (decide (collection m = ThisCollection)). }
  split_and!.
  - intros [->|Hcs]%elem_of_cons; [|by apply Hin].
    destruct Hx as [Hx1 Hx2]. split; [by apply Hl|by apply Hc].
  - intros Hno. rewrite Hout by (intros ?; apply Hno; by right).
    apply removeReference_other. intros ->. apply Hno. by left.
  - intros H. apply Hl. destruct (decide (c = x)) as [->|Hne]; [apply Hx|].
    by rewrite removeReference_other.
  - intros H. apply Hc. destruct (decide (c = x)) as [->|Hne]; [apply Hx|].
    by rewrite removeReference_other.
Qed.

(** X28: [reset] severs the members of before.  After [reset(L)] of a
    well-formed collection to a list [L] of valid plain attribute bags with
    pairwise distinct identifiers, no member of before is a member, none
    belongs to this collection any more, the collection listens to none of
    them, and so the notifications they emit from then on no longer reach
    it.  This holds of the world the call ends in, whether it returns or
    ends in the TypeError of a sort through [sortBy]; it returns whenever
    the comparator, if there is one, is a comparison function. *)
Theorem reset_severs_previous_members (bs : list bag) (o : options) (w : world) (c : cid) :
  wf w →
  Forall (λ b, plain b = true ∧ validate b = None) bs →
  NoDup (omap num_id bs) →
  c ∈ Coll.models (coll w) →
  let r := reset (Many (EBag <$> bs)) o w in
  let w' := out_world r in
  (c ∉ Coll.models (coll w'))
  ∧ collection (get_model w' c) ≠ ThisCollection
  ∧ listening (get_model w' c) = false
  ∧ (∀ ev o2, log (trigger_model ev c o2 w')
              = log w' ++ [Notification (OnModel c) ev (Some c) None o2])
  ∧ (needs_sortBy w = false → ∃ res, r = Ok res w').
Proof.
  intros (_ & _ & Hlt & _) Hall Hnd Hc r w'.
  set (prev := Coll.models (coll w)) in *.
  set (w1 := foldl (λ w c, _removeReference c w) w prev).
  destruct (untie_all prev w) as (Hcl1 & _ & Hn1). fold w1 in Hn1, Hcl1.
  destruct (untie_all_models prev w c) as (Hin & _). fold w1 in Hin.
  destruct (Hin Hc) as [Hl1 Hc1].
  set (o1 := with_previousModels prev o).
  set (oa := with_silent (match o_silent o1 with None => Some true | s => s end) o1).
  destruct (add_plain_world bs oa (_reset w1) [] (registered_reset w1) Hall Hnd)
    as (Hok & _ & Hp & _ & _ & _ & _ & Hold).
  { intros z _. apply lookup_empty. }
  change (next_cid (_reset w1)) with (next_cid w1) in *. rewrite Hn1 in *.
  simpl in Hp.
  assert (Hr : r = match add (Many (EBag <$> bs)) oa (_reset w1) with
                   | Throw e w3 => Throw e w3
                   | Ok res w3 =>
                       Ok res (if truthy (o_silent o1) then w3
                               else emit (Notification OnCollection "reset" None None o1)
                                         w3)
                   end) by done.
  assert (Hw : heap w' = heap (out_world (add (Many (EBag <$> bs)) oa (_reset w1)))
               ∧ coll w' = coll (out_world (add (Many (EBag <$> bs)) oa (_reset w1)))).
  { unfold w'. rewrite Hr.
    destruct (add (Many (EBag <$> bs)) oa (_reset w1)) as [res w3|e w3];
      cbn [out_world]; [case_match; split; reflexivity|done]. }
  destruct Hw as [Hh Hcl].
  set (w3 := out_world (add (Many (EBag <$> bs)) oa (_reset w1))) in *.
  assert (Hcn : c < next_cid w) by (by apply (proj1 (Forall_forall _ _) Hlt c)).
  assert (Hg4 : get_model w' c = get_model w1 c).
  { unfold get_model. rewrite Hh. fold (get_model w3 c). by rewrite Hold. }
  split_and!.
  - rewrite Hcl, Hp. intros Hin3. apply elem_of_seq in Hin3. lia.
  - by rewrite Hg4.
  - by rewrite Hg4.
  - intros ev o2. by rewrite log_trigger_model, Hg4, Hl1.
  - intros Hsb. unfold w'. rewrite Hr. rewrite Hok; [by eexists|].
    intros _. rewrite <-Hsb. apply needs_sortBy_coll. simpl. by rewrite Hcl1.
Qed.

(** ** The mixed-in proxies and the cached length *)

(** X29: on a collection whose cached length is the length of its
    sequence the mixed-in proxies agree with the collection's own
    accessors: [size()] is [length], [first()] is [at(0)], [last()] is
    [at(-1)], and [isEmpty()] holds exactly when [length] is 0. *)
Theorem mixins_agree_with_length (w : world) :
  Coll.length (coll w) = Z.of_nat (List.length (Coll.models (coll w))) →
  Mixin.size w = Coll.length (coll w)
  ∧ Mixin.first w = at_index 0 w
  ∧ Mixin.last w = at_index (-1) w
  ∧ (Mixin.isEmpty w = true ↔ Coll.length (coll w) = 0%Z).
Proof.
  intros Hlen. split_and!.
  - done.
  - rewrite at_index_nonneg by lia. unfold Mixin.first.
    by destruct (Coll.models (coll w)).
  - rewrite at_index_neg by lia. unfold Mixin.last. rewrite Hlen, last_lookup.
    destruct (Coll.models (coll w)) as [|x l]; [done|]. cbn [List.length].
    destruct (-1 + Z.of_nat (S (List.length l)) <? 0)%Z eqn:Hneg;
      [apply Z.ltb_lt in Hneg; lia|].
    f_equal. lia.
  - unfold Mixin.isEmpty. rewrite bool_decide_eq_true, Hlen.
    destruct (Coll.models (coll w)); simpl; split; try done; lia.
Qed.

(** ** Batches of plain attribute bags, identifiers repeated or missing *)

(** The end of a turn of the first loop, for a record whose identifier
    has a numeric key. *)
Lemma note_model_key i m s w (z : Z) :
  nullish (id_of w m) = false → to_key (id_of w m) = pretty z →
  note_model i m s w =
    let push := match st_order s with
                | Some _ => negb (bool_decide (pretty z ∈ st_modelMap s))
                | None => false
                end in
    Staging (st_models s) (st_toAdd s) ({[pretty z]} ∪ st_modelMap s)
            (if push then (λ l, l ++ [m]) <$> st_order s else st_order s)
            (if push
             then st_orderChanged s
                  || match Coll.models (coll w) !! i with
                     | None => true
                     | Some c => negb (bool_decide (m = c))
                     end
             else st_orderChanged s)
            (st_sort s) (st_model s).
Proof.
  unfold id_of. intros Hn Hk. unfold note_model, isNew. by rewrite Hn, Hk.
Qed.

(** The end of a turn of the first loop, for an unsaved record: it is
    pushed to [order] whatever [modelMap] holds. *)
Lemma note_model_unsaved i m s w :
  nullish (id_of w m) = true →
  note_model i m s w =
    Staging (st_models s) (st_toAdd s) ({[to_key (id_of w m)]} ∪ st_modelMap s)
            ((λ l, l ++ [m]) <$> st_order s)
            (match st_order s with
             | Some _ => st_orderChanged s
                         || match Coll.models (coll w) !! i with
                            | None => true
                            | Some c => negb (bool_decide (m = c))
                            end
             | None => st_orderChanged s
             end)
            (st_sort s) (st_model s).
Proof.
  unfold id_of. intros Hn. unfold note_model, isNew. rewrite Hn. simpl.
  by destruct (st_order s).
Qed.

(** A turn of the first loop for a plain bag whose identifier is
    registered, with [merge] on or off: the record keeps the key of its
    identifier, the index is untouched, and no other record changes. *)
Lemma classify_entry_found o srt sa i b s w cs (z : Z) X :
  indexed w cs → modelId b = VNum z → nullish (prop b "cid") = true →
  Coll._byId (coll w) !! pretty z = Some X →
  let seen := if truthy (o_remove o) then {[cid_key X]} ∪ st_modelMap s
              else st_modelMap s in
  let push := match st_order s with
              | Some _ => negb (bool_decide (pretty z ∈ seen))
              | None => false
              end in
  ∃ oc srt' w',
    classify_entry o srt sa i (EBag b) s w =
      (Staging (st_models s ++ [SModel X]) (st_toAdd s) ({[pretty z]} ∪ seen)
               (if push then (λ l, l ++ [X]) <$> st_order s else st_order s)
               oc srt' (Some X), w')
    ∧ coll w' = coll w ∧ next_cid w' = next_cid w
    ∧ (∀ c, keys_of w' c = keys_of w c)
    ∧ indexed w' cs
    ∧ (∀ d, d ≠ X → get_model w' d = get_model w d).
Proof.
  intros Hix Hid Hcid Hk seen push.
  destruct (indexed_num_key w cs z X Hix Hk) as (HX & Hnn & Hkey).
  destruct (truthy (o_merge o)) eqn:Hmerge.
  - destruct (classify_entry_resolved o srt sa i b s w cs z X Hix Hid Hcid Hk Hmerge)
      as (srt' & w' & Hcl & Hcoll & Hnext & _ & Hkeys & Hix').
    eexists _, srt', w'. split; [exact Hcl|]. split_and!; try done.
    intros d Hd.
    assert (Hw' : (classify_entry o srt sa i (EBag b) s w).2 = model_set X b o w).
    { unfold classify_entry. simpl probe_of.
      rewrite (get_bag_num w cs b z Hix Hid Hcid), Hk.
      unfold merge_existing. simpl. rewrite Hmerge. simpl.
      by replace (if truthy (o_parse o) then model_parse b else b) with b
        by (by destruct (truthy (o_parse o))). }
    rewrite Hcl in Hw'. simpl in Hw'. rewrite Hw'. by apply get_model_set_other.
  - eexists _, (st_sort s), w. split; [|done].
    unfold classify_entry. simpl probe_of.
    rewrite (get_bag_num w cs b z Hix Hid Hcid), Hk.
    unfold merge_existing. rewrite Hmerge. simpl.
    rewrite (note_model_key _ _ _ _ z Hnn Hkey). simpl. done.
Qed.


Lemma lookup_snoc {A} (l : list A) x j :
  (l ++ [x]) !! j =
    if decide (j < List.length l) then l !! j
    else if decide (j = List.length l) then Some x else None.
Proof.
  case_decide as H1; [by rewrite lookup_app_l|].
  rewrite lookup_app_r by lia. case_decide as H2.
  - subst j. by rewrite Nat.sub_diag.
  - destruct (j - List.length l) as [|[|n]] eqn:Hj; [lia|done|done].
Qed.

Lemma num_id_nullish b : nullish (modelId b) = true → num_id b = None.
Proof. unfold num_id. by destruct (modelId b). Qed.

Lemma batched_lengths rem M0 pre rs s w :
  batched rem M0 pre rs s w → List.length rs = List.length pre.
Proof. intros (_ & _ & Hall & _). by eapply Forall2_length. Qed.

(** An identifier that a processed bag carries is registered, for the
    record the bag was resolved to. *)
Lemma batched_bound rem M0 pre rs s w (z : Z) :
  batched rem M0 pre rs s w → z ∈ omap num_id pre →
  ∃ r, r ∈ rs ∧ Coll._byId (coll w) !! pretty z = Some r.
Proof.
  intros (_ & _ & Hall & _) Hz.
  apply list_elem_of_omap in Hz as (b & Hb & Hnum).
  apply list_elem_of_lookup in Hb as [k Hk].
  destruct (Forall2_lookup_r _ _ _ _ _ Hall Hk) as (r & Hr & HP).
  rewrite Hnum in HP. exists r. split; [|done]. by eapply list_elem_of_lookup_2.
Qed.

(** The invariant when the loop starts. *)
Lemma batched_init o w :
  wf w →
  batched (truthy (o_remove o)) (Coll.models (coll w)) [] [] (staging_init o w) w.
Proof.
  intros Hwf. apply wf_registered in Hwf as [_ Hreg]. unfold batched, staging_init.
  simpl. rewrite app_nil_r. split_and!.
  - done.
  - done.
  - constructor.
  - intros j k b Hk. by rewrite lookup_nil in Hk.
  - intros r Hr. by apply elem_of_nil in Hr.
  - intros r Hr. by apply elem_of_nil in Hr.
  - intros z. split; [by intros ?%not_elem_of_empty|by intros ?%elem_of_nil].
  - intros m Hm. by apply not_elem_of_empty in Hm.
  - intros _ m _ Hm. by apply elem_of_nil in Hm.
  - intros ord Hord. destruct (negb (sortable o w) && truthy (o_add o)) eqn:H1;
      simpl in Hord; [|done].
    destruct (truthy (o_remove o)); [|done]. injection Hord as <-.
    split_and!; [done|apply NoDup_nil_2|done].
Qed.


(** A turn of the first loop for a plain bag that resolves to no record:
    a record of its own is made and staged. *)
Lemma batched_new o srt sa i rem M0 pre rs s w b :
  truthy (o_add o) = true →
  batched rem M0 pre rs s w →
  plain b = true → validate b = None →
  (∀ z, num_id b = Some z → Coll._byId (coll w) !! pretty z = None) →
  batched rem M0 (pre ++ [b]) (rs ++ [next_cid w])
          (classify_entry o srt sa i (EBag b) s w).1
          (classify_entry o srt sa i (EBag b) s w).2.
Proof.
  intros Hadd Hinv Hplain Hvalid Hfree.
  pose proof (batched_lengths _ _ _ _ _ _ Hinv) as Hlen.
  pose proof (λ z, batched_bound _ _ _ _ _ _ z Hinv) as Hbound.
  destruct Hinv as (Hsl & Hreg & Hall & Hdist & Hrs & Hta & Hnum & Hcid & Hmark & Hord).
  destruct (registered_new_record b w _ Hreg Hplain Hfree) as [Hget Hreg1].
  set (n := next_cid w) in *. set (w1 := with_new_record b w) in *.
  assert (Hnotin : n ∉ M0 ++ st_toAdd s).
  { destruct Hreg as (_ & Hlt & _). intros Hin.
    pose proof (proj1 (Forall_forall _ _) Hlt _ Hin) as H. simpl in H. unfold n in H. lia. }
  assert (Hnrs : n ∉ rs) by (intros Hin; by apply Hnotin, Hrs).
  assert (Hgm : ∀ d, d ≠ n → get_model w1 d = get_model w d)
    by (intros d Hd; by apply get_model_new_record_ne).
  assert (Hattr : attributes (get_model w1 n) = b)
    by (unfold w1, n; by rewrite get_model_new_record).
  assert (Hidn : id_of w1 n = modelId b) by (unfold id_of; by rewrite Hattr).
  destruct (plain_inv b Hplain) as [Hc Hid].
  assert (Hkeep : ∀ (z : Z) r, Coll._byId (coll w) !! pretty z = Some r →
                               Coll._byId (coll w1) !! pretty z = Some r).
  { intros z r Hz. unfold w1. rewrite lookup_new_record. fold n.
    rewrite (bool_decide_eq_false_2 (pretty z = cid_key n))
      by (intros H; by apply eq_sym, cid_key_not_num in H).
    destruct Hid as [Hn|(zb & Hzb & Hnb)].
    - by rewrite Hn.
    - rewrite Hzb. simpl. case_bool_decide as Hk; [|done].
      apply (inj _) in Hk. subst zb. rewrite (Hfree z Hnb) in Hz. done. }
  assert (Hst : ∃ oc,
            (classify_entry o srt sa i (EBag b) s w).1
            = Staging (st_models s ++ [SModel n]) (st_toAdd s ++ [n])
                      ({[to_key (modelId b)]} ∪ st_modelMap s)
                      ((λ l, l ++ [n]) <$> st_order s) oc (st_sort s) (Some n)
            ∧ (classify_entry o srt sa i (EBag b) s w).2 = w1).
  { rewrite (classify_entry_new _ _ _ _ _ _ _ Hadd Hget Hvalid). fold n w1. simpl.
    destruct Hid as [Hn|(zb & Hzb & Hnb)].
    - rewrite note_model_unsaved by (by rewrite Hidn). simpl. rewrite Hidn. eauto.
    - rewrite (note_model_num _ _ _ _ zb) by (by rewrite Hidn). simpl.
      assert (Hfresh : bool_decide (pretty zb ∈ st_modelMap s) = false).
      { apply bool_decide_eq_false. intros Hin. apply Hnum in Hin.
        destruct (Hbound zb Hin) as (r & _ & Hr). by rewrite (Hfree zb Hnb) in Hr. }
      rewrite Hfresh, Hzb. simpl. destruct (st_order s); simpl; eauto. }
  destruct Hst as (oc & -> & ->).
  unfold batched. cbn [st_models st_toAdd st_modelMap st_order]. split_and!.
  - by rewrite Hsl, fmap_app.
  - by rewrite (assoc_L (++)).
  - apply Forall2_app.
    + eapply Forall2_frame; [exact Hall|]. intros r b' Hr HP. simpl in *.
      destruct (num_id b') as [z|].
      * by apply Hkeep.
      * destruct HP as (Hin & Ha & Hnull). split_and!; [apply elem_of_app; by left| |done].
        rewrite Hgm; [done|]. by intros ->.
    + constructor; [|constructor]. cbv beta. destruct (num_id b) as [z|] eqn:Hz.
      * unfold w1. rewrite lookup_new_record.
        rewrite (num_id_inv _ _ Hz). simpl. by rewrite bool_decide_eq_true_2.
      * split_and!; [apply elem_of_app; right; by left|done|].
        destruct Hid as [Hn|(zb & _ & Hnb)]; [done|congruence].
  - intros j k b' Hk Hnone Hjk. rewrite !lookup_snoc.
    rewrite lookup_snoc in Hk. rewrite <-Hlen in Hk.
    destruct (decide (k < List.length rs)) as [Hkl|Hkl].
    + destruct (lookup_lt_is_Some_2 rs k Hkl) as [rk Hrk].
      assert (Hrkin : rk ∈ rs) by (by eapply list_elem_of_lookup_2).
      rewrite Hrk. case_decide as Hj; [rewrite <-Hrk; by eapply Hdist|].
      case_decide; [|done]. intros [= ->]. done.
    + case_decide as Hk2; [|done]. injection Hk as <-.
      case_decide as Hj; [|by case_decide; [lia|]].
      destruct (lookup_lt_is_Some_2 rs j Hj) as [rj Hrj]. rewrite Hrj.
      intros [= ->]. apply Hnrs. by eapply list_elem_of_lookup_2.
  - intros r [Hr| ->%list_elem_of_singleton]%elem_of_app.
    + apply Hrs in Hr. rewrite (assoc_L (++)). apply elem_of_app. by left.
    + rewrite (assoc_L (++)). apply elem_of_app. right. by left.
  - intros r [Hr| ->%list_elem_of_singleton]%elem_of_app.
    + apply elem_of_app. left. by apply Hta.
    + apply elem_of_app. right. by left.
  - intros z. rewrite omap_app, elem_of_app, elem_of_union, elem_of_singleton, Hnum.
    assert (Hb : pretty z = to_key (modelId b) ↔ z ∈ omap num_id [b]).
    { simpl. destruct Hid as [Hn|(zb & Hzb & Hnb)].
      - rewrite (num_id_nullish _ Hn). split; [|by intros ?%elem_of_nil].
        intros Hk. exfalso. apply (num_key_not_reserved z). rewrite Hk.
        by apply nullish_key_reserved.
      - rewrite Hnb, Hzb. simpl. rewrite list_elem_of_singleton. split.
        + by intros ?%(inj _).
        + by intros ->. }
    tauto.
  - intros m [Hm%elem_of_singleton|Hm]%elem_of_union.
    + exfalso. destruct Hid as [Hn|(zb & Hzb & Hnb)].
      * apply (cid_key_not_reserved m). rewrite Hm. by apply nullish_key_reserved.
      * rewrite Hzb in Hm. by apply cid_key_not_num in Hm.
    + apply elem_of_app. left. by apply Hcid.
  - intros Hrem m Hm [Hin| ->%list_elem_of_singleton]%elem_of_app.
    + apply elem_of_union. right. by apply Hmark.
    + exfalso. apply Hnotin. apply elem_of_app. by left.
  - intros ord' Hord'. destruct (st_order s) as [ord|] eqn:Ho; [|done].
    simpl in Hord'. injection Hord' as <-.
    destruct (Hord ord eq_refl) as (Hr & Hnd & Hiff). split_and!; [done| |].
    + apply NoDup_app. split_and!; [done| |apply NoDup_singleton].
      intros x Hx ->%list_elem_of_singleton. by apply Hnrs, Hiff.
    + intros x. rewrite !elem_of_app, Hiff. done.
Qed.


(** A turn of the first loop for a plain bag whose identifier is
    registered: it is resolved to the record registered under it, the one
    an earlier bag with this identifier was resolved to. *)
Lemma batched_found o srt sa i M0 pre rs s w b (z : Z) X :
  batched (truthy (o_remove o)) M0 pre rs s w →
  plain b = true → num_id b = Some z →
  Coll._byId (coll w) !! pretty z = Some X →
  batched (truthy (o_remove o)) M0 (pre ++ [b]) (rs ++ [X])
          (classify_entry o srt sa i (EBag b) s w).1
          (classify_entry o srt sa i (EBag b) s w).2.
Proof.
  intros Hinv Hplain Hz Hk.
  pose proof (batched_lengths _ _ _ _ _ _ Hinv) as Hlen.
  pose proof (λ z, batched_bound _ _ _ _ _ _ z Hinv) as Hbound.
  destruct Hinv as (Hsl & Hreg & Hall & Hdist & Hrs & Hta & Hnum & Hcid & Hmark & Hord).
  pose proof Hreg as (Hix & Hlt & Hfresh).
  destruct (plain_inv b Hplain) as [Hc _].
  pose proof (num_id_inv _ _ Hz) as Hid.
  destruct (indexed_num_key w _ z X Hix Hk) as (HX & Hnn & Hkey).
  destruct (classify_entry_found o srt sa i b s w _ z X Hix Hid Hc Hk)
    as (oc & srt' & w1 & -> & Hcoll & Hnext & Hkeys & Hix1 & Hgm).
  cbn [fst snd].
  (* a record staged for a bag without identifier is not [X] *)
  assert (Hunsaved : ∀ k b' r, pre !! k = Some b' → num_id b' = None →
                               rs !! k = Some r → r ≠ X).
  { intros k b' r Hb' Hnone Hr ->.
    pose proof (Forall2_lookup_lr _ _ _ _ _ _ Hall Hr Hb') as HP.
    cbv beta in HP. rewrite Hnone in HP. destruct HP as (_ & Ha & Hnull).
    unfold id_of in Hnn. rewrite Ha in Hnn. congruence. }
  (* a record an earlier bag resolved to is [X] only for this identifier *)
  assert (Hin : X ∈ rs → z ∈ omap num_id pre).
  { intros [k Hr]%list_elem_of_lookup.
    destruct (Forall2_lookup_l _ _ _ _ _ Hall Hr) as (b' & Hb' & HP).
    cbv beta in HP. destruct (num_id b') as [z'|] eqn:Hz'.
    - apply (indexed_lookup w _ _ _ Hix) in HP as [_ HP]. unfold keys_of in HP.
      rewrite Hnn in HP. apply elem_of_cons in HP as [HP|HP];
        [by apply eq_sym, cid_key_not_num in HP|].
      apply list_elem_of_singleton in HP. rewrite Hkey in HP. apply (inj _) in HP.
      subst z'. apply list_elem_of_omap. exists b'. split; [|done].
      by eapply list_elem_of_lookup_2.
    - by destruct (Hunsaved k b' X Hb' Hz' Hr). }
  assert (Hout : z ∈ omap num_id pre → X ∈ rs).
  { intros Hzin. destruct (Hbound z Hzin) as (r & Hr & Hb). congruence. }
  unfold batched. cbn [st_models st_toAdd st_modelMap st_order]. split_and!.
  - by rewrite Hsl, fmap_app.
  - split_and!; [done|by rewrite Hnext|]. intros n Hn. rewrite Hcoll. apply Hfresh.
    by rewrite <-Hnext.
  - apply Forall2_app.
    + eapply Forall2_frame; [exact Hall|]. intros r b' Hr HP. cbv beta in *.
      destruct (num_id b') as [z'|] eqn:Hz'; [by rewrite Hcoll|].
      destruct HP as (Hrin & Ha & Hnull). split_and!; [done| |done].
      rewrite Hgm; [done|]. intros ->.
      unfold id_of in Hnn. rewrite Ha in Hnn. congruence.
    + constructor; [|constructor]. cbv beta. by rewrite Hz, Hcoll.
  - intros j k b' Hb' Hnone Hjk. rewrite !lookup_snoc.
    rewrite lookup_snoc in Hb'. rewrite <-Hlen in Hb'.
    destruct (decide (k < List.length rs)) as [Hkl|Hkl].
    + destruct (lookup_lt_is_Some_2 rs k Hkl) as [rk Hrk]. rewrite Hrk.
      case_decide as Hj; [rewrite <-Hrk; by eapply Hdist|].
      case_decide; [|done]. intros [= Heq].
      by apply (Hunsaved k b' rk Hb' Hnone Hrk).
    + case_decide as Hk2; [|done]. injection Hb' as <-. congruence.
  - intros r [Hr| ->%list_elem_of_singleton]%elem_of_app; [by apply Hrs|done].
  - intros r Hr. apply elem_of_app. left. by apply Hta.
  - intros z'. rewrite omap_app, elem_of_app. simpl. rewrite Hz.
    rewrite list_elem_of_singleton, elem_of_union, elem_of_singleton.
    assert (Hseen : pretty z' ∈ (if truthy (o_remove o)
                                 then {[cid_key X]} ∪ st_modelMap s
                                 else st_modelMap s)
                    ↔ pretty z' ∈ st_modelMap s).
    { destruct (truthy (o_remove o)); [|done].
      rewrite elem_of_union, elem_of_singleton. split; [|tauto].
      intros [H|H]; [|done]. by apply eq_sym, cid_key_not_num in H. }
    rewrite Hseen, Hnum. split.
    + intros [H|H]; [right; by apply (inj _) in H|by left].
    + intros [H| ->]; [by right|by left].
  - intros m [Hm%elem_of_singleton|Hm]%elem_of_union;
      [by apply cid_key_not_num in Hm|].
    apply elem_of_app. destruct (truthy (o_remove o)).
    + apply elem_of_union in Hm as [Hm%elem_of_singleton|Hm].
      * apply cid_key_inj in Hm as ->. right. by left.
      * left. by apply Hcid.
    + left. by apply Hcid.
  - intros Hrem m Hm [Hr| ->%list_elem_of_singleton]%elem_of_app.
    + apply elem_of_union. right. rewrite Hrem. apply elem_of_union. right.
      by apply Hmark.
    + apply elem_of_union. right. rewrite Hrem. apply elem_of_union. left.
      by apply elem_of_singleton.
  - intros ord' Hord'. destruct (st_order s) as [ord|] eqn:Ho; [|done].
    destruct (Hord ord eq_refl) as (Hr & Hnd & Hiff).
    assert (Hseen : bool_decide (pretty z ∈ (if truthy (o_remove o)
                                             then {[cid_key X]} ∪ st_modelMap s
                                             else st_modelMap s))
                    = bool_decide (z ∈ omap num_id pre)).
    { apply bool_decide_ext. rewrite <-Hnum. destruct (truthy (o_remove o)); [|done].
      rewrite elem_of_union, elem_of_singleton. split; [|tauto].
      intros [H|H]; [|done]. by apply eq_sym, cid_key_not_num in H. }
    rewrite Hseen in Hord'.
    destruct (decide (z ∈ omap num_id pre)) as [Hzin|Hzin];
      [rewrite bool_decide_eq_true_2 in Hord' by done
      |rewrite bool_decide_eq_false_2 in Hord' by done]; simpl in Hord'.
    + assert (ord' = ord) as -> by congruence. split_and!; [done|done|].
      intros x. rewrite elem_of_app, list_elem_of_singleton, Hiff.
      split; [tauto|]. intros [?| ->]; [done|by apply Hout].
    + assert (ord' = ord ++ [X]) as -> by congruence. split_and!; [done| |].
      * apply NoDup_app. split_and!; [done| |apply NoDup_singleton].
        intros x Hx ->%list_elem_of_singleton. by apply Hzin, Hin, Hiff.
      * intros x. by rewrite !elem_of_app, Hiff.
Qed.


(** The first loop of [set] over plain attribute bags keeps the
    invariant. *)
Lemma batched_loop o srt sa M0 bs : ∀ pre rs s w i,
  truthy (o_add o) = true →
  batched (truthy (o_remove o)) M0 pre rs s w →
  Forall (λ b, plain b = true ∧ validate b = None) bs →
  ∃ rs',
    batched (truthy (o_remove o)) M0 (pre ++ bs) (rs ++ rs')
            (classify o srt sa i (EBag <$> bs) s w).1
            (classify o srt sa i (EBag <$> bs) s w).2.
Proof.
  induction bs as [|b bs IH]; intros pre rs s w i Hadd Hinv Hall.
  { exists []. simpl. by rewrite !app_nil_r. }
  apply Forall_cons in Hall as [[Hplain Hvalid] Hall].
  assert (Hstep : ∃ r, batched (truthy (o_remove o)) M0 (pre ++ [b]) (rs ++ [r])
                         (classify_entry o srt sa i (EBag b) s w).1
                         (classify_entry o srt sa i (EBag b) s w).2).
  { destruct (plain_inv b Hplain) as [_ [Hn|(z & Hz & Hnum)]].
    - eexists. apply batched_new; try done.
      intros z Hz. by rewrite (num_id_nullish _ Hn) in Hz.
    - destruct (Coll._byId (coll w) !! pretty z) as [X|] eqn:Hk.
      + exists X. by apply (batched_found _ _ _ _ _ _ _ _ _ _ z).
      + eexists. apply batched_new; try done.
        intros z' Hz'. rewrite Hnum in Hz'. by injection Hz' as <-. }
  destruct Hstep as [r Hstep]. cbn [fmap list_fmap classify].
  destruct (classify_entry o srt sa i (EBag b) s w) as [s1 w1]. simpl in Hstep.
  destruct (IH (pre ++ [b]) (rs ++ [r]) s1 w1 (S i) Hadd Hstep Hall) as [rs' Hrs'].
  exists (r :: rs'). by rewrite !(cons_middle _ _ _), !(assoc_L (++)).
Qed.


(** The removal pass after the first loop over plain attribute bags: the
    members that no bag was resolved to are taken out, when removal is
    enabled, and the index then registers the members kept and the records
    staged. *)
Lemma batched_removal o M0 bs rs s w1 :
  batched (truthy (o_remove o)) M0 bs rs s w1 →
  Coll.models (coll w1) = M0 →
  Coll.length (coll w1) = Z.of_nat (List.length M0) →
  ∃ o1 w2 kept,
    remove_pass s o w1 = Some (o1, w2)
    ∧ Coll.models (coll w2) = kept
    ∧ same_attrs w1 w2
    ∧ registered w2 (kept ++ st_toAdd s)
    ∧ Coll.length (coll w2) = Z.of_nat (List.length kept)
    ∧ Coll.comparator (coll w2) = Coll.comparator (coll w1)
    ∧ next_cid w2 = next_cid w1
    ∧ (∀ c, c ∈ kept → c ∈ M0)
    ∧ (∀ r, r ∈ rs → r ∈ kept ++ st_toAdd s)
    ∧ (truthy (o_remove o) = true → ∀ c, c ∈ kept → c ∈ rs).
Proof.
  intros (Hsl & Hreg & Hall & Hdist & Hrs & Hta & Hnum & Hcid & Hmark & Hord) Hm Hl.
  pose proof Hreg as ((Hnd & _) & _).
  apply NoDup_app in Hnd as (HndM & Hdisj & HndT).
  destruct (truthy (o_remove o)) eqn:Hrem.
  - destruct (remove_pass_registered s o w1 (M0 ++ st_toAdd s) Hrem Hreg)
      as (o1 & w2 & Hpass & Ha & Hreg2 & Hms & Hlen2 & Hcmp & Hnext).
    { by rewrite Hm. }
    { rewrite Hm. intros c Hc. apply elem_of_app. by left. }
    { by rewrite Hm. }
    rewrite Hm in Hms, Hreg2.
    set (kept := filter (λ m, cid_key m ∈ st_modelMap s) M0) in *.
    assert (Hcs : filter (λ x, x ∉ filter (λ m, cid_key m ∉ st_modelMap s) M0)
                         (M0 ++ st_toAdd s) = kept ++ st_toAdd s).
    { rewrite filter_app. f_equal.
      - apply (filter_not_in_filter (λ m, cid_key m ∈ st_modelMap s)).
      - apply filter_id, Forall_forall. intros x Hx [_ Hx']%list_elem_of_filter.
        by apply (Hdisj x). }
    rewrite Hcs in Hreg2.
    exists o1, w2, kept. split_and!; try done.
    + by rewrite Hlen2, Hms.
    + intros c [_ Hc]%list_elem_of_filter. done.
    + intros r Hr. pose proof (Hrs r Hr) as [HM|HT]%elem_of_app; apply elem_of_app.
      * left. apply list_elem_of_filter. split; [|done]. by apply Hmark.
      * by right.
    + intros _ c [Hc _]%list_elem_of_filter. by apply Hcid.
  - exists o, w1, M0. rewrite remove_pass_off by done.
    split_and!; done.
Qed.


(** Records staged for attribute bags carry client identities issued
    during the call. *)
Lemma next_cid_classify_entry_bag o srt sa i b s w :
  next_cid w ≤ next_cid (classify_entry o srt sa i (EBag b) s w).2
  ∧ ∀ c, c ∈ st_toAdd (classify_entry o srt sa i (EBag b) s w).1 →
         c ∈ st_toAdd s ∨ next_cid w ≤ c.
Proof.
  unfold classify_entry. simpl probe_of. destruct (get (PBag b) w) as [ex|].
  - unfold merge_existing.
    destruct (truthy (o_merge o) && negb (same_object (EBag b) ex)); simpl;
      rewrite ?next_cid_model_set; auto.
  - destruct (truthy (o_add o)).
    + unfold _prepareModel, new_model. simpl. destruct (validate b); simpl.
      * split; [lia|auto].
      * split; [lia|]. intros c [Hc| ->%list_elem_of_singleton]%elem_of_app; auto.
    + destruct (st_model s); simpl; auto.
Qed.

Lemma next_cid_classify_bags o srt sa bs : ∀ i s w,
  next_cid w ≤ next_cid (classify o srt sa i (EBag <$> bs) s w).2
  ∧ ∀ c, c ∈ st_toAdd (classify o srt sa i (EBag <$> bs) s w).1 →
         c ∈ st_toAdd s ∨ next_cid w ≤ c.
Proof.
  induction bs as [|b bs IH]; intros i s w; [by auto|]. cbn [fmap list_fmap classify].
  pose proof (next_cid_classify_entry_bag o srt sa i b s w) as [H1 H2].
  destruct (classify_entry o srt sa i (EBag b) s w) as [s1 w1]. simpl in H1, H2.
  destruct (IH (S i) s1 w1) as [H3 H4]. split; [lia|].
  intros c Hc. destruct (H4 c Hc) as [Hc1|Hc1]; [|right; lia].
  destruct (H2 c Hc1); [by left|by right].
Qed.

(** [set] of a batch of valid plain attribute bags, with [add] enabled, on
    a well-formed collection.  [rs] lists the records the bags resolve to.
    The call returns them, unless it has to sort through [this.sortBy];
    either way the collection is well-formed afterwards, every record
    resolved to is a member, registered under its client identity and
    under the identifier of its bag, and a bag without identifier has a
    new record of its own. *)
Lemma set_plain bs o w :
  wf w → o_add o ≠ Some false →
  Forall (λ b, plain b = true ∧ validate b = None) bs →
  let r := set (Many (EBag <$> bs)) o w in
  let w' := out_world r in
  ∃ rs,
    wf w'
    ∧ (r = Ok (Many (SModel <$> rs)) w'
       ∨ (r = Throw (TypeError "this.sortBy is not a function") w'
          ∧ needs_sortBy w = true ∧ sortable (set_defaults o) w = true))
    ∧ ((sortable (set_defaults o) w = true → needs_sortBy w = false) →
       r = Ok (Many (SModel <$> rs)) w')
    ∧ Forall2 (λ c b,
         c ∈ Coll.models (coll w')
         ∧ Coll._byId (coll w') !! cid_key c = Some c
         ∧ match num_id b with
           | Some z => Coll._byId (coll w') !! pretty z = Some c
           | None => (c ∉ Coll.models (coll w)) ∧ next_cid w ≤ c
                     ∧ attributes (get_model w' c) = b
           end) rs bs
    ∧ (∀ j k b, bs !! k = Some b → num_id b = None → j ≠ k → rs !! j ≠ rs !! k)
    ∧ Coll.comparator (coll w') = Coll.comparator (coll w)
    ∧ next_cid w ≤ next_cid w'
    ∧ (o_remove o ≠ Some false → ∀ c, c ∈ Coll.models (coll w') → c ∈ rs).
Proof.
  intros Hwf Hadd Hall r w'. set (o' := set_defaults o).
  set (M0 := Coll.models (coll w)).
  assert (Hadd' : truthy (o_add o') = true) by (by apply or_true_truthy).
  destruct (batched_loop o' (sortable o' w) (sortAttr w) M0 bs [] []
              (staging_init o' w) w 0 Hadd' (batched_init o' w Hwf) Hall)
    as [rs Hinv].
  cbn [app] in Hinv.
  destruct (first_pass (Many (EBag <$> bs)) o' w) as [s w1] eqn:Hfirst.
  pose proof (seq_classify o' (sortable o' w) (sortAttr w) (EBag <$> bs) 0
                (staging_init o' w) w) as [Hm Hl].
  pose proof (comparator_first_pass _ _ _ _ _ Hfirst) as Hcmp1.
  pose proof (sorts_sortable _ _ _ _ _ Hfirst) as Hsorts.
  assert (Hn1 : next_cid w ≤ next_cid w1 ∧ ∀ c, c ∈ st_toAdd s → next_cid w ≤ c).
  { pose proof (next_cid_classify_bags o' (sortable o' w) (sortAttr w) bs 0
                  (staging_init o' w) w) as [H1 H2].
    unfold first_pass in Hfirst. cbn [entries] in Hfirst.
    rewrite Hfirst in H1, H2. split; [done|].
    intros c Hc. destruct (H2 c Hc) as [Hc'|]; [|done]. by apply elem_of_nil in Hc'. }
  destruct Hn1 as [Hn1 Hnew].
  unfold first_pass in Hfirst. cbn [entries] in Hfirst.
  rewrite Hfirst in Hm, Hl, Hinv. cbn [fst snd] in Hm, Hl, Hinv.
  fold M0 in Hm.
  assert (Hl1 : Coll.length (coll w1) = Z.of_nat (List.length M0)).
  { rewrite Hl. by destruct Hwf as (-> & _). }
  destruct (batched_removal o' M0 bs rs s w1 Hinv Hm Hl1)
    as (o1 & w2 & kept & Hpass & Hms2 & Ha2 & Hreg2 & Hlen2 & Hcmp2 & Hn2
        & Hkept & Hrs2 & Hkeptrs).
  pose proof (batched_lengths _ _ _ _ _ _ Hinv) as Hlen.
  destruct Hinv as (Hsl & Hreg & Hall2 & Hdist & Hrs & Hta & Hnum & Hcid & Hmark & Hord).
  assert (Hfirst' : first_pass (Many (EBag <$> bs)) o' w = (s, w1)) by exact Hfirst.
  destruct (set_finish_world (Many (EBag <$> bs)) o w s w1 o1 w2 Hfirst' Hpass)
    as (Hms & _ & Hlen' & Hix' & Hcmp' & Hheap' & Hn' & _).
  fold o' r w' in Hms, Hlen', Hix', Hcmp', Hheap', Hn'. rewrite Hms2 in Hms.
  pose proof Hreg2 as ((Hnd2 & _) & _).
  assert (Hstaged : staged s = false → st_toAdd s = []).
  { unfold staged. intros [H _]%orb_false_elim.
    by apply negb_false_iff, bool_decide_eq_true in H. }
  (* the sequence holds the members kept and the records staged *)
  assert (Hperm : Coll.models (coll w') ≡ₚ kept ++ st_toAdd s).
  { rewrite Hms. destruct (staged s) eqn:Hst;
      [|by rewrite (Hstaged eq_refl), app_nil_r].
    unfold spliced. destruct (position o' w) as [a|].
    { by rewrite splice_all_perm, Permutation_app_comm. }
    destruct (st_order s) as [ord|] eqn:Ho; [|done].
    destruct (Hord ord eq_refl) as (Hrem & Hndo & Hiff).
    apply list.NoDup_Permutation; [done|done|].
    intros x. rewrite Hiff. split; [by apply Hrs2|].
    intros [Hx|Hx]%elem_of_app; [by apply Hkeptrs|by apply Hta]. }
  assert (Hreg' : registered w' (Coll.models (coll w'))).
  { apply (registered_perm w' (kept ++ st_toAdd s)); [done|].
    by apply (registered_frame w2). }
  assert (Hwf' : wf w').
  { apply wf_registered. split; [|done].
    rewrite Hlen', Hlen2, Hperm, length_app.
    destruct (staged s) eqn:Hst; [lia|]. rewrite (Hstaged eq_refl). simpl. lia. }
  assert (Hres : result (Many (EBag <$> bs)) (st_models s) = Many (SModel <$> rs))
    by (by rewrite Hsl).
  assert (Hok : (st_sort s || staged s && sortable o' w = true → needs_sortBy w = false) →
                r = Ok (Many (SModel <$> rs)) w').
  { intros Hnative.
    destruct (set_finish (Many (EBag <$> bs)) o w s w1 o1 w2 Hfirst' Hpass Hnative)
      as (w4 & Hset & _).
    unfold w', r. rewrite Hset, Hres. done. }
  exists rs. split_and!.
  - done.
  - destruct (decide (st_sort s || staged s && sortable o' w = true
                      ∧ needs_sortBy w = true)) as [[Hsrt Hsb]|Hno].
    + right. split_and!; [|done|by apply Hsorts].
      unfold w', r.
      by rewrite (set_finish_throw _ _ _ _ _ _ _ Hfirst' Hpass Hsrt Hsb).
    + left. apply Hok. intros Hsrt. destruct (needs_sortBy w); [|done].
      by destruct Hno.
  - intros Hnative. apply Hok. intros Hsrt. by apply Hnative, Hsorts.
  - pose proof Hreg as (Hix1 & _). pose proof Hreg' as (Hixf & _).
    pose proof Hreg2 as (Hix2 & _).
    eapply Forall2_frame; [exact Hall2|]. intros c b Hc HP. cbv beta in *.
    assert (Hc2 : c ∈ kept ++ st_toAdd s) by (by apply Hrs2).
    assert (Hcf : c ∈ Coll.models (coll w')) by (by rewrite Hperm).
    split_and!; [done|by apply (indexed_cid w' _ c Hixf)|].
    destruct (num_id b) as [z|] eqn:Hz.
    + rewrite Hix'. apply Hix2. split; [done|].
      rewrite (keys_of_same w1 w2) by done.
      by apply (indexed_lookup w1 _ _ _ Hix1).
    + destruct HP as (Hin & Hattr & _). split_and!.
      * destruct Hix1 as (Hnd1 & _). apply NoDup_app in Hnd1 as (_ & Hdisj & _).
        intros HM. by apply (Hdisj c).
      * by apply Hnew.
      * unfold get_model. rewrite Hheap'. fold (get_model w2 c). by rewrite Ha2.
  - done.
  - by rewrite Hcmp', Hcmp2, Hcmp1.
  - rewrite Hn', Hn2. done.
  - intros Hrem%or_true_truthy c Hc. rewrite Hperm in Hc.
    apply elem_of_app in Hc as [Hc|Hc]; [by apply Hkeptrs|by apply Hta].
Qed.

(** A single entry goes through [set] as the batch of that entry, and the
    result is the slot of the entry instead of the list of slots. *)
Lemma set_singular e o w :
  out_world (set (One e) o w) = out_world (set (Many [e]) o w)
  ∧ (∀ cs w', set (Many [e]) o w = Ok (Many cs) w' →
       set (One e) o w = Ok (One (default (SEntry e) (head cs))) w')
  ∧ (∀ err w', set (Many [e]) o w = Throw err w' → set (One e) o w = Throw err w').
Proof.
  unfold set, parse, first_pass.
  destruct (truthy (o_parse (set_defaults o))); cbn [entries];
    destruct (classify _ _ _ _ _ _ _) as [s w1];
    destruct (remove_pass _ _ _) as [[o1 w2]|]; try (split_and!; [done|done|congruence]);
    destruct (splice_in _ _ _ _) as [srt w3]; destruct srt;
    try destruct (sort silent_sort w3); simpl;
    (split_and!; [done|by intros cs w' [= <- <-]|congruence]).
Qed.

(** C1: entries of one batch that carry the same domain identifier resolve
    to one record.  For every list of valid plain attribute bags handed to
    [set] in one call, on every well-formed collection and under every
    options object that leaves [add] enabled: there is one record per
    entry, and for an entry with the numeric identifier [z] that record
    is the only member of the sequence that answers to [z] afterwards and
    is the record of every other entry of the batch with the identifier
    [z].  With [remove] left enabled, as in [set([{id: 1}, {id: 1}])], the
    sequence holds no other record than those of the batch.  The call
    returns the records, one per entry, unless the sequence has to be
    sorted by a string or one-argument comparator: then [sort] raises the
    TypeError of the missing [sortBy], after the sequence was updated. *)
Theorem duplicate_identifier_in_batch_is_one_record
    (bs : list bag) (o : options) (w : world) :
  wf w → o_add o ≠ Some false →
  Forall (λ b, plain b = true ∧ validate b = None) bs →
  let r := set (Many (EBag <$> bs)) o w in
  let w' := out_world r in
  ∃ rs,
    List.length rs = List.length bs
    ∧ (r = Ok (Many (SModel <$> rs)) w'
       ∨ (r = Throw (TypeError "this.sortBy is not a function") w'
          ∧ needs_sortBy w = true ∧ sortable (set_defaults o) w = true))
    ∧ ((sortable (set_defaults o) w = true → needs_sortBy w = false) →
       r = Ok (Many (SModel <$> rs)) w')
    ∧ (∀ k b z, bs !! k = Some b → num_id b = Some z →
         ∃ c, rs !! k = Some c
              ∧ filter (λ m, to_key (id_of w' m) = pretty z) (Coll.models (coll w'))
                = [c]
              ∧ (∀ j b', bs !! j = Some b' → num_id b' = Some z → rs !! j = Some c))
    ∧ (o_remove o ≠ Some false → ∀ c, c ∈ Coll.models (coll w') → c ∈ rs).
Proof.
  intros Hwf Hadd Hall r w'.
  destruct (set_plain bs o w Hwf Hadd Hall)
    as (rs & Hwf' & Hcases & Hok & Hrs & _ & _ & _ & Hrem).
  fold r w' in Hwf', Hcases, Hok, Hrs, Hrem.
  pose proof (Forall2_length _ _ _ Hrs) as Hlen.
  pose proof Hwf' as (_ & Hix & _).
  assert (Hkey : ∀ k b z, bs !! k = Some b → num_id b = Some z →
            ∃ c, rs !! k = Some c ∧ Coll._byId (coll w') !! pretty z = Some c).
  { intros k b z Hb Hz.
    destruct (Forall2_lookup_r _ _ _ _ _ Hrs Hb) as (c & Hc & _ & _ & HP).
    rewrite Hz in HP. by exists c. }
  exists rs. split_and!; [done..| |done].
  intros k b z Hb Hz. destruct (Hkey k b z Hb Hz) as (c & Hc & Hreg).
  exists c. split_and!; [done| |].
  - destruct (indexed_num_key w' _ z c Hix Hreg) as (Hin & Hn & Hk).
    apply filter_unique; [by destruct Hix|done|done|].
    intros m Hm Hmk.
    assert (Hnm : nullish (id_of w' m) = false).
    { destruct (nullish (id_of w' m)) eqn:E; [|done].
      destruct (num_key_not_reserved z). rewrite <-Hmk.
      by apply nullish_key_reserved. }
    pose proof (indexed_id w' _ m Hix Hm Hnm) as Hregm.
    rewrite Hmk in Hregm. congruence.
  - intros j b' Hb' Hz'. destruct (Hkey j b' z Hb' Hz') as (c' & Hc' & Hreg').
    congruence.
Qed.

(** C3: a record that carries no domain identifier is never taken for the
    duplicate of another entry that carries none.  In one batch handed to
    [set], on every well-formed collection and under every options object
    that leaves [add] enabled (so also where the first loop keeps the
    order of the batch and guards it with [isNew() || !modelMap[id]]), an
    entry without identifier has a record of its own: one that was not a
    member and did not exist before the call, that is a member and is
    registered under its client identity afterwards, that holds the
    attributes of the entry, and that is the record of no other entry.
    Two calls of [add] with attribute bags without identifier make two
    distinct records, both members of the sequence and registered
    afterwards, each with the attributes it was made from.  The calls
    return the records unless the sequence has to be sorted by a string
    or one-argument comparator, where [sort] raises the TypeError of the
    missing [sortBy] after the sequence was updated. *)
Theorem unsaved_records_are_never_collapsed
    (bs : list bag) (b1 b2 : bag) (o o1 o2 : options) (w : world) :
  wf w → o_add o ≠ Some false →
  Forall (λ b, plain b = true ∧ validate b = None) bs →
  plain b1 = true → nullish (modelId b1) = true → validate b1 = None →
  plain b2 = true → nullish (modelId b2) = true → validate b2 = None →
  (let r := set (Many (EBag <$> bs)) o w in
   let w' := out_world r in
   ∃ rs,
     List.length rs = List.length bs
     ∧ (r = Ok (Many (SModel <$> rs)) w'
        ∨ (r = Throw (TypeError "this.sortBy is not a function") w'
           ∧ needs_sortBy w = true ∧ sortable (set_defaults o) w = true))
     ∧ ((sortable (set_defaults o) w = true → needs_sortBy w = false) →
        r = Ok (Many (SModel <$> rs)) w')
     ∧ (∀ k b, bs !! k = Some b → nullish (modelId b) = true →
          ∃ c, rs !! k = Some c
               ∧ (c ∉ Coll.models (coll w))
               ∧ next_cid w ≤ c
               ∧ c ∈ Coll.models (coll w')
               ∧ Coll._byId (coll w') !! cid_key c = Some c
               ∧ attributes (get_model w' c) = b
               ∧ (∀ j, j ≠ k → rs !! j ≠ Some c)))
  ∧ (let r1 := add (One (EBag b1)) o1 w in
     let w1 := out_world r1 in
     let r2 := add (One (EBag b2)) o2 w1 in
     let w2 := out_world r2 in
     ∃ c1 c2,
       c1 ≠ c2
       ∧ (c1 ∉ Coll.models (coll w)) ∧ (c2 ∉ Coll.models (coll w1))
       ∧ c1 ∈ Coll.models (coll w1)
       ∧ Coll.models (coll w2) ≡ₚ c2 :: c1 :: Coll.models (coll w)
       ∧ Coll.length (coll w2) = (Coll.length (coll w) + 2)%Z
       ∧ Coll._byId (coll w2) !! cid_key c1 = Some c1
       ∧ Coll._byId (coll w2) !! cid_key c2 = Some c2
       ∧ attributes (get_model w2 c1) = b1
       ∧ attributes (get_model w2 c2) = b2
       ∧ ((sortable (set_defaults (add_options o1)) w = true → needs_sortBy w = false) →
          r1 = Ok (One (SModel c1)) w1)
       ∧ ((sortable (set_defaults (add_options o2)) w1 = true →
           needs_sortBy w1 = false) →
          r2 = Ok (One (SModel c2)) w2)).
Proof.
  intros Hwf Hadd Hall Hp1 Hn1 Hv1 Hp2 Hn2 Hv2. split.
  - intros r w'.
    destruct (set_plain bs o w Hwf Hadd Hall)
      as (rs & Hwf' & Hcases & Hok & Hrs & Hdist & _).
    fold r w' in Hwf', Hcases, Hok, Hrs.
    exists rs. split_and!; [by eapply Forall2_length|done|done|].
    intros k b Hb Hn. apply num_id_nullish in Hn.
    destruct (Forall2_lookup_r _ _ _ _ _ Hrs Hb) as (c & Hc & Hin & Hreg & HP).
    rewrite Hn in HP. destruct HP as (Hnew & Hfresh & Hattr).
    exists c. split_and!; try done.
    intros j Hj Hcj. apply (Hdist j k b Hb Hn Hj). congruence.
  - intros r1 w1 r2 w2.
    assert (Hone : ∀ b, plain b = true → nullish (modelId b) = true →
              validate b = None →
              Forall (λ b, plain b = true ∧ validate b = None) [b]
              ∧ NoDup (omap num_id [b])
              ∧ ∀ v (z : Z), z ∈ omap num_id [b] →
                  Coll._byId (coll v) !! pretty z = None).
    { intros b Hp Hn Hv. apply num_id_nullish in Hn. simpl. rewrite Hn.
      split_and!; [by repeat constructor|constructor|].
      by intros v z ?%elem_of_nil. }
    destruct (Hone b1 Hp1 Hn1 Hv1) as (Ha1 & Hd1 & Hf1).
    destruct (Hone b2 Hp2 Hn2 Hv2) as (Ha2 & Hd2 & Hf2).
    pose proof (proj2 (wf_registered w) Hwf) as [_ Hreg].
    destruct (set_singular (EBag b1) (add_options o1) w) as (Hw1 & Hr1 & _).
    destruct (add_plain_world [b1] o1 w _ Hreg Ha1 Hd1 (Hf1 w))
      as (Hok1 & Hreg1 & Hms1 & Hlen1 & Hcmp1 & Hnext1 & Hattr1 & Hold1).
    change (out_world (add (Many (EBag <$> [b1])) o1 w)) with
      (out_world (set (Many [EBag b1]) (add_options o1) w))
      in Hok1, Hreg1, Hms1, Hlen1, Hcmp1, Hnext1, Hattr1, Hold1.
    rewrite <-Hw1 in Hok1, Hreg1, Hms1, Hlen1, Hcmp1, Hnext1, Hattr1, Hold1.
    fold (add (One (EBag b1)) o1 w) in Hok1, Hreg1, Hms1, Hlen1, Hcmp1, Hnext1,
      Hattr1, Hold1.
    fold r1 w1 in Hok1, Hreg1, Hms1, Hlen1, Hcmp1, Hnext1, Hattr1, Hold1.
    cbn [List.length seq] in *.
    assert (Hreg1' : registered w1 (Coll.models (coll w1))).
    { by apply (registered_perm w1 (Coll.models (coll w) ++ [next_cid w])). }
    destruct (set_singular (EBag b2) (add_options o2) w1) as (Hw2 & Hr2 & _).
    destruct (add_plain_world [b2] o2 w1 _ Hreg1' Ha2 Hd2 (Hf2 w1))
      as (Hok2 & Hreg2 & Hms2 & Hlen2 & Hcmp2 & Hnext2 & Hattr2 & Hold2).
    change (out_world (add (Many (EBag <$> [b2])) o2 w1)) with
      (out_world (set (Many [EBag b2]) (add_options o2) w1))
      in Hok2, Hreg2, Hms2, Hlen2, Hcmp2, Hnext2, Hattr2, Hold2.
    rewrite <-Hw2 in Hok2, Hreg2, Hms2, Hlen2, Hcmp2, Hnext2, Hattr2, Hold2.
    fold (add (One (EBag b2)) o2 w1) in Hok2, Hreg2, Hms2, Hlen2, Hcmp2, Hnext2,
      Hattr2, Hold2.
    fold r2 w2 in Hok2, Hreg2, Hms2, Hlen2, Hcmp2, Hnext2, Hattr2, Hold2.
    cbn [List.length seq] in *.
    pose proof Hreg as (_ & Hlt & _). pose proof Hreg1' as (_ & Hlt1 & _).
    pose proof Hreg2 as (Hix2 & _).
    assert (Hfresh : ∀ v, Forall (λ c, c < next_cid v) (Coll.models (coll v)) →
              next_cid v ∉ Coll.models (coll v)).
    { intros v Hv Hin. apply (proj1 (Forall_forall _ _) Hv) in Hin. lia. }
    exists (next_cid w), (next_cid w1). split_and!.
    + lia.
    + by apply Hfresh.
    + by apply Hfresh.
    + rewrite Hms1. apply elem_of_app. right. by left.
    + rewrite Hms2, Hms1.
      rewrite <-(Permutation_cons_append _ (next_cid w1)).
      by rewrite <-(Permutation_cons_append _ (next_cid w)).
    + lia.
    + apply (indexed_cid w2 _ _ Hix2). apply elem_of_app. left.
      rewrite Hms1. apply elem_of_app. right. by left.
    + apply (indexed_cid w2 _ _ Hix2). apply elem_of_app. right. by left.
    + rewrite Hold2 by lia. rewrite <-(Hattr1 0 b1 eq_refl). by rewrite Nat.add_0_r.
    + rewrite <-(Hattr2 0 b2 eq_refl). by rewrite Nat.add_0_r.
    + intros Hnat. unfold r1, add. by rewrite (Hr1 _ _ (Hok1 Hnat)).
    + intros Hnat. unfold r2, add. by rewrite (Hr2 _ _ (Hok2 Hnat)).
Qed.

End Collection.

(** * The transport: [sync] and the operation map *)

Lemma lookup_setOperation op meth (m : gmap string string) op' :
  Sync.setOperation op meth m !! op' =
    if decide (op' = op) then (λ _, meth) <$> m !! op' else m !! op'.
Proof.
  unfold Sync.setOperation. destruct (decide (op' = op)) as [->|Hne].
  - destruct (decide (is_Some (m !! op))) as [[x Hx]|Hno].
    + by rewrite lookup_insert_eq, Hx.
    + destruct (m !! op); [destruct Hno; by eexists|done].
  - destruct (decide (is_Some (m !! op))); [|done]. by rewrite lookup_insert_ne.
Qed.

(** X19: [setOperation] remaps an operation the map knows and ignores any
    other, so whatever calls are made the operations stay the five of
    [CRUD_MAP]: create, update, patch, delete and read. *)
Theorem setOperation_keeps_operations (calls : list (string * string)) (op : string) :
  let m := foldr (λ c, Sync.setOperation c.1 c.2) Sync.CRUD_MAP calls in
  (is_Some (m !! op) ↔ op ∈ ["create"; "update"; "patch"; "delete"; "read"])
  ∧ (∀ meth, Sync.setOperation op meth m !! op = (λ _, meth) <$> m !! op)
  ∧ (∀ meth op', op' ≠ op → Sync.setOperation op meth m !! op' = m !! op').
Proof.
  intros m. split_and!.
  - unfold m. induction calls as [|[op1 meth1] calls IH]; simpl.
    + destruct (decide (op ∈ ["create"; "update"; "patch"; "delete"; "read"]))
        as [Hin|Hnot].
      * split; [done|]. intros _.
        repeat (apply elem_of_cons in Hin as [->|Hin]; [by eexists|]).
        by apply elem_of_nil in Hin.
      * split; [|done]. intros [x Hx]. exfalso. unfold Sync.CRUD_MAP in Hx.
        rewrite !elem_of_cons, elem_of_nil in Hnot.
        rewrite !lookup_insert_ne, lookup_singleton_ne in Hx by (intros <-; tauto). done.
    + rewrite <-IH, lookup_setOperation. destruct (decide (op = op1)) as [->|]; [|done].
      by rewrite fmap_is_Some.
  - intros meth. by rewrite lookup_setOperation, decide_True.
  - intros meth op' Hne. by rewrite lookup_setOperation, decide_False.
Qed.

Lemma js_or_falsy a b : a = None ∨ a = Some EmptyString → Sync.js_or a b = b.
Proof. by intros [-> | ->]. Qed.

Lemma js_or_truthy s b : s ≠ EmptyString → Sync.js_or (Some s) b = Some s.
Proof. intros H. unfold Sync.js_or. by rewrite decide_False. Qed.

(** X20: [sync] needs a url.  A non-empty [options.url] is the url of the
    request, whatever the model says; otherwise the url of the model is
    used; and when neither gives a non-empty url (or there is no model)
    [sync] throws its Error instead of making a request. *)
Theorem sync_needs_a_url
    (crud : gmap string string) (op : string) (model : option Sync.target)
    (o : Sync.options) :
  (∀ s, Sync.url o = Some s → s ≠ EmptyString →
        ∃ r o', Sync.sync crud op model o = Sync.Sent r o' ∧ Sync.r_url r = s)
  ∧ (Sync.url o = None ∨ Sync.url o = Some EmptyString →
     ∀ t s, model = Some t → Sync.t_url t = Some s → s ≠ EmptyString →
            ∃ r o', Sync.sync crud op model o = Sync.Sent r o' ∧ Sync.r_url r = s)
  ∧ (Sync.url o = None ∨ Sync.url o = Some EmptyString →
     model ≫= Sync.t_url = None ∨ model ≫= Sync.t_url = Some EmptyString →
     ∃ o', Sync.sync crud op model o = Sync.Thrown Sync.MissingUrl o').
Proof.
  split_and!.
  - intros s Hs Hne. unfold Sync.sync. cbn [Sync.url]. rewrite Hs.
    rewrite js_or_truthy, decide_False by done. by eexists _, _.
  - intros Hu t s -> Ht Hne. unfold Sync.sync. cbn [Sync.url].
    rewrite (js_or_falsy _ _ Hu). simpl. rewrite Ht, decide_False by done.
    by eexists _, _.
  - intros Hu Hm. unfold Sync.sync. cbn [Sync.url].
    rewrite (js_or_falsy _ _ Hu). destruct Hm as [-> | ->]; by eexists.
Qed.

Lemma sync_Sent_inv crud op model o r o' :
  Sync.sync crud op model o = Sync.Sent r o' →
  o' = Sync.Options (Sync.js_or (Sync.method o) (crud !! op)) (Sync.url o)
         (Sync.cache o) (Sync.timeout o) (Sync.params o) (Sync.data o)
         (Sync.attrs o)
  ∧ Sync.r_method r = Sync.js_or (Sync.method o) (crud !! op)
  ∧ Sync.r_data r =
      match model with
      | Some t =>
          if Sync.no_data o && Sync.writes (crud !! op)
          then Some (match Sync.attrs o with
                     | Some a => Sync.PObject a
                     | None => Sync.t_json t
                     end)
          else None
      | None => None
      end
  ∧ Sync.r_headers r =
      match Sync.r_data r with
      | Some _ => <["content-type" := "application/json"]>
                    {[ "accept" := "application/json, text/plain, */*" ]}
      | None => {[ "accept" := "application/json, text/plain, */*" ]}
      end.
Proof.
  unfold Sync.sync. cbn [Sync.url Sync.method Sync.attrs Sync.params
                         Sync.cache Sync.timeout].
  destruct (Sync.js_or (Sync.url o) (model ≫= Sync.t_url)) as [u|]; [|done].
  destruct (decide (u = EmptyString)); [done|]. intros [= <- <-]. done.
Qed.

(** X21: the body of the request.  [sync] attaches a body exactly when
    there is a model, the caller gave no [options.data], and the method the
    operation maps to is POST, PUT or PATCH; the body is then
    [options.attrs] if given and the model's [toJSON] otherwise, and the
    content-type header is set exactly when there is a body, next to the
    accept header that is always set.  A method override in
    [options.method] plays no part, and data the caller passes in
    [options.data] is never put into the request. *)
Theorem sync_body
    (crud : gmap string string) (op : string) (model : option Sync.target)
    (o : Sync.options) (r : Sync.request) (o' : Sync.options) :
  Sync.sync crud op model o = Sync.Sent r o' →
  (is_Some (Sync.r_data r) ↔
     is_Some model ∧ Sync.no_data o = true
     ∧ ∃ m, crud !! op = Some m ∧ m ∈ ["POST"; "PUT"; "PATCH"])
  ∧ (∀ t p, model = Some t → Sync.r_data r = Some p →
            p = match Sync.attrs o with
                | Some a => Sync.PObject a
                | None => Sync.t_json t
                end)
  ∧ (Sync.r_headers r !! "content-type"
     = match Sync.r_data r with Some _ => Some "application/json" | None => None end)
  ∧ Sync.r_headers r !! "accept" = Some "application/json, text/plain, */*"
  ∧ (∀ v, Sync.data o = Some v → nullish v = false → Sync.r_data r = None).
Proof.
  intros (_ & _ & Hdata & Hhead)%sync_Sent_inv. split_and!.
  - rewrite Hdata. destruct model as [t|].
    + destruct (Sync.no_data o) eqn:Hn; simpl.
      * unfold Sync.writes. destruct (crud !! op) as [m|]; simpl.
        -- case_bool_decide as Hm.
           ++ split; [|by eexists]. intros _. split_and!; [by eexists|done|by eexists].
           ++ split; [by intros [? ?]|]. intros (_ & _ & m' & [= <-] & ?). done.
        -- split; [by intros [? ?]|]. intros (_ & _ & m' & ? & _). done.
      * split; [by intros [? ?]|]. by intros (_ & ? & _).
    + split; [by intros [? ?]|]. by intros ([? ?] & _).
  - intros t p -> Hp. rewrite Hdata in Hp.
    destruct (Sync.no_data o && Sync.writes (crud !! op)); [|done].
    by injection Hp as <-.
  - rewrite Hhead. by destruct (Sync.r_data r).
  - rewrite Hhead. by destruct (Sync.r_data r).
  - intros v Hv Hn. rewrite Hdata. unfold Sync.no_data. rewrite Hv, Hn.
    by destruct model.
Qed.

(** X22: the method of the request is [options.method] when that is a
    non-empty string and the method the operation maps to otherwise; [sync]
    writes it back into the options object, so a later [sync] with the same
    object sends that method again, whatever operation is asked for and
    however the map was changed in between. *)
Theorem sync_method_sticks
    (crud : gmap string string) (op : string) (model : option Sync.target)
    (o : Sync.options) (r : Sync.request) (o' : Sync.options) :
  Sync.sync crud op model o = Sync.Sent r o' →
  Sync.r_method r = Sync.js_or (Sync.method o) (crud !! op)
  ∧ Sync.method o' = Sync.r_method r
  ∧ (∀ s crud2 op2 model2 r2 o2,
       Sync.r_method r = Some s → s ≠ EmptyString →
       Sync.sync crud2 op2 model2 o' = Sync.Sent r2 o2 →
       Sync.r_method r2 = Some s).
Proof.
  intros (-> & Hm & _)%sync_Sent_inv. split_and!; [done|by rewrite Hm|].
  intros s crud2 op2 model2 r2 o2 Hs Hne (_ & Hm2 & _)%sync_Sent_inv.
  rewrite Hm2. cbn [Sync.method]. rewrite <-Hm, Hs. by apply js_or_truthy.
Qed.

(** X23: [setOperation] and [sync] together.  Once a known operation is
    remapped to a non-empty method, a [sync] for that operation without
    method override sends the new method, and whether it carries a body
    follows the new method; remapping an operation the map does not know
    changes no request. *)
Theorem remapped_operation_is_used
    (crud : gmap string string) (op meth : string) (model : option Sync.target)
    (o : Sync.options) (r : Sync.request) (o' : Sync.options) :
  Sync.method o = None ∨ Sync.method o = Some EmptyString →
  meth ≠ EmptyString →
  Sync.sync (Sync.setOperation op meth crud) op model o = Sync.Sent r o' →
  match crud !! op with
  | Some _ =>
      Sync.r_method r = Some meth
      ∧ (is_Some (Sync.r_data r) ↔
           is_Some model ∧ Sync.no_data o = true ∧ meth ∈ ["POST"; "PUT"; "PATCH"])
  | None => Sync.sync crud op model o = Sync.Sent r o'
  end.
Proof.
  intros Hm Hne Hsync. destruct (crud !! op) as [old|] eqn:Hop.
  - pose proof Hsync as (_ & Hmeth & Hdata & _)%sync_Sent_inv.
    rewrite lookup_setOperation, decide_True, Hop in Hmeth, Hdata by done.
    simpl in Hmeth, Hdata. rewrite (js_or_falsy _ _ Hm) in Hmeth.
    split; [done|]. rewrite Hdata. destruct model as [t|].
    + destruct (Sync.no_data o); simpl.
      * case_bool_decide as Hw.
        -- split; [|by eexists]. intros _. split_and!; [by eexists|done|done].
        -- split; [by intros [? ?]|]. by intros (_ & _ & ?).
      * split; [by intros [? ?]|]. by intros (_ & ? & _).
    + split; [by intros [? ?]|]. by intros ([? ?] & _).
  - unfold Sync.setOperation in Hsync. rewrite Hop in Hsync.
    by rewrite decide_False in Hsync by (by intros [? ?]).
Qed.

(** * Scenarios *)

(** A model class with the default identifier attribute that accepts every
    attribute bag. *)
Definition accept_all (_ : bag) : option string := None.

(** A model class that rejects a negative rank. *)
Definition rank_not_negative (b : bag) : option string :=
  match b !! "rank" with
  | Some (VNum z) => if (z <? 0)%Z then Some "rank must not be negative" else None
  | _ => None
  end.

(** A collection without comparator that holds one unsaved record, made by
    [add({rank: 9})] on a new collection. *)
Definition unsaved_world : world :=
  out_world (add None accept_all (One (EBag {["rank" := VNum 9]}))
                 no_options (empty_world None)).

(** The comparison function
    [function (a, b) { var x = a.get('rank'), y = b.get('rank');
       return typeof x === 'number' && typeof y === 'number' ? x - y : 0; }]. *)
Definition by_rank (a b : model) : Z :=
  match prop (attributes a) "rank", prop (attributes b) "rank" with
  | VNum x, VNum y => x - y
  | _, _ => 0
  end.

(** A collection sorted by rank, through the comparison function
    [by_rank], that holds the records [{id: 1, rank: 3}] and
    [{id: 2, rank: 1}]. *)
Definition ranked_world : world :=
  out_world (add None accept_all
                 (Many [EBag {["id" := VNum 1; "rank" := VNum 3]};
                        EBag {["id" := VNum 2; "rank" := VNum 1]}])
                 no_options (empty_world (Some (ByCompare by_rank)))).

(** A collection whose comparator is the string ['rank'], holding the same
    two records, added with [{sort: false}]. *)
Definition field_world : world :=
  out_world (add None accept_all
                 (Many [EBag {["id" := VNum 1; "rank" := VNum 3]};
                        EBag {["id" := VNum 2; "rank" := VNum 1]}])
                 (Options None None None None (Some false) None None None false None)
                 (empty_world (Some (ByField "rank")))).

Example unsaved_world_wf : wf_check None unsaved_world = true.
Proof. by vm_compute. Qed.

Example ranked_world_wf : wf_check None ranked_world = true.
Proof. by vm_compute. Qed.

Example ranked_world_order : Coll.models (coll ranked_world) = [1; 0].
Proof. by vm_compute. Qed.

(** The scenario of the specification: [add({id: 3, rank: 2})] puts the
    new record between the two. *)
Example ranked_world_add :
  Coll.models (coll (out_world
    (add None accept_all (One (EBag {["id" := VNum 3; "rank" := VNum 2]}))
         no_options ranked_world))) = [1; 2; 0].
Proof. by vm_compute. Qed.

(** C7: [set([m, m])] with an unsaved member [m] given twice leaves the
    record twice in the sequence while [length] stays 1. *)
Theorem set_unsaved_member_twice_desynchronises_length :
  let w' := out_world (set None accept_all (Many [EModel 0; EModel 0])
                           no_options unsaved_world) in
  wf_check None unsaved_world = true
  ∧ Coll.models (coll unsaved_world) = [0]
  ∧ Coll.models (coll w') = [0; 0]
  ∧ Coll.length (coll w') = 1%Z.
Proof. by vm_compute. Qed.

(** C9: a collection whose comparator is a string, or a function of one
    argument, cannot be sorted.  [sort] hands such a comparator to
    [this.sortBy], which neither the collection nor a class it inherits
    from defines (the list of mixed-in Lodash functions leaves it out), so
    the call raises a TypeError instead of completing and emitting "sort";
    [add] with default options, which sorts after it put the new record
    in the sequence, raises it too. *)
Theorem sort_by_string_comparator_throws :
  let by_key := ByKey (λ m, prop (attributes m) "rank") in
  let b : bag := {["id" := VNum 3; "rank" := VNum 2]} in
  let r := add None accept_all (One (EBag b)) no_options field_world in
  Coll.comparator (coll field_world) = Some (ByField "rank")
  ∧ wf_check None field_world = true
  ∧ Coll.models (coll field_world) = [0; 1]
  ∧ sort no_options field_world
    = Throw (TypeError "this.sortBy is not a function") field_world
  ∧ sort no_options (empty_world (Some by_key))
    = Throw (TypeError "this.sortBy is not a function") (empty_world (Some by_key))
  ∧ r = Throw (TypeError "this.sortBy is not a function") (out_world r)
  ∧ Coll.models (coll (out_world r)) = [0; 1; 2]
  ∧ emitted field_world (out_world r) = [].
Proof. by vm_compute. Qed.

(** C6 (as stated, refuted): with [{merge: true}], [add] merges the
    attributes of an entry into the member it resolves to, which [set]
    with [merge] fixed false does not. *)
Lemma add_merges_on_request :
  let o := with_flags None None (Some true) no_options in
  let e := One (EBag {["id" := VNum 1; "rank" := VNum 5]}) in
  prop (attributes (get_model (out_world (add None accept_all e o ranked_world)) 0))
       "rank" = VNum 5
  ∧ prop (attributes (get_model (out_world (add_spec None accept_all e o ranked_world)) 0))
         "rank" = VNum 3.
Proof. by vm_compute. Qed.

(** C5 (as stated, refuted): [set({id: 1})] on an empty collection puts
    the new record at position 0, yet its "add" notifications carry no
    index. *)
Lemma add_notification_without_index :
  let w := empty_world None in
  let w' := out_world (set None accept_all (One (EBag {["id" := VNum 1]}))
                           no_options w) in
  Coll.models (coll w') !! 0 = Some 0
  ∧ (λ n, (n_event n, n_model n, o_index (n_options n))) <$> emitted w w'
    = [("add", Some 0, None); ("add", Some 0, None); ("sort", None, None)].
Proof. by vm_compute. Qed.

(** C2 (as stated, refuted): on a collection that holds an unsaved
    record, [set(collection.toArray())] evicts the record and adds a new
    one, with "remove" and "add" notifications. *)
Lemma set_toArray_replaces_unsaved_record :
  let w := unsaved_world in
  let w' := out_world (set None accept_all (Many (EBag <$> toArray w))
                           no_options w) in
  Coll.models (coll w) = [0]
  ∧ Coll.models (coll w') = [1]
  ∧ (λ n, n_event n) <$> emitted w w'
    = ["remove"; "remove"; "add"; "add"; "sort"].
Proof. by vm_compute. Qed.

(** ** The theorems at concrete inputs *)

Lemma set_add_and_sort_notifications_witness :
  let o := Options None None None (Some 0%Z) None None None None false None in
  let m := Many [EBag {["id" := VNum 3]}; EBag {["id" := VNum 4]}] in
  let w := ranked_world in
  let w' := out_world (set None accept_all m o w) in
  truthy (o_silent o) = false
  ∧ set None accept_all m o w = Ok (Many [SModel 2; SModel 3]) w'
  ∧ ∃ o1, reindexed (set_defaults o) o1
      ∧ filter (λ n, on_model n && is_event "add" n) (emitted w w')
        = expected_adds (position (set_defaults o) w) 0
            (st_toAdd (first_pass None accept_all m (set_defaults o) w).1) o1
      ∧ filter (λ n, is_event "sort" n) (emitted w w')
        = (if reordered (set_defaults o) w
                (first_pass None accept_all m (set_defaults o) w).1
           then [Notification OnCollection "sort" None None o1] else [])
      ∧ (∀ a : nat,
           position (set_defaults o) w = Some (Z.of_nat a) →
           a + List.length
                 (st_toAdd (first_pass None accept_all m (set_defaults o) w).1)
           ≤ List.length (Coll.models (coll w')) →
           ∀ i c, st_toAdd (first_pass None accept_all m (set_defaults o) w).1 !! i
                  = Some c →
                  Coll.models (coll w') !! (a + i) = Some c).
Proof.
  intros o m w w'.
  assert (H1 : truthy (o_silent o) = false) by reflexivity.
  assert (H2 : set None accept_all m o w = Ok (Many [SModel 2; SModel 3]) w')
    by (vm_compute; reflexivity).
  exact (conj H1 (conj H2
           (set_add_and_sort_notifications None accept_all m o w _ w' H1 H2))).
Defined.

Lemma invalid_entry_is_skipped_witness :
  let w := empty_world None in
  let b : bag := {["rank" := VNum (-1)]} in
  let rest := [EBag {["id" := VNum 1]}] in
  let err := "rank must not be negative" in
  let w' :=
    rejected rank_not_negative b err (set_defaults (add_options no_options)) w in
  get None (PBag b) w = None
  ∧ rank_not_negative b = Some err
  ∧ coll w' = coll w
  ∧ add None rank_not_negative (Many (EBag b :: rest)) no_options w
    = after_rejected (add None rank_not_negative (Many rest) no_options w').
Proof.
  intros w b rest err w'.
  assert (H1 : get None (PBag b) w = None) by (vm_compute; reflexivity).
  assert (H2 : rank_not_negative b = Some err) by (vm_compute; reflexivity).
  pose proof (invalid_entry_is_skipped None rank_not_negative b err rest w H1 H2)
    as (Hw & _ & _ & Hadd).
  exact (conj H1 (conj H2 (conj (proj1 (Hw _)) (Hadd no_options)))).
Defined.

Lemma remove_passes_over_unresolved_entries_witness :
  let ps := [PVal (VNum 7); PVal (VNum 1)] in
  let o := no_options in
  let w := ranked_world in
  wf None w
  ∧ Forall (own_keys None w) ps
  ∧ ∃ rs o1 w' l,
      remove None (Many ps) o w = (Many rs, o1, w')
      ∧ List.length rs = List.length ps
      ∧ wf None w'
      ∧ Coll.models (coll w') = filter (λ x, Some x ∉ rs) (Coll.models (coll w))
      ∧ (∀ i q, ps !! i = Some q → get None q w = None → rs !! i = Some None)
      ∧ (∀ q c, q ∈ ps → get None q w = Some c →
                Some c ∈ rs ∧ c ∉ Coll.models (coll w'))
      ∧ (∀ c, Some c ∈ rs → c ∈ Coll.models (coll w))
      ∧ log w' = log w ++ l
      ∧ Forall (named ["remove"]) l
      ∧ (λ n, n_model n) <$> filter (λ n, on_model n) l =
          (if truthy (o_silent o) then [] else Some <$> omap id rs)
      ∧ (∀ ps1 q ps2, ps = ps1 ++ q :: ps2 → get None q w = None →
           ∃ rs1 rs2,
             rs = rs1 ++ None :: rs2
             ∧ List.length rs1 = List.length ps1
             ∧ remove None (Many (ps1 ++ ps2)) o w = (Many (rs1 ++ rs2), o1, w'))
      ∧ (∀ p, get None p w = None → remove None (One p) o w = (One None, o, w))
      ∧ (∀ p c, get None p w = Some c →
           ∃ o2 w2, remove None (One p) o w = (One (Some c), o2, w2)
                    ∧ c ∉ Coll.models (coll w2)).
Proof.
  intros ps o w.
  assert (H1 : wf None w) by (apply wf_check_sound; vm_compute; reflexivity).
  assert (H2 : Forall (own_keys None w) ps)
    by (apply (bool_decide_unpack _); vm_compute; reflexivity).
  exact (conj H1 (conj H2 (remove_passes_over_unresolved_entries None ps o w H1 H2))).
Defined.

Lemma set_own_content_changes_nothing_witness :
  let w := ranked_world in
  wf None w
  ∧ Forall (λ c, nullish (id_of None w c) = false) (Coll.models (coll w))
  ∧ ∃ w',
      set None accept_all (Many (EBag <$> toArray w)) no_options w
        = Ok (Many (SModel <$> Coll.models (coll w))) w'
      ∧ coll w' = coll w
      ∧ log w' = log w
      ∧ same_attrs w w'.
Proof.
  intros w.
  assert (H1 : wf None w) by (apply wf_check_sound; vm_compute; reflexivity).
  assert (H2 : Forall (λ c, nullish (id_of None w c) = false) (Coll.models (coll w))).
  { change (Coll.models (coll w)) with [1; 0].
    repeat (constructor; [vm_compute; reflexivity|]). constructor. }
  exact (conj H1 (conj H2
           (set_own_content_changes_nothing None accept_all w H1 H2))).
Defined.

(** ** Instances of the further properties *)

Lemma at_index_positions_witness :
  let w := ranked_world in
  let i := (-1)%Z in
  Coll.length (coll w) = Z.of_nat (List.length (Coll.models (coll w)))
  ∧ let n := Coll.length (coll w) in
    at_index i w =
      (if decide (0 ≤ i < n)%Z then Coll.models (coll w) !! Z.to_nat i
       else if decide (- n ≤ i < 0)%Z then Coll.models (coll w) !! Z.to_nat (n + i)
       else None)
    ∧ (is_Some (at_index i w) ↔ (- n ≤ i < n)%Z).
Proof.
  intros w i.
  assert (H1 : Coll.length (coll w) = Z.of_nat (List.length (Coll.models (coll w))))
    by (vm_compute; reflexivity).
  exact (conj H1 (at_index_positions i w H1)).
Defined.

Lemma at_index_of_indexOf_witness :
  let w := ranked_world in
  let c := 7 in
  Coll.length (coll w) = Z.of_nat (List.length (Coll.models (coll w)))
  ∧ at_index (indexOf (Coll.models (coll w)) c) w =
      if decide (c ∈ Coll.models (coll w)) then Some c
      else last (Coll.models (coll w)).
Proof.
  intros w c.
  assert (H1 : Coll.length (coll w) = Z.of_nat (List.length (Coll.models (coll w))))
    by (vm_compute; reflexivity).
  exact (conj H1 (at_index_of_indexOf c w H1)).
Defined.

Lemma wf_identifiers_unique_witness :
  let w := ranked_world in
  let v := VNum 2 in
  wf None w
  ∧ nullish v = false
  ∧ pluck (idAttr None) w !! 0 = Some v
  ∧ 0 = 0.
Proof.
  intros w v.
  assert (H1 : wf None w) by (apply wf_check_sound; vm_compute; reflexivity).
  assert (H2 : nullish v = false) by reflexivity.
  assert (H3 : pluck (idAttr None) w !! 0 = Some v) by (vm_compute; reflexivity).
  exact (conj H1 (conj H2 (conj H3
           (wf_identifiers_unique None w 0 0 v H1 H2 H3 H3)))).
Defined.

Lemma get_finds_members_only_witness :
  let w := ranked_world in
  wf None w
  ∧ (∀ c, c ∈ Coll.models (coll w) →
          get None (PModel c) w = Some c
          ∧ get None (PVal (VStr (cid_key c))) w = Some c
          ∧ (nullish (id_of None w c) = false →
             get None (PVal (id_of None w c)) w = Some c
             ∧ ∀ b, modelId None b = id_of None w c → get None (PBag b) w = Some c))
  ∧ (∀ p c, own_keys None w p → get None p w = Some c → c ∈ Coll.models (coll w)).
Proof.
  intros w.
  assert (H1 : wf None w) by (apply wf_check_sound; vm_compute; reflexivity).
  exact (conj H1 (get_finds_members_only None w H1)).
Defined.

Lemma sort_keeps_wf_witness :
  let w := ranked_world in
  let o := no_options in
  wf None w
  ∧ ∃ w', sort o w = Ok () w'
          ∧ wf None w'
          ∧ Coll.models (coll w') ≡ₚ Coll.models (coll w)
          ∧ (∀ p, get None p w' = get None p w)
          ∧ log w' = log w ++ [Notification OnCollection "sort" None None o].
Proof.
  intros w o.
  assert (H1 : wf None w) by (apply wf_check_sound; vm_compute; reflexivity).
  exact (conj H1 (sort_keeps_wf None o w H1)).
Defined.

Lemma silent_calls_emit_only_invalid_witness :
  let w := ranked_world in
  let o := with_silent (Some true) no_options in
  truthy (o_silent o) = true
  ∧ (∀ models, ∃ l, log (out_world (set None rank_not_negative models o w)) = log w ++ l
                    ∧ Forall (named ["invalid"]) l)
  ∧ (∀ models, ∃ l, log (out_world (add None rank_not_negative models o w)) = log w ++ l
                    ∧ Forall (named ["invalid"]) l)
  ∧ (∀ models, log (remove None models o w).2 = log w)
  ∧ log (out_world (sort o w)) = log w.
Proof.
  intros w o.
  assert (H1 : truthy (o_silent o) = true) by reflexivity.
  exact (conj H1 (silent_calls_emit_only_invalid None rank_not_negative o w H1)).
Defined.



Lemma changing_identifier_rekeys_witness :
  let w := ranked_world in
  let c := 0 in
  let attrs : bag := {["id" := VNum 7]} in
  let o := no_options in
  wf None w
  ∧ c ∈ Coll.models (coll w)
  ∧ listening (get_model w c) = true
  ∧ truthy (o_silent o) = false
  ∧ modelId None attrs = VNum 7
  ∧ Coll._byId (coll w) !! pretty 7%Z = None
  ∧ (nullish (id_of None w c) = true ∨ ∃ z, id_of None w c = VNum z)
  ∧ let w' := model_set None c attrs o w in
    wf None w'
    ∧ id_of None w' c = VNum 7
    ∧ get None (PVal (VNum 7)) w' = Some c
    ∧ (∀ z, id_of None w c = VNum z → get None (PVal (VNum z)) w' = None)
    ∧ Coll.models (coll w') = Coll.models (coll w)
    ∧ log w' = log w ++ [Notification (OnModel c) "change" (Some c) None o;
                         Notification OnCollection "change" (Some c) None o].
Proof.
  intros w c attrs o.
  assert (H1 : wf None w) by (apply wf_check_sound; vm_compute; reflexivity).
  assert (H2 : c ∈ Coll.models (coll w)) by (vm_compute; right; left).
  assert (H3 : listening (get_model w c) = true) by (vm_compute; reflexivity).
  assert (H4 : truthy (o_silent o) = false) by reflexivity.
  assert (H5 : modelId None attrs = VNum 7) by (vm_compute; reflexivity).
  assert (H6 : Coll._byId (coll w) !! pretty 7%Z = None) by (vm_compute; reflexivity).
  assert (H7 : nullish (id_of None w c) = true ∨ ∃ z, id_of None w c = VNum z)
    by (right; exists 1%Z; vm_compute; reflexivity).
  exact (conj H1 (conj H2 (conj H3 (conj H4 (conj H5 (conj H6 (conj H7
           (changing_identifier_rekeys None accept_all c attrs 7 o w H1 H2 H3 H4 H5 H6 H7)))))))).
Defined.

Lemma add_plain_batch_witness :
  let w := ranked_world in
  let bs : list bag := [{["id" := VNum 3; "rank" := VNum 2]}; {["rank" := VNum 5]}] in
  let o := no_options in
  wf None w
  ∧ Forall (λ b, plain None b = true ∧ accept_all b = None) bs
  ∧ NoDup (omap (num_id None) bs)
  ∧ (∀ z, z ∈ omap (num_id None) bs → get None (PVal (VNum z)) w = None)
  ∧ (sortable (set_defaults (add_options o)) w = true → needs_sortBy w = false)
  ∧ let news := seq (next_cid w) (List.length bs) in
    ∃ w',
      add None accept_all (Many (EBag <$> bs)) o w = Ok (Many (SModel <$> news)) w'
      ∧ wf None w'
      ∧ Coll.models (coll w') ≡ₚ Coll.models (coll w) ++ news
      ∧ (sortable (set_defaults (add_options o)) w = false → o_at o = None →
         Coll.models (coll w') = Coll.models (coll w) ++ news)
      ∧ (λ c, toJSON (get_model w' c)) <$> news = bs
      ∧ (∀ k b, bs !! k = Some b → nullish (modelId None b) = false →
                get None (PBag b) w' = Some (next_cid w + k)).
Proof.
  intros w bs o.
  assert (H1 : wf None w) by (apply wf_check_sound; vm_compute; reflexivity).
  assert (H2 : Forall (λ b, plain None b = true ∧ accept_all b = None) bs).
  { repeat (constructor; [split; vm_compute; reflexivity|]). constructor. }
  assert (H3 : NoDup (omap (num_id None) bs)).
  { change (omap (num_id None) bs) with [3%Z]. apply NoDup_singleton. }
  assert (H4 : ∀ z, z ∈ omap (num_id None) bs → get None (PVal (VNum z)) w = None).
  { change (omap (num_id None) bs) with [3%Z].
    intros z Hz. apply list_elem_of_singleton in Hz. subst z.
    vm_compute. reflexivity. }
  assert (H5 : sortable (set_defaults (add_options o)) w = true →
               needs_sortBy w = false) by (intros _; vm_compute; reflexivity).
  exact (conj H1 (conj H2 (conj H3 (conj H4 (conj H5
           (add_plain_batch None accept_all bs o w H1 H2 H3 H4 H5)))))).
Defined.

Lemma reset_then_toArray_witness :
  let w := unsaved_world in
  let bs : list bag := [{["id" := VNum 1]}; {["id" := VNum 2; "rank" := VNum 4]}] in
  let o := no_options in
  Forall (λ b, plain None b = true ∧ accept_all b = None) bs
  ∧ NoDup (omap (num_id None) bs)
  ∧ o_at o = None
  ∧ (truthy_comparator (Coll.comparator (coll w)) = None ∨ o_sort o = Some false)
  ∧ ∃ r w',
      reset None accept_all (Many (EBag <$> bs)) o w = Ok r w'
      ∧ r = Many (SModel <$> Coll.models (coll w'))
      ∧ toArray w' = bs
      ∧ Coll.length (coll w') = Z.of_nat (List.length bs)
      ∧ wf None w'.
Proof.
  intros w bs o.
  assert (H1 : Forall (λ b, plain None b = true ∧ accept_all b = None) bs).
  { repeat (constructor; [split; vm_compute; reflexivity|]). constructor. }
  assert (H2 : NoDup (omap (num_id None) bs)).
  { change (omap (num_id None) bs) with [1%Z; 2%Z].
    apply NoDup_cons. split; [|apply NoDup_singleton].
    intros H. apply list_elem_of_singleton in H. discriminate H. }
  assert (H3 : o_at o = None) by reflexivity.
  assert (H4 : truthy_comparator (Coll.comparator (coll w)) = None
               ∨ o_sort o = Some false) by (left; vm_compute; reflexivity).
  exact (conj H1 (conj H2 (conj H3 (conj H4
           (reset_then_toArray None accept_all bs o w H1 H2 H3 H4))))).
Defined.

Lemma construct_then_toArray_witness :
  let w := unsaved_world in
  let bs : list bag := [{["id" := VNum 1]}; {["rank" := VNum 4]}] in
  let cmp : option comparator := None in
  let o := no_options in
  Forall (λ b, plain None b = true ∧ accept_all b = None) bs
  ∧ NoDup (omap (num_id None) bs)
  ∧ o_at o = None
  ∧ (truthy_comparator cmp = None ∨ o_sort o = Some false)
  ∧ (∃ w',
       construct None accept_all (Some (Many (EBag <$> bs))) cmp o w = Ok () w'
       ∧ wf None w'
       ∧ toArray w' = bs
       ∧ Coll.length (coll w') = Z.of_nat (List.length bs)
       ∧ Coll.comparator (coll w') = cmp
       ∧ (o_silent o ≠ Some false → log w' = log w))
  ∧ construct None accept_all None cmp o w
    = Ok () (World (heap w) (next_cid w) (Coll.Make 0 [] ∅ cmp) (log w)).
Proof.
  intros w bs cmp o.
  assert (H1 : Forall (λ b, plain None b = true ∧ accept_all b = None) bs).
  { repeat (constructor; [split; vm_compute; reflexivity|]). constructor. }
  assert (H2 : NoDup (omap (num_id None) bs)).
  { change (omap (num_id None) bs) with [1%Z]. apply NoDup_singleton. }
  assert (H3 : o_at o = None) by reflexivity.
  assert (H4 : truthy_comparator cmp = None ∨ o_sort o = Some false)
    by (left; reflexivity).
  exact (conj H1 (conj H2 (conj H3 (conj H4
           (construct_then_toArray None accept_all bs cmp o w H1 H2 H3 H4))))).
Defined.

Lemma remove_undoes_add_witness :
  let w := unsaved_world in
  let bs : list bag := [{["id" := VNum 1]}; {["rank" := VNum 4]}] in
  let o := no_options in
  let o2 := no_options in
  wf None w
  ∧ Forall (λ b, plain None b = true ∧ accept_all b = None) bs
  ∧ NoDup (omap (num_id None) bs)
  ∧ (∀ z, z ∈ omap (num_id None) bs → get None (PVal (VNum z)) w = None)
  ∧ sortable (set_defaults (add_options o)) w = false
  ∧ o_at o = None
  ∧ let news := seq (next_cid w) (List.length bs) in
    ∃ w' rs o3 w'',
      add None accept_all (Many (EBag <$> bs)) o w = Ok (Many (SModel <$> news)) w'
      ∧ remove None (Many (PModel <$> news)) o2 w' = (Many rs, o3, w'')
      ∧ coll w'' = coll w.
Proof.
  intros w bs o o2.
  assert (H1 : wf None w) by (apply wf_check_sound; vm_compute; reflexivity).
  assert (H2 : Forall (λ b, plain None b = true ∧ accept_all b = None) bs).
  { repeat (constructor; [split; vm_compute; reflexivity|]). constructor. }
  assert (H3 : NoDup (omap (num_id None) bs)).
  { change (omap (num_id None) bs) with [1%Z]. apply NoDup_singleton. }
  assert (H4 : ∀ z, z ∈ omap (num_id None) bs → get None (PVal (VNum z)) w = None).
  { change (omap (num_id None) bs) with [1%Z].
    intros z Hz. apply list_elem_of_singleton in Hz. subst z.
    vm_compute. reflexivity. }
  assert (H5 : sortable (set_defaults (add_options o)) w = false)
    by (vm_compute; reflexivity).
  assert (H6 : o_at o = None) by reflexivity.
  exact (conj H1 (conj H2 (conj H3 (conj H4 (conj H5 (conj H6
           (remove_undoes_add None accept_all bs o o2 w H1 H2 H3 H4 H5 H6))))))).
Defined.

(** A model with a url and the attributes [{id: 1}], and the request a
    "create" makes for it. *)
Definition sync_target : Sync.target :=
  Sync.Target (Some "/api/models") None (Sync.PObject {["id" := VNum 1]}).

Definition sync_options : Sync.options :=
  Sync.Options None None None None None None None.

Definition create_request : Sync.request :=
  Sync.Request (Some "POST") "/api/models" None None ∅
    (<["content-type" := "application/json"]>
       {[ "accept" := "application/json, text/plain, */*" ]})
    (Some (Sync.PObject {["id" := VNum 1]})).

Definition create_options : Sync.options :=
  Sync.Options (Some "POST") None None None None None None.

Lemma sync_body_witness :
  let crud := Sync.CRUD_MAP in
  let op := "create" in
  let model := Some sync_target in
  let o := sync_options in
  let r := create_request in
  Sync.sync crud op model o = Sync.Sent r create_options
  ∧ (is_Some (Sync.r_data r) ↔
       is_Some model ∧ Sync.no_data o = true
       ∧ ∃ m, crud !! op = Some m ∧ m ∈ ["POST"; "PUT"; "PATCH"])
  ∧ (∀ t p, model = Some t → Sync.r_data r = Some p →
            p = match Sync.attrs o with
                | Some a => Sync.PObject a
                | None => Sync.t_json t
                end)
  ∧ (Sync.r_headers r !! "content-type"
     = match Sync.r_data r with Some _ => Some "application/json" | None => None end)
  ∧ Sync.r_headers r !! "accept" = Some "application/json, text/plain, */*"
  ∧ (∀ v, Sync.data o = Some v → nullish v = false → Sync.r_data r = None).
Proof.
  intros crud op model o r.
  assert (H1 : Sync.sync crud op model o = Sync.Sent r create_options)
    by (vm_compute; reflexivity).
  exact (conj H1 (sync_body crud op model o r create_options H1)).
Defined.

Lemma sync_method_sticks_witness :
  let crud := Sync.CRUD_MAP in
  let op := "create" in
  let model := Some sync_target in
  let o := sync_options in
  let r := create_request in
  let o' := create_options in
  Sync.sync crud op model o = Sync.Sent r o'
  ∧ Sync.r_method r = Sync.js_or (Sync.method o) (crud !! op)
  ∧ Sync.method o' = Sync.r_method r
  ∧ (∀ s crud2 op2 model2 r2 o2,
       Sync.r_method r = Some s → s ≠ EmptyString →
       Sync.sync crud2 op2 model2 o' = Sync.Sent r2 o2 →
       Sync.r_method r2 = Some s).
Proof.
  intros crud op model o r o'.
  assert (H1 : Sync.sync crud op model o = Sync.Sent r o')
    by (vm_compute; reflexivity).
  exact (conj H1 (sync_method_sticks crud op model o r o' H1)).
Defined.

Lemma remapped_operation_is_used_witness :
  let crud := Sync.CRUD_MAP in
  let op := "read" in
  let meth := "POST" in
  let model := Some sync_target in
  let o := sync_options in
  let r := create_request in
  let o' := create_options in
  (Sync.method o = None ∨ Sync.method o = Some EmptyString)
  ∧ meth ≠ EmptyString
  ∧ Sync.sync (Sync.setOperation op meth crud) op model o = Sync.Sent r o'
  ∧ match crud !! op with
    | Some _ =>
        Sync.r_method r = Some meth
        ∧ (is_Some (Sync.r_data r) ↔
             is_Some model ∧ Sync.no_data o = true
             ∧ meth ∈ ["POST"; "PUT"; "PATCH"])
    | None => Sync.sync crud op model o = Sync.Sent r o'
    end.
Proof.
  intros crud op meth model o r o'.
  assert (H1 : Sync.method o = None ∨ Sync.method o = Some EmptyString)
    by (left; reflexivity).
  assert (H2 : meth ≠ EmptyString) by discriminate.
  assert (H3 : Sync.sync (Sync.setOperation op meth crud) op model o = Sync.Sent r o')
    by (vm_compute; reflexivity).
  exact (conj H1 (conj H2 (conj H3
           (remapped_operation_is_used crud op meth model o r o' H1 H2 H3)))).
Defined.

(** A collection without comparator that holds the records [{id: 1}] and
    [{id: 2}], and the world once the first of the records of
    [ranked_world] was removed from it. *)
Definition listed_world : world :=
  out_world (add None accept_all
                 (Many [EBag {["id" := VNum 1]}; EBag {["id" := VNum 2]}])
                 no_options (empty_world None)).

Definition detached_world : world :=
  (remove None (One (PModel 0)) no_options ranked_world).2.

Lemma remove_reports_position_witness :
  let w := ranked_world in
  let p := PVal (VNum 2) in
  let c := 1 in
  let o := no_options in
  wf None w
  ∧ get None p w = Some c
  ∧ ∃ i w',
      at_index i w = Some c
      ∧ remove None (One p) o w
        = (One (Some c), if truthy (o_silent o) then o else with_index i o, w')
      ∧ log w' =
          log w ++
          (if truthy (o_silent o) then []
           else Notification (OnModel c) "remove" (Some c) None (with_index i o)
                :: (if listening (get_model w c)
                    then [Notification OnCollection "remove" (Some c) None
                            (with_index i o)]
                    else [])).
Proof.
  intros w p c o.
  assert (H1 : wf None w) by (apply wf_check_sound; vm_compute; reflexivity).
  assert (H2 : get None p w = Some c) by (vm_compute; reflexivity).
  exact (conj H1 (conj H2 (remove_reports_position None p c o w H1 H2))).
Defined.

Lemma add_of_members_changes_nothing_witness :
  let w := ranked_world in
  let es := [EBag {["id" := VNum 1]}; EModel 1] in
  let Xs := [0; 1] in
  let o := no_options in
  o_merge o ≠ Some true
  ∧ Forall2 (λ e X, get None (probe_of e) w = Some X) es Xs
  ∧ add None accept_all (Many es) o w = Ok (Many (SModel <$> Xs)) w.
Proof.
  intros w es Xs o.
  assert (H1 : o_merge o ≠ Some true) by discriminate.
  assert (H2 : Forall2 (λ e X, get None (probe_of e) w = Some X) es Xs).
  { repeat (constructor; [vm_compute; reflexivity|]). constructor. }
  exact (conj H1 (conj H2
           (add_of_members_changes_nothing None accept_all es Xs o w H1 H2))).
Defined.

Lemma add_model_object_witness :
  let w := detached_world in
  let c := 0 in
  let o := no_options in
  wf None w
  ∧ c < next_cid w
  ∧ is_Some (heap w !! c)
  ∧ get None (PModel c) w = None
  ∧ (nullish (id_of None w c) = true ∨ ∃ z : Z, id_of None w c = VNum z)
  ∧ (sortable (set_defaults (add_options o)) w = true → needs_sortBy w = false)
  ∧ ∃ w',
      add None accept_all (One (EModel c)) o w = Ok (One (SModel c)) w'
      ∧ wf None w'
      ∧ Coll.models (coll w') ≡ₚ Coll.models (coll w) ++ [c]
      ∧ next_cid w' = next_cid w
      ∧ get None (PModel c) w' = Some c
      ∧ attributes (get_model w' c) = attributes (get_model w c)
      ∧ listening (get_model w' c) = true
      ∧ collection (get_model w' c)
        = (if decide (collection (get_model w c) = NoOwner) then ThisCollection
           else collection (get_model w c)).
Proof.
  intros w c o.
  assert (H1 : wf None w) by (apply wf_check_sound; vm_compute; reflexivity).
  assert (H2 : c < next_cid w) by (vm_compute; lia).
  assert (H3 : is_Some (heap w !! c)) by (vm_compute; eexists; reflexivity).
  assert (H4 : get None (PModel c) w = None) by (vm_compute; reflexivity).
  assert (H5 : nullish (id_of None w c) = true ∨ ∃ z : Z, id_of None w c = VNum z)
    by (right; exists 1%Z; vm_compute; reflexivity).
  assert (H6 : sortable (set_defaults (add_options o)) w = true →
               needs_sortBy w = false) by (intros _; vm_compute; reflexivity).
  exact (conj H1 (conj H2 (conj H3 (conj H4 (conj H5 (conj H6
           (add_model_object None accept_all c o w H1 H2 H3 H4 H5 H6))))))).
Defined.

Lemma set_reconciles_witness :
  let w := listed_world in
  let bs : list bag := [{["id" := VNum 2; "rank" := VNum 5]}; {["id" := VNum 3]}] in
  let o := no_options in
  wf None w
  ∧ o_add o ≠ Some false ∧ o_remove o ≠ Some false ∧ o_merge o ≠ Some false
  ∧ o_at o = None
  ∧ sortable (set_defaults o) w = false
  ∧ Forall (λ b, plain None b = true ∧ accept_all b = None
                 ∧ is_Some (num_id None b)) bs
  ∧ NoDup (omap (num_id None) bs)
  ∧ ∃ w',
      set None accept_all (Many (EBag <$> bs)) o w
        = Ok (Many (SModel <$> Coll.models (coll w'))) w'
      ∧ wf None w'
      ∧ Forall2 (λ c b, b ⊆ attributes (get_model w' c)) (Coll.models (coll w')) bs
      ∧ pluck (idAttr None) w' = modelId None <$> bs
      ∧ Coll.length (coll w') = Z.of_nat (List.length bs)
      ∧ (∀ c (z : Z), c ∈ Coll.models (coll w) → id_of None w c = VNum z →
                      z ∈ omap (num_id None) bs → c ∈ Coll.models (coll w')).
Proof.
  intros w bs o.
  assert (H1 : wf None w) by (apply wf_check_sound; vm_compute; reflexivity).
  assert (H2 : o_add o ≠ Some false) by discriminate.
  assert (H3 : o_remove o ≠ Some false) by discriminate.
  assert (H4 : o_merge o ≠ Some false) by discriminate.
  assert (H5 : o_at o = None) by reflexivity.
  assert (H6 : sortable (set_defaults o) w = false) by (vm_compute; reflexivity).
  assert (H7 : Forall (λ b, plain None b = true ∧ accept_all b = None
                            ∧ is_Some (num_id None b)) bs).
  { repeat (constructor;
            [split; [vm_compute; reflexivity|split; [reflexivity|]];
             vm_compute; eexists; reflexivity|]).
    constructor. }
  assert (H8 : NoDup (omap (num_id None) bs)).
  { change (omap (num_id None) bs) with [2%Z; 3%Z].
    apply NoDup_cons. split; [|apply NoDup_singleton].
    intros H. apply list_elem_of_singleton in H. discriminate H. }
  exact (conj H1 (conj H2 (conj H3 (conj H4 (conj H5 (conj H6 (conj H7 (conj H8
           (set_reconciles None accept_all bs o w H1 H2 H3 H4 H5 H6 H7 H8))))))))).
Defined.

Lemma reset_severs_previous_members_witness :
  let w := ranked_world in
  let bs : list bag := [{["id" := VNum 5]}] in
  let o := no_options in
  let c := 0 in
  let r := reset None accept_all (Many (EBag <$> bs)) o w in
  let w' := out_world r in
  wf None w
  ∧ Forall (λ b, plain None b = true ∧ accept_all b = None) bs
  ∧ NoDup (omap (num_id None) bs)
  ∧ c ∈ Coll.models (coll w)
  ∧ (c ∉ Coll.models (coll w'))
  ∧ collection (get_model w' c) ≠ ThisCollection
  ∧ listening (get_model w' c) = false
  ∧ (∀ ev o2, log (trigger_model None ev c o2 w')
              = log w' ++ [Notification (OnModel c) ev (Some c) None o2])
  ∧ (needs_sortBy w = false → ∃ res, r = Ok res w').
Proof.
  intros w bs o c r w'.
  assert (H1 : wf None w) by (apply wf_check_sound; vm_compute; reflexivity).
  assert (H2 : Forall (λ b, plain None b = true ∧ accept_all b = None) bs).
  { repeat (constructor; [split; vm_compute; reflexivity|]). constructor. }
  assert (H3 : NoDup (omap (num_id None) bs)).
  { change (omap (num_id None) bs) with [5%Z]. apply NoDup_singleton. }
  assert (H4 : c ∈ Coll.models (coll w)) by (vm_compute; right; left).
  exact (conj H1 (conj H2 (conj H3 (conj H4
           (reset_severs_previous_members None accept_all bs o w c H1 H2 H3 H4))))).
Defined.

Lemma mixins_agree_with_length_witness :
  let w := ranked_world in
  Coll.length (coll w) = Z.of_nat (List.length (Coll.models (coll w)))
  ∧ Mixin.size w = Coll.length (coll w)
  ∧ Mixin.first w = at_index 0 w
  ∧ Mixin.last w = at_index (-1) w
  ∧ (Mixin.isEmpty w = true ↔ Coll.length (coll w) = 0%Z).
Proof.
  intros w.
  assert (H1 : Coll.length (coll w) = Z.of_nat (List.length (Coll.models (coll w))))
    by (vm_compute; reflexivity).
  exact (conj H1 (mixins_agree_with_length w H1)).
Defined.

Lemma duplicate_identifier_in_batch_is_one_record_witness :
  let bs : list bag := [{["id" := VNum 7]}; {["id" := VNum 1]}; {["id" := VNum 7]};
                        {["id" := VNum 1]}] in
  let o := no_options in
  let w := ranked_world in
  let r := set None accept_all (Many (EBag <$> bs)) o w in
  let w' := out_world r in
  wf None w
  ∧ o_add o ≠ Some false
  ∧ Forall (λ b, plain None b = true ∧ accept_all b = None) bs
  ∧ ∃ rs,
      List.length rs = List.length bs
      ∧ (r = Ok (Many (SModel <$> rs)) w'
         ∨ (r = Throw (TypeError "this.sortBy is not a function") w'
            ∧ needs_sortBy w = true ∧ sortable (set_defaults o) w = true))
      ∧ ((sortable (set_defaults o) w = true → needs_sortBy w = false) →
         r = Ok (Many (SModel <$> rs)) w')
      ∧ (∀ k b z, bs !! k = Some b → num_id None b = Some z →
           ∃ c, rs !! k = Some c
                ∧ filter (λ m, to_key (id_of None w' m) = pretty z)
                         (Coll.models (coll w')) = [c]
                ∧ (∀ j b', bs !! j = Some b' → num_id None b' = Some z →
                           rs !! j = Some c))
      ∧ (o_remove o ≠ Some false → ∀ c, c ∈ Coll.models (coll w') → c ∈ rs).
Proof.
  intros bs o w r w'.
  assert (H1 : wf None w) by (apply wf_check_sound; vm_compute; reflexivity).
  assert (H2 : o_add o ≠ Some false) by discriminate.
  assert (H3 : Forall (λ b, plain None b = true ∧ accept_all b = None) bs).
  { repeat (constructor; [split; vm_compute; reflexivity|]). constructor. }
  exact (conj H1 (conj H2 (conj H3
           (duplicate_identifier_in_batch_is_one_record None accept_all bs o w
              H1 H2 H3)))).
Defined.

Lemma unsaved_records_are_never_collapsed_witness :
  let b : bag := {["rank" := VNum 9]} in
  let bs : list bag := [b; {["id" := VNum 1]}; b] in
  let o := no_options in
  let w := listed_world in
  wf None w
  ∧ o_add o ≠ Some false
  ∧ Forall (λ b, plain None b = true ∧ accept_all b = None) bs
  ∧ plain None b = true
  ∧ nullish (modelId None b) = true
  ∧ accept_all b = None
  ∧ (let r := set None accept_all (Many (EBag <$> bs)) o w in
     let w' := out_world r in
     ∃ rs,
       List.length rs = List.length bs
       ∧ (r = Ok (Many (SModel <$> rs)) w'
          ∨ (r = Throw (TypeError "this.sortBy is not a function") w'
             ∧ needs_sortBy w = true ∧ sortable (set_defaults o) w = true))
       ∧ ((sortable (set_defaults o) w = true → needs_sortBy w = false) →
          r = Ok (Many (SModel <$> rs)) w')
       ∧ (∀ k b, bs !! k = Some b → nullish (modelId None b) = true →
            ∃ c, rs !! k = Some c
                 ∧ (c ∉ Coll.models (coll w))
                 ∧ next_cid w ≤ c
                 ∧ c ∈ Coll.models (coll w')
                 ∧ Coll._byId (coll w') !! cid_key c = Some c
                 ∧ attributes (get_model w' c) = b
                 ∧ (∀ j, j ≠ k → rs !! j ≠ Some c)))
  ∧ (let r1 := add None accept_all (One (EBag b)) o w in
     let w1 := out_world r1 in
     let r2 := add None accept_all (One (EBag b)) o w1 in
     let w2 := out_world r2 in
     ∃ c1 c2,
       c1 ≠ c2
       ∧ (c1 ∉ Coll.models (coll w)) ∧ (c2 ∉ Coll.models (coll w1))
       ∧ c1 ∈ Coll.models (coll w1)
       ∧ Coll.models (coll w2) ≡ₚ c2 :: c1 :: Coll.models (coll w)
       ∧ Coll.length (coll w2) = (Coll.length (coll w) + 2)%Z
       ∧ Coll._byId (coll w2) !! cid_key c1 = Some c1
       ∧ Coll._byId (coll w2) !! cid_key c2 = Some c2
       ∧ attributes (get_model w2 c1) = b
       ∧ attributes (get_model w2 c2) = b
       ∧ ((sortable (set_defaults (add_options o)) w = true → needs_sortBy w = false) →
          r1 = Ok (One (SModel c1)) w1)
       ∧ ((sortable (set_defaults (add_options o)) w1 = true →
           needs_sortBy w1 = false) →
          r2 = Ok (One (SModel c2)) w2)).
Proof.
  intros b bs o w.
  assert (H1 : wf None w) by (apply wf_check_sound; vm_compute; reflexivity).
  assert (H2 : o_add o ≠ Some false) by discriminate.
  assert (H3 : Forall (λ b, plain None b = true ∧ accept_all b = None) bs).
  { repeat (constructor; [split; vm_compute; reflexivity|]). constructor. }
  assert (H4 : plain None b = true) by (vm_compute; reflexivity).
  assert (H5 : nullish (modelId None b) = true) by (vm_compute; reflexivity).
  assert (H6 : accept_all b = None) by reflexivity.
  exact (conj H1 (conj H2 (conj H3 (conj H4 (conj H5 (conj H6
           (unsaved_records_are_never_collapsed None accept_all bs b b o o o w
              H1 H2 H3 H4 H5 H6 H4 H5 H6))))))).
Defined.


Lemma add_only_adds_witness :
  let bs : list bag := [{["id" := VNum 1; "rank" := VNum 0]}; {["rank" := VNum 4]}] in
  let o := no_options in
  let w := field_world in
  let r := add None accept_all (Many (EBag <$> bs)) o w in
  let w' := out_world r in
  Forall (λ b, plain None b = true) bs
  ∧ ∃ added l,
      Coll.models (coll w') ≡ₚ Coll.models (coll w) ++ added
      ∧ (sortable (set_defaults (add_options o)) w = false → o_at o = None →
         Coll.models (coll w') = Coll.models (coll w) ++ added)
      ∧ Coll.length (coll w') =
          (Coll.length (coll w) + Z.of_nat (List.length added))%Z
      ∧ (Coll.length (coll w) = Z.of_nat (List.length (Coll.models (coll w))) →
         Coll.length (coll w') = Z.of_nat (List.length (Coll.models (coll w'))))
      ∧ log w' = log w ++ l
      ∧ Forall (named ["change"; "invalid"; "add"; "sort"]) l
      ∧ ((sortable (set_defaults (add_options o)) w = true → needs_sortBy w = false) →
         ∃ res, r = Ok res w').
Proof.
  intros bs o w r w'.
  assert (H1 : Forall (λ b, plain None b = true) bs).
  { repeat (constructor; [vm_compute; reflexivity|]). constructor. }
  exact (conj H1 (add_only_adds None accept_all bs o w H1)).
Defined.

Lemma reset_replaces_everything_witness :
  let bs : list bag := [{["id" := VNum 5; "rank" := VNum 2]}; {["rank" := VNum 4]}] in
  let o := no_options in
  let w := ranked_world in
  Forall (λ b, plain None b = true) bs
  ∧ needs_sortBy w = false
  ∧ ∃ r w' l,
      reset None accept_all (Many (EBag <$> bs)) o w = Ok r w'
      ∧ Coll.length (coll w') = Z.of_nat (List.length (Coll.models (coll w')))
      ∧ Coll.comparator (coll w') = Coll.comparator (coll w)
      ∧ (bs = [] → Coll.models (coll w') = [] ∧ Coll._byId (coll w') = ∅)
      ∧ log w' =
          log w ++ l
          ++ (if truthy (o_silent o) then []
              else [Notification OnCollection "reset" None None
                      (with_previousModels (Coll.models (coll w)) o)])
      ∧ Forall (named ["change"; "invalid"; "add"; "sort"]) l
      ∧ (o_silent o ≠ Some false → Forall (named ["invalid"]) l).
Proof.
  intros bs o w.
  assert (H1 : Forall (λ b, plain None b = true) bs).
  { repeat (constructor; [vm_compute; reflexivity|]). constructor. }
  assert (H2 : needs_sortBy w = false) by (vm_compute; reflexivity).
  exact (conj H1 (conj H2 (reset_replaces_everything None accept_all bs o w H1 H2))).
Defined.

Lemma merge_only_set_keeps_membership_witness :
  let bs : list bag := [{["id" := VNum 1; "rank" := VNum 0]}; {["rank" := VNum 4]}] in
  let m := Some true in
  let o := no_options in
  let w := ranked_world in
  let o0 := with_flags (Some false) (Some false) m o in
  let r := set None accept_all (Many (EBag <$> bs)) o0 w in
  let w' := out_world r in
  Forall (λ b, plain None b = true) bs
  ∧ ∃ l,
      Coll.models (coll w') ≡ₚ Coll.models (coll w)
      ∧ (sortable (set_defaults o0) w = false →
         Coll.models (coll w') = Coll.models (coll w))
      ∧ Coll.length (coll w') = Coll.length (coll w)
      ∧ next_cid w' = next_cid w
      ∧ log w' = log w ++ l
      ∧ Forall (named ["change"; "sort"]) l
      ∧ ((sortable (set_defaults o0) w = true → needs_sortBy w = false) →
         ∃ res, r = Ok res w').
Proof.
  intros bs m o w o0 r w'.
  assert (H1 : Forall (λ b, plain None b = true) bs).
  { repeat (constructor; [vm_compute; reflexivity|]). constructor. }
  exact (conj H1 (merge_only_set_keeps_membership None accept_all bs m o w H1)).
Defined.
